(** * SQLMINT: a shallow embedding of the SQL pipeline

    The development follows the layout of the C++ sources:

    - [Cpp]              the fragments of the C++ standard library the code
                         relies on (exceptions, [std::stoi], [operator<<] on
                         integers, [std::getline], the [<cctype>] predicates);
    - [Types]            [common/types.h];
    - [Tokenizer]        [parser/tokenizer.cpp];
    - [Parser]           [parser/parser.cpp];
    - [MetadataManager]  [storage/metadata.cpp];
    - [TableStorage]     [storage/table.cpp];
    - [QueryExecutor]    [executor/query_executor.cpp];
    - [SQLShell]         [main.cpp].

    Definitions come first, the theorems about them follow. *)

From Stdlib Require Import ZArith String Ascii DecimalString DecimalZ DecimalPos.
From stdpp Require Import gmap strings list.

Local Open Scope string_scope.
Local Open Scope list_scope.
Local Open Scope Z_scope.

(* ===================================================================== *)
(** ** The C++ runtime the sources use *)
(* ===================================================================== *)

Module Cpp.

(** Exceptions.  All of them derive from [std::exception]; [ParseError] is
    the parser's own subclass of [std::runtime_error]. *)
Inductive exn : Type :=
| runtime_error (what : string)
| ParseError (what : string)
| invalid_argument (what : string)
| out_of_range (what : string)
| bad_variant_access.

(** A computation that returns or throws. *)
Inductive result (A : Type) : Type :=
| Ok (a : A)
| Throw (e : exn).
Arguments Ok {A} a.
Arguments Throw {A} e.

Definition bind {A B : Type} (m : result A) (k : A -> result B) : result B :=
  match m with
  | Ok a => k a
  | Throw e => Throw e
  end.

Definition is_ok {A : Type} (m : result A) : bool :=
  match m with Ok _ => true | Throw _ => false end.

Definition throws {A : Type} (m : result A) : Prop :=
  exists e, m = Throw e.

Definition is_parse_error {A : Type} (m : result A) : Prop :=
  exists msg, m = Throw (ParseError msg).

(** Characters are bytes. *)
Definition NUL : ascii := "000"%char.
Definition TAB : ascii := "009"%char.
Definition LF : ascii := "010"%char.
Definition CR : ascii := "013"%char.
Definition BACKSLASH : ascii := "\"%char.
Definition QUOTE : ascii := "'"%char.

Definition code (c : ascii) : nat := nat_of_ascii c.

(** [<cctype>] in the "C" locale; bytes above 127 belong to no class. *)
Definition isdigit (c : ascii) : bool :=
  (48 <=? code c)%nat && (code c <=? 57)%nat.

Definition isupper (c : ascii) : bool :=
  (65 <=? code c)%nat && (code c <=? 90)%nat.

Definition islower (c : ascii) : bool :=
  (97 <=? code c)%nat && (code c <=? 122)%nat.

Definition isalpha (c : ascii) : bool := isupper c || islower c.

Definition isalnum (c : ascii) : bool := isalpha c || isdigit c.

Definition isspace (c : ascii) : bool :=
  ((9 <=? code c)%nat && (code c <=? 13)%nat) || (code c =? 32)%nat.

Definition toupper (c : ascii) : ascii :=
  if islower c then ascii_of_nat (code c - 32) else c.

Definition tolower (c : ascii) : ascii :=
  if isupper c then ascii_of_nat (code c + 32) else c.

Fixpoint map_string (f : ascii -> ascii) (s : string) : string :=
  match s with
  | EmptyString => EmptyString
  | String c r => String (f c) (map_string f r)
  end.

Definition str1 (c : ascii) : string := String c EmptyString.

(** 32-bit [int]. *)
Definition INT_MIN : Z := -2147483648.
Definition INT_MAX : Z := 2147483647.

Definition in_int_range (z : Z) : bool := (INT_MIN <=? z) && (z <=? INT_MAX).

(** [static_cast<int>] of an unsigned quantity: reduction modulo 2^32 into
    the signed range. *)
Definition to_int (z : Z) : Z := (z + 2147483648) mod 4294967296 - 2147483648.

(** [operator<<(int)], [operator<<(size_t)] and [std::to_string]: the decimal
    numeral, with a leading minus for negatives. *)
Definition to_string (z : Z) : string := NilZero.string_of_int (Z.to_int z).

(** [std::stoi(s)] in base 10: leading white space is skipped, one optional
    sign is read, then the longest run of digits; what follows is ignored.
    No digit at all is [std::invalid_argument], a value outside [int] is
    [std::out_of_range]. *)
Fixpoint skip_spaces (s : string) : string :=
  match s with
  | EmptyString => EmptyString
  | String c r => if isspace c then skip_spaces r else s
  end.

Definition digit_value (c : ascii) : Z := Z.of_nat (code c - 48).

Fixpoint read_digits (s : string) (acc : Z) : Z :=
  match s with
  | EmptyString => acc
  | String c r => if isdigit c then read_digits r (acc * 10 + digit_value c) else acc
  end.

Definition starts_with_digit (s : string) : bool :=
  match s with
  | EmptyString => false
  | String c _ => isdigit c
  end.

Definition stoi (s : string) : result Z :=
  let s1 := skip_spaces s in
  let '(negative, s2) :=
    match s1 with
    | String c r =>
        if (c =? "-")%char then (true, r)
        else if (c =? "+")%char then (false, r)
        else (false, s1)
    | EmptyString => (false, s1)
    end in
  if starts_with_digit s2 then
    let magnitude := read_digits s2 0 in
    let v := if negative then - magnitude else magnitude in
    if in_int_range v then Ok v else Throw (out_of_range "stoi")
  else Throw (invalid_argument "stoi").

(** [std::getline(stream, str, delim)] on the unread part of a stream: the
    characters before the first [delim] are extracted and the delimiter is
    dropped.  The call fails when nothing is left to read. *)
Fixpoint split_at (delim : ascii) (s : string) : string * string :=
  match s with
  | EmptyString => (EmptyString, EmptyString)
  | String c r =>
      if (c =? delim)%char then (EmptyString, r)
      else let '(a, b) := split_at delim r in (String c a, b)
  end.

Definition getline (delim : ascii) (s : string) : option (string * string) :=
  match s with
  | EmptyString => None
  | _ => Some (split_at delim s)
  end.

(** [getline] whose status is not inspected: the target string was freshly
    declared, so a failed call leaves it empty. *)
Definition getline_unchecked (delim : ascii) (s : string) : string * string :=
  match getline delim s with
  | Some r => r
  | None => (EmptyString, EmptyString)
  end.

(** All the lines [while (std::getline(file, line))] would deliver. *)
Fixpoint getlines_fuel (fuel : nat) (s : string) : list string :=
  match fuel with
  | O => []
  | S fuel' =>
      match getline LF s with
      | None => []
      | Some (l, r) => l :: getlines_fuel fuel' r
      end
  end.

Definition getlines (s : string) : list string :=
  getlines_fuel (String.length s) s.

(** A file as the code sees it: [std::ifstream] opens it when it has a
    content, [std::ofstream] opens (and truncates) it when it is writable. *)
Record File : Type := mkFile {
  content : option string;
  writable : bool
}.

Definition write_file (f : File) (data : string) : File :=
  {| content := Some data; writable := writable f |}.

End Cpp.
Export Cpp.

Notation "'let*' x ':=' m 'in' k" := (bind m (fun x => k))
  (at level 10, x name, m at level 200, k at level 200,
   format "'[v' 'let*'  x  ':='  m  'in' '/' k ']'").
Notation "'let*' ' p ':=' m 'in' k" := (bind m (fun x => let 'p := x in k))
  (at level 10, p pattern, m at level 200, k at level 200,
   format "'[v' 'let*'  ' p  ':='  m  'in' '/' k ']'").
Notation "'exec' m 'in' k" := (bind m (fun _ : unit => k))
  (at level 10, m at level 200, k at level 200,
   format "'[v' 'exec'  m  'in' '/' k ']'").

(** Member functions that read or update [*this] and may throw: the state
    survives the exception, as the object does. *)
Definition M (S A : Type) : Type := S -> result A * S.

Definition ret {S A : Type} (a : A) : M S A := fun s => (Ok a, s).

Definition throw {S A : Type} (e : exn) : M S A := fun s => (Throw e, s).

Definition mbind {S A B : Type} (m : M S A) (k : A -> M S B) : M S B :=
  fun s =>
    match m s with
    | (Ok a, s') => k a s'
    | (Throw e, s') => (Throw e, s')
    end.

Definition gets {S A : Type} (f : S -> A) : M S A := fun s => (Ok (f s), s).

Definition modify {S : Type} (f : S -> S) : M S unit := fun s => (Ok tt, f s).

Definition lift {S A : Type} (r : result A) : M S A := fun s => (r, s).

Notation "'let+' x ':=' m 'in' k" := (mbind m (fun x => k))
  (at level 10, x name, m at level 200, k at level 200,
   format "'[v' 'let+'  x  ':='  m  'in' '/' k ']'").
Notation "'exec+' m 'in' k" := (mbind m (fun _ => k))
  (at level 10, m at level 200, k at level 200,
   format "'[v' 'exec+'  m  'in' '/' k ']'").

(* ===================================================================== *)
(** ** common/types.h *)
(* ===================================================================== *)

Module TokenType.
Inductive t : Type :=
| IDENTIFIER | INTEGER_LITERAL | STRING_LITERAL | BOOLEAN_LITERAL
| CREATE | DROP | TABLE | INSERT | INTO | SELECT | FROM | WHERE | VALUES
| INTEGER | VARCHAR | BOOLEAN
| PRIMARY | KEY | NOT | NULL_KEYWORD
| EQUALS | NOT_EQUALS | LESS_THAN | GREATER_THAN | LESS_EQUAL | GREATER_EQUAL
| SEMICOLON | COMMA | LEFT_PAREN | RIGHT_PAREN | ASTERISK
| END_OF_FILE | UNKNOWN.

(** The enumerators in declaration order. *)
Definition index (x : t) : nat :=
  match x with
  | IDENTIFIER => 0 | INTEGER_LITERAL => 1 | STRING_LITERAL => 2
  | BOOLEAN_LITERAL => 3 | CREATE => 4 | DROP => 5 | TABLE => 6 | INSERT => 7
  | INTO => 8 | SELECT => 9 | FROM => 10 | WHERE => 11 | VALUES => 12
  | INTEGER => 13 | VARCHAR => 14 | BOOLEAN => 15 | PRIMARY => 16 | KEY => 17
  | NOT => 18 | NULL_KEYWORD => 19 | EQUALS => 20 | NOT_EQUALS => 21
  | LESS_THAN => 22 | GREATER_THAN => 23 | LESS_EQUAL => 24
  | GREATER_EQUAL => 25 | SEMICOLON => 26 | COMMA => 27 | LEFT_PAREN => 28
  | RIGHT_PAREN => 29 | ASTERISK => 30 | END_OF_FILE => 31 | UNKNOWN => 32
  end%nat.

Definition eqb (x y : t) : bool := (index x =? index y)%nat.
End TokenType.

Module DataType.
Inductive t : Type := INTEGER | VARCHAR | BOOLEAN.

Definition eqb (x y : t) : bool :=
  match x, y with
  | INTEGER, INTEGER | VARCHAR, VARCHAR | BOOLEAN, BOOLEAN => true
  | _, _ => false
  end.
End DataType.

Module ConstraintType.
Inductive t : Type := PRIMARY_KEY | NOT_NULL.

Definition eqb (x y : t) : bool :=
  match x, y with
  | PRIMARY_KEY, PRIMARY_KEY | NOT_NULL, NOT_NULL => true
  | _, _ => false
  end.
End ConstraintType.

(** [using Value = std::variant<int, std::string, bool>]. *)
Module Value.
Inductive t : Type :=
| Int (i : Z)
| Str (s : string)
| Bool (b : bool).

(** [std::variant::index()]. *)
Definition index (v : t) : nat :=
  match v with Int _ => 0 | Str _ => 1 | Bool _ => 2 end%nat.

Definition holds_int (v : t) : bool := match v with Int _ => true | _ => false end.
Definition holds_string (v : t) : bool := match v with Str _ => true | _ => false end.
Definition holds_bool (v : t) : bool := match v with Bool _ => true | _ => false end.

(** [std::get<T>] throws [std::bad_variant_access] on the wrong alternative. *)
Definition get_int (v : t) : result Z :=
  match v with Int i => Ok i | _ => Throw bad_variant_access end.
Definition get_string (v : t) : result string :=
  match v with Str s => Ok s | _ => Throw bad_variant_access end.
Definition get_bool (v : t) : result bool :=
  match v with Bool b => Ok b | _ => Throw bad_variant_access end.

(** The relational operators of [std::variant]: two values holding
    different alternatives are ordered by [index()], two values holding the
    same alternative by that alternative's own operator.  None of them
    throws. *)
Definition bool_ltb (a b : bool) : bool := negb a && b.
Definition bool_leb (a b : bool) : bool := negb a || b.

Definition eq (v w : t) : bool :=
  match v, w with
  | Int a, Int b => (a =? b)%Z
  | Str a, Str b => String.eqb a b
  | Bool a, Bool b => Bool.eqb a b
  | _, _ => false
  end.

Definition ne (v w : t) : bool :=
  match v, w with
  | Int a, Int b => negb (a =? b)%Z
  | Str a, Str b => negb (String.eqb a b)
  | Bool a, Bool b => negb (Bool.eqb a b)
  | _, _ => true
  end.

Definition lt (v w : t) : bool :=
  match v, w with
  | Int a, Int b => (a <? b)%Z
  | Str a, Str b => String.ltb a b
  | Bool a, Bool b => bool_ltb a b
  | _, _ => (index v <? index w)%nat
  end.

Definition gt (v w : t) : bool :=
  match v, w with
  | Int a, Int b => (a >? b)%Z
  | Str a, Str b => String.ltb b a
  | Bool a, Bool b => bool_ltb b a
  | _, _ => (index w <? index v)%nat
  end.

Definition le (v w : t) : bool :=
  match v, w with
  | Int a, Int b => (a <=? b)%Z
  | Str a, Str b => String.leb a b
  | Bool a, Bool b => bool_leb a b
  | _, _ => (index v <? index w)%nat
  end.

Definition ge (v w : t) : bool :=
  match v, w with
  | Int a, Int b => (a >=? b)%Z
  | Str a, Str b => String.leb b a
  | Bool a, Bool b => bool_leb b a
  | _, _ => (index w <? index v)%nat
  end.
End Value.

Module Token.
Record t : Type := mk {
  type : TokenType.t;
  value : string;
  line : Z;
  column : Z
}.
End Token.

Module Column.
Record t : Type := mk {
  name : string;
  type : DataType.t;
  varchar_length : Z;   (* Only used for VARCHAR *)
  is_primary_key : bool;
  is_not_null : bool
}.
End Column.

Module TableSchema.
Record t : Type := mk {
  name : string;
  columns : list Column.t
}.
End TableSchema.

Definition Row : Type := list Value.t.

Module WhereCondition.
Record t : Type := mk {
  column_name : string;
  operator_type : TokenType.t;
  value : Value.t
}.
End WhereCondition.

(** The statement hierarchy: one constructor per derived struct, the
    [StatementType] tag being the constructor itself. *)
Inductive Statement : Type :=
| CreateTableStatement (table_name : string) (columns : list Column.t)
| InsertStatement (table_name : string) (values : list Value.t)
| DropTableStatement (table_name : string)
| SelectStatement (table_name : string) (select_all : bool)
                  (where_condition : option WhereCondition.t).

(* ===================================================================== *)
(** ** parser/tokenizer.cpp *)
(* ===================================================================== *)

Module Tokenizer.
Import TokenType.

(** The tokenizer object.  [input] holds the unread part of the text, that
    is the characters from [current_pos] on: the code only ever looks at
    [input[current_pos]] and [input[current_pos + 1]] and compares
    [current_pos] with the length. *)
Record t : Type := mk {
  input : string;
  line : Z;
  column : Z
}.

Definition init (text : string) : t := mk text 1 1.

(** Keywords mapping *)
Definition keywords : gmap string TokenType.t :=
  list_to_map
    [ ("CREATE", CREATE); ("DROP", DROP); ("TABLE", TABLE);
      ("INSERT", INSERT); ("INTO", INTO); ("SELECT", SELECT);
      ("FROM", FROM); ("WHERE", WHERE); ("VALUES", VALUES);
      ("INTEGER", INTEGER); ("VARCHAR", VARCHAR); ("BOOLEAN", BOOLEAN);
      ("PRIMARY", PRIMARY); ("KEY", KEY); ("NOT", NOT);
      ("NULL", NULL_KEYWORD); ("TRUE", BOOLEAN_LITERAL);
      ("FALSE", BOOLEAN_LITERAL) ].

Definition at_end (tk : t) : bool :=
  match input tk with EmptyString => true | _ => false end.

Definition peek (tk : t) : ascii :=
  match input tk with
  | EmptyString => NUL
  | String c _ => c
  end.

(** The character after the current one, when there is one
    ([current_pos + 1 < input.length()]). *)
Definition peek_next (tk : t) : option ascii :=
  match input tk with
  | String _ (String c _) => Some c
  | _ => None
  end.

Definition advance (tk : t) : ascii * t :=
  match input tk with
  | EmptyString => (NUL, tk)
  | String c rest =>
      if (c =? LF)%char then (c, mk rest (line tk + 1) 1)
      else (c, mk rest (line tk) (column tk + 1))
  end.

Definition remaining (tk : t) : nat := String.length (input tk).

Fixpoint skip_whitespace_loop (fuel : nat) (tk : t) : t :=
  match fuel with
  | O => tk
  | S fuel' =>
      if isspace (peek tk) then skip_whitespace_loop fuel' (snd (advance tk))
      else tk
  end.

Definition skip_whitespace (tk : t) : t :=
  skip_whitespace_loop (remaining tk) tk.

Fixpoint skip_comment_loop (fuel : nat) (tk : t) : t :=
  match fuel with
  | O => tk
  | S fuel' =>
      if negb (peek tk =? LF)%char && negb (peek tk =? NUL)%char
      then skip_comment_loop fuel' (snd (advance tk))
      else tk
  end.

Definition skip_comment (tk : t) : t :=
  if (peek tk =? "-")%char &&
     match peek_next tk with Some c => (c =? "-")%char | None => false end
  then skip_comment_loop (remaining tk) tk   (* Skip until end of line *)
  else tk.

Definition is_alpha (c : ascii) : bool := isalpha c || (c =? "_")%char.
Definition is_digit (c : ascii) : bool := isdigit c.
Definition is_alnum (c : ascii) : bool := isalnum c || (c =? "_")%char.

(** [while (pred(peek())) value += advance();] *)
Fixpoint read_while (pred : ascii -> bool) (fuel : nat) (value : string) (tk : t)
  : string * t :=
  match fuel with
  | O => (value, tk)
  | S fuel' =>
      if pred (peek tk) then
        let '(c, tk') := advance tk in
        read_while pred fuel' (value +:+ str1 c) tk'
      else (value, tk)
  end.

Definition read_identifier (tk : t) : Token.t * t :=
  let start_line := line tk in
  let start_column := column tk in
  let '(value, tk') := read_while is_alnum (remaining tk) EmptyString tk in
  (* Convert to uppercase for keyword comparison *)
  let upper_value := map_string toupper value in
  (* Check if it's a keyword *)
  match keywords !! upper_value with
  | Some ty => (Token.mk ty upper_value start_line start_column, tk')
  | None => (Token.mk IDENTIFIER value start_line start_column, tk')
  end.

Definition read_number (tk : t) : Token.t * t :=
  let start_line := line tk in
  let start_column := column tk in
  let '(value, tk') := read_while is_digit (remaining tk) EmptyString tk in
  (Token.mk INTEGER_LITERAL value start_line start_column, tk').

Definition unescape_char (escaped : ascii) : ascii :=
  if (escaped =? "n")%char then LF
  else if (escaped =? "t")%char then TAB
  else if (escaped =? "r")%char then CR
  else if (escaped =? BACKSLASH)%char then BACKSLASH
  else if (escaped =? QUOTE)%char then QUOTE
  else escaped.

Fixpoint read_string_loop (fuel : nat) (value : string) (tk : t) : string * t :=
  match fuel with
  | O => (value, tk)
  | S fuel' =>
      if negb (peek tk =? QUOTE)%char && negb (peek tk =? NUL)%char then
        if (peek tk =? BACKSLASH)%char then
          let '(_, tk1) := advance tk in   (* Skip escape character *)
          let '(escaped, tk2) := advance tk1 in
          read_string_loop fuel' (value +:+ str1 (unescape_char escaped)) tk2
        else
          let '(c, tk1) := advance tk in
          read_string_loop fuel' (value +:+ str1 c) tk1
      else (value, tk)
  end.

Definition read_string (tk : t) : result (Token.t * t) :=
  let start_line := line tk in
  let start_column := column tk in
  (* Skip opening quote *)
  let '(_, tk0) := advance tk in
  let '(value, tk1) := read_string_loop (remaining tk0) EmptyString tk0 in
  if (peek tk1 =? QUOTE)%char then
    let '(_, tk2) := advance tk1 in   (* Skip closing quote *)
    Ok (Token.mk STRING_LITERAL value start_line start_column, tk2)
  else Throw (runtime_error "Unterminated string literal").

Definition read_operator (tk : t) : Token.t * t :=
  let start_line := line tk in
  let start_column := column tk in
  let '(c, tk1) := advance tk in
  let unknown := (Token.mk UNKNOWN (str1 c) start_line start_column, tk1) in
  if (c =? "=")%char then
    (Token.mk EQUALS "=" start_line start_column, tk1)
  else if (c =? "!")%char then
    if (peek tk1 =? "=")%char then
      (Token.mk NOT_EQUALS "!=" start_line start_column, snd (advance tk1))
    else unknown
  else if (c =? "<")%char then
    if (peek tk1 =? "=")%char then
      (Token.mk LESS_EQUAL "<=" start_line start_column, snd (advance tk1))
    else if (peek tk1 =? ">")%char then
      (Token.mk NOT_EQUALS "<>" start_line start_column, snd (advance tk1))
    else (Token.mk LESS_THAN "<" start_line start_column, tk1)
  else if (c =? ">")%char then
    if (peek tk1 =? "=")%char then
      (Token.mk GREATER_EQUAL ">=" start_line start_column, snd (advance tk1))
    else (Token.mk GREATER_THAN ">" start_line start_column, tk1)
  else unknown.

Definition next_token (tk : t) : result (Token.t * t) :=
  let tk := skip_whitespace tk in
  let tk := skip_comment tk in
  let tk := skip_whitespace tk in
  if at_end tk then
    Ok (Token.mk END_OF_FILE EmptyString (line tk) (column tk), tk)
  else
    let c := peek tk in
    let start_line := line tk in
    let start_column := column tk in
    (* Identifiers and keywords *)
    if is_alpha c then Ok (read_identifier tk)
    (* Numbers *)
    else if is_digit c then Ok (read_number tk)
    (* String literals *)
    else if (c =? QUOTE)%char then read_string tk
    (* Operators *)
    else if (c =? "=")%char || (c =? "!")%char || (c =? "<")%char || (c =? ">")%char
    then Ok (read_operator tk)
    else
      (* Single character tokens *)
      let tk' := snd (advance tk) in
      let ty :=
        if (c =? ";")%char then SEMICOLON
        else if (c =? ",")%char then COMMA
        else if (c =? "(")%char then LEFT_PAREN
        else if (c =? ")")%char then RIGHT_PAREN
        else if (c =? "*")%char then ASTERISK
        else UNKNOWN in
      Ok (Token.mk ty (str1 c) start_line start_column, tk').

(** [while (true) { ... if (token.type == END_OF_FILE) break; }]: every
    token but the last consumes at least one character. *)
Fixpoint tokenize_loop (fuel : nat) (tokens : list Token.t) (tk : t)
  : result (list Token.t) :=
  match fuel with
  | O => Ok tokens
  | S fuel' =>
      let* '(token, tk') := next_token tk in
      let tokens' := tokens ++ [token] in
      if TokenType.eqb (Token.type token) END_OF_FILE then Ok tokens'
      else tokenize_loop fuel' tokens' tk'
  end.

Definition tokenize (text : string) : result (list Token.t) :=
  tokenize_loop (S (String.length text)) [] (init text).

Definition token_type_to_string (ty : TokenType.t) : string :=
  match ty with
  | IDENTIFIER => "IDENTIFIER"
  | INTEGER_LITERAL => "INTEGER_LITERAL"
  | STRING_LITERAL => "STRING_LITERAL"
  | BOOLEAN_LITERAL => "BOOLEAN_LITERAL"
  | CREATE => "CREATE"
  | DROP => "DROP"
  | TABLE => "TABLE"
  | INSERT => "INSERT"
  | INTO => "INTO"
  | SELECT => "SELECT"
  | FROM => "FROM"
  | WHERE => "WHERE"
  | VALUES => "VALUES"
  | INTEGER => "INTEGER"
  | VARCHAR => "VARCHAR"
  | BOOLEAN => "BOOLEAN"
  | PRIMARY => "PRIMARY"
  | KEY => "KEY"
  | NOT => "NOT"
  | NULL_KEYWORD => "NULL"
  | EQUALS => "EQUALS"
  | NOT_EQUALS => "NOT_EQUALS"
  | LESS_THAN => "LESS_THAN"
  | GREATER_THAN => "GREATER_THAN"
  | LESS_EQUAL => "LESS_EQUAL"
  | GREATER_EQUAL => "GREATER_EQUAL"
  | SEMICOLON => "SEMICOLON"
  | COMMA => "COMMA"
  | LEFT_PAREN => "LEFT_PAREN"
  | RIGHT_PAREN => "RIGHT_PAREN"
  | ASTERISK => "ASTERISK"
  | END_OF_FILE => "END_OF_FILE"
  | UNKNOWN => "UNKNOWN"
  end.

Definition is_keyword (word : string) : bool :=
  bool_decide (is_Some (keywords !! map_string toupper word)).

Definition get_keyword_type (word : string) : TokenType.t :=
  match keywords !! map_string toupper word with
  | Some ty => ty
  | None => UNKNOWN
  end.

End Tokenizer.

(* ===================================================================== *)
(** ** parser/parser.cpp *)
(* ===================================================================== *)

Module Parser.
Import TokenType.

Record t : Type := mk {
  tokens : list Token.t;
  current_pos : nat
}.

Definition init (tokens : list Token.t) : t := mk tokens 0.

Definition eof_token : Token.t := Token.mk END_OF_FILE EmptyString 1 1.

Definition peek (p : t) : Token.t :=
  match tokens p !! current_pos p with
  | Some tok => tok
  | None => eof_token
  end.

Definition advance : M t Token.t :=
  fun p =>
    match tokens p !! current_pos p with
    | Some tok => (Ok tok, mk (tokens p) (S (current_pos p)))
    | None => (Ok eof_token, p)
    end.

Definition match_ (type : TokenType.t) : M t bool :=
  let+ tok := gets peek in
  if TokenType.eqb (Token.type tok) type then
    exec+ advance in
    ret true
  else ret false.

Fixpoint match_any (types : list TokenType.t) : M t bool :=
  match types with
  | [] => ret false
  | type :: types' =>
      let+ tok := gets peek in
      if TokenType.eqb (Token.type tok) type then
        exec+ advance in
        ret true
      else match_any types'
  end.

Definition expect (type : TokenType.t) (error_message : string) : M t unit :=
  let+ matched := match_ type in
  if matched then ret tt
  else
    let+ tok := gets peek in
    throw (ParseError (error_message +:+ ", got " +:+
                       Tokenizer.token_type_to_string (Token.type tok))).

Definition is_at_end (p : t) : bool :=
  TokenType.eqb (Token.type (peek p)) END_OF_FILE.

Definition current_token_value (p : t) : string := Token.value (peek p).

(** Tokens not yet consumed; every loop of the parser consumes at least one
    token per iteration, which bounds its number of iterations. *)
Definition remaining (p : t) : nat := length (tokens p) - current_pos p.

Fixpoint parse_constraints_loop (fuel : nat) (constraints : list ConstraintType.t)
  : M t (list ConstraintType.t) :=
  match fuel with
  | O => ret constraints
  | S fuel' =>
      let+ primary := match_ PRIMARY in
      if primary then
        exec+ expect KEY "Expected KEY after PRIMARY" in
        parse_constraints_loop fuel' (constraints ++ [ConstraintType.PRIMARY_KEY])
      else
        let+ not := match_ NOT in
        if not then
          exec+ expect NULL_KEYWORD "Expected NULL after NOT" in
          parse_constraints_loop fuel' (constraints ++ [ConstraintType.NOT_NULL])
        else ret constraints
  end.

Definition parse_constraints : M t (list ConstraintType.t) :=
  let+ n := gets remaining in
  parse_constraints_loop (S n) [].

(** Returns the type together with the value left in the [varchar_length]
    reference parameter, which the caller initialised to 0. *)
Definition parse_data_type (varchar_length : Z) : M t (DataType.t * Z) :=
  let+ is_integer := match_ INTEGER in
  if is_integer then ret (DataType.INTEGER, varchar_length)
  else
    let+ is_boolean := match_ BOOLEAN in
    if is_boolean then ret (DataType.BOOLEAN, varchar_length)
    else
      let+ is_varchar := match_ VARCHAR in
      if is_varchar then
        exec+ expect LEFT_PAREN "Expected '(' after VARCHAR" in
        let+ tok := gets peek in
        if negb (TokenType.eqb (Token.type tok) INTEGER_LITERAL) then
          throw (ParseError "Expected VARCHAR length")
        else
          let+ length_tok := advance in
          let+ length := lift (stoi (Token.value length_tok)) in
          exec+ expect RIGHT_PAREN "Expected ')' after VARCHAR length" in
          ret (DataType.VARCHAR, length)
      else throw (ParseError "Expected data type").

(** [std::find(constraints.begin(), constraints.end(), c) != constraints.end()] *)
Definition has_constraint (c : ConstraintType.t) (constraints : list ConstraintType.t)
  : bool :=
  existsb (ConstraintType.eqb c) constraints.

Definition parse_column_definition : M t Column.t :=
  let+ tok := gets peek in
  if negb (TokenType.eqb (Token.type tok) IDENTIFIER) then
    throw (ParseError "Expected column name")
  else
    let+ name_tok := advance in
    let column_name := Token.value name_tok in
    let+ dt := parse_data_type 0 in
    let+ constraints := parse_constraints in
    let is_primary_key := has_constraint ConstraintType.PRIMARY_KEY constraints in
    let is_not_null := has_constraint ConstraintType.NOT_NULL constraints in
    ret (Column.mk column_name (fst dt) (snd dt) is_primary_key is_not_null).

Definition parse_value : M t Value.t :=
  let+ tok := gets peek in
  if TokenType.eqb (Token.type tok) INTEGER_LITERAL then
    let+ lit := advance in
    let+ value := lift (stoi (Token.value lit)) in
    ret (Value.Int value)
  else if TokenType.eqb (Token.type tok) STRING_LITERAL then
    let+ lit := advance in
    ret (Value.Str (Token.value lit))
  else if TokenType.eqb (Token.type tok) BOOLEAN_LITERAL then
    let+ lit := advance in
    let bool_str := map_string toupper (Token.value lit) in
    ret (Value.Bool (String.eqb bool_str "TRUE"))
  else throw (ParseError "Expected value").

(** [tokens[current_pos - 1]], read right after a successful [match_any]. *)
Definition previous (p : t) : Token.t :=
  match tokens p !! (current_pos p - 1)%nat with
  | Some tok => tok
  | None => eof_token
  end.

Definition parse_where_clause : M t WhereCondition.t :=
  let+ tok := gets peek in
  if negb (TokenType.eqb (Token.type tok) IDENTIFIER) then
    throw (ParseError "Expected column name in WHERE clause")
  else
    let+ name_tok := advance in
    let column_name := Token.value name_tok in
    let+ matched := match_any [EQUALS; NOT_EQUALS; LESS_THAN;
                               GREATER_THAN; LESS_EQUAL; GREATER_EQUAL] in
    if matched then
      let+ prev := gets previous in
      let operator_type := Token.type prev in
      let+ value := parse_value in
      ret (WhereCondition.mk column_name operator_type value)
    else throw (ParseError "Expected comparison operator in WHERE clause").

(** The body of [do { ... } while (match(TokenType::COMMA));] in
    [parse_create_table]. *)
Fixpoint parse_columns_loop (fuel : nat) (columns : list Column.t)
  : M t (list Column.t) :=
  match fuel with
  | O => ret columns
  | S fuel' =>
      let+ tok := gets peek in
      if TokenType.eqb (Token.type tok) RIGHT_PAREN then ret columns
      else
        let+ column := parse_column_definition in
        let columns' := columns ++ [column] in
        let+ comma := match_ COMMA in
        if comma then parse_columns_loop fuel' columns' else ret columns'
  end.

Definition parse_create_table : M t Statement :=
  exec+ expect CREATE "Expected CREATE" in
  exec+ expect TABLE "Expected TABLE" in
  let+ tok := gets peek in
  if negb (TokenType.eqb (Token.type tok) IDENTIFIER) then
    throw (ParseError "Expected table name")
  else
    let+ name_tok := advance in
    exec+ expect LEFT_PAREN "Expected '('" in
    (* Parse column definitions *)
    let+ n := gets remaining in
    let+ columns := parse_columns_loop (S n) [] in
    exec+ expect RIGHT_PAREN "Expected ')'" in
    ret (CreateTableStatement (Token.value name_tok) columns).

Definition parse_drop_table : M t Statement :=
  exec+ expect DROP "Expected DROP" in
  exec+ expect TABLE "Expected TABLE" in
  let+ tok := gets peek in
  if negb (TokenType.eqb (Token.type tok) IDENTIFIER) then
    throw (ParseError "Expected table name")
  else
    let+ name_tok := advance in
    ret (DropTableStatement (Token.value name_tok)).

Fixpoint parse_values_loop (fuel : nat) (values : list Value.t)
  : M t (list Value.t) :=
  match fuel with
  | O => ret values
  | S fuel' =>
      let+ tok := gets peek in
      if TokenType.eqb (Token.type tok) RIGHT_PAREN then ret values
      else
        let+ value := parse_value in
        let values' := values ++ [value] in
        let+ comma := match_ COMMA in
        if comma then parse_values_loop fuel' values' else ret values'
  end.

Definition parse_insert : M t Statement :=
  exec+ expect INSERT "Expected INSERT" in
  exec+ expect INTO "Expected INTO" in
  let+ tok := gets peek in
  if negb (TokenType.eqb (Token.type tok) IDENTIFIER) then
    throw (ParseError "Expected table name")
  else
    let+ name_tok := advance in
    exec+ expect VALUES "Expected VALUES" in
    exec+ expect LEFT_PAREN "Expected '('" in
    (* Parse values *)
    let+ n := gets remaining in
    let+ values := parse_values_loop (S n) [] in
    exec+ expect RIGHT_PAREN "Expected ')'" in
    ret (InsertStatement (Token.value name_tok) values).

Definition parse_select : M t Statement :=
  exec+ expect SELECT "Expected SELECT" in
  let+ star := match_ ASTERISK in
  if star then
    exec+ expect FROM "Expected FROM" in
    let+ tok := gets peek in
    if negb (TokenType.eqb (Token.type tok) IDENTIFIER) then
      throw (ParseError "Expected table name")
    else
      let+ name_tok := advance in
      (* Optional WHERE clause *)
      let+ has_where := match_ WHERE in
      if has_where then
        let+ condition := parse_where_clause in
        ret (SelectStatement (Token.value name_tok) true (Some condition))
      else ret (SelectStatement (Token.value name_tok) true None)
  else throw (ParseError "Only SELECT * is currently supported").

(** [std::unique_ptr<Statement> Parser::parse()]; [None] is [nullptr]. *)
Definition parse_m : M t (option Statement) :=
  let+ at_end := gets is_at_end in
  if at_end then ret None
  else
    let+ tok := gets peek in
    match Token.type tok with
    | CREATE => let+ s := parse_create_table in ret (Some s)
    | DROP => let+ s := parse_drop_table in ret (Some s)
    | INSERT => let+ s := parse_insert in ret (Some s)
    | SELECT => let+ s := parse_select in ret (Some s)
    | _ => throw (ParseError "Expected SQL keyword")
    end.

(** [Parser parser(tokens); parser.parse()] *)
Definition parse (tokens : list Token.t) : result (option Statement) :=
  fst (parse_m (init tokens)).

End Parser.

(* ===================================================================== *)
(** ** storage/metadata.cpp *)
(* ===================================================================== *)

Module MetadataManager.

(** The manager together with the one file it owns: [tables] is the
    [std::unordered_map] from table name to schema, [disk] the file found at
    path [metadata_file]. *)
Record t : Type := mk {
  data_directory : string;
  metadata_file : string;
  tables : gmap string TableSchema.t;
  disk : File
}.

Definition set_tables (f : gmap string TableSchema.t -> gmap string TableSchema.t)
  (m : t) : t :=
  mk (data_directory m) (metadata_file m) (f (tables m)) (disk m).

Definition set_disk (f : File -> File) (m : t) : t :=
  mk (data_directory m) (metadata_file m) (tables m) (f (disk m)).

Definition serialize_data_type (type : DataType.t) : string :=
  match type with
  | DataType.INTEGER => "INTEGER"
  | DataType.VARCHAR => "VARCHAR"
  | DataType.BOOLEAN => "BOOLEAN"
  end.

Definition deserialize_data_type (type_str : string) : result DataType.t :=
  if String.eqb type_str "INTEGER" then Ok DataType.INTEGER
  else if String.eqb type_str "VARCHAR" then Ok DataType.VARCHAR
  else if String.eqb type_str "BOOLEAN" then Ok DataType.BOOLEAN
  else Throw (runtime_error ("Unknown data type: " +:+ type_str)).

Definition serialize_column (column : Column.t) : string :=
  "COLUMN:" +:+ Column.name column +:+ ":" +:+
  serialize_data_type (Column.type column) +:+
  (if DataType.eqb (Column.type column) DataType.VARCHAR
   then ":" +:+ to_string (Column.varchar_length column)
   else ":0") +:+
  ":" +:+ (if Column.is_primary_key column then "1" else "0") +:+
  ":" +:+ (if Column.is_not_null column then "1" else "0").

Definition deserialize_column (column_str : string) : result Column.t :=
  let iss := column_str in
  let '(token, iss) := getline_unchecked ":" iss in   (* Skip "COLUMN" *)
  let '(name, iss) := getline_unchecked ":" iss in
  let '(type_str, iss) := getline_unchecked ":" iss in
  let* type := deserialize_data_type type_str in
  let '(length_str, iss) := getline_unchecked ":" iss in
  let* varchar_length := stoi length_str in
  let '(pk_str, iss) := getline_unchecked ":" iss in
  let is_primary_key := String.eqb pk_str "1" in
  let '(nn_str, iss) := getline_unchecked LF iss in
  let is_not_null := String.eqb nn_str "1" in
  Ok (Column.mk name type varchar_length is_primary_key is_not_null).

(** [for (int i = 0; i < column_count; i++)] over the lines still unread in
    the file; returns the columns and the lines left. *)
Fixpoint read_columns (count : nat) (file : list string) (columns : list Column.t)
  : result (list Column.t * list string) :=
  match count with
  | O => Ok (columns, file)
  | S count' =>
      match file with
      | [] => Throw (runtime_error "Incomplete table definition in metadata")
      | line :: file' =>
          let* column := deserialize_column line in
          read_columns count' file' (columns ++ [column])
      end
  end.

Definition is_blank_or_comment (line : string) : bool :=
  match line with
  | EmptyString => true
  | String c _ => (c =? "#")%char
  end.

(** [while (std::getline(file, line))] of [load_metadata]; [file] is the list
    of lines not read yet.  An iteration reads at least one line. *)
Fixpoint load_loop (fuel : nat) (file : list string)
  (tables : gmap string TableSchema.t) : result (gmap string TableSchema.t) :=
  match fuel with
  | O => Ok tables
  | S fuel' =>
      match file with
      | [] => Ok tables
      | line :: file' =>
          if is_blank_or_comment line then
            load_loop fuel' file' tables   (* Skip empty lines and comments *)
          else if String.eqb (substring 0 6 line) "TABLE:" then
            let iss := line in
            let '(token, iss) := getline_unchecked ":" iss in   (* Skip "TABLE" *)
            let '(table_name, iss) := getline_unchecked ":" iss in
            let '(count_str, iss) := getline_unchecked LF iss in
            let* column_count := stoi count_str in
            (* Read column definitions *)
            let* '(columns, file'') := read_columns (Z.to_nat column_count) file' [] in
            let schema := TableSchema.mk table_name columns in
            load_loop fuel' file'' (<[table_name := schema]> tables)
          else load_loop fuel' file' tables
      end
  end.

(** [load_metadata] runs inside the constructor: when it throws, no manager
    comes to exist, so the state is returned as it was. *)
Definition load_metadata : M t unit :=
  fun m =>
    match content (disk m) with
    | None => (Ok tt, m)   (* File doesn't exist yet, that's okay *)
    | Some text =>
        let file := getlines text in
        match load_loop (length file) file (tables m) with
        | Ok tables' => (Ok tt, set_tables (fun _ => tables') m)
        | Throw e => (Throw e, m)
        end
    end.

(** The text [save_metadata] writes for the tables in the order [entries];
    the code iterates over the [std::unordered_map], whose order is
    unspecified. *)
Definition render_table (entry : string * TableSchema.t) : string :=
  let '(table_name, schema) := entry in
  "TABLE:" +:+ table_name +:+ ":" +:+
  to_string (Z.of_nat (length (TableSchema.columns schema))) +:+ str1 LF +:+
  fold_right (fun column rest => serialize_column column +:+ str1 LF +:+ rest)
             EmptyString (TableSchema.columns schema) +:+
  str1 LF.

Definition render_metadata (entries : list (string * TableSchema.t)) : string :=
  "# SQL Database Engine Metadata" +:+ str1 LF +:+
  "# Format: TABLE:name:column_count followed by column definitions" +:+
  str1 LF +:+ str1 LF +:+
  fold_right (fun entry rest => render_table entry +:+ rest) EmptyString entries.

Definition save_metadata : M t unit :=
  fun m =>
    if negb (writable (disk m)) then
      (Throw (runtime_error "Cannot open metadata file for writing"), m)
    else
      (Ok tt, set_disk (fun f => write_file f (render_metadata (map_to_list (tables m)))) m).

Definition table_exists (table_name : string) (m : t) : bool :=
  bool_decide (is_Some (tables m !! table_name)).

(** The [for (const auto& column : columns)] loop of [create_table]; returns
    [primary_key_count]. *)
Fixpoint check_columns (columns : list Column.t) (column_names : list string)
  (primary_key_count : Z) : result Z :=
  match columns with
  | [] => Ok primary_key_count
  | column :: columns' =>
      if String.eqb (Column.name column) EmptyString then
        Throw (runtime_error "Column name cannot be empty")
      else if existsb (String.eqb (Column.name column)) column_names then
        Throw (runtime_error ("Duplicate column name: " +:+ Column.name column))
      else
        let column_names := column_names ++ [Column.name column] in
        let primary_key_count :=
          if Column.is_primary_key column then primary_key_count + 1
          else primary_key_count in
        (* Validate VARCHAR length *)
        if DataType.eqb (Column.type column) DataType.VARCHAR &&
           (Column.varchar_length column <=? 0)
        then Throw (runtime_error ("VARCHAR length must be positive for column: " +:+
                                   Column.name column))
        else check_columns columns' column_names primary_key_count
  end.

Definition create_table (table_name : string) (columns : list Column.t) : M t unit :=
  let+ present := gets (table_exists table_name) in
  if present then
    throw (runtime_error ("Table '" +:+ table_name +:+ "' already exists"))
  (* Validate table name *)
  else if String.eqb table_name EmptyString then
    throw (runtime_error "Table name cannot be empty")
  (* Validate columns *)
  else if bool_decide (columns = []) then
    throw (runtime_error "Table must have at least one column")
  else
    (* Check for duplicate column names *)
    let+ primary_key_count := lift (check_columns columns [] 0) in
    (* Check primary key constraint *)
    if primary_key_count >? 1 then
      throw (runtime_error "Table can have at most one primary key")
    else
      let schema := TableSchema.mk table_name columns in
      exec+ modify (set_tables (fun tables => <[table_name := schema]> tables)) in
      save_metadata.

(** The table's data file lives outside this state; removing it is
    best-effort in the code and leaves the catalog as it is. *)
Definition drop_table (table_name : string) : M t unit :=
  let+ present := gets (table_exists table_name) in
  if negb present then
    throw (runtime_error ("Table '" +:+ table_name +:+ "' does not exist"))
  else
    exec+ modify (set_tables (fun tables => delete table_name tables)) in
    save_metadata.

Definition get_table_schema (table_name : string) (m : t) : option TableSchema.t :=
  tables m !! table_name.

Definition get_column (table_name column_name : string) (m : t) : option Column.t :=
  match get_table_schema table_name m with
  | None => None
  | Some schema =>
      List.find (fun column => String.eqb (Column.name column) column_name)
                (TableSchema.columns schema)
  end.

Definition get_columns (table_name : string) (m : t) : list Column.t :=
  match get_table_schema table_name m with
  | None => []
  | Some schema => TableSchema.columns schema
  end.

Fixpoint find_column_index (columns : list Column.t) (column_name : string) (i : Z) : Z :=
  match columns with
  | [] => -1
  | column :: columns' =>
      if String.eqb (Column.name column) column_name then to_int i
      else find_column_index columns' column_name (i + 1)
  end.

Definition get_column_index (table_name column_name : string) (m : t) : Z :=
  match get_table_schema table_name m with
  | None => -1
  | Some schema => find_column_index (TableSchema.columns schema) column_name 0
  end.

Definition validate_table_name (table_name : string) (m : t) : result unit :=
  if negb (table_exists table_name m) then
    Throw (runtime_error ("Table '" +:+ table_name +:+ "' does not exist"))
  else Ok tt.

(** One iteration of the type validation loop of [validate_insert_values]. *)
Definition validate_value (column : Column.t) (value : Value.t) : result unit :=
  let* type_match :=
    match Column.type column with
    | DataType.INTEGER => Ok (Value.holds_int value)
    | DataType.VARCHAR =>
        match value with
        | Value.Str str_value =>
            if to_int (Z.of_nat (String.length str_value)) >? Column.varchar_length column
            then Throw (runtime_error
                   ("String too long for column '" +:+ Column.name column +:+
                    "', max length is " +:+ to_string (Column.varchar_length column)))
            else Ok true
        | _ => Ok false
        end
    | DataType.BOOLEAN => Ok (Value.holds_bool value)
    end in
  if negb type_match then
    Throw (runtime_error ("Type mismatch for column '" +:+ Column.name column +:+ "'"))
  else Ok tt.

(** [for (size_t i = 0; i < values.size(); i++)], the sizes being equal. *)
Fixpoint validate_values (columns : list Column.t) (values : list Value.t)
  : result unit :=
  match values, columns with
  | value :: values', column :: columns' =>
      exec validate_value column value in
      validate_values columns' values'
  | _, _ => Ok tt
  end.

Definition validate_insert_values (table_name : string) (values : list Value.t)
  (m : t) : result unit :=
  match get_table_schema table_name m with
  | None => Throw (runtime_error ("Table '" +:+ table_name +:+ "' does not exist"))
  | Some schema =>
      if negb (length values =? length (TableSchema.columns schema))%nat then
        Throw (runtime_error
          ("INSERT has " +:+ to_string (Z.of_nat (length values)) +:+
           " values, expected " +:+
           to_string (Z.of_nat (length (TableSchema.columns schema)))))
      else validate_values (TableSchema.columns schema) values
  end.

Definition validate_where_condition (table_name : string)
  (condition : WhereCondition.t) (m : t) : result unit :=
  match get_column table_name (WhereCondition.column_name condition) m with
  | None =>
      Throw (runtime_error
        ("Column '" +:+ WhereCondition.column_name condition +:+
         "' does not exist in table '" +:+ table_name +:+ "'"))
  | Some column =>
      let type_match :=
        match Column.type column with
        | DataType.INTEGER => Value.holds_int (WhereCondition.value condition)
        | DataType.VARCHAR => Value.holds_string (WhereCondition.value condition)
        | DataType.BOOLEAN => Value.holds_bool (WhereCondition.value condition)
        end in
      if negb type_match then
        Throw (runtime_error
          ("Type mismatch for column '" +:+
           WhereCondition.column_name condition +:+ "'"))
      else Ok tt
  end.

Definition get_table_file_path (table_name : string) (m : t) : string :=
  data_directory m +:+ "/" +:+ table_name +:+ ".tbl".

End MetadataManager.

(* ===================================================================== *)
(** ** storage/table.cpp *)
(* ===================================================================== *)

Module TableStorage.

(** A table store: the catalog it points to and the data file found at
    [file_path]. *)
Record t : Type := mk {
  table_name : string;
  file_path : string;
  metadata_manager : MetadataManager.t;
  file : File
}.

(** Create file if it doesn't exist *)
Definition ensure_table_file : M t unit :=
  fun ts =>
    match content (file ts) with
    | Some _ => (Ok tt, ts)
    | None =>
        if negb (writable (file ts)) then
          (Throw (runtime_error ("Cannot create table file: " +:+ file_path ts)), ts)
        else
          (Ok tt, mk (table_name ts) (file_path ts) (metadata_manager ts)
                     (write_file (file ts)
                        ("# Table data for " +:+ table_name ts +:+ str1 LF)))
    end.

(** The constructor, given the state of the file at the table's path. *)
Definition new (table_name : string) (metadata_mgr : MetadataManager.t) (f : File)
  : result t :=
  let file_path := MetadataManager.get_table_file_path table_name metadata_mgr in
  match ensure_table_file (mk table_name file_path metadata_mgr f) with
  | (Ok _, ts) => Ok ts
  | (Throw e, _) => Throw e
  end.

Definition columns_of (ts : t) : list Column.t :=
  MetadataManager.get_columns (table_name ts) (metadata_manager ts).

(** Escape special characters *)
Fixpoint escape (str : string) : string :=
  match str with
  | EmptyString => EmptyString
  | String c rest =>
      if (c =? "|")%char || (c =? BACKSLASH)%char || (c =? LF)%char || (c =? CR)%char
      then
        String BACKSLASH
          (String (if (c =? "|")%char then "|"%char
                   else if (c =? BACKSLASH)%char then BACKSLASH
                   else if (c =? LF)%char then "n"%char
                   else "r"%char)
                  (escape rest))
      else String c (escape rest)
  end.

Definition serialize_value (value : Value.t) (type : DataType.t) : result string :=
  match type with
  | DataType.INTEGER => let* i := Value.get_int value in Ok (to_string i)
  | DataType.VARCHAR => let* str := Value.get_string value in Ok (escape str)
  | DataType.BOOLEAN =>
      let* b := Value.get_bool value in Ok (if b then "1" else "0")
  end.

Definition unescape_char (next : ascii) : ascii :=
  if (next =? "|")%char then "|"%char
  else if (next =? BACKSLASH)%char then BACKSLASH
  else if (next =? "n")%char then LF
  else if (next =? "r")%char then CR
  else next.

(** Unescape special characters: the index loop of [deserialize_value],
    which looks one character ahead after a backslash. *)
Fixpoint unescape (value_str : string) (unescaped : string) : string :=
  match value_str with
  | EmptyString => unescaped
  | String c rest =>
      if (c =? BACKSLASH)%char then
        match rest with
        | String next rest' =>
            unescape rest' (unescaped +:+ str1 (unescape_char next))   (* Skip next character *)
        | EmptyString => unescape rest (unescaped +:+ str1 c)
        end
      else unescape rest (unescaped +:+ str1 c)
  end.

Definition deserialize_value (value_str : string) (type : DataType.t)
  : result Value.t :=
  match type with
  | DataType.INTEGER => let* i := stoi value_str in Ok (Value.Int i)
  | DataType.VARCHAR => Ok (Value.Str (unescape value_str EmptyString))
  | DataType.BOOLEAN => Ok (Value.Bool (String.eqb value_str "1"))
  end.

(** [for (size_t i = 0; i < row.size(); i++)] of [serialize_row], the sizes
    being equal; [first] tells whether [i == 0]. *)
Fixpoint serialize_values (row : Row) (columns : list Column.t) (first : bool)
  (oss : string) : result string :=
  match row, columns with
  | value :: row', column :: columns' =>
      let oss := if first then oss else oss +:+ "|" in
      let* field := serialize_value value (Column.type column) in
      serialize_values row' columns' false (oss +:+ field)
  | _, _ => Ok oss
  end.

Definition serialize_row (row : Row) (ts : t) : result string :=
  let columns := columns_of ts in
  if negb (length row =? length columns)%nat then
    Throw (runtime_error "Row size doesn't match table schema")
  else serialize_values row columns true EmptyString.

(** Parse pipe-separated values with escape handling: the loop
    [for (char c : row_str)] with its three variables. *)
Fixpoint split_fields (row_str : string) (value_strings : list string)
  (current_value : string) (escaped : bool) : list string * string :=
  match row_str with
  | EmptyString => (value_strings, current_value)
  | String c rest =>
      if escaped then
        split_fields rest value_strings (current_value +:+ str1 c) false
      else if (c =? BACKSLASH)%char then
        split_fields rest value_strings (current_value +:+ str1 c) true
      else if (c =? "|")%char then
        split_fields rest (value_strings ++ [current_value]) EmptyString false
      else
        split_fields rest value_strings (current_value +:+ str1 c) false
  end.

Definition is_empty_string (s : string) : bool :=
  match s with EmptyString => true | _ => false end.

Fixpoint deserialize_values (value_strings : list string) (columns : list Column.t)
  (row : Row) : result Row :=
  match value_strings, columns with
  | value_str :: value_strings', column :: columns' =>
      let* value := deserialize_value value_str (Column.type column) in
      deserialize_values value_strings' columns' (row ++ [value])
  | _, _ => Ok row
  end.

Definition deserialize_row (row_str : string) (ts : t) : result Row :=
  let columns := columns_of ts in
  let '(value_strings, current_value) := split_fields row_str [] EmptyString false in
  let value_strings :=
    if negb (is_empty_string current_value) || negb (bool_decide (value_strings = []))
    then value_strings ++ [current_value]
    else value_strings in
  if negb (length value_strings =? length columns)%nat then
    Throw (runtime_error "Row data doesn't match table schema")
  else deserialize_values value_strings columns [].

(** The scan of [select_all]: a line that fails to deserialize is skipped
    ([catch (const std::exception&)]). *)
Fixpoint scan (lines : list string) (rows : list Row) (ts : t) : list Row :=
  match lines with
  | [] => rows
  | line :: lines' =>
      if MetadataManager.is_blank_or_comment line then
        scan lines' rows ts   (* Skip empty lines and comments *)
      else
        match deserialize_row line ts with
        | Ok row => scan lines' (rows ++ [row]) ts
        | Throw _ => scan lines' rows ts   (* Skip malformed rows *)
        end
  end.

Definition select_all (ts : t) : result (list Row) :=
  match content (file ts) with
  | None =>
      Throw (runtime_error ("Cannot open table file for reading: " +:+ file_path ts))
  | Some text => Ok (scan (getlines text) [] ts)
  end.

Definition compare_values (left right : Value.t) (op : TokenType.t) : bool :=
  (* Type compatibility should already be validated *)
  let attempt : result bool :=
    match op with
    | TokenType.EQUALS => Ok (Value.eq left right)
    | TokenType.NOT_EQUALS => Ok (Value.ne left right)
    | TokenType.LESS_THAN => Ok (Value.lt left right)
    | TokenType.GREATER_THAN => Ok (Value.gt left right)
    | TokenType.LESS_EQUAL => Ok (Value.le left right)
    | TokenType.GREATER_EQUAL => Ok (Value.ge left right)
    | _ => Ok false
    end in
  match attempt with
  | Ok b => b
  | Throw _ => false   (* Comparison failed (e.g., type mismatch) *)
  end.

Definition evaluate_condition (row : Row) (condition : WhereCondition.t) (ts : t)
  : bool :=
  let column_index :=
    MetadataManager.get_column_index (table_name ts)
      (WhereCondition.column_name condition) (metadata_manager ts) in
  if (column_index <? 0) || (column_index >=? to_int (Z.of_nat (length row))) then false
  else
    match row !! Z.to_nat column_index with
    | Some row_value =>
        compare_values row_value (WhereCondition.value condition)
                       (WhereCondition.operator_type condition)
    | None => false
    end.

Definition select_where (condition : WhereCondition.t) (ts : t) : result (list Row) :=
  exec MetadataManager.validate_where_condition (table_name ts) condition
         (metadata_manager ts) in
  let* all_rows := select_all ts in
  Ok (List.filter (fun row => evaluate_condition row condition ts) all_rows).

Definition insert_row (values : list Value.t) : M t unit :=
  fun ts =>
    (* Validate the insert *)
    match MetadataManager.validate_insert_values (table_name ts) values
            (metadata_manager ts) with
    | Throw e => (Throw e, ts)
    | Ok _ =>
        (* Serialize and write to file *)
        match serialize_row values ts with
        | Throw e => (Throw e, ts)
        | Ok row_data =>
            if negb (writable (file ts)) then
              (Throw (runtime_error ("Cannot open table file for writing: " +:+
                                     file_path ts)), ts)
            else
              let old := match content (file ts) with Some s => s | None => EmptyString end in
              (Ok tt, mk (table_name ts) (file_path ts) (metadata_manager ts)
                         (write_file (file ts) (old +:+ row_data +:+ str1 LF)))
        end
    end.

Definition get_row_count (ts : t) : result nat :=
  let* rows := select_all ts in
  Ok (length rows).

Definition clear_table : M t unit :=
  fun ts =>
    if negb (writable (file ts)) then
      (Throw (runtime_error ("Cannot clear table file: " +:+ file_path ts)), ts)
    else
      (Ok tt, mk (table_name ts) (file_path ts) (metadata_manager ts)
                 (write_file (file ts)
                    ("# Table data for " +:+ table_name ts +:+ str1 LF))).

Definition table_file_exists (ts : t) : bool :=
  match content (file ts) with Some _ => true | None => false end.

End TableStorage.

(* ===================================================================== *)
(** ** executor/query_executor.cpp *)
(* ===================================================================== *)

Module QueryExecutor.

(** The executor with the data files its catalog points to: [files] maps a
    path to the file found there, a path outside it naming no file, where
    one can be created; [removable] tells for which paths
    [std::filesystem::remove] goes through. *)
Record t : Type := mk {
  metadata_manager : MetadataManager.t;
  files : gmap string File;
  removable : string -> bool
}.

Definition file_at (path : string) (ex : t) : File :=
  default (mkFile None true) (files ex !! path).

Definition set_file (path : string) (f : File) (ex : t) : t :=
  mk (metadata_manager ex) (<[path := f]> (files ex)) (removable ex).

(** [e.what()]; the text of [std::bad_variant_access] is the library's. *)
Definition what (e : exn) : string :=
  match e with
  | runtime_error msg => msg
  | ParseError msg => msg
  | invalid_argument msg => msg
  | out_of_range msg => msg
  | bad_variant_access => "bad variant access"
  end.

(** A member function of the catalog, called through [metadata_manager]. *)
Definition on_catalog {A : Type} (m : M MetadataManager.t A) : M t A :=
  fun ex =>
    let '(r, mm) := m (metadata_manager ex) in
    (r, mk mm (files ex) (removable ex)).

(** [MetadataManager::drop_table] to its last line: once the catalog is
    saved the table's data file is removed, errors being ignored. *)
Definition drop_table (table_name : string) : M t unit :=
  exec+ on_catalog (MetadataManager.drop_table table_name) in
  fun ex =>
    let table_file :=
      MetadataManager.get_table_file_path table_name (metadata_manager ex) in
    if removable ex table_file then
      (Ok tt, mk (metadata_manager ex) (delete table_file (files ex)) (removable ex))
    else (Ok tt, ex).

(** [TableStorage table_storage(table_name, metadata_manager.get())]: the
    constructor creates the data file when it is missing, and the file
    stays whatever happens next. *)
Definition table_storage (table_name : string) : M t TableStorage.t :=
  fun ex =>
    let path :=
      MetadataManager.get_table_file_path table_name (metadata_manager ex) in
    match TableStorage.new table_name (metadata_manager ex) (file_at path ex) with
    | Ok ts => (Ok ts, set_file path (TableStorage.file ts) ex)
    | Throw e => (Throw e, ex)
    end.

(** A member function of a table store; what it wrote is on disk. *)
Definition on_table {A : Type} (ts : TableStorage.t) (m : M TableStorage.t A)
  : M t A :=
  fun ex =>
    let '(r, ts') := m ts in
    (r, set_file (TableStorage.file_path ts') (TableStorage.file ts') ex).

Definition format_value (value : Value.t) : string :=
  match value with
  | Value.Int i => to_string i
  | Value.Str s => s
  | Value.Bool b => if b then "true" else "false"
  end.

(** [std::string(n, c)] *)
Fixpoint fill (n : nat) (c : ascii) : string :=
  match n with
  | O => EmptyString
  | S n' => String c (fill n' c)
  end.

(** [result << std::left << std::setw(width) << s]: [s] followed by spaces
    up to [width]; a longer [s] is written whole. *)
Definition left_setw (width : nat) (s : string) : string :=
  s +:+ fill (width - String.length s) " ".

(** [for (size_t i = 0; i < row.size() && i < columns.size(); i++)
       widths[i] = std::max(widths[i], formatted.length());] *)
Fixpoint widen (widths : list nat) (row : Row) : list nat :=
  match widths, row with
  | width :: widths', value :: row' =>
      Nat.max width (String.length (format_value value)) :: widen widths' row'
  | _, _ => widths
  end.

(** Calculate column widths *)
Definition column_widths (rows : list Row) (columns : list Column.t) : list nat :=
  (* Initialize with header widths *)
  let widths := List.map (fun column => String.length (Column.name column)) columns in
  (* Calculate max width for each column based on data *)
  let widths := fold_left widen rows widths in
  (* Ensure minimum width *)
  List.map (fun width => Nat.max width 10) widths.

Fixpoint header_cells (columns : list Column.t) (widths : list nat) : string :=
  match columns, widths with
  | column :: columns', width :: widths' =>
      " " +:+ left_setw width (Column.name column) +:+ " |" +:+
      header_cells columns' widths'
  | _, _ => EmptyString
  end.

Fixpoint separator_cells (widths : list nat) : string :=
  match widths with
  | [] => EmptyString
  | width :: widths' => fill (width + 2) "-" +:+ "+" +:+ separator_cells widths'
  end.

(** The cells of a data row; a row that is short of values leaves the
    remaining cells empty. *)
Fixpoint row_cells (widths : list nat) (row : Row) : string :=
  match widths with
  | [] => EmptyString
  | width :: widths' =>
      let value_str :=
        match row with
        | value :: _ => format_value value
        | [] => EmptyString
        end in
      " " +:+ left_setw width value_str +:+ " |" +:+ row_cells widths' (tail row)
  end.

Definition header_line (columns : list Column.t) (widths : list nat) : string :=
  "|" +:+ header_cells columns widths.

Definition separator_line (widths : list nat) : string :=
  "+" +:+ separator_cells widths.

Definition row_line (widths : list nat) (row : Row) : string :=
  "|" +:+ row_cells widths row.

Definition format_results (rows : list Row) (columns : list Column.t) : string :=
  if bool_decide (columns = []) then "No columns defined."
  else
    let widths := column_widths rows columns in
    (* Print header *)
    header_line columns widths +:+ str1 LF +:+
    (* Print separator *)
    separator_line widths +:+ str1 LF +:+
    (* Print data rows *)
    fold_right (fun row rest => row_line widths row +:+ str1 LF +:+ rest)
               EmptyString rows +:+
    to_string (Z.of_nat (length rows)) +:+ " rows returned.".

Definition execute_create_table (table_name : string) (columns : list Column.t)
  : M t string :=
  exec+ on_catalog (MetadataManager.create_table table_name columns) in
  ret ("Table '" +:+ table_name +:+ "' created successfully.").

Definition execute_drop_table (table_name : string) : M t string :=
  (* Validate table exists before dropping *)
  let+ mm := gets metadata_manager in
  exec+ lift (MetadataManager.validate_table_name table_name mm) in
  (* Drop the table *)
  exec+ drop_table table_name in
  ret ("Table '" +:+ table_name +:+ "' dropped successfully.").

Definition execute_insert (table_name : string) (values : list Value.t)
  : M t string :=
  (* Validate table exists *)
  let+ mm := gets metadata_manager in
  exec+ lift (MetadataManager.validate_table_name table_name mm) in
  (* Create table storage and insert row *)
  let+ ts := table_storage table_name in
  exec+ on_table ts (TableStorage.insert_row values) in
  ret ("1 row inserted into '" +:+ table_name +:+ "'.").

Definition execute_select (table_name : string)
  (where_condition : option WhereCondition.t) : M t string :=
  (* Validate table exists *)
  let+ mm := gets metadata_manager in
  exec+ lift (MetadataManager.validate_table_name table_name mm) in
  (* Get table schema *)
  let columns := MetadataManager.get_columns table_name mm in
  (* Create table storage and execute query *)
  let+ ts := table_storage table_name in
  let+ rows :=
    lift (match where_condition with
          | Some condition => TableStorage.select_where condition ts
          | None => TableStorage.select_all ts
          end) in
  ret (format_results rows columns).

(** The statement's own method, by its [StatementType]. *)
Definition dispatch (statement : Statement) : M t string :=
  match statement with
  | CreateTableStatement table_name columns =>
      execute_create_table table_name columns
  | DropTableStatement table_name => execute_drop_table table_name
  | InsertStatement table_name values => execute_insert table_name values
  | SelectStatement table_name _ where_condition =>
      execute_select table_name where_condition
  end.

(** [execute] returns a text whatever happens: an exception becomes the
    text of an error. *)
Definition execute (statement : option Statement) (ex : t) : string * t :=
  match statement with
  | None => ("Error: Null statement", ex)
  | Some stmt =>
      match dispatch stmt ex with
      | (Ok text, ex') => (text, ex')
      | (Throw e, ex') => ("Error: " +:+ what e, ex')
      end
  end.

End QueryExecutor.

(* ===================================================================== *)
(** ** main.cpp *)
(* ===================================================================== *)

Module SQLShell.

(** The characters of [" \t\n\r"]. *)
Definition is_blank (c : ascii) : bool :=
  (c =? " ")%char || (c =? TAB)%char || (c =? LF)%char || (c =? CR)%char.

(** [str.find_first_not_of(" \t\n\r")], [i] being the index of the first
    character of [str]; [None] is [npos]. *)
Fixpoint find_first_not_of (str : string) (i : nat) : option nat :=
  match str with
  | EmptyString => None
  | String c rest => if is_blank c then find_first_not_of rest (S i) else Some i
  end.

Fixpoint find_last_not_of (str : string) (i : nat) : option nat :=
  match str with
  | EmptyString => None
  | String c rest =>
      match find_last_not_of rest (S i) with
      | Some j => Some j
      | None => if is_blank c then None else Some i
      end
  end.

Definition trim (str : string) : string :=
  match find_first_not_of str 0 with
  | None => EmptyString
  | Some start =>
      match find_last_not_of str 0 with
      | Some end_ => substring start (end_ - start + 1) str
      | None => substring start (String.length str - start) str
      end
  end.

(** The terminal of the shell: whether it is still [running], the lines
    [std::getline] has yet to return from [std::cin], and the text written
    to [std::cout]. *)
Record Console : Type := mkConsole {
  running : bool;
  cin : list string;
  cout : string
}.

(** [str.empty()], [str[0]] and [str.back()]. *)
Definition empty (str : string) : bool :=
  match str with EmptyString => true | _ => false end.

Definition front (str : string) : option ascii :=
  match str with EmptyString => None | String c _ => Some c end.

Fixpoint back (str : string) : option ascii :=
  match str with
  | EmptyString => None
  | String c EmptyString => Some c
  | String _ rest => back rest
  end.

Definition is_char (c : ascii) (o : option ascii) : bool :=
  match o with Some x => (x =? c)%char | None => false end.

(** Check if command is complete (ends with semicolon or is a meta
    command). *)
Definition is_complete (line : string) : bool :=
  is_char ";" (back line) || is_char BACKSLASH (front line) ||
  (line =? "help")%string || (line =? "exit")%string || (line =? "quit")%string.

(** The loop of [read_command] over the lines still on [std::cin]; a
    failing [std::getline] - EOF or error - stops the shell. *)
Fixpoint read_command_loop (lines : list string) (command : string)
  (running : bool) (cout : string) : string * Console :=
  match lines with
  | [] => (EmptyString, mkConsole false [] cout)
  | line :: lines' =>
      let line := trim line in
      if empty line then
        if empty command then
          read_command_loop lines' command running (cout +:+ "sqldb> ")
        else (command, mkConsole running lines' cout)
      else
        let command := command +:+ line in
        if is_complete line then (command, mkConsole running lines' cout)
        else
          (* Continuation prompt *)
          read_command_loop lines' (command +:+ " ") running (cout +:+ "    -> ")
  end.

Definition read_command (con : Console) : string * Console :=
  read_command_loop (cin con) EmptyString (running con) (cout con).

(** [if (!sql.empty() && sql.back() == ';') sql.pop_back();] *)
Fixpoint pop_semicolon (sql : string) : string :=
  match sql with
  | EmptyString => EmptyString
  | String c EmptyString => if (c =? ";")%char then EmptyString else sql
  | String c rest => String c (pop_semicolon rest)
  end.

Definition is_meta_command (input : string) : bool :=
  match input with
  | EmptyString => false
  | String c _ =>
      if (c =? BACKSLASH)%char then true
      else
        (* Remove trailing semicolon if present *)
        let lower_input := pop_semicolon (map_string tolower input) in
        (lower_input =? "help")%string || (lower_input =? "exit")%string ||
        (lower_input =? "quit")%string || (lower_input =? "clear")%string
  end.

(** The shell's state is its executor.  A [ParseError] is caught first,
    any other exception by the second handler. *)
Definition process_sql_command (input : string) (ex : QueryExecutor.t)
  : string * QueryExecutor.t :=
  (* Remove trailing semicolon if present *)
  let sql := pop_semicolon input in
  match (let* tokens := Tokenizer.tokenize sql in Parser.parse tokens) with
  | Ok None => ("Error: Failed to parse SQL statement", ex)
  | Ok (Some statement) => QueryExecutor.execute (Some statement) ex
  | Throw (ParseError msg) => ("Parse Error: " +:+ msg, ex)
  | Throw e => ("Error: " +:+ QueryExecutor.what e, ex)
  end.

End SQLShell.

(* ===================================================================== *)
(** ** Vocabulary of the specification *)
(* ===================================================================== *)

Module Spec.

(** A value holds the alternative its column's declared type asks for. *)
Definition value_has_type (v : Value.t) (ty : DataType.t) : Prop :=
  match ty, v with
  | DataType.INTEGER, Value.Int _ => True
  | DataType.VARCHAR, Value.Str _ => True
  | DataType.BOOLEAN, Value.Bool _ => True
  | _, _ => False
  end.

(** Positional agreement of a row with the columns of a schema: same
    length, and each value of its column's type. *)
Definition row_well_typed (columns : list Column.t) (row : Row) : Prop :=
  Forall2 (fun v column => value_has_type v (Column.type column)) row columns.

(** The Row invariant of the data model.  An [Int] is a 32-bit [int]. *)
Definition value_fits (v : Value.t) (column : Column.t) : Prop :=
  match Column.type column, v with
  | DataType.INTEGER, Value.Int i => INT_MIN <= i <= INT_MAX
  | DataType.VARCHAR, Value.Str s =>
      Z.of_nat (String.length s) <= Column.varchar_length column
  | DataType.BOOLEAN, Value.Bool _ => True
  | _, _ => False
  end.

Definition row_invariant (columns : list Column.t) (row : Row) : Prop :=
  Forall2 value_fits row columns.

(** What a scan makes of one line of a data file. *)
Definition row_of_line (ts : TableStorage.t) (line : string) : option Row :=
  if MetadataManager.is_blank_or_comment line then None
  else match TableStorage.deserialize_row line ts with
       | Ok row => Some row
       | Throw _ => None
       end.

(** The type of the token a parser looks at first. *)
Definition leading_type (tokens : list Token.t) : TokenType.t :=
  match tokens with
  | [] => TokenType.END_OF_FILE
  | tok :: _ => Token.type tok
  end.

Definition starts_statement (ty : TokenType.t) : Prop :=
  ty = TokenType.CREATE \/ ty = TokenType.DROP \/
  ty = TokenType.INSERT \/ ty = TokenType.SELECT.

(** The circumstances in which the catalog refuses to create a table. *)
Definition primary_key_count (columns : list Column.t) : nat :=
  length (List.filter Column.is_primary_key columns).

Definition bad_varchar (column : Column.t) : Prop :=
  Column.type column = DataType.VARCHAR /\ Column.varchar_length column <= 0.

Definition create_table_refused (table_name : string) (columns : list Column.t)
  (m : MetadataManager.t) : Prop :=
  is_Some (MetadataManager.tables m !! table_name) \/
  table_name = EmptyString \/
  columns = [] \/
  (exists column, In column columns /\ Column.name column = EmptyString) \/
  ~ NoDup (List.map Column.name columns) \/
  (1 < primary_key_count columns)%nat \/
  (exists column, In column columns /\ bad_varchar column).

(** What the validation loop of [create_table] accepts and rejects, given
    the names [seen] so far. *)
Definition columns_accepted (columns : list Column.t) (seen : list string) : Prop :=
  Forall (fun c => Column.name c <> EmptyString /\ ~ bad_varchar c) columns /\
  (forall c, In c columns -> ~ In (Column.name c) seen) /\
  NoDup (List.map Column.name columns).

Definition columns_rejected (columns : list Column.t) (seen : list string) : Prop :=
  (exists c, In c columns /\ Column.name c = EmptyString) \/
  (exists c, In c columns /\ In (Column.name c) seen) \/
  ~ NoDup (List.map Column.name columns) \/
  (exists c, In c columns /\ bad_varchar c).

(** The catalog once [table_name] is registered with [columns], and once
    that registry has been written to the metadata file. *)
Definition registered (table_name : string) (columns : list Column.t)
  (m : MetadataManager.t) : MetadataManager.t :=
  MetadataManager.set_tables
    (fun tables => <[table_name := TableSchema.mk table_name columns]> tables) m.

Definition persisted (m : MetadataManager.t) : MetadataManager.t :=
  MetadataManager.set_disk
    (fun f => write_file f
       (MetadataManager.render_metadata (map_to_list (MetadataManager.tables m)))) m.

Definition storage_error : exn :=
  runtime_error "Cannot open metadata file for writing".

(** The circumstances in which an insert is refused for a schema. *)
Definition string_too_long (v : Value.t) (column : Column.t) : Prop :=
  Column.type column = DataType.VARCHAR /\
  exists s, v = Value.Str s /\ Column.varchar_length column < Z.of_nat (String.length s).

Definition insert_refused (columns : list Column.t) (values : list Value.t) : Prop :=
  length values <> length columns \/
  exists (i : nat) v column,
    values !! i = Some v /\ columns !! i = Some column /\
    (~ value_has_type v (Column.type column) \/ string_too_long v column).

(** String lengths the code can hold in an [int]. *)
Definition strings_fit_int (values : list Value.t) : Prop :=
  forall s, In (Value.Str s) values -> Z.of_nat (String.length s) <= INT_MAX.

(** A schema with its NOT NULL flags replaced. *)
Definition with_not_null (flag : Column.t -> bool) (schema : TableSchema.t)
  : TableSchema.t :=
  TableSchema.mk (TableSchema.name schema)
    (List.map (fun c => Column.mk (Column.name c) (Column.type c)
                          (Column.varchar_length c) (Column.is_primary_key c) (flag c))
              (TableSchema.columns schema)).

(** Letter-case variants of a spelling. *)
Definition tolower (c : ascii) : ascii :=
  if isupper c then ascii_of_nat (code c + 32) else c.

Fixpoint case_variant (s spelling : string) : Prop :=
  match s, spelling with
  | EmptyString, EmptyString => True
  | String c s', String k spelling' =>
      (c = k \/ c = tolower k) /\ case_variant s' spelling'
  | _, _ => False
  end.

Fixpoint string_forallb (p : ascii -> bool) (s : string) : bool :=
  match s with
  | EmptyString => true
  | String c r => p c && string_forallb p r
  end.

(** The characters of a printed number: digits, after an optional minus. *)
Definition numeral_char (c : ascii) : bool := isdigit c || (c =? "-")%char.

(** The text of a serialized row: its fields separated by pipes. *)
Fixpoint join_fields (first : bool) (fields : list string) : string :=
  match fields with
  | [] => EmptyString
  | f :: fields' =>
      (if first then EmptyString else "|") +:+ f +:+ join_fields false fields'
  end.

(** A field the splitting loop crosses without cutting it: read from an
    unescaped state, it is appended whole to the current value and leaves
    the loop unescaped. *)
Definition sealed (f : string) : Prop :=
  forall (rest : string) (value_strings : list string) (current_value : string),
    TableStorage.split_fields (f +:+ rest) value_strings current_value false
    = TableStorage.split_fields rest value_strings (current_value +:+ f) false.

(** Names the metadata format can carry: no field separator, no line end. *)
Definition name_char (c : ascii) : bool :=
  negb (c =? ":")%char && negb (c =? LF)%char.

Definition valid_name (s : string) : Prop := string_forallb name_char s = true.

(** What a reload makes of a column: the length of a column that is not a
    VARCHAR is written as 0. *)
Definition reloaded_column (c : Column.t) : Column.t :=
  Column.mk (Column.name c) (Column.type c)
    (if DataType.eqb (Column.type c) DataType.VARCHAR then Column.varchar_length c else 0)
    (Column.is_primary_key c) (Column.is_not_null c).

Definition reloaded_schema (schema : TableSchema.t) : TableSchema.t :=
  TableSchema.mk (TableSchema.name schema)
    (List.map reloaded_column (TableSchema.columns schema)).

(** Catalog states: every schema is registered under its own name, as
    [create_table] and [load_metadata] do it; lengths are [int]s and a
    column count fits the [int] that [load_metadata] reads it into. *)
Definition column_representable (c : Column.t) : Prop :=
  INT_MIN <= Column.varchar_length c <= INT_MAX.

Definition schema_representable (table_name : string) (schema : TableSchema.t) : Prop :=
  TableSchema.name schema = table_name /\
  Z.of_nat (length (TableSchema.columns schema)) <= INT_MAX /\
  Forall column_representable (TableSchema.columns schema).

Definition catalog_representable (tables : gmap string TableSchema.t) : Prop :=
  forall table_name schema,
    tables !! table_name = Some schema -> schema_representable table_name schema.

Definition valid_names (tables : gmap string TableSchema.t) : Prop :=
  forall table_name schema,
    tables !! table_name = Some schema ->
    valid_name table_name /\
    Forall (fun c => valid_name (Column.name c)) (TableSchema.columns schema).

(** A catalog freshly constructed over the metadata file [f], before
    [load_metadata] has run. *)
Definition fresh (m : MetadataManager.t) (f : File) : MetadataManager.t :=
  MetadataManager.mk (MetadataManager.data_directory m)
                     (MetadataManager.metadata_file m) ∅ f.

(** The lines [save_metadata] writes for one table. *)
Definition table_lines (entry : string * TableSchema.t) : list string :=
  ("TABLE:" +:+ fst entry +:+ ":" +:+
   to_string (Z.of_nat (length (TableSchema.columns (snd entry))))) ::
  List.map MetadataManager.serialize_column (TableSchema.columns (snd entry)) ++
  [EmptyString].

Definition register_reloaded (tables : gmap string TableSchema.t)
  (entry : string * TableSchema.t) : gmap string TableSchema.t :=
  <[fst entry := TableSchema.mk (fst entry)
                   (List.map reloaded_column (TableSchema.columns (snd entry)))]> tables.

(** *** The grammar of CREATE TABLE *)

(** The tokens a parser has not consumed yet, and the parser one token
    further. *)
Definition rest (p : Parser.t) : list Token.t :=
  drop (Parser.current_pos p) (Parser.tokens p).

Definition next (p : Parser.t) : Parser.t :=
  Parser.mk (Parser.tokens p) (S (Parser.current_pos p)).

(** constraint = PRIMARY KEY | NOT NULL *)
Inductive constraint_syntax : list Token.t -> Prop :=
| constraint_primary_key (p k : Token.t) :
    Token.type p = TokenType.PRIMARY -> Token.type k = TokenType.KEY ->
    constraint_syntax [p; k]
| constraint_not_null (n u : Token.t) :
    Token.type n = TokenType.NOT -> Token.type u = TokenType.NULL_KEYWORD ->
    constraint_syntax [n; u].

(** constraint* *)
Inductive constraints_syntax : list Token.t -> Prop :=
| constraints_none : constraints_syntax []
| constraints_more (c cs : list Token.t) :
    constraint_syntax c -> constraints_syntax cs -> constraints_syntax (c ++ cs).

(** type = INTEGER | BOOLEAN | VARCHAR ( intLiteral ), the literal being
    one [std::stoi] reads as an [int]. *)
Inductive type_syntax : list Token.t -> Prop :=
| type_integer (t : Token.t) :
    Token.type t = TokenType.INTEGER -> type_syntax [t]
| type_boolean (t : Token.t) :
    Token.type t = TokenType.BOOLEAN -> type_syntax [t]
| type_varchar (v l n r : Token.t) :
    Token.type v = TokenType.VARCHAR -> Token.type l = TokenType.LEFT_PAREN ->
    Token.type n = TokenType.INTEGER_LITERAL ->
    is_ok (stoi (Token.value n)) = true ->
    Token.type r = TokenType.RIGHT_PAREN ->
    type_syntax [v; l; n; r].

(** columnDef = id type constraint* *)
Inductive column_def_syntax : list Token.t -> Prop :=
| column_def (id : Token.t) (ty cs : list Token.t) :
    Token.type id = TokenType.IDENTIFIER ->
    type_syntax ty -> constraints_syntax cs ->
    column_def_syntax (id :: ty ++ cs).

(** The production of the specification: columnDef (, columnDef)* *)
Inductive column_list_syntax : list Token.t -> Prop :=
| column_list_one (d : list Token.t) :
    column_def_syntax d -> column_list_syntax d
| column_list_more (d : list Token.t) (comma : Token.t) (ds : list Token.t) :
    column_def_syntax d -> Token.type comma = TokenType.COMMA ->
    column_list_syntax ds -> column_list_syntax (d ++ comma :: ds).

(** What the parser takes between the parentheses: column definitions
    separated by commas, where the list may be empty and may end with a
    comma. *)
Inductive column_list_tolerant : list Token.t -> Prop :=
| tolerant_empty : column_list_tolerant []
| tolerant_last (d : list Token.t) :
    column_def_syntax d -> column_list_tolerant d
| tolerant_more (d : list Token.t) (comma : Token.t) (ds : list Token.t) :
    column_def_syntax d -> Token.type comma = TokenType.COMMA ->
    column_list_tolerant ds -> column_list_tolerant (d ++ comma :: ds).

(** CREATE TABLE id ( body ) *)
Definition create_table_syntax (body : list Token.t -> Prop) (toks : list Token.t)
  : Prop :=
  exists (c t id l : Token.t) (cols : list Token.t) (r : Token.t),
    toks = c :: t :: id :: l :: cols ++ [r] /\
    Token.type c = TokenType.CREATE /\ Token.type t = TokenType.TABLE /\
    Token.type id = TokenType.IDENTIFIER /\ Token.type l = TokenType.LEFT_PAREN /\
    body cols /\ Token.type r = TokenType.RIGHT_PAREN.

(** [parse] accepts a CREATE TABLE statement. *)
Definition accepts_create_table (toks : list Token.t) : Prop :=
  exists table_name columns,
    Parser.parse toks = Ok (Some (CreateTableStatement table_name columns)).

End Spec.

(* ===================================================================== *)
(** ** Sample catalogs and stores *)
(* ===================================================================== *)

Module Examples.

(** CREATE TABLE users (id INTEGER PRIMARY KEY, name VARCHAR(50), active BOOLEAN) *)
Definition users_schema : TableSchema.t :=
  TableSchema.mk "users"
    [Column.mk "id" DataType.INTEGER 0 true false;
     Column.mk "name" DataType.VARCHAR 50 false false;
     Column.mk "active" DataType.BOOLEAN 0 false false].

(** CREATE TABLE notes (body VARCHAR(10)) *)
Definition notes_schema : TableSchema.t :=
  TableSchema.mk "notes" [Column.mk "body" DataType.VARCHAR 10 false false].

Definition catalog : MetadataManager.t :=
  MetadataManager.mk "data" "data/metadata.db"
    (<["users" := users_schema]> {["notes" := notes_schema]})
    (mkFile None true).

(** A data file with a well-formed row, a row whose first field is not a
    number and a row that is one field short. *)
Definition users_file : string :=
  "# Table data for users" +:+ str1 LF +:+
  "1|Alice|1" +:+ str1 LF +:+
  "x|Bob|0" +:+ str1 LF +:+
  "2|Carol" +:+ str1 LF.

Definition users : TableStorage.t :=
  TableStorage.mk "users" "data/users.tbl" catalog (mkFile (Some users_file) true).

Definition notes : TableStorage.t :=
  TableStorage.mk "notes" "data/notes.tbl" catalog
    (mkFile (Some ("# Table data for notes" +:+ str1 LF)) true).

(** A catalog of one table, for the metadata file. *)
Definition small_catalog : MetadataManager.t :=
  MetadataManager.mk "data" "data/metadata.db"
    {["t" := TableSchema.mk "t" [Column.mk "s" DataType.VARCHAR 5 true false]]}
    (mkFile None true).

(** The tokens of [CREATE TABLE t (a INTEGER)]. *)
Definition create_t_tokens : list Token.t :=
  [Token.mk TokenType.CREATE "CREATE" 1 1; Token.mk TokenType.TABLE "TABLE" 1 8;
   Token.mk TokenType.IDENTIFIER "t" 1 14; Token.mk TokenType.LEFT_PAREN "(" 1 16;
   Token.mk TokenType.IDENTIFIER "a" 1 17; Token.mk TokenType.INTEGER "INTEGER" 1 19;
   Token.mk TokenType.RIGHT_PAREN ")" 1 26;
   Token.mk TokenType.END_OF_FILE EmptyString 1 27].

End Examples.

(* ===================================================================== *)
(** ** Vocabulary of the further properties *)
(* ===================================================================== *)

Module Props.

(** A text without a line feed: [std::getline] reads it as one line. *)
Definition single_line (s : string) : Prop :=
  Spec.string_forallb (fun c => negb (c =? LF)%char) s = true.

(** A text whose last line, if there is one, is closed by a line feed. *)
Definition terminated (text : string) : Prop :=
  text = EmptyString \/ exists body, text = body +:+ str1 LF.

Definition file_terminated (f : File) : Prop :=
  forall text, content f = Some text -> terminated text.

(** Integers a 32-bit [int] holds. *)
Definition ints_in_range (values : list Value.t) : Prop :=
  forall i, In (Value.Int i) values -> INT_MIN <= i <= INT_MAX.

(** The store once [line] is appended to its data file. *)
Definition appended (line : string) (ts : TableStorage.t) : TableStorage.t :=
  TableStorage.mk (TableStorage.table_name ts) (TableStorage.file_path ts)
    (TableStorage.metadata_manager ts)
    (write_file (TableStorage.file ts)
       (match content (TableStorage.file ts) with
        | Some s => s
        | None => EmptyString
        end +:+ line +:+ str1 LF)).

(** What [create_table] checks of a schema before it registers it under
    [table_name]. *)
Definition schema_wf (table_name : string) (schema : TableSchema.t) : Prop :=
  TableSchema.name schema = table_name /\
  table_name <> EmptyString /\
  TableSchema.columns schema <> [] /\
  Forall (fun c => Column.name c <> EmptyString /\ ~ Spec.bad_varchar c)
         (TableSchema.columns schema) /\
  NoDup (List.map Column.name (TableSchema.columns schema)) /\
  (Spec.primary_key_count (TableSchema.columns schema) <= 1)%nat.

Definition catalog_wf (tables : gmap string TableSchema.t) : Prop :=
  forall table_name schema,
    tables !! table_name = Some schema -> schema_wf table_name schema.

(** Catalogs the metadata file gives back as they are: names the format
    can carry, lengths and column counts an [int] holds, and length 0 for
    the columns that are not VARCHAR. *)
Definition durable (tables : gmap string TableSchema.t) : Prop :=
  Spec.valid_names tables /\ Spec.catalog_representable tables /\
  Spec.reloaded_schema <$> tables = tables.

Definition storable_column (c : Column.t) : Prop :=
  Spec.valid_name (Column.name c) /\ Spec.reloaded_column c = c /\
  Spec.column_representable c.

(** The catalog a restart builds from the metadata file of [m]. *)
Definition restarted (m : MetadataManager.t) : MetadataManager.t :=
  snd (MetadataManager.load_metadata (Spec.fresh m (MetadataManager.disk m))).

(** The catalog once [table_name] is erased from the registry. *)
Definition erased (table_name : string) (m : MetadataManager.t) : MetadataManager.t :=
  MetadataManager.set_tables (fun tables => delete table_name tables) m.

(** The comparison a WHERE clause asks for, at position [i] of a row. *)
Definition satisfies (i : nat) (condition : WhereCondition.t) (row : Row) : bool :=
  match row !! i with
  | Some row_value =>
      TableStorage.compare_values row_value (WhereCondition.value condition)
                                  (WhereCondition.operator_type condition)
  | None => false
  end.

(** *** The grammar of DROP TABLE, INSERT and SELECT *)

(** The value a literal token stands for: an integer literal is read by
    [std::stoi], a string literal is its own text, and a boolean literal is
    true when it spells TRUE. *)
Definition literal_value (lit : Token.t) : option Value.t :=
  match Token.type lit with
  | TokenType.INTEGER_LITERAL =>
      match stoi (Token.value lit) with
      | Ok i => Some (Value.Int i)
      | Throw _ => None
      end
  | TokenType.STRING_LITERAL => Some (Value.Str (Token.value lit))
  | TokenType.BOOLEAN_LITERAL =>
      Some (Value.Bool (String.eqb (map_string toupper (Token.value lit)) "TRUE"))
  | _ => None
  end.

Definition is_comparison (ty : TokenType.t) : bool :=
  existsb (TokenType.eqb ty)
    [TokenType.EQUALS; TokenType.NOT_EQUALS; TokenType.LESS_THAN;
     TokenType.GREATER_THAN; TokenType.LESS_EQUAL; TokenType.GREATER_EQUAL].

(** What the parser takes between the parentheses of VALUES, with the
    values it builds: literals separated by commas, where the list may be
    empty and may end with a comma. *)
Inductive value_list : list Token.t -> list Value.t -> Prop :=
| values_empty : value_list [] []
| values_last (lit : Token.t) (v : Value.t) :
    literal_value lit = Some v -> value_list [lit] [v]
| values_more (lit comma : Token.t) (v : Value.t) (body : list Token.t)
    (vs : list Value.t) :
    literal_value lit = Some v -> Token.type comma = TokenType.COMMA ->
    value_list body vs -> value_list (lit :: comma :: body) (v :: vs).

(** What may follow the table name of a SELECT: nothing that starts with
    WHERE, or WHERE column operator literal. *)
Definition where_clause (r : list Token.t) (condition : option WhereCondition.t)
  : Prop :=
  match condition with
  | None => Token.type (hd Parser.eof_token r) <> TokenType.WHERE
  | Some c =>
      exists (w col op lit : Token.t) (r' : list Token.t),
        r = w :: col :: op :: lit :: r' /\
        Token.type w = TokenType.WHERE /\
        Token.type col = TokenType.IDENTIFIER /\
        is_comparison (Token.type op) = true /\
        literal_value lit = Some (WhereCondition.value c) /\
        WhereCondition.column_name c = Token.value col /\
        WhereCondition.operator_type c = Token.type op
  end.

(** What the parser leaves in a statement. *)
Definition statement_wf (statement : Statement) : Prop :=
  match statement with
  | CreateTableStatement _ columns =>
      Forall (fun c => Spec.reloaded_column c = c /\ Spec.column_representable c)
             columns
  | InsertStatement _ values => ints_in_range values
  | DropTableStatement _ => True
  | SelectStatement _ select_all where_condition =>
      select_all = true /\
      forall c, where_condition = Some c ->
        is_comparison (WhereCondition.operator_type c) = true /\
        ints_in_range [WhereCondition.value c]
  end.

(** *** Words of a command *)

(** A word: a letter or an underscore, then letters, digits and
    underscores. *)
Definition word (w : string) : Prop :=
  exists c r, w = String c r /\ Tokenizer.is_alpha c = true /\
              Spec.string_forallb Tokenizer.is_alnum r = true.

(** A word that is no keyword, whatever the case of its letters. *)
Definition identifier (name : string) : Prop :=
  word name /\ Tokenizer.keywords !! map_string toupper name = None.

(** A text a word can stand in front of: it is empty or starts with a
    character that belongs to no word. *)
Definition delimited (rest : string) : Prop :=
  match rest with
  | EmptyString => True
  | String d _ => Tokenizer.is_alnum d = false
  end.

(** The token of a word that starts at line [l], column [c]. *)
Definition word_token (w : string) (l c : Z) : Token.t :=
  match Tokenizer.keywords !! map_string toupper w with
  | Some ty => Token.mk ty (map_string toupper w) l c
  | None => Token.mk TokenType.IDENTIFIER w l c
  end.

(** *** Tokens of the lexer *)

(** The text of a token fits its type: an identifier is a word that is no
    keyword, an integer literal a non-empty run of digits that [std::stoi]
    reads or finds too large, and a keyword token carries the spelling the
    keyword table lists for its type. *)
Definition token_wf (tok : Token.t) : Prop :=
  (Token.type tok = TokenType.IDENTIFIER -> identifier (Token.value tok)) /\
  (Token.type tok = TokenType.INTEGER_LITERAL ->
   Token.value tok <> EmptyString /\
   Spec.string_forallb isdigit (Token.value tok) = true /\
   ((exists i, stoi (Token.value tok) = Ok i) \/
    stoi (Token.value tok) = Throw (out_of_range "stoi"))) /\
  (forall kw, Tokenizer.keywords !! kw = Some (Token.type tok) ->
              Tokenizer.keywords !! Token.value tok = Some (Token.type tok)).

(** *** String literals *)

(** A text a string literal holds as it is: no quote, no backslash and no
    NUL character. *)
Definition plain (s : string) : Prop :=
  Spec.string_forallb
    (fun x => negb (x =? QUOTE)%char && negb (x =? BACKSLASH)%char &&
              negb (x =? NUL)%char) s = true.

Definition quote_free (s : string) : Prop :=
  Spec.string_forallb (fun x => negb (x =? QUOTE)%char) s = true.

(** *** Trimmed lines *)

Definition all_blank (s : string) : Prop :=
  Spec.string_forallb SQLShell.is_blank s = true.

(** A text that neither starts nor ends with a blank. *)
Definition tight (s : string) : Prop :=
  s = EmptyString \/
  ((exists c r, s = String c r /\ SQLShell.is_blank c = false) /\
   (exists r d, s = r +:+ str1 d /\ SQLShell.is_blank d = false)).

(** *** Commands at the prompt *)

(** [text] spells DROP TABLE name or SELECT * FROM name - the keywords in
    any mix of upper and lower case, the words one space apart - and
    [statement] is the statement it stands for. *)
Definition spells (text : string) (statement : Statement) (name : string) : Prop :=
  (exists d t,
     Spec.case_variant d "DROP" /\ Spec.case_variant t "TABLE" /\
     text = d +:+ " " +:+ t +:+ " " +:+ name /\
     statement = DropTableStatement name) \/
  (exists s f,
     Spec.case_variant s "SELECT" /\ Spec.case_variant f "FROM" /\
     text = s +:+ " * " +:+ f +:+ " " +:+ name /\
     statement = SelectStatement name true None).

(** *** The executor's files *)

(** The path of a table's data file, as the executor's catalog gives it. *)
Definition table_path (table_name : string) (ex : QueryExecutor.t) : string :=
  MetadataManager.get_table_file_path table_name
    (QueryExecutor.metadata_manager ex).

(** The columns the executor's catalog holds for a table. *)
Definition columns_in (table_name : string) (ex : QueryExecutor.t) : list Column.t :=
  MetadataManager.get_columns table_name (QueryExecutor.metadata_manager ex).

(** The statements that work on an existing table. *)
Definition uses_table (table_name : string) (statement : Statement) : Prop :=
  match statement with
  | CreateTableStatement _ _ => False
  | InsertStatement n _ => n = table_name
  | DropTableStatement n => n = table_name
  | SelectStatement n _ _ => n = table_name
  end.

(** *** Result tables *)

(** The values of a row are no wider than the columns they are printed in. *)
Fixpoint fits (widths : list nat) (row : Row) : Prop :=
  match widths, row with
  | width :: widths', value :: row' =>
      (String.length (QueryExecutor.format_value value) <= width)%nat /\
      fits widths' row'
  | _, _ => True
  end.

End Props.

(* ===================================================================== *)
(** ** A sample executor *)
(* ===================================================================== *)

Module Samples.

(** The sample catalog with the data file of its table users; files can
    be removed. *)
Definition executor : QueryExecutor.t :=
  QueryExecutor.mk Examples.catalog
    {["data/users.tbl" := mkFile (Some Examples.users_file) true]}
    (fun _ => true).

End Samples.

(* ===================================================================== *)
(** ** Basic facts *)
(* ===================================================================== *)

Lemma TokenType_eqb_eq (x y : TokenType.t) : TokenType.eqb x y = true <-> x = y.
Proof.
  split; [| intros ->; unfold TokenType.eqb; apply Nat.eqb_refl].
  unfold TokenType.eqb. intros H%Nat.eqb_eq.
  destruct x; destruct y; simpl in H; first [reflexivity | discriminate H].
Qed.

Lemma TokenType_eqb_refl (x : TokenType.t) : TokenType.eqb x x = true.
Proof. by apply TokenType_eqb_eq. Qed.

Lemma TokenType_eqb_neq (x y : TokenType.t) : TokenType.eqb x y = false <-> x <> y.
Proof.
  rewrite <- TokenType_eqb_eq. destruct (TokenType.eqb x y); split; congruence.
Qed.

(* ===================================================================== *)
(** ** Value comparison in the row store *)
(* ===================================================================== *)



(* ===================================================================== *)
(** ** Dispatch on the leading token *)
(* ===================================================================== *)

Lemma peek_init (tokens : list Token.t) :
  Token.type (Parser.peek (Parser.init tokens)) = Spec.leading_type tokens.
Proof. by destruct tokens. Qed.

(** C6, as stated, fails: on the end-of-input token alone [parse] returns
    the null statement and raises nothing. *)
Lemma parse_end_of_input_returns_null :
  Spec.leading_type [Token.mk TokenType.END_OF_FILE EmptyString 1 1]
    = TokenType.END_OF_FILE /\
  ~ Spec.starts_statement TokenType.END_OF_FILE /\
  Parser.parse [Token.mk TokenType.END_OF_FILE EmptyString 1 1] = Ok None /\
  ~ is_parse_error (Parser.parse [Token.mk TokenType.END_OF_FILE EmptyString 1 1]).
Proof.
  split; [reflexivity |]. split.
  - intros [H | [H | [H | H]]]; discriminate H.
  - split; [reflexivity |]. intros [msg H]. discriminate H.
Qed.

(** C6 (amended): a leading token that is neither CREATE, DROP, INSERT,
    SELECT nor the end of input makes [parse] raise the ParseError
    "Expected SQL keyword"; on a leading end of input (or no token at all)
    [parse] returns the null statement without raising. *)
Theorem parse_unrecognized_leading_token (tokens : list Token.t) :
  ~ Spec.starts_statement (Spec.leading_type tokens) ->
  (Spec.leading_type tokens <> TokenType.END_OF_FILE ->
     Parser.parse tokens = Throw (ParseError "Expected SQL keyword")) /\
  (Spec.leading_type tokens = TokenType.END_OF_FILE ->
     Parser.parse tokens = Ok None).
Proof.
  intros Hns. unfold Parser.parse, Parser.parse_m, mbind, gets, Parser.is_at_end.
  cbv beta iota. rewrite !peek_init. split.
  - intros Hne. apply TokenType_eqb_neq in Hne. rewrite Hne.
    cbv beta. rewrite peek_init.
    unfold Spec.starts_statement in Hns.
    destruct (Spec.leading_type tokens); try reflexivity;
      first [discriminate Hne | exfalso; apply Hns; auto].
  - intros ->. reflexivity.
Qed.

Lemma parse_unrecognized_leading_token_witness :
  Parser.parse [Token.mk TokenType.IDENTIFIER "foo" 1 1;
                Token.mk TokenType.END_OF_FILE EmptyString 1 4]
    = Throw (ParseError "Expected SQL keyword") /\
  Parser.parse [] = Ok None.
Proof.
  split.
  - apply (parse_unrecognized_leading_token
             [Token.mk TokenType.IDENTIFIER "foo" 1 1;
              Token.mk TokenType.END_OF_FILE EmptyString 1 4]).
    + intros [H | [H | [H | H]]]; discriminate H.
    + discriminate.
  - apply (parse_unrecognized_leading_token []).
    + intros [H | [H | [H | H]]]; discriminate H.
    + reflexivity.
Defined.

(* ===================================================================== *)
(** ** Rows handed out by a scan *)
(* ===================================================================== *)

Section Scan.
Variable ts : TableStorage.t.

Lemma deserialize_value_has_type (value_str : string) (ty : DataType.t) (v : Value.t) :
  TableStorage.deserialize_value value_str ty = Ok v -> Spec.value_has_type v ty.
Proof.
  destruct ty; simpl.
  - destruct (stoi value_str); simpl; intros [= <-]; exact I.
  - intros [= <-]; exact I.
  - intros [= <-]; exact I.
Qed.

Lemma deserialize_values_typed (value_strings : list string) :
  forall (columns : list Column.t) (acc row : Row),
    length value_strings = length columns ->
    TableStorage.deserialize_values value_strings columns acc = Ok row ->
    exists tail, row = acc ++ tail /\ Spec.row_well_typed columns tail.
Proof.
  induction value_strings as [| s value_strings IH]; intros [| c columns] acc row Hlen;
    simpl in *; try discriminate Hlen.
  - intros [= <-]. exists []. split; [by rewrite app_nil_r | constructor].
  - destruct (TableStorage.deserialize_value s (Column.type c)) as [v |] eqn:Hv;
      simpl; [| discriminate].
    intros Hrest. apply IH in Hrest as (tail & -> & Htail); [| congruence].
    exists (v :: tail). split; [by rewrite <- app_assoc |].
    constructor; [| exact Htail]. by eapply deserialize_value_has_type.
Qed.

Lemma deserialize_row_typed (row_str : string) (row : Row) :
  TableStorage.deserialize_row row_str ts = Ok row ->
  Spec.row_well_typed (TableStorage.columns_of ts) row.
Proof.
  unfold TableStorage.deserialize_row.
  destruct (TableStorage.split_fields row_str [] EmptyString false) as [fields cur].
  match goal with
  | |- context [negb (length ?l =? _)%nat] => set (value_strings := l)
  end.
  destruct (length value_strings =? length (TableStorage.columns_of ts))%nat eqn:Hlen;
    simpl; [| discriminate].
  apply Nat.eqb_eq in Hlen. intros H.
  apply deserialize_values_typed in H as (tail & -> & Htail); assumption.
Qed.

Lemma scan_typed (lines : list string) :
  forall acc : list Row,
    Forall (Spec.row_well_typed (TableStorage.columns_of ts)) acc ->
    Forall (Spec.row_well_typed (TableStorage.columns_of ts))
           (TableStorage.scan lines acc ts).
Proof.
  induction lines as [| line lines IH]; intros acc Hacc; simpl; [exact Hacc |].
  destruct (MetadataManager.is_blank_or_comment line); [by apply IH |].
  destruct (TableStorage.deserialize_row line ts) as [row |] eqn:Hrow; [| by apply IH].
  apply IH. apply Forall_app. split; [exact Hacc |].
  constructor; [| constructor]. by eapply deserialize_row_typed.
Qed.

(** The scan keeps, in order, the rows of the lines that deserialize. *)
Lemma scan_rows (lines : list string) :
  forall acc : list Row,
    TableStorage.scan lines acc ts = acc ++ omap (Spec.row_of_line ts) lines.
Proof.
  induction lines as [| line lines IH]; intros acc; simpl.
  - by rewrite app_nil_r.
  - unfold Spec.row_of_line at 1.
    destruct (MetadataManager.is_blank_or_comment line); [apply IH |].
    destruct (TableStorage.deserialize_row line ts) as [row |]; [| apply IH].
    rewrite IH, <- app_assoc. reflexivity.
Qed.

End Scan.

(** C9: every row [select_all] returns has as many values as the bound
    table's schema has columns, and at each position a value of the
    alternative the column's declared type asks for. *)
Theorem select_all_rows_well_typed (ts : TableStorage.t) (rows : list Row) :
  TableStorage.select_all ts = Ok rows ->
  forall row, In row rows ->
    length row = length (TableStorage.columns_of ts) /\
    Spec.row_well_typed (TableStorage.columns_of ts) row.
Proof.
  unfold TableStorage.select_all.
  destruct (content (TableStorage.file ts)) as [text |]; [| discriminate].
  intros [= <-] row Hin.
  pose proof (scan_typed ts (getlines text) [] (List.Forall_nil _)) as Hall.
  rewrite Forall_forall in Hall. apply list_elem_of_In in Hin.
  specialize (Hall row Hin). split; [| exact Hall].
  by apply Forall2_length in Hall.
Qed.

Lemma select_all_rows_well_typed_witness :
  length [Value.Int 1; Value.Str "Alice"; Value.Bool true]
  = length (TableStorage.columns_of Examples.users) /\
  Spec.row_well_typed (TableStorage.columns_of Examples.users)
    [Value.Int 1; Value.Str "Alice"; Value.Bool true].
Proof.
  apply (select_all_rows_well_typed Examples.users
           [[Value.Int 1; Value.Str "Alice"; Value.Bool true]]).
  - vm_compute. reflexivity.
  - left. reflexivity.
Defined.

(* ===================================================================== *)
(** ** Creating a table *)
(* ===================================================================== *)

Lemma existsb_eqb_In (x : string) (l : list string) :
  existsb (String.eqb x) l = true <-> In x l.
Proof.
  rewrite existsb_exists. split.
  - intros (y & Hin & ->%String.eqb_eq). exact Hin.
  - intros Hin. exists x. split; [exact Hin | apply String.eqb_refl].
Qed.

Lemma DataType_eqb_eq (x y : DataType.t) : DataType.eqb x y = true <-> x = y.
Proof. destruct x, y; simpl; split; congruence. Qed.

Lemma primary_key_count_cons (c : Column.t) (columns : list Column.t) :
  Z.of_nat (Spec.primary_key_count (c :: columns))
  = (if Column.is_primary_key c then 1 else 0)
    + Z.of_nat (Spec.primary_key_count columns).
Proof.
  unfold Spec.primary_key_count. simpl.
  destruct (Column.is_primary_key c); simpl length; lia.
Qed.

(** The validation loop accepts exactly the column lists without an empty
    name, without a name seen before, and without a non-positive VARCHAR
    length; it then returns the number of primary keys. *)
Lemma check_columns_spec (columns : list Column.t) :
  forall (seen : list string) (count : Z),
    match MetadataManager.check_columns columns seen count with
    | Ok n =>
        Spec.columns_accepted columns seen /\
        n = count + Z.of_nat (Spec.primary_key_count columns)
    | Throw e => Spec.columns_rejected columns seen /\ e <> Spec.storage_error
    end.
Proof.
  induction columns as [| c columns IH]; intros seen count; simpl.
  { split; [| unfold Spec.primary_key_count; simpl; lia].
    split; [constructor |]. split; [intros c Hin; destruct Hin | constructor]. }
  destruct (String.eqb (Column.name c) EmptyString) eqn:He.
  { split; [| discriminate]. left. exists c. apply String.eqb_eq in He. split; [simpl; auto | auto]. }
  destruct (existsb (String.eqb (Column.name c)) seen) eqn:Hex.
  { split; [| discriminate]. right. left. exists c.
    apply existsb_eqb_In in Hex. split; [simpl; auto | auto]. }
  destruct (DataType.eqb (Column.type c) DataType.VARCHAR
            && (Column.varchar_length c <=? 0)) eqn:Hv.
  { split; [| discriminate]. do 3 right. exists c. split; [by left |].
    apply andb_true_iff in Hv as [Hty Hle]. apply DataType_eqb_eq in Hty.
    apply Z.leb_le in Hle. by split. }
  apply String.eqb_neq in He.
  assert (Hnotseen : ~ In (Column.name c) seen).
  { rewrite <- existsb_eqb_In. congruence. }
  assert (Hgood : ~ Spec.bad_varchar c).
  { intros [Hty Hle]. rewrite Hty in Hv. simpl in Hv.
    apply Z.leb_gt in Hv. lia. }
  specialize (IH (seen ++ [Column.name c])
                 (if Column.is_primary_key c then count + 1 else count)).
  destruct (MetadataManager.check_columns columns (seen ++ [Column.name c]) _)
    as [n | e].
  - destruct IH as [(Hall & Hseen & Hnd) ->]. split.
    + repeat split.
      * constructor; [by split | exact Hall].
      * intros c' [<- | Hin]; [exact Hnotseen |].
        intros Hin'. apply (Hseen c' Hin). apply in_or_app. by left.
      * simpl. apply NoDup_cons. split; [| exact Hnd].
        rewrite list_elem_of_In, in_map_iff. intros (c' & Heq & Hin).
        apply (Hseen c' Hin). apply in_or_app. right. left. by symmetry.
    + rewrite primary_key_count_cons. destruct (Column.is_primary_key c); lia.
  - destruct IH as [Hrej Hne]. split; [| exact Hne].
    destruct Hrej as [(c' & Hin & Hc') | [(c' & Hin & Hc') | [Hnd | (c' & Hin & Hc')]]].
    + left. exists c'. split; [simpl; auto | auto].
    + apply in_app_or in Hc' as [Hc' | [Heq | []]].
      * right. left. exists c'. split; [simpl; auto | auto].
      * do 2 right. left. intros Hnd. simpl in Hnd.
        apply NoDup_cons in Hnd as [Hnotin _]. apply Hnotin.
        rewrite Heq. apply list_elem_of_In. by apply in_map.
    + do 2 right. left. intros Hnd'. simpl in Hnd'.
      apply NoDup_cons in Hnd' as [_ Hnd']. contradiction.
    + do 3 right. exists c'. split; [simpl; auto | auto].
Qed.

Lemma table_exists_spec (table_name : string) (m : MetadataManager.t) :
  MetadataManager.table_exists table_name m = true
  <-> is_Some (MetadataManager.tables m !! table_name).
Proof. unfold MetadataManager.table_exists. apply bool_decide_eq_true. Qed.

Lemma save_metadata_cases (m : MetadataManager.t) :
  MetadataManager.save_metadata m
  = if writable (MetadataManager.disk m) then (Ok tt, Spec.persisted m)
    else (Throw Spec.storage_error, m).
Proof.
  unfold MetadataManager.save_metadata. by destruct (writable (MetadataManager.disk m)).
Qed.

(** The three ways a call to [create_table] can go. *)
Lemma create_table_cases (table_name : string) (columns : list Column.t)
  (m : MetadataManager.t) :
  (Spec.create_table_refused table_name columns m /\
   exists e, e <> Spec.storage_error /\
             MetadataManager.create_table table_name columns m = (Throw e, m)) \/
  (~ Spec.create_table_refused table_name columns m /\
   MetadataManager.create_table table_name columns m
   = MetadataManager.save_metadata (Spec.registered table_name columns m)).
Proof.
  unfold MetadataManager.create_table, mbind, gets, throw, lift, modify.
  destruct (MetadataManager.table_exists table_name m) eqn:Hex.
  { left. split; [left; by apply table_exists_spec |]. eexists. split; [| reflexivity].
    discriminate. }
  destruct (String.eqb table_name EmptyString) eqn:Hname.
  { left. split; [right; left; by apply String.eqb_eq |]. eexists.
    split; [| reflexivity]. discriminate. }
  destruct (bool_decide (columns = [])) eqn:Hcols.
  { left. split; [do 2 right; left; by apply bool_decide_eq_true in Hcols |].
    eexists. split; [| reflexivity]. discriminate. }
  assert (Hfresh : ~ is_Some (MetadataManager.tables m !! table_name)).
  { rewrite <- table_exists_spec. congruence. }
  apply String.eqb_neq in Hname. apply bool_decide_eq_false in Hcols.
  pose proof (check_columns_spec columns [] 0) as Hspec.
  destruct (MetadataManager.check_columns columns [] 0) as [count | e].
  - destruct Hspec as [(Hall & _ & Hnd) ->]. rewrite Forall_forall in Hall.
    destruct (0 + Z.of_nat (Spec.primary_key_count columns) >? 1) eqn:Hcount.
    + left. split.
      * do 5 right. left. apply Z.gtb_lt in Hcount. lia.
      * eexists. split; [| reflexivity]. discriminate.
    + right. split; [| reflexivity].
      intros [H | [H | [H | [(c & Hin & H) | [H | [H | (c & Hin & H)]]]]]];
        try contradiction.
      * apply list_elem_of_In in Hin. destruct (Hall c Hin); contradiction.
      * rewrite Z.gtb_ltb in Hcount. apply Z.ltb_ge in Hcount. lia.
      * apply list_elem_of_In in Hin. destruct (Hall c Hin); contradiction.
  - destruct Hspec as [Hrej Hne]. left. split.
    + destruct Hrej as [Hc | [(c & _ & []) | [Hc | Hc]]];
        unfold Spec.create_table_refused; tauto.
    + exists e. split; [exact Hne | reflexivity].
Qed.

(** C3, as stated, fails: with a metadata file that cannot be opened for
    writing, a table that passes every check still makes [create_table]
    raise, and nothing is persisted. *)
Lemma create_table_unwritable_raises :
  ~ Spec.create_table_refused "t" [Column.mk "a" DataType.INTEGER 0 false false]
      (MetadataManager.mk "data" "data/metadata.db" ∅ (mkFile None false)) /\
  throws (fst (MetadataManager.create_table "t"
                 [Column.mk "a" DataType.INTEGER 0 false false]
                 (MetadataManager.mk "data" "data/metadata.db" ∅ (mkFile None false)))) /\
  content (MetadataManager.disk
             (snd (MetadataManager.create_table "t"
                     [Column.mk "a" DataType.INTEGER 0 false false]
                     (MetadataManager.mk "data" "data/metadata.db" ∅ (mkFile None false)))))
  = None.
Proof.
  split; [| split; [eexists; reflexivity | reflexivity]].
  intros [H | [H | [H | [(c & Hin & H) | [H | [H | (c & Hin & H)]]]]]].
  - simpl in H. rewrite lookup_empty in H. by destruct H.
  - discriminate H.
  - discriminate H.
  - destruct Hin as [<- | []]. discriminate H.
  - apply H. simpl. apply NoDup_singleton.
  - vm_compute in H. lia.
  - destruct Hin as [<- | []]. destruct H as [H _]. discriminate H.
Qed.

(** C3 (amended): [create_table] raises an error if and only if one of the
    listed conditions holds or the metadata file cannot be opened for
    writing; when none of the conditions holds the schema is added to the
    in-memory registry, and the catalog is persisted to the metadata file
    provided that file can be opened. *)
Theorem create_table_raises_iff (table_name : string) (columns : list Column.t)
  (m : MetadataManager.t) :
  (throws (fst (MetadataManager.create_table table_name columns m))
   <-> Spec.create_table_refused table_name columns m \/
       writable (MetadataManager.disk m) = false) /\
  (~ Spec.create_table_refused table_name columns m ->
   MetadataManager.tables (snd (MetadataManager.create_table table_name columns m))
   = <[table_name := TableSchema.mk table_name columns]> (MetadataManager.tables m) /\
   (writable (MetadataManager.disk m) = true ->
    MetadataManager.create_table table_name columns m
    = (Ok tt, Spec.persisted (Spec.registered table_name columns m)))).
Proof.
  destruct (create_table_cases table_name columns m)
    as [[Href (e & _ & Heq)] | [Hacc Heq]]; rewrite Heq.
  - split; [| contradiction]. simpl. split; [auto | intros _; by exists e].
  - rewrite save_metadata_cases. simpl.
    destruct (writable (MetadataManager.disk m)); simpl; split.
    + split; [intros [e He]; discriminate He | intros [H | H]; [contradiction | discriminate H]].
    + intros _. split; [reflexivity | reflexivity].
    + split; [auto | intros _; eexists; reflexivity].
    + intros _. split; [reflexivity | discriminate].
Qed.

Lemma create_table_raises_iff_witness :
  MetadataManager.tables
    (snd (MetadataManager.create_table "t"
            [Column.mk "a" DataType.INTEGER 0 false false]
            (MetadataManager.mk "data" "data/metadata.db" ∅ (mkFile None true))))
  = <["t" := TableSchema.mk "t" [Column.mk "a" DataType.INTEGER 0 false false]]> ∅.
Proof.
  apply (create_table_raises_iff "t" [Column.mk "a" DataType.INTEGER 0 false false]
           (MetadataManager.mk "data" "data/metadata.db" ∅ (mkFile None true))).
  intros [H | [H | [H | [(c & Hin & H) | [H | [H | (c & Hin & H)]]]]]].
  - simpl in H. rewrite lookup_empty in H. by destruct H.
  - discriminate H.
  - discriminate H.
  - destruct Hin as [<- | []]. discriminate H.
  - apply H. simpl. apply NoDup_singleton.
  - vm_compute in H. lia.
  - destruct Hin as [<- | []]. destruct H as [H _]. discriminate H.
Defined.

(** C10, as stated, fails: when the metadata file cannot be opened for
    writing, [create_table] raises after the schema has entered the
    in-memory registry. *)
Lemma create_table_storage_error_keeps_schema :
  fst (MetadataManager.create_table "t"
         [Column.mk "a" DataType.INTEGER 0 false false]
         (MetadataManager.mk "data" "data/metadata.db" ∅ (mkFile None false)))
  = Throw (runtime_error "Cannot open metadata file for writing") /\
  MetadataManager.tables
    (MetadataManager.mk "data" "data/metadata.db" ∅ (mkFile None false)) !! "t" = None /\
  MetadataManager.tables
    (snd (MetadataManager.create_table "t"
            [Column.mk "a" DataType.INTEGER 0 false false]
            (MetadataManager.mk "data" "data/metadata.db" ∅ (mkFile None false)))) !! "t"
  = Some (TableSchema.mk "t" [Column.mk "a" DataType.INTEGER 0 false false]).
Proof. repeat split. Qed.

(** C10 (amended): every validation check runs before any mutation or
    persistence, so when [create_table] raises because one of the checks
    fails the catalog is unchanged, registry and metadata file alike.  The
    only other error is the failure to open the metadata file for writing:
    the file is then left as it was, while the registry already holds the new
    schema. *)
Theorem create_table_error_state (table_name : string) (columns : list Column.t)
  (m : MetadataManager.t) (e : exn) :
  fst (MetadataManager.create_table table_name columns m) = Throw e ->
  MetadataManager.disk (snd (MetadataManager.create_table table_name columns m))
  = MetadataManager.disk m /\
  (Spec.create_table_refused table_name columns m ->
   e <> Spec.storage_error /\
   snd (MetadataManager.create_table table_name columns m) = m) /\
  (~ Spec.create_table_refused table_name columns m ->
   e = Spec.storage_error /\
   snd (MetadataManager.create_table table_name columns m)
   = Spec.registered table_name columns m).
Proof.
  destruct (create_table_cases table_name columns m)
    as [[Href (e' & Hne & Heq)] | [Hacc Heq]]; rewrite Heq.
  - simpl. intros [= <-]. split; [reflexivity |]. split; [auto | contradiction].
  - rewrite save_metadata_cases. simpl.
    destruct (writable (MetadataManager.disk m)); simpl; [discriminate |].
    intros [= <-]. split; [reflexivity |]. split; [contradiction | auto].
Qed.

Lemma create_table_error_state_witness :
  MetadataManager.disk
    (snd (MetadataManager.create_table EmptyString []
            (MetadataManager.mk "data" "data/metadata.db" ∅ (mkFile None true))))
  = mkFile None true.
Proof.
  apply (create_table_error_state EmptyString []
           (MetadataManager.mk "data" "data/metadata.db" ∅ (mkFile None true))
           (runtime_error "Table name cannot be empty")).
  reflexivity.
Defined.

(* ===================================================================== *)
(** ** Validating the values of an insert *)
(* ===================================================================== *)

Lemma to_int_id (z : Z) : INT_MIN <= z <= INT_MAX -> to_int z = z.
Proof.
  unfold INT_MIN, INT_MAX, to_int. intros H.
  rewrite Z.mod_small; lia.
Qed.

Lemma validate_value_spec (column : Column.t) (v : Value.t) :
  (forall s, v = Value.Str s -> Z.of_nat (String.length s) <= INT_MAX) ->
  match MetadataManager.validate_value column v with
  | Ok _ =>
      Spec.value_has_type v (Column.type column) /\ ~ Spec.string_too_long v column
  | Throw _ =>
      ~ Spec.value_has_type v (Column.type column) \/ Spec.string_too_long v column
  end.
Proof.
  intros Hfit. unfold MetadataManager.validate_value, Spec.string_too_long.
  destruct (Column.type column) eqn:Hty; destruct v as [i | s | b]; simpl;
    try (left; tauto);
    try (split; [exact I | intros [Hc _]; discriminate Hc]).
  rewrite to_int_id.
  2:{ specialize (Hfit s eq_refl). unfold INT_MIN. lia. }
  destruct (Z.of_nat (String.length s) >? Column.varchar_length column) eqn:Hlen; simpl.
  - right. split; [reflexivity |]. exists s. split; [reflexivity |].
    apply Z.gtb_lt in Hlen. exact Hlen.
  - split; [exact I |]. intros (_ & s' & [= <-] & Hlt).
    rewrite Z.gtb_ltb in Hlen. apply Z.ltb_ge in Hlen. lia.
Qed.

Lemma validate_values_spec (columns : list Column.t) :
  forall values : list Value.t,
    length values = length columns ->
    Spec.strings_fit_int values ->
    match MetadataManager.validate_values columns values with
    | Ok _ =>
        forall (i : nat) v column,
          values !! i = Some v -> columns !! i = Some column ->
          Spec.value_has_type v (Column.type column) /\ ~ Spec.string_too_long v column
    | Throw _ =>
        exists (i : nat) v column,
          values !! i = Some v /\ columns !! i = Some column /\
          (~ Spec.value_has_type v (Column.type column) \/ Spec.string_too_long v column)
    end.
Proof.
  induction columns as [| c columns IH]; intros [| v values] Hlen Hfit;
    simpl in Hlen; try discriminate Hlen.
  - simpl. intros i v c Hv. discriminate Hv.
  - simpl MetadataManager.validate_values.
    pose proof (validate_value_spec c v) as Hv.
    destruct (MetadataManager.validate_value c v) as [[] | e]; simpl.
    + assert (Hfit' : Spec.strings_fit_int values).
      { intros s Hin. apply Hfit. by right. }
      specialize (IH values ltac:(lia) Hfit').
      destruct (MetadataManager.validate_values columns values) as [[] | e'].
      * intros [| i] v' c' Hv' Hc'; simpl in Hv', Hc'.
        -- injection Hv' as <-. injection Hc' as <-. apply Hv.
           intros s ->. apply Hfit. by left.
        -- by apply (IH i).
      * destruct IH as (i & v' & c' & Hv' & Hc' & Hbad).
        exists (S i), v', c'. auto.
    + exists 0%nat, v, c. split; [reflexivity |]. split; [reflexivity |].
      apply Hv. intros s ->. apply Hfit. by left.
Qed.

Lemma validate_values_not_null (flag : Column.t -> bool) (columns : list Column.t) :
  forall values : list Value.t,
    MetadataManager.validate_values
      (List.map (fun c => Column.mk (Column.name c) (Column.type c)
                            (Column.varchar_length c) (Column.is_primary_key c) (flag c))
                columns) values
    = MetadataManager.validate_values columns values.
Proof.
  induction columns as [| c columns IH]; intros [| v values]; simpl; try reflexivity.
  rewrite IH. reflexivity.
Qed.

(** C4, as stated, fails: for a name that is not registered the call raises
    although no value is miscounted, mistyped or too long. *)
Lemma validate_insert_values_unknown_table :
  throws (MetadataManager.validate_insert_values "ghost" []
            (MetadataManager.mk "data" "data/metadata.db" ∅ (mkFile None true))) /\
  ~ Spec.insert_refused
      (MetadataManager.get_columns "ghost"
         (MetadataManager.mk "data" "data/metadata.db" ∅ (mkFile None true))) [].
Proof.
  split; [eexists; reflexivity |].
  intros [H | (i & v & c & Hv & _)]; [by apply H | discriminate Hv].
Qed.

(** C4 (amended): [validate_insert_values] raises an error if and only if
    the table is not registered, or the number of values differs from the
    number of columns of its schema, or a value does not hold the
    alternative of its column's declared type, or a string is longer than
    its VARCHAR column allows; the outcome is the same whatever the NOT NULL
    flags of the columns are.  String lengths are those an [int] can hold,
    as the code's cast assumes. *)
Theorem validate_insert_values_raises_iff (m : MetadataManager.t)
  (table_name : string) (values : list Value.t) :
  Spec.strings_fit_int values ->
  (throws (MetadataManager.validate_insert_values table_name values m)
   <-> MetadataManager.tables m !! table_name = None \/
       exists schema,
         MetadataManager.tables m !! table_name = Some schema /\
         Spec.insert_refused (TableSchema.columns schema) values) /\
  (forall (schema : TableSchema.t) (flag : Column.t -> bool),
     MetadataManager.tables m !! table_name = Some schema ->
     MetadataManager.validate_insert_values table_name values
       (MetadataManager.set_tables
          (fun tables => <[table_name := Spec.with_not_null flag schema]> tables) m)
     = MetadataManager.validate_insert_values table_name values m).
Proof.
  intros Hfit. split.
  - unfold MetadataManager.validate_insert_values, MetadataManager.get_table_schema,
      Spec.insert_refused.
    destruct (MetadataManager.tables m !! table_name) as [schema |] eqn:Hschema.
    2:{ split; [intros _; by left | intros _; eexists; reflexivity]. }
    destruct (length values =? length (TableSchema.columns schema))%nat eqn:Hlen; simpl.
    + apply Nat.eqb_eq in Hlen.
      pose proof (validate_values_spec (TableSchema.columns schema) values Hlen Hfit) as Hv.
      destruct (MetadataManager.validate_values (TableSchema.columns schema) values)
        as [[] | e].
      * split; [intros [e He]; discriminate He |].
        intros [Hnone | (schema' & [= <-] & [Hne | (i & v & c & Hvi & Hci & Hbad)])];
          [discriminate Hnone | contradiction |].
        destruct (Hv i v c Hvi Hci) as [Hty Hfits]. tauto.
      * split; [intros _; right; exists schema; split; [reflexivity | right; exact Hv]
               | intros _; by exists e].
    + apply Nat.eqb_neq in Hlen.
      split; [intros _; right; exists schema; split; [reflexivity | by left]
             | intros _; eexists; reflexivity].
  - intros schema flag Hschema.
    unfold MetadataManager.validate_insert_values, MetadataManager.get_table_schema.
    simpl. rewrite lookup_insert_eq, Hschema. simpl.
    rewrite length_map, validate_values_not_null. reflexivity.
Qed.

Lemma validate_insert_values_raises_iff_witness :
  throws (MetadataManager.validate_insert_values "users"
            [Value.Int 1; Value.Str "Bob"] Examples.catalog)
  <-> MetadataManager.tables Examples.catalog !! "users" = None \/
      exists schema,
        MetadataManager.tables Examples.catalog !! "users" = Some schema /\
        Spec.insert_refused (TableSchema.columns schema) [Value.Int 1; Value.Str "Bob"].
Proof.
  apply (validate_insert_values_raises_iff Examples.catalog "users"
           [Value.Int 1; Value.Str "Bob"]).
  intros s [H | [H | []]]; [discriminate H |].
  injection H as <-. vm_compute. discriminate.
Defined.

(* ===================================================================== *)
(** ** Strings *)
(* ===================================================================== *)

Lemma sapp_nil_l (s : string) : EmptyString +:+ s = s.
Proof. reflexivity. Qed.

Lemma sapp_cons (c : ascii) (a b : string) : String c a +:+ b = String c (a +:+ b).
Proof. reflexivity. Qed.

Lemma sapp_nil_r (s : string) : s +:+ EmptyString = s.
Proof.
  induction s as [| c s IH]; [reflexivity | by rewrite sapp_cons, IH].
Qed.

Lemma sapp_assoc (a b c : string) : (a +:+ b) +:+ c = a +:+ (b +:+ c).
Proof.
  induction a as [| x a IH]; [reflexivity | by rewrite !sapp_cons, IH].
Qed.

Lemma sapp_snoc (a b : string) (c : ascii) :
  (a +:+ str1 c) +:+ b = a +:+ String c b.
Proof. by rewrite sapp_assoc. Qed.

Lemma length_sapp (a b : string) :
  String.length (a +:+ b) = (String.length a + String.length b)%nat.
Proof.
  induction a as [| x a IH]; [reflexivity |].
  rewrite sapp_cons. simpl. by rewrite IH.
Qed.

(* ===================================================================== *)
(** ** Keywords, whatever their letter case *)
(* ===================================================================== *)

Lemma keyword_spelling (kw : string) (ty : TokenType.t) :
  Tokenizer.keywords !! kw = Some ty ->
  Spec.string_forallb isupper kw = true /\ kw <> EmptyString.
Proof.
  intros H. apply elem_of_list_to_map_2 in H.
  repeat (apply elem_of_cons in H as [[= -> ->] | H]; [split; [reflexivity | discriminate] |]).
  by apply elem_of_nil in H.
Qed.

(** A letter of a keyword, in either case, is an identifier character that
    upper-cases to the keyword's letter. *)
Lemma variant_letter (c k : ascii) :
  isupper k = true -> c = k \/ c = Spec.tolower k ->
  Tokenizer.is_alnum c = true /\ Tokenizer.is_alpha c = true /\
  toupper c = k /\ isspace c = false /\
  (c =? LF)%char = false /\ (c =? "-")%char = false.
Proof.
  intros Hk Hc.
  destruct k as [[] [] [] [] [] [] [] []]; try discriminate Hk;
    destruct Hc as [-> | ->]; repeat split.
Qed.

Lemma variant_word (s kw : string) :
  Spec.string_forallb isupper kw = true -> Spec.case_variant s kw ->
  Spec.string_forallb Tokenizer.is_alnum s = true /\
  Spec.string_forallb (fun c => negb (c =? LF)%char) s = true /\
  map_string toupper s = kw /\
  String.length s = String.length kw.
Proof.
  revert kw. induction s as [| c s IH]; intros [| k kw]; simpl; try tauto.
  intros [Hk Hkw]%andb_true_iff [Hc Hs].
  destruct (variant_letter c k Hk Hc) as (Ha & _ & Hu & _ & Hlf & _).
  destruct (IH kw Hkw Hs) as (H1 & H2 & H3 & H4).
  rewrite Ha, Hlf, H1, H2, Hu, H3, H4. repeat split.
Qed.

(** The identifier loop reads a whole word of identifier characters. *)
Lemma read_while_word (s : string) :
  forall (fuel : nat) (value : string) (l c : Z),
    Spec.string_forallb Tokenizer.is_alnum s = true ->
    Spec.string_forallb (fun c => negb (c =? LF)%char) s = true ->
    (String.length s <= fuel)%nat ->
    Tokenizer.read_while Tokenizer.is_alnum fuel value (Tokenizer.mk s l c)
    = (value +:+ s, Tokenizer.mk EmptyString l (c + Z.of_nat (String.length s))).
Proof.
  induction s as [| x s IH]; intros fuel value l c Hal Hlf Hfuel.
  - simpl. rewrite sapp_nil_r, Z.add_0_r. destruct fuel; reflexivity.
  - simpl in Hal, Hlf, Hfuel.
    apply andb_true_iff in Hal as [Hx Hal]. apply andb_true_iff in Hlf as [Hxlf Hlf].
    apply negb_true_iff in Hxlf.
    destruct fuel as [| fuel]; [lia |].
    simpl. unfold Tokenizer.peek, Tokenizer.advance. simpl.
    rewrite Hx, Hxlf. rewrite IH by (assumption || lia).
    rewrite sapp_snoc. do 2 f_equal. simpl String.length. lia.
Qed.

Lemma skip_whitespace_no_space (tk : Tokenizer.t) :
  isspace (Tokenizer.peek tk) = false -> Tokenizer.skip_whitespace tk = tk.
Proof.
  unfold Tokenizer.skip_whitespace. intros H.
  destruct (Tokenizer.remaining tk); simpl; [reflexivity | by rewrite H].
Qed.

Lemma skip_comment_no_dash (tk : Tokenizer.t) :
  (Tokenizer.peek tk =? "-")%char = false -> Tokenizer.skip_comment tk = tk.
Proof. unfold Tokenizer.skip_comment. by intros ->. Qed.

Lemma next_token_at_end (l c : Z) :
  Tokenizer.next_token (Tokenizer.mk EmptyString l c)
  = Ok (Token.mk TokenType.END_OF_FILE EmptyString l c, Tokenizer.mk EmptyString l c).
Proof. reflexivity. Qed.

Lemma tokenize_keyword_variant (kw : string) (ty : TokenType.t) (s : string) :
  Tokenizer.keywords !! kw = Some ty ->
  Spec.case_variant s kw ->
  Tokenizer.tokenize s
  = Ok [Token.mk ty kw 1 1;
        Token.mk TokenType.END_OF_FILE EmptyString 1 (1 + Z.of_nat (String.length kw))].
Proof.
  intros Hkw Hvar.
  destruct (keyword_spelling kw ty Hkw) as [Hupper Hne].
  destruct (variant_word s kw Hupper Hvar) as (Hal & Hlf & Hmap & Hlen).
  destruct kw as [| k kw]; [congruence |].
  destruct s as [| c s]; [discriminate Hlen |].
  simpl in Hupper, Hvar. apply andb_true_iff in Hupper as [Hk _].
  destruct Hvar as [Hc _].
  destruct (variant_letter c k Hk Hc) as (_ & Halpha & _ & Hsp & _ & Hdash).
  unfold Tokenizer.tokenize, Tokenizer.init.
  set (tk := Tokenizer.mk (String c s) 1 1).
  assert (Hnext : Tokenizer.next_token tk
                  = Ok (Token.mk ty (String k kw) 1 1,
                        Tokenizer.mk EmptyString 1
                          (1 + Z.of_nat (String.length (String c s))))).
  { unfold Tokenizer.next_token.
    rewrite (skip_whitespace_no_space tk) by exact Hsp.
    rewrite (skip_comment_no_dash tk) by exact Hdash.
    rewrite (skip_whitespace_no_space tk) by exact Hsp.
    change (Tokenizer.at_end tk) with false. cbv iota.
    change (Tokenizer.peek tk) with c. rewrite Halpha.
    unfold Tokenizer.read_identifier, Tokenizer.remaining. subst tk.
    cbn [Tokenizer.input Tokenizer.line Tokenizer.column].
    rewrite read_while_word by (assumption || lia).
    rewrite sapp_nil_l, Hmap, Hkw. reflexivity. }
  cbn [Tokenizer.tokenize_loop bind]. rewrite Hnext. cbn [bind].
  assert (Hty : TokenType.eqb (Token.type (Token.mk ty (String k kw) 1 1))
                  TokenType.END_OF_FILE = false).
  { apply TokenType_eqb_neq. simpl. intros ->.
    apply elem_of_list_to_map_2 in Hkw.
    repeat (apply elem_of_cons in Hkw as [Heq | Hkw]; [discriminate Heq |]).
    by apply elem_of_nil in Hkw. }
  rewrite Hty. rewrite Hlen.
  destruct (String.length (String k kw)) eqn:Hl; [discriminate Hl |].
  cbn [Tokenizer.tokenize_loop]. rewrite next_token_at_end. reflexivity.
Qed.

(** C8: every letter-case variant of a keyword's spelling tokenizes to the
    same token, of the keyword's type and with the upper-case spelling as
    its value; the whole token sequence is that of the upper-case spelling.
    So [select], [SELECT] and [SeLeCt] lex identically. *)
Theorem keyword_case_insensitive (kw : string) (ty : TokenType.t) (s : string) :
  Tokenizer.keywords !! kw = Some ty ->
  Spec.case_variant s kw ->
  Tokenizer.tokenize s
  = Ok [Token.mk ty kw 1 1;
        Token.mk TokenType.END_OF_FILE EmptyString 1 (1 + Z.of_nat (String.length kw))] /\
  Tokenizer.tokenize s = Tokenizer.tokenize kw /\
  Tokenizer.tokenize "select" = Tokenizer.tokenize "SELECT" /\
  Tokenizer.tokenize "SeLeCt" = Tokenizer.tokenize "SELECT".
Proof.
  intros Hkw Hvar.
  assert (Hself : Spec.case_variant kw kw).
  { clear. induction kw as [| k kw IH]; simpl; auto. }
  rewrite (tokenize_keyword_variant kw ty s Hkw Hvar).
  rewrite (tokenize_keyword_variant kw ty kw Hkw Hself).
  repeat split.
Qed.

Lemma keyword_case_insensitive_witness :
  Tokenizer.tokenize "SeLeCt"
  = Ok [Token.mk TokenType.SELECT "SELECT" 1 1;
        Token.mk TokenType.END_OF_FILE EmptyString 1 7].
Proof.
  apply (keyword_case_insensitive "SELECT" TokenType.SELECT "SeLeCt").
  - reflexivity.
  - simpl. unfold Spec.tolower. simpl. tauto.
Defined.

(* ===================================================================== *)
(** ** Decimal numerals: [std::stoi] reads back what [operator<<] prints *)
(* ===================================================================== *)

Lemma digit_char (c : ascii) :
  isdigit c = true ->
  isspace c = false /\ (c =? "-")%char = false /\ (c =? "+")%char = false /\
  (c =? ":")%char = false /\ (c =? LF)%char = false /\
  (c =? "|")%char = false /\ (c =? BACKSLASH)%char = false.
Proof.
  destruct c as [[] [] [] [] [] [] [] []]; intros H; try discriminate H; repeat split.
Qed.

Lemma uint_digits (d : Decimal.uint) :
  Spec.string_forallb isdigit (NilEmpty.string_of_uint d) = true.
Proof. induction d; simpl; auto. Qed.

Lemma read_digits_uint (d : Decimal.uint) :
  forall acc : positive,
    read_digits (NilEmpty.string_of_uint d) (Z.pos acc)
    = Z.pos (Pos.of_uint_acc d acc).
Proof.
  induction d; intros acc; simpl; try reflexivity;
    rewrite <- IHd; f_equal; unfold digit_value; simpl; lia.
Qed.

Lemma read_digits_uint_0 (d : Decimal.uint) :
  read_digits (NilEmpty.string_of_uint d) 0 = Z.of_N (Pos.of_uint d).
Proof.
  induction d; simpl; try reflexivity; try exact IHd;
    unfold digit_value; simpl; apply read_digits_uint.
Qed.

Lemma pos_to_uint_nonnil (p : positive) : Pos.to_uint p <> Decimal.Nil.
Proof.
  intros H. pose proof (DecimalPos.Unsigned.of_to p) as Hp.
  rewrite H in Hp. discriminate Hp.
Qed.

Lemma to_string_pos (p : positive) :
  to_string (Z.pos p) = NilEmpty.string_of_uint (Pos.to_uint p).
Proof.
  unfold to_string. simpl. pose proof (pos_to_uint_nonnil p) as H.
  by destruct (Pos.to_uint p).
Qed.

Lemma to_string_neg (p : positive) :
  to_string (Z.neg p) = String "-" (NilEmpty.string_of_uint (Pos.to_uint p)).
Proof.
  unfold to_string. simpl. pose proof (pos_to_uint_nonnil p) as H.
  by destruct (Pos.to_uint p).
Qed.

Lemma pos_numeral (p : positive) :
  exists c r, NilEmpty.string_of_uint (Pos.to_uint p) = String c r /\
              isdigit c = true.
Proof.
  pose proof (pos_to_uint_nonnil p) as H. pose proof (uint_digits (Pos.to_uint p)) as Hd.
  destruct (NilEmpty.string_of_uint (Pos.to_uint p)) as [| c r] eqn:Hs.
  - destruct (Pos.to_uint p); simpl in Hs; congruence.
  - simpl in Hd. apply andb_true_iff in Hd as [Hc _]. by exists c, r.
Qed.

Lemma stoi_numeral (s : string) (c : ascii) (r : string) :
  s = String c r -> isdigit c = true ->
  stoi s = if in_int_range (read_digits s 0) then Ok (read_digits s 0)
           else Throw (out_of_range "stoi").
Proof.
  intros -> Hc. destruct (digit_char c Hc) as (Hsp & Hm & Hp & _).
  unfold stoi. simpl skip_spaces. rewrite Hsp, Hm, Hp.
  simpl starts_with_digit. rewrite Hc. reflexivity.
Qed.

Lemma stoi_minus_numeral (s : string) (c : ascii) (r : string) :
  s = String c r -> isdigit c = true ->
  stoi (String "-" s)
  = if in_int_range (- read_digits s 0) then Ok (- read_digits s 0)
    else Throw (out_of_range "stoi").
Proof.
  intros -> Hc. unfold stoi. simpl skip_spaces.
  change (isspace "-") with false. cbv iota.
  change ("-" =? "-")%char with true. cbv iota.
  simpl starts_with_digit. rewrite Hc. reflexivity.
Qed.

Lemma stoi_to_string (z : Z) :
  INT_MIN <= z <= INT_MAX -> stoi (to_string z) = Ok z.
Proof.
  intros Hz.
  assert (Hr : in_int_range z = true).
  { unfold in_int_range. apply andb_true_iff. split; apply Z.leb_le; lia. }
  destruct z as [| p | p].
  - reflexivity.
  - rewrite to_string_pos. destruct (pos_numeral p) as (c & r & Hs & Hc).
    rewrite (stoi_numeral _ c r Hs Hc), read_digits_uint_0.
    rewrite DecimalPos.Unsigned.of_to. simpl Z.of_N. by rewrite Hr.
  - rewrite to_string_neg. destruct (pos_numeral p) as (c & r & Hs & Hc).
    rewrite (stoi_minus_numeral _ c r Hs Hc), read_digits_uint_0.
    rewrite DecimalPos.Unsigned.of_to. simpl Z.of_N.
    change (- Z.pos p) with (Z.neg p). by rewrite Hr.
Qed.

(** The characters of a printed number. *)
Lemma to_string_chars (z : Z) :
  Spec.string_forallb Spec.numeral_char (to_string z) = true /\
  to_string z <> EmptyString.
Proof.
  assert (Hweak : forall s, Spec.string_forallb isdigit s = true ->
                            Spec.string_forallb Spec.numeral_char s = true).
  { induction s as [| c s IH]; simpl; [reflexivity |].
    intros [Hc Hs]%andb_true_iff. unfold Spec.numeral_char at 1. by rewrite Hc, IH. }
  destruct z as [| p | p].
  - split; [reflexivity | discriminate].
  - rewrite to_string_pos. split; [apply Hweak, uint_digits |].
    destruct (pos_numeral p) as (c & r & -> & _). discriminate.
  - rewrite to_string_neg. split; [| discriminate].
    simpl. apply Hweak, uint_digits.
Qed.

(* ===================================================================== *)
(** ** Serialized rows *)
(* ===================================================================== *)

Lemma unescape_escape (str : string) :
  forall acc : string,
    TableStorage.unescape (TableStorage.escape str) acc = acc +:+ str.
Proof.
  induction str as [| c str IH]; intros acc; simpl.
  - by rewrite sapp_nil_r.
  - destruct (c =? "|")%char eqn:Hp; [apply Ascii.eqb_eq in Hp as -> |];
      [simpl; rewrite IH; apply sapp_snoc |].
    destruct (c =? BACKSLASH)%char eqn:Hb; [apply Ascii.eqb_eq in Hb as -> |];
      [simpl; rewrite IH; apply sapp_snoc |].
    destruct (c =? LF)%char eqn:Hn; [apply Ascii.eqb_eq in Hn as -> |];
      [simpl; rewrite IH; apply sapp_snoc |].
    destruct (c =? CR)%char eqn:Hr; [apply Ascii.eqb_eq in Hr as -> |];
      [simpl; rewrite IH; apply sapp_snoc |].
    simpl. rewrite Hb, IH. apply sapp_snoc.
Qed.

Lemma sealed_nil : Spec.sealed EmptyString.
Proof. intros rest vs cur. by rewrite sapp_nil_l, sapp_nil_r. Qed.

Lemma sealed_plain (c : ascii) (f : string) :
  (c =? BACKSLASH)%char = false -> (c =? "|")%char = false ->
  Spec.sealed f -> Spec.sealed (String c f).
Proof.
  intros Hb Hp Hf rest vs cur. rewrite sapp_cons. simpl.
  rewrite Hb, Hp, Hf. by rewrite sapp_snoc.
Qed.

Lemma sealed_escaped (c : ascii) (f : string) :
  Spec.sealed f -> Spec.sealed (String BACKSLASH (String c f)).
Proof.
  intros Hf rest vs cur. rewrite !sapp_cons. simpl.
  rewrite Hf. by rewrite !sapp_snoc.
Qed.

Lemma sealed_escape (str : string) : Spec.sealed (TableStorage.escape str).
Proof.
  induction str as [| c str IH]; simpl; [apply sealed_nil |].
  destruct ((c =? "|")%char || (c =? BACKSLASH)%char || (c =? LF)%char
            || (c =? CR)%char) eqn:Hc.
  - by apply sealed_escaped.
  - apply orb_false_iff in Hc as [Hc _]. apply orb_false_iff in Hc as [Hc _].
    apply orb_false_iff in Hc as [Hp Hb]. by apply sealed_plain.
Qed.

Lemma sealed_numeral (s : string) :
  Spec.string_forallb Spec.numeral_char s = true -> Spec.sealed s.
Proof.
  induction s as [| c s IH]; simpl; [intros _; apply sealed_nil |].
  intros [Hc Hs]%andb_true_iff. apply sealed_plain; [| | by apply IH].
  - unfold Spec.numeral_char in Hc. destruct c as [[] [] [] [] [] [] [] []];
      try discriminate Hc; reflexivity.
  - unfold Spec.numeral_char in Hc. destruct c as [[] [] [] [] [] [] [] []];
      try discriminate Hc; reflexivity.
Qed.

(** What the serializer writes for one value, and how it reads back. *)
Lemma serialize_value_roundtrip (v : Value.t) (column : Column.t) :
  Spec.value_fits v column ->
  exists f,
    TableStorage.serialize_value v (Column.type column) = Ok f /\
    Spec.sealed f /\
    (f = EmptyString -> v = Value.Str EmptyString) /\
    TableStorage.deserialize_value f (Column.type column) = Ok v.
Proof.
  unfold Spec.value_fits.
  destruct (Column.type column); destruct v as [i | s | b]; simpl; try tauto.
  - intros Hi. exists (to_string i). destruct (to_string_chars i) as [Hch Hne].
    split; [reflexivity |]. split; [by apply sealed_numeral |].
    split; [contradiction |]. by rewrite stoi_to_string.
  - intros _. exists (TableStorage.escape s). split; [reflexivity |].
    split; [apply sealed_escape |]. split.
    + destruct s as [| c s]; [reflexivity |]. simpl.
      by destruct ((c =? "|")%char || (c =? BACKSLASH)%char || (c =? LF)%char
                   || (c =? CR)%char).
    + by rewrite unescape_escape.
  - intros _. exists (if b then "1" else "0"). split; [reflexivity |].
    split; [destruct b; by apply sealed_numeral |].
    split; [by destruct b |]. by destruct b.
Qed.

Lemma serialize_values_fields (row : Row) :
  forall (columns : list Column.t) (first : bool) (oss : string),
    Spec.row_invariant columns row ->
    exists fields,
      TableStorage.serialize_values row columns first oss
      = Ok (oss +:+ Spec.join_fields first fields) /\
      Forall Spec.sealed fields /\
      length fields = length row /\
      (fields = [EmptyString] -> row = [Value.Str EmptyString]) /\
      forall acc, TableStorage.deserialize_values fields columns acc = Ok (acc ++ row).
Proof.
  induction row as [| v row IH]; intros columns first oss Hinv.
  - apply Forall2_nil_inv_l in Hinv as ->. exists []. simpl.
    rewrite sapp_nil_r. repeat split; [constructor | discriminate |].
    intros acc. by rewrite app_nil_r.
  - apply Forall2_cons_inv_l in Hinv as (c & columns' & Hv & Hrow & ->).
    destruct (serialize_value_roundtrip v c Hv) as (f & Hser & Hsealed & Hempty & Hde).
    simpl. rewrite Hser. simpl.
    destruct (IH columns' false ((if first then oss else oss +:+ "|") +:+ f) Hrow)
      as (fields & Hrest & Hall & Hlen & _ & Hback).
    exists (f :: fields). rewrite Hrest. simpl. split.
    { f_equal. destruct first; by rewrite !sapp_assoc. }
    split; [by constructor |]. split; [by rewrite Hlen |]. split.
    + intros [= -> ->]. destruct row; [| discriminate Hlen].
      by rewrite Hempty.
    + intros acc. rewrite Hde. simpl. rewrite Hback. by rewrite <- app_assoc.
Qed.

(** The splitting loop on a joined row: every pipe closes the current value. *)
Lemma split_fields_join (fields : list string) :
  forall (value_strings : list string) (current_value : string),
    Forall Spec.sealed fields ->
    TableStorage.split_fields (Spec.join_fields false fields) value_strings
                              current_value false
    = (removelast (value_strings ++ current_value :: fields),
       List.last (current_value :: fields) EmptyString).
Proof.
  induction fields as [| f fields IH]; intros vs cur Hall.
  - simpl. by rewrite removelast_last.
  - apply Forall_cons in Hall as [Hf Hall].
    simpl Spec.join_fields. rewrite sapp_cons, sapp_nil_l. simpl TableStorage.split_fields.
    pose proof (Hf (Spec.join_fields false fields) (vs ++ [cur]) EmptyString) as Hs.
    rewrite sapp_nil_l in Hs. rewrite Hs, IH by exact Hall.
    rewrite <- app_assoc. reflexivity.
Qed.

Lemma split_fields_row (f : string) (fields : list string) :
  Forall Spec.sealed (f :: fields) ->
  TableStorage.split_fields (Spec.join_fields true (f :: fields)) [] EmptyString false
  = (removelast (f :: fields), List.last (f :: fields) EmptyString).
Proof.
  intros [Hf Hall]%Forall_cons. simpl Spec.join_fields. rewrite sapp_nil_l.
  rewrite Hf, sapp_nil_l. by rewrite split_fields_join.
Qed.

(** Away from one degenerate row, [deserialize_row] undoes [serialize_row]:
    for every row satisfying the Row invariant of the bound table's schema,
    except the row made of a single empty string. *)
Lemma serialize_deserialize_row (ts : TableStorage.t) (row : Row) :
  Spec.row_invariant (TableStorage.columns_of ts) row ->
  row <> [Value.Str EmptyString] ->
  exists row_str,
    TableStorage.serialize_row row ts = Ok row_str /\
    TableStorage.deserialize_row row_str ts = Ok row.
Proof.
  intros Hinv Hne. pose proof (Forall2_length _ _ _ Hinv) as Hlen.
  destruct (serialize_values_fields row _ true EmptyString Hinv)
    as (fields & Hser & Hall & Hflen & Hempty & Hback).
  rewrite sapp_nil_l in Hser.
  exists (Spec.join_fields true fields). split.
  { unfold TableStorage.serialize_row. rewrite Hlen, Nat.eqb_refl. exact Hser. }
  unfold TableStorage.deserialize_row.
  destruct fields as [| f fields].
  - destruct row; [| discriminate Hflen]. simpl in *. by rewrite <- Hlen.
  - rewrite split_fields_row by exact Hall.
    assert (Hpush :
      (if negb (TableStorage.is_empty_string (List.last (f :: fields) EmptyString))
          || negb (bool_decide (removelast (f :: fields) = []))
       then removelast (f :: fields) ++ [List.last (f :: fields) EmptyString]
       else removelast (f :: fields)) = f :: fields).
    { assert (Hsplit : removelast (f :: fields) ++ [List.last (f :: fields) EmptyString]
                       = f :: fields).
      { symmetry. apply app_removelast_last. discriminate. }
      destruct (TableStorage.is_empty_string (List.last (f :: fields) EmptyString))
        eqn:He; cbn [negb orb];
        [| exact Hsplit].
      destruct (bool_decide (removelast (f :: fields) = [])) eqn:Hd; cbn [negb];
        [| exact Hsplit].
      exfalso. apply Hne, Hempty. apply bool_decide_eq_true in Hd.
      destruct fields as [| g fields]; [| discriminate Hd].
      simpl in He. by destruct f. }
    rewrite Hpush. rewrite Hflen, Hlen, Nat.eqb_refl. simpl. apply (Hback []).
Qed.

(** C1 (the code departs from the claim): the row made of one empty string
    satisfies the Row invariant of a table with a single VARCHAR column and
    serializes to the empty text, which [deserialize_row] rejects; inserted,
    it is stored as a blank line and no scan returns it. *)
Theorem roundtrip_fails_on_single_empty_string :
  Spec.row_invariant (TableStorage.columns_of Examples.notes)
    [Value.Str EmptyString] /\
  TableStorage.serialize_row [Value.Str EmptyString] Examples.notes
  = Ok EmptyString /\
  TableStorage.deserialize_row EmptyString Examples.notes
  = Throw (runtime_error "Row data doesn't match table schema") /\
  fst (TableStorage.insert_row [Value.Str EmptyString] Examples.notes) = Ok tt /\
  TableStorage.select_all
    (snd (TableStorage.insert_row [Value.Str EmptyString] Examples.notes))
  = Ok [].
Proof.
  split.
  - change (TableStorage.columns_of Examples.notes)
      with (TableSchema.columns Examples.notes_schema).
    constructor; [| constructor]. unfold Spec.value_fits. simpl. lia.
  - repeat split; vm_compute; reflexivity.
Qed.

(* ===================================================================== *)
(** ** Reading lines and fields *)
(* ===================================================================== *)

Lemma split_at_field (d : ascii) (a rest : string) :
  Spec.string_forallb (fun c => negb (c =? d)%char) a = true ->
  split_at d (a +:+ String d rest) = (a, rest).
Proof.
  induction a as [| c a IH]; simpl.
  - intros _. rewrite ?sapp_nil_l. simpl. by rewrite Ascii.eqb_refl.
  - intros [Hc Ha]%andb_true_iff. apply negb_true_iff in Hc.
    rewrite ?sapp_cons. simpl. by rewrite Hc, IH.
Qed.

Lemma split_at_last (d : ascii) (a : string) :
  Spec.string_forallb (fun c => negb (c =? d)%char) a = true ->
  split_at d a = (a, EmptyString).
Proof.
  induction a as [| c a IH]; simpl; [reflexivity |].
  intros [Hc Ha]%andb_true_iff. apply negb_true_iff in Hc. by rewrite Hc, IH.
Qed.

Lemma getline_unchecked_split (d : ascii) (s : string) :
  getline_unchecked d s = split_at d s.
Proof. by destruct s. Qed.

Lemma split_at_length (d : ascii) (s : string) :
  (String.length (snd (split_at d s)) <= String.length s)%nat.
Proof.
  induction s as [| c s IH]; simpl; [lia |].
  destruct (c =? d)%char; simpl; [lia |].
  destruct (split_at d s); simpl in *. lia.
Qed.

Lemma split_at_cons_length (d c : ascii) (s : string) :
  (String.length (snd (split_at d (String c s))) <= String.length s)%nat.
Proof.
  simpl. destruct (c =? d)%char; simpl; [lia |].
  pose proof (split_at_length d s) as H.
  destruct (split_at d s); simpl in *. lia.
Qed.

(** Fuel beyond the length of the text changes nothing. *)
Lemma getlines_fuel_enough (fuel : nat) :
  forall s : string,
    (String.length s <= fuel)%nat ->
    getlines_fuel fuel s = getlines s.
Proof.
  unfold getlines.
  induction fuel as [fuel IH] using lt_wf_ind. intros s Hlen.
  destruct s as [| c s].
  - by destruct fuel.
  - destruct fuel as [| fuel]; [simpl in Hlen; lia |].
    simpl String.length. cbn [getlines_fuel getline].
    pose proof (split_at_cons_length LF c s) as Hrest.
    destruct (split_at LF (String c s)) as [l r]. simpl in Hrest, Hlen.
    f_equal. rewrite (IH fuel) by lia.
    symmetry. apply IH; lia.
Qed.

Lemma getlines_cons (l rest : string) :
  Spec.string_forallb (fun c => negb (c =? LF)%char) l = true ->
  getlines (l +:+ String LF rest) = l :: getlines rest.
Proof.
  intros Hl. unfold getlines at 1.
  destruct (String.length (l +:+ String LF rest)) as [| fuel] eqn:Hlen.
  { rewrite length_sapp in Hlen. simpl in Hlen. lia. }
  cbn [getlines_fuel]. unfold getline.
  destruct (l +:+ String LF rest) as [| c s] eqn:Hs.
  { discriminate Hlen. }
  rewrite <- Hs, split_at_field by exact Hl. f_equal.
  apply getlines_fuel_enough.
  rewrite <- Hs, length_sapp in Hlen. simpl in Hlen. lia.
Qed.

Lemma name_char_no_colon (s : string) :
  Spec.valid_name s -> Spec.string_forallb (fun c => negb (c =? ":")%char) s = true.
Proof.
  unfold Spec.valid_name. induction s as [| c s IH]; simpl; [reflexivity |].
  intros [Hc Hs]%andb_true_iff. unfold Spec.name_char in Hc.
  apply andb_true_iff in Hc as [Hc _]. by rewrite Hc, IH.
Qed.

Lemma name_char_no_lf (s : string) :
  Spec.valid_name s -> Spec.string_forallb (fun c => negb (c =? LF)%char) s = true.
Proof.
  unfold Spec.valid_name. induction s as [| c s IH]; simpl; [reflexivity |].
  intros [Hc Hs]%andb_true_iff. unfold Spec.name_char in Hc.
  apply andb_true_iff in Hc as [_ Hc]. by rewrite Hc, IH.
Qed.

Lemma numeral_name (s : string) :
  Spec.string_forallb Spec.numeral_char s = true -> Spec.valid_name s.
Proof.
  unfold Spec.valid_name. induction s as [| c s IH]; simpl; [reflexivity |].
  intros [Hc Hs]%andb_true_iff. rewrite IH by exact Hs. rewrite andb_true_r.
  unfold Spec.numeral_char in Hc.
  destruct c as [[] [] [] [] [] [] [] []]; try discriminate Hc; reflexivity.
Qed.

Lemma string_forallb_app (p : ascii -> bool) (a b : string) :
  Spec.string_forallb p (a +:+ b)
  = Spec.string_forallb p a && Spec.string_forallb p b.
Proof.
  induction a as [| c a IH]; [reflexivity |].
  rewrite sapp_cons. simpl. by rewrite IH, andb_assoc.
Qed.

(* ===================================================================== *)
(** ** The metadata file: what is saved loads back *)
(* ===================================================================== *)

Lemma serialize_column_fields (c : Column.t) :
  MetadataManager.serialize_column c
  = "COLUMN" +:+ String ":" (Column.name c +:+ String ":"
      (MetadataManager.serialize_data_type (Column.type c) +:+ String ":"
        (to_string (Column.varchar_length (Spec.reloaded_column c)) +:+ String ":"
          ((if Column.is_primary_key c then "1" else "0") +:+ String ":"
            (if Column.is_not_null c then "1" else "0"))))).
Proof.
  unfold MetadataManager.serialize_column, Spec.reloaded_column.
  destruct (Column.type c); simpl DataType.eqb; cbv iota;
    rewrite ?sapp_assoc; reflexivity.
Qed.

Lemma deserialize_serialize_column (c : Column.t) :
  Spec.valid_name (Column.name c) ->
  Spec.column_representable c ->
  MetadataManager.deserialize_column (MetadataManager.serialize_column c)
  = Ok (Spec.reloaded_column c).
Proof.
  intros Hname Hrep. rewrite serialize_column_fields.
  unfold MetadataManager.deserialize_column.
  rewrite !getline_unchecked_split.
  rewrite split_at_field by reflexivity.
  rewrite getline_unchecked_split, split_at_field by (by apply name_char_no_colon).
  rewrite getline_unchecked_split, split_at_field by (by destruct (Column.type c)).
  assert (Hty : MetadataManager.deserialize_data_type
                  (MetadataManager.serialize_data_type (Column.type c))
                = Ok (Column.type c)) by (by destruct (Column.type c)).
  rewrite Hty. cbn [bind].
  set (len := Column.varchar_length (Spec.reloaded_column c)).
  assert (Hlen : INT_MIN <= len <= INT_MAX).
  { subst len. unfold Spec.reloaded_column. simpl.
    destruct (DataType.eqb (Column.type c) DataType.VARCHAR); [exact Hrep |].
    unfold INT_MIN, INT_MAX. lia. }
  destruct (to_string_chars len) as [Hch _].
  rewrite getline_unchecked_split, split_at_field
    by (apply name_char_no_colon, numeral_name, Hch).
  rewrite stoi_to_string by exact Hlen. cbn [bind].
  rewrite getline_unchecked_split, split_at_field
    by (by destruct (Column.is_primary_key c)).
  rewrite getline_unchecked_split, split_at_last
    by (by destruct (Column.is_not_null c)).
  unfold Spec.reloaded_column. subst len. simpl. f_equal.
  destruct c as [n t l pk nn]; simpl. f_equal; [by destruct pk | by destruct nn].
Qed.

Lemma read_columns_serialized (columns : list Column.t) :
  forall (rest : list string) (acc : list Column.t),
    Forall (fun c => Spec.valid_name (Column.name c)) columns ->
    Forall Spec.column_representable columns ->
    MetadataManager.read_columns (length columns)
      (List.map MetadataManager.serialize_column columns ++ rest) acc
    = Ok (acc ++ List.map Spec.reloaded_column columns, rest).
Proof.
  induction columns as [| c columns IH]; intros rest acc Hnames Hrep; simpl.
  - by rewrite app_nil_r.
  - apply Forall_cons in Hnames as [Hn Hnames]. apply Forall_cons in Hrep as [Hr Hrep].
    rewrite deserialize_serialize_column by assumption. cbn [bind].
    rewrite IH by assumption. by rewrite <- app_assoc.
Qed.

Lemma string_forallb_cons (p : ascii -> bool) (c : ascii) (s : string) :
  Spec.string_forallb p (String c s) = p c && Spec.string_forallb p s.
Proof. reflexivity. Qed.

Lemma serialize_column_no_lf (c : Column.t) :
  Spec.valid_name (Column.name c) ->
  Spec.string_forallb (fun c => negb (c =? LF)%char)
    (MetadataManager.serialize_column c) = true.
Proof.
  intros Hname. rewrite serialize_column_fields.
  destruct (to_string_chars (Column.varchar_length (Spec.reloaded_column c))) as [Hch _].
  apply numeral_name, name_char_no_lf in Hch. apply name_char_no_lf in Hname.
  repeat (rewrite string_forallb_app || rewrite string_forallb_cons).
  rewrite Hname, Hch.
  by destruct (Column.type c), (Column.is_primary_key c), (Column.is_not_null c).
Qed.

Lemma table_line_no_lf (entry : string * TableSchema.t) :
  Spec.valid_name (fst entry) ->
  Spec.string_forallb (fun c => negb (c =? LF)%char)
    ("TABLE:" +:+ fst entry +:+ ":" +:+
     to_string (Z.of_nat (length (TableSchema.columns (snd entry))))) = true.
Proof.
  intros Hname.
  destruct (to_string_chars (Z.of_nat (length (TableSchema.columns (snd entry)))))
    as [Hch _].
  apply numeral_name, name_char_no_lf in Hch. apply name_char_no_lf in Hname.
  by rewrite !string_forallb_app, Hname, Hch.
Qed.

Lemma getlines_columns (columns : list Column.t) (tail : string) :
  Forall (fun c => Spec.valid_name (Column.name c)) columns ->
  getlines (fold_right (fun column rest =>
                          MetadataManager.serialize_column column +:+ str1 LF +:+ rest)
                       EmptyString columns +:+ tail)
  = List.map MetadataManager.serialize_column columns ++ getlines tail.
Proof.
  induction columns as [| c columns IH]; intros Hnames; simpl.
  - by rewrite sapp_nil_l.
  - apply Forall_cons in Hnames as [Hn Hnames].
    rewrite !sapp_assoc. unfold str1 at 1. rewrite sapp_cons, sapp_nil_l.
    rewrite getlines_cons by (by apply serialize_column_no_lf).
    by rewrite IH.
Qed.

Lemma getlines_render_table (entry : string * TableSchema.t) (tail : string) :
  Spec.valid_name (fst entry) ->
  Forall (fun c => Spec.valid_name (Column.name c)) (TableSchema.columns (snd entry)) ->
  getlines (MetadataManager.render_table entry +:+ tail)
  = Spec.table_lines entry ++ getlines tail.
Proof.
  intros Hname Hnames. destruct entry as [k schema]. simpl in Hname, Hnames.
  unfold MetadataManager.render_table, Spec.table_lines. simpl fst. simpl snd.
  set (n := to_string (Z.of_nat (length (TableSchema.columns schema)))).
  transitivity (getlines (("TABLE:" +:+ k +:+ ":" +:+ n) +:+ String LF
    (fold_right (fun column rest =>
                   MetadataManager.serialize_column column +:+ str1 LF +:+ rest)
                EmptyString (TableSchema.columns schema) +:+ String LF tail))).
  { f_equal. rewrite !sapp_assoc. unfold str1. by rewrite !sapp_cons, !sapp_nil_l. }
  rewrite getlines_cons by (apply (table_line_no_lf (k, schema)); exact Hname).
  rewrite getlines_columns by exact Hnames.
  change (String LF tail) with (EmptyString +:+ String LF tail).
  rewrite getlines_cons by reflexivity.
  rewrite <- app_comm_cons, <- app_assoc. reflexivity.
Qed.

Lemma getlines_render_tables (entries : list (string * TableSchema.t)) :
  Forall (fun e => Spec.valid_name (fst e) /\
                   Forall (fun c => Spec.valid_name (Column.name c))
                          (TableSchema.columns (snd e))) entries ->
  getlines (fold_right (fun entry rest => MetadataManager.render_table entry +:+ rest)
                       EmptyString entries)
  = concat (List.map Spec.table_lines entries).
Proof.
  induction entries as [| e entries IH]; intros Hall; simpl; [reflexivity |].
  apply Forall_cons in Hall as [[Hn Hc] Hall].
  rewrite getlines_render_table by assumption. by rewrite IH.
Qed.

Lemma getlines_render_metadata (entries : list (string * TableSchema.t)) :
  Forall (fun e => Spec.valid_name (fst e) /\
                   Forall (fun c => Spec.valid_name (Column.name c))
                          (TableSchema.columns (snd e))) entries ->
  getlines (MetadataManager.render_metadata entries)
  = "# SQL Database Engine Metadata" ::
    "# Format: TABLE:name:column_count followed by column definitions" ::
    EmptyString :: concat (List.map Spec.table_lines entries).
Proof.
  intros Hall.
  change (MetadataManager.render_metadata entries)
    with ("# SQL Database Engine Metadata" +:+ String LF
          ("# Format: TABLE:name:column_count followed by column definitions"
           +:+ String LF (EmptyString +:+ String LF
             (fold_right (fun entry rest => MetadataManager.render_table entry +:+ rest)
                         EmptyString entries)))).
  rewrite getlines_cons by reflexivity.
  rewrite getlines_cons by reflexivity.
  rewrite getlines_cons by reflexivity.
  by rewrite getlines_render_tables.
Qed.

Lemma substring_table_prefix (s : string) :
  substring 0 6 ("TABLE:" +:+ s) = "TABLE:".
Proof.
  change (substring 0 6 ("TABLE:" +:+ s)) with ("TABLE:" +:+ substring 0 0 s).
  by destruct s.
Qed.

(** One table block of the file, as the loading loop reads it. *)
Lemma load_loop_table_line (k : string) (columns : list Column.t) (rest : list string)
  (fuel : nat) (tables : gmap string TableSchema.t) :
  Spec.valid_name k ->
  Forall (fun c => Spec.valid_name (Column.name c)) columns ->
  Z.of_nat (length columns) <= INT_MAX ->
  Forall Spec.column_representable columns ->
  MetadataManager.load_loop (S fuel)
    (("TABLE:" +:+ k +:+ ":" +:+ to_string (Z.of_nat (length columns))) ::
     List.map MetadataManager.serialize_column columns ++ rest) tables
  = MetadataManager.load_loop fuel rest
      (<[k := TableSchema.mk k (List.map Spec.reloaded_column columns)]> tables).
Proof.
  intros Hname Hnames Hcount Hrep.
  set (n := Z.of_nat (length columns)) in *.
  cbn [MetadataManager.load_loop].
  change (MetadataManager.is_blank_or_comment ("TABLE:" +:+ k +:+ ":" +:+ to_string n))
    with false.
  rewrite substring_table_prefix. cbv iota. change ("TABLE:" =? "TABLE:")%string with true. cbv iota.
  change ("TABLE:" +:+ k +:+ ":" +:+ to_string n)
    with ("TABLE" +:+ String ":" (k +:+ String ":" (to_string n))).
  rewrite getline_unchecked_split, split_at_field by reflexivity.
  rewrite getline_unchecked_split, split_at_field by (by apply name_char_no_colon).
  destruct (to_string_chars n) as [Hch _].
  rewrite getline_unchecked_split, split_at_last
    by (apply name_char_no_lf, numeral_name, Hch).
  rewrite stoi_to_string by (unfold INT_MIN; lia). cbn [bind].
  subst n. rewrite Nat2Z.id.
  rewrite read_columns_serialized by assumption. cbn [bind].
  reflexivity.
Qed.

Lemma load_loop_blank (rest : list string) (fuel : nat)
  (tables : gmap string TableSchema.t) :
  MetadataManager.load_loop (S fuel) (EmptyString :: rest) tables
  = MetadataManager.load_loop fuel rest tables.
Proof. reflexivity. Qed.

Lemma load_loop_table (entry : string * TableSchema.t) (rest : list string)
  (fuel : nat) (tables : gmap string TableSchema.t) :
  Spec.valid_name (fst entry) ->
  Forall (fun c => Spec.valid_name (Column.name c)) (TableSchema.columns (snd entry)) ->
  Z.of_nat (length (TableSchema.columns (snd entry))) <= INT_MAX ->
  Forall Spec.column_representable (TableSchema.columns (snd entry)) ->
  MetadataManager.load_loop (S (S fuel)) (Spec.table_lines entry ++ rest) tables
  = MetadataManager.load_loop fuel rest (Spec.register_reloaded tables entry).
Proof.
  intros Hname Hnames Hcount Hrep.
  unfold Spec.table_lines. rewrite <- app_comm_cons, <- app_assoc.
  rewrite load_loop_table_line by assumption.
  simpl app. by rewrite load_loop_blank.
Qed.

Lemma table_lines_length (entry : string * TableSchema.t) :
  (2 <= length (Spec.table_lines entry))%nat.
Proof. unfold Spec.table_lines. simpl. rewrite length_app. simpl. lia. Qed.

Lemma load_loop_tables (entries : list (string * TableSchema.t)) :
  forall (fuel : nat) (tables : gmap string TableSchema.t),
    Forall (fun e => Spec.valid_name (fst e) /\
                     Forall (fun c => Spec.valid_name (Column.name c))
                            (TableSchema.columns (snd e))) entries ->
    Forall (fun e => Z.of_nat (length (TableSchema.columns (snd e))) <= INT_MAX /\
                     Forall Spec.column_representable (TableSchema.columns (snd e)))
           entries ->
    (length (concat (List.map Spec.table_lines entries)) <= fuel)%nat ->
    MetadataManager.load_loop fuel (concat (List.map Spec.table_lines entries)) tables
    = Ok (foldl Spec.register_reloaded tables entries).
Proof.
  induction entries as [| e entries IH]; intros fuel tables Hnames Hrep Hfuel.
  - simpl. by destruct fuel.
  - apply Forall_cons in Hnames as [[Hn Hc] Hnames].
    apply Forall_cons in Hrep as [[Hcount Hr] Hrep].
    change (concat (List.map Spec.table_lines (e :: entries)))
      with (Spec.table_lines e ++ concat (List.map Spec.table_lines entries)) in *.
    rewrite length_app in Hfuel.
    pose proof (table_lines_length e) as H2.
    destruct fuel as [| [| fuel]]; [lia | lia |].
    rewrite load_loop_table by assumption.
    rewrite IH by (assumption || lia). reflexivity.
Qed.

(** The registry the loading loop builds from the blocks of distinct tables. *)
Lemma foldl_register_lookup (entries : list (string * TableSchema.t)) :
  forall (tables : gmap string TableSchema.t) (k : string),
    NoDup entries.*1 ->
    foldl Spec.register_reloaded tables entries !! k
    = match (list_to_map entries : gmap string TableSchema.t) !! k with
      | Some schema =>
          Some (TableSchema.mk k (List.map Spec.reloaded_column
                                           (TableSchema.columns schema)))
      | None => tables !! k
      end.
Proof.
  induction entries as [| [k0 s0] entries IH]; intros tables k Hnd.
  - simpl. by rewrite lookup_empty.
  - simpl in Hnd. apply NoDup_cons in Hnd as [Hfresh Hnd].
    simpl foldl. rewrite IH by exact Hnd.
    unfold Spec.register_reloaded. simpl fst. simpl snd. simpl list_to_map.
    destruct (decide (k0 = k)) as [-> | Hne].
    + rewrite !lookup_insert_eq.
      by rewrite (not_elem_of_list_to_map_1 _ _ Hfresh).
    + by rewrite !lookup_insert_ne.
Qed.

Lemma reload_entries (tables : gmap string TableSchema.t)
  (entries : list (string * TableSchema.t)) :
  entries ≡ₚ map_to_list tables ->
  Spec.catalog_representable tables ->
  foldl Spec.register_reloaded ∅ entries = Spec.reloaded_schema <$> tables.
Proof.
  intros Hperm Hrep. apply map_eq. intros k.
  assert (Hnd : NoDup entries.*1).
  { rewrite Hperm. apply NoDup_fst_map_to_list. }
  rewrite foldl_register_lookup by exact Hnd.
  rewrite (list_to_map_proper entries (map_to_list tables) Hnd Hperm).
  rewrite list_to_map_to_list, lookup_fmap, lookup_empty.
  destruct (tables !! k) as [schema |] eqn:Hk; [| reflexivity].
  simpl. destruct (Hrep k schema Hk) as [Hname _].
  unfold Spec.reloaded_schema. by rewrite Hname.
Qed.

(** Whatever the order in which the tables are written, the text loads
    back to the same registry: the iteration order of the map, which the
    language leaves unspecified, does not matter. *)
Lemma load_rendered_metadata (tables : gmap string TableSchema.t)
  (entries : list (string * TableSchema.t)) :
  entries ≡ₚ map_to_list tables ->
  Spec.valid_names tables -> Spec.catalog_representable tables ->
  MetadataManager.load_loop
    (length (getlines (MetadataManager.render_metadata entries)))
    (getlines (MetadataManager.render_metadata entries)) ∅
  = Ok (Spec.reloaded_schema <$> tables).
Proof.
  intros Hperm Hnames Hrep.
  assert (Hin : forall k s, (k, s) ∈ entries -> tables !! k = Some s).
  { intros k s H. rewrite Hperm in H. by apply elem_of_map_to_list in H. }
  assert (Hvalid : Forall (fun e => Spec.valid_name (fst e) /\
                     Forall (fun c => Spec.valid_name (Column.name c))
                            (TableSchema.columns (snd e))) entries).
  { apply Forall_forall. intros [k s] H. exact (Hnames k s (Hin k s H)). }
  assert (Hfits : Forall (fun e =>
                     Z.of_nat (length (TableSchema.columns (snd e))) <= INT_MAX /\
                     Forall Spec.column_representable (TableSchema.columns (snd e)))
                    entries).
  { apply Forall_forall. intros [k s] H.
    destruct (Hrep k s (Hin k s H)) as (_ & H1 & H2). by split. }
  rewrite getlines_render_metadata by exact Hvalid.
  cbn [length MetadataManager.load_loop MetadataManager.is_blank_or_comment].
  change ("#" =? "#")%char with true. cbv iota.
  rewrite load_loop_tables by (assumption || lia).
  by rewrite (reload_entries tables entries Hperm Hrep).
Qed.

Lemma reloaded_column_id (c : Column.t) :
  (Column.type c <> DataType.VARCHAR -> Column.varchar_length c = 0) ->
  Spec.reloaded_column c = c.
Proof.
  intros H. unfold Spec.reloaded_column. destruct c as [n t l pk nn]; simpl in *.
  f_equal. destruct t; simpl; try reflexivity; symmetry; apply H; discriminate.
Qed.

(** C7, as stated, fails: a column that is not a VARCHAR but carries a
    length loses it in the file, which records 0 for it. *)
Lemma save_load_drops_unused_length :
  Spec.valid_names
    {["t" := TableSchema.mk "t" [Column.mk "a" DataType.INTEGER 5 false false]]} /\
  fst (MetadataManager.save_metadata
         (MetadataManager.mk "data" "data/metadata.db"
            {["t" := TableSchema.mk "t" [Column.mk "a" DataType.INTEGER 5 false false]]}
            (mkFile None true))) = Ok tt /\
  MetadataManager.tables
    (snd (MetadataManager.load_metadata
            (MetadataManager.mk "data" "data/metadata.db" ∅
               (MetadataManager.disk
                  (snd (MetadataManager.save_metadata
                          (MetadataManager.mk "data" "data/metadata.db"
                             {["t" := TableSchema.mk "t"
                                        [Column.mk "a" DataType.INTEGER 5 false false]]}
                             (mkFile None true)))))))) !! "t"
  = Some (TableSchema.mk "t" [Column.mk "a" DataType.INTEGER 0 false false]).
Proof.
  split; [| split; [vm_compute; reflexivity | vm_compute; reflexivity]].
  intros k schema Hk. apply lookup_singleton_Some in Hk as [<- <-].
  split; [reflexivity |]. repeat constructor.
Qed.

(** C7 (amended): for every catalog state whose table and column names hold
    no ':' and no newline, writing the metadata file with [save_metadata]
    and loading it into a fresh catalog with [load_metadata] reproduces the
    same table names, each with the same ordered columns, declared types,
    primary-key and not-null flags, and the same lengths for the VARCHAR
    columns; a column of another type reloads with length 0.  So the
    reloaded schema set is identical whenever the columns that are not
    VARCHAR carry length 0, as those the parser builds do. *)
Theorem save_then_load_metadata (m m1 : MetadataManager.t) :
  Spec.valid_names (MetadataManager.tables m) ->
  Spec.catalog_representable (MetadataManager.tables m) ->
  MetadataManager.save_metadata m = (Ok tt, m1) ->
  MetadataManager.load_metadata (Spec.fresh m (MetadataManager.disk m1))
  = (Ok tt,
     MetadataManager.set_tables
       (fun _ => Spec.reloaded_schema <$> MetadataManager.tables m)
       (Spec.fresh m (MetadataManager.disk m1))) /\
  ((forall table_name schema c,
      MetadataManager.tables m !! table_name = Some schema ->
      In c (TableSchema.columns schema) ->
      Column.type c <> DataType.VARCHAR -> Column.varchar_length c = 0) ->
   Spec.reloaded_schema <$> MetadataManager.tables m = MetadataManager.tables m).
Proof.
  intros Hnames Hrep Hsave. split.
  - rewrite save_metadata_cases in Hsave.
    destruct (writable (MetadataManager.disk m)); [| discriminate Hsave].
    injection Hsave as <-.
    unfold MetadataManager.load_metadata, Spec.fresh, Spec.persisted.
    cbn [MetadataManager.disk MetadataManager.set_disk content write_file
         MetadataManager.tables].
    by rewrite (load_rendered_metadata (MetadataManager.tables m)
                  (map_to_list (MetadataManager.tables m))).
  - intros Hzero. apply map_eq. intros k. rewrite lookup_fmap.
    destruct (MetadataManager.tables m !! k) as [schema |] eqn:Hk; [| reflexivity].
    simpl. f_equal. unfold Spec.reloaded_schema. destruct schema as [n cols].
    simpl in *. f_equal.
    assert (Hcols : forall c, In c cols ->
                      Column.type c <> DataType.VARCHAR -> Column.varchar_length c = 0).
    { intros c Hin. by apply (Hzero k _ c Hk). }
    clear Hk Hzero. induction cols as [| c cols IH]; [reflexivity |].
    simpl. rewrite reloaded_column_id, IH.
    + reflexivity.
    + intros c' Hin. apply Hcols. by right.
    + apply Hcols. by left.
Qed.

Lemma save_then_load_metadata_witness :
  MetadataManager.load_metadata
    (Spec.fresh Examples.small_catalog (MetadataManager.disk (Spec.persisted Examples.small_catalog)))
  = (Ok tt,
     MetadataManager.set_tables
       (fun _ => Spec.reloaded_schema <$> MetadataManager.tables Examples.small_catalog)
       (Spec.fresh Examples.small_catalog (MetadataManager.disk (Spec.persisted Examples.small_catalog)))).
Proof.
  apply (save_then_load_metadata Examples.small_catalog (Spec.persisted Examples.small_catalog)).
  - intros k schema Hk. change (MetadataManager.tables Examples.small_catalog)
      with ({["t" := TableSchema.mk "t" [Column.mk "s" DataType.VARCHAR 5 true false]]}
            : gmap string TableSchema.t) in Hk.
    apply lookup_singleton_Some in Hk as [<- <-].
    split; [reflexivity |]. repeat constructor.
  - intros k schema Hk. change (MetadataManager.tables Examples.small_catalog)
      with ({["t" := TableSchema.mk "t" [Column.mk "s" DataType.VARCHAR 5 true false]]}
            : gmap string TableSchema.t) in Hk.
    apply lookup_singleton_Some in Hk as [<- <-].
    split; [reflexivity |]. split; [vm_compute; discriminate |].
    repeat constructor; vm_compute; discriminate.
  - reflexivity.
Defined.

(* ===================================================================== *)
(** ** The parser's primitives *)
(* ===================================================================== *)

Lemma rest_cons (p : Parser.t) (tok : Token.t) (r : list Token.t) :
  Spec.rest p = tok :: r ->
  Parser.tokens p !! Parser.current_pos p = Some tok /\ Spec.rest (Spec.next p) = r.
Proof.
  unfold Spec.rest, Spec.next. intros H. split.
  - rewrite <- (Nat.add_0_r (Parser.current_pos p)), <- lookup_drop, H. reflexivity.
  - simpl. rewrite <- Nat.add_1_r, <- drop_drop, H. reflexivity.
Qed.

Lemma rest_nil (p : Parser.t) :
  Spec.rest p = [] -> Parser.tokens p !! Parser.current_pos p = None.
Proof.
  unfold Spec.rest. intros H.
  rewrite <- (Nat.add_0_r (Parser.current_pos p)), <- lookup_drop, H. reflexivity.
Qed.

Lemma peek_cons (p : Parser.t) (tok : Token.t) (r : list Token.t) :
  Spec.rest p = tok :: r -> Parser.peek p = tok.
Proof. intros [H _]%rest_cons. unfold Parser.peek. by rewrite H. Qed.

Lemma peek_nil (p : Parser.t) : Spec.rest p = [] -> Parser.peek p = Parser.eof_token.
Proof. intros H%rest_nil. unfold Parser.peek. by rewrite H. Qed.

Lemma advance_cons (p : Parser.t) (tok : Token.t) (r : list Token.t) :
  Spec.rest p = tok :: r -> Parser.advance p = (Ok tok, Spec.next p).
Proof. intros [H _]%rest_cons. unfold Parser.advance. by rewrite H. Qed.

Lemma advance_nil (p : Parser.t) :
  Spec.rest p = [] -> Parser.advance p = (Ok Parser.eof_token, p).
Proof. intros H%rest_nil. unfold Parser.advance. by rewrite H. Qed.

(** A token of a type other than END_OF_FILE under the cursor is a real
    token of the sequence. *)
Lemma peek_real (p : Parser.t) (ty : TokenType.t) :
  Token.type (Parser.peek p) = ty -> ty <> TokenType.END_OF_FILE ->
  exists r, Spec.rest p = Parser.peek p :: r.
Proof.
  intros Hty Hne. destruct (Spec.rest p) as [| tok r] eqn:Hrest.
  - rewrite (peek_nil p Hrest) in Hty. simpl in Hty. congruence.
  - exists r. by rewrite (peek_cons p tok r Hrest).
Qed.

Lemma remaining_rest (p : Parser.t) : Parser.remaining p = length (Spec.rest p).
Proof. unfold Parser.remaining, Spec.rest. by rewrite length_drop. Qed.

(** Running the monad. *)
Lemma mbind_ok_inv {S A B : Type} (m : M S A) (k : A -> M S B) (s s' : S) (b : B) :
  mbind m k s = (Ok b, s') ->
  exists a s1, m s = (Ok a, s1) /\ k a s1 = (Ok b, s').
Proof.
  unfold mbind. destruct (m s) as [[a | e] s1]; [| discriminate].
  intros H. by exists a, s1.
Qed.

Lemma mbind_ok {S A B : Type} (m : M S A) (k : A -> M S B) (s s1 : S) (a : A) :
  m s = (Ok a, s1) -> mbind m k s = k a s1.
Proof. unfold mbind. by intros ->. Qed.

Lemma match_yes (ty : TokenType.t) (p : Parser.t) (tok : Token.t) (r : list Token.t) :
  Spec.rest p = tok :: r -> Token.type tok = ty ->
  Parser.match_ ty p = (Ok true, Spec.next p).
Proof.
  intros Hrest Hty. unfold Parser.match_, mbind, gets, ret.
  rewrite (peek_cons p tok r Hrest), Hty, TokenType_eqb_refl.
  by rewrite (advance_cons p tok r Hrest).
Qed.

Lemma match_no (ty : TokenType.t) (p : Parser.t) :
  Token.type (Parser.peek p) <> ty -> Parser.match_ ty p = (Ok false, p).
Proof.
  intros Hty%TokenType_eqb_neq. unfold Parser.match_, mbind, gets, ret.
  by rewrite Hty.
Qed.

Lemma match_inv (ty : TokenType.t) (p p' : Parser.t) (b : bool) :
  ty <> TokenType.END_OF_FILE ->
  Parser.match_ ty p = (Ok b, p') ->
  (b = true /\ p' = Spec.next p /\ Token.type (Parser.peek p) = ty /\
   exists r, Spec.rest p = Parser.peek p :: r) \/
  (b = false /\ p' = p /\ Token.type (Parser.peek p) <> ty).
Proof.
  intros Hne.
  destruct (TokenType.eqb (Token.type (Parser.peek p)) ty) eqn:Hty;
    [apply TokenType_eqb_eq in Hty | apply TokenType_eqb_neq in Hty].
  - destruct (peek_real p ty Hty Hne) as [r Hrest].
    rewrite (match_yes ty p _ r Hrest Hty). intros [= <- <-]. left. eauto.
  - rewrite (match_no ty p Hty). intros [= <- <-]. right. auto.
Qed.

Lemma expect_yes (ty : TokenType.t) (msg : string) (p : Parser.t) (tok : Token.t)
  (r : list Token.t) :
  Spec.rest p = tok :: r -> Token.type tok = ty ->
  Parser.expect ty msg p = (Ok tt, Spec.next p).
Proof.
  intros Hrest Hty. unfold Parser.expect.
  by rewrite (mbind_ok _ _ _ _ _ (match_yes ty p tok r Hrest Hty)).
Qed.

Lemma expect_inv (ty : TokenType.t) (msg : string) (p p' : Parser.t) (u : unit) :
  ty <> TokenType.END_OF_FILE ->
  Parser.expect ty msg p = (Ok u, p') ->
  p' = Spec.next p /\ Token.type (Parser.peek p) = ty /\
  exists r, Spec.rest p = Parser.peek p :: r.
Proof.
  intros Hne H. unfold Parser.expect in H.
  apply mbind_ok_inv in H as (b & p1 & Hm & Hk).
  apply match_inv in Hm as [(-> & -> & Hty & Hr) | (-> & -> & Hty)];
    [| discriminate Hk | exact Hne].
  injection Hk as <-. auto.
Qed.

Lemma peek_hd (p : Parser.t) : Parser.peek p = hd Parser.eof_token (Spec.rest p).
Proof.
  destruct (Spec.rest p) as [| tok r] eqn:Hrest; simpl.
  - by apply peek_nil.
  - by eapply peek_cons.
Qed.

(** Successful primitives consume exactly one real token. *)
Lemma expect_sound (ty : TokenType.t) (msg : string) (p p' : Parser.t) (u : unit) :
  Parser.expect ty msg p = (Ok u, p') -> ty <> TokenType.END_OF_FILE ->
  exists tok, Token.type tok = ty /\ Parser.tokens p' = Parser.tokens p /\
              Spec.rest p = tok :: Spec.rest p'.
Proof.
  intros H Hne. apply expect_inv in H as (-> & Hty & r & Hr); [| exact Hne].
  exists (Parser.peek p). split; [exact Hty |]. split; [reflexivity |].
  apply rest_cons in Hr as Hr'. destruct Hr' as [_ ->]. exact Hr.
Qed.

Lemma match_sound (ty : TokenType.t) (p p' : Parser.t) :
  Parser.match_ ty p = (Ok true, p') -> ty <> TokenType.END_OF_FILE ->
  exists tok, Token.type tok = ty /\ Parser.tokens p' = Parser.tokens p /\
              Spec.rest p = tok :: Spec.rest p'.
Proof.
  intros H Hne. apply match_inv in H as [(_ & -> & Hty & r & Hr) | (Hb & _)];
    [| discriminate Hb | exact Hne].
  exists (Parser.peek p). split; [exact Hty |]. split; [reflexivity |].
  apply rest_cons in Hr as Hr'. destruct Hr' as [_ ->]. exact Hr.
Qed.

Lemma match_false (ty : TokenType.t) (p p' : Parser.t) :
  Parser.match_ ty p = (Ok false, p') -> ty <> TokenType.END_OF_FILE ->
  p' = p /\ Token.type (Parser.peek p) <> ty.
Proof.
  intros H Hne. apply match_inv in H as [(Hb & _) | (_ & -> & Hty)];
    [discriminate Hb | auto | exact Hne].
Qed.

Lemma advance_sound (p : Parser.t) (ty : TokenType.t) :
  Token.type (Parser.peek p) = ty -> ty <> TokenType.END_OF_FILE ->
  Parser.advance p = (Ok (Parser.peek p), Spec.next p) /\
  Spec.rest p = Parser.peek p :: Spec.rest (Spec.next p).
Proof.
  intros Hty Hne. destruct (peek_real p ty Hty Hne) as [r Hr].
  split; [by eapply advance_cons |].
  apply rest_cons in Hr as Hr'. destruct Hr' as [_ ->]. exact Hr.
Qed.

(* ===================================================================== *)
(** ** What the parser accepts is in the grammar *)
(* ===================================================================== *)

Lemma parse_constraints_loop_sound (fuel : nat) :
  forall (acc cs : list ConstraintType.t) (p p' : Parser.t),
    Parser.parse_constraints_loop fuel acc p = (Ok cs, p') ->
    Parser.tokens p' = Parser.tokens p /\
    exists pre, Spec.rest p = pre ++ Spec.rest p' /\ Spec.constraints_syntax pre.
Proof.
  induction fuel as [| fuel IH]; intros acc cs p p' H; simpl in H.
  { injection H as <- <-. split; [reflexivity |]. exists []. split; [reflexivity | constructor]. }
  apply mbind_ok_inv in H as ([] & p1 & Hm & H).
  - apply match_sound in Hm as (t1 & Ht1 & Htok1 & Hr1); [| discriminate].
    apply mbind_ok_inv in H as (u & p2 & He & H).
    apply expect_sound in He as (t2 & Ht2 & Htok2 & Hr2); [| discriminate].
    apply IH in H as (Htok & pre & Hr & Hpre).
    split; [congruence |]. exists ([t1; t2] ++ pre).
    split; [rewrite Hr1, Hr2, Hr; reflexivity |].
    constructor; [by constructor | exact Hpre].
  - apply match_false in Hm as [-> _]; [| discriminate].
    apply mbind_ok_inv in H as ([] & p2 & Hm & H).
    + apply match_sound in Hm as (t1 & Ht1 & Htok1 & Hr1); [| discriminate].
      apply mbind_ok_inv in H as (u & p3 & He & H).
      apply expect_sound in He as (t2 & Ht2 & Htok2 & Hr2); [| discriminate].
      apply IH in H as (Htok & pre & Hr & Hpre).
      split; [congruence |]. exists ([t1; t2] ++ pre).
      split; [rewrite Hr1, Hr2, Hr; reflexivity |].
      constructor; [by apply Spec.constraint_not_null | exact Hpre].
    + apply match_false in Hm as [-> _]; [| discriminate].
      injection H as <- <-. split; [reflexivity |].
      exists []. split; [reflexivity | constructor].
Qed.

Lemma parse_constraints_sound (cs : list ConstraintType.t) (p p' : Parser.t) :
  Parser.parse_constraints p = (Ok cs, p') ->
  Parser.tokens p' = Parser.tokens p /\
  exists pre, Spec.rest p = pre ++ Spec.rest p' /\ Spec.constraints_syntax pre.
Proof. unfold Parser.parse_constraints, mbind, gets. apply parse_constraints_loop_sound. Qed.

Lemma parse_data_type_sound (len : Z) (dt : DataType.t * Z) (p p' : Parser.t) :
  Parser.parse_data_type len p = (Ok dt, p') ->
  Parser.tokens p' = Parser.tokens p /\
  exists pre, Spec.rest p = pre ++ Spec.rest p' /\ Spec.type_syntax pre.
Proof.
  intros H. unfold Parser.parse_data_type in H.
  apply mbind_ok_inv in H as ([] & p1 & Hm & H).
  { apply match_sound in Hm as (t1 & Ht1 & Htok1 & Hr1); [| discriminate].
    injection H as <- <-. split; [exact Htok1 |]. exists [t1].
    split; [exact Hr1 | by constructor]. }
  apply match_false in Hm as [-> _]; [| discriminate].
  apply mbind_ok_inv in H as ([] & p2 & Hm & H).
  { apply match_sound in Hm as (t1 & Ht1 & Htok1 & Hr1); [| discriminate].
    injection H as <- <-. split; [exact Htok1 |]. exists [t1].
    split; [exact Hr1 | by apply Spec.type_boolean]. }
  apply match_false in Hm as [-> _]; [| discriminate].
  apply mbind_ok_inv in H as ([] & p3 & Hm & H); [| discriminate H].
  apply match_sound in Hm as (t1 & Ht1 & Htok1 & Hr1); [| discriminate].
  apply mbind_ok_inv in H as (u & p4 & He & H).
  apply expect_sound in He as (t2 & Ht2 & Htok2 & Hr2); [| discriminate].
  unfold mbind at 1, gets at 1 in H.
  destruct (TokenType.eqb (Token.type (Parser.peek p4)) TokenType.INTEGER_LITERAL)
    eqn:Hlit; simpl in H; [| discriminate H].
  apply TokenType_eqb_eq in Hlit.
  destruct (advance_sound p4 _ Hlit ltac:(discriminate)) as [Hadv Hr3].
  rewrite (mbind_ok _ _ _ _ _ Hadv) in H.
  unfold mbind at 1, lift at 1 in H.
  destruct (stoi (Token.value (Parser.peek p4))) as [n |] eqn:Hstoi; [| discriminate H].
  apply mbind_ok_inv in H as (u' & p5 & He & H).
  apply expect_sound in He as (t4 & Ht4 & Htok4 & Hr4); [| discriminate].
  injection H as <- <-. split; [simpl in *; congruence |].
  exists [t1; t2; Parser.peek p4; t4].
  split; [rewrite Hr1, Hr2, Hr3, Hr4; reflexivity |].
  constructor; try assumption. by rewrite Hstoi.
Qed.

Lemma parse_column_definition_sound (column : Column.t) (p p' : Parser.t) :
  Parser.parse_column_definition p = (Ok column, p') ->
  Parser.tokens p' = Parser.tokens p /\
  exists pre, Spec.rest p = pre ++ Spec.rest p' /\ Spec.column_def_syntax pre.
Proof.
  intros H. unfold Parser.parse_column_definition in H.
  unfold mbind at 1, gets at 1 in H.
  destruct (TokenType.eqb (Token.type (Parser.peek p)) TokenType.IDENTIFIER)
    eqn:Hid; simpl in H; [| discriminate H].
  apply TokenType_eqb_eq in Hid.
  destruct (advance_sound p _ Hid ltac:(discriminate)) as [Hadv Hr1].
  rewrite (mbind_ok _ _ _ _ _ Hadv) in H.
  apply mbind_ok_inv in H as (dt & p2 & Hdt & H).
  apply parse_data_type_sound in Hdt as (Htok2 & ty & Hr2 & Hty).
  apply mbind_ok_inv in H as (cs & p3 & Hcs & H).
  apply parse_constraints_sound in Hcs as (Htok3 & pre & Hr3 & Hpre).
  injection H as <- <-. split; [simpl in *; congruence |].
  exists (Parser.peek p :: ty ++ pre).
  split; [rewrite Hr1, Hr2, Hr3, <- app_comm_cons, <- app_assoc; reflexivity |].
  by constructor.
Qed.

Lemma parse_columns_loop_sound (fuel : nat) :
  forall (acc columns : list Column.t) (p p' : Parser.t),
    Parser.parse_columns_loop fuel acc p = (Ok columns, p') ->
    Parser.tokens p' = Parser.tokens p /\
    exists pre, Spec.rest p = pre ++ Spec.rest p' /\ Spec.column_list_tolerant pre.
Proof.
  induction fuel as [| fuel IH]; intros acc columns p p' H; simpl in H.
  { injection H as <- <-. split; [reflexivity |]. exists []. split; [reflexivity | constructor]. }
  unfold mbind at 1, gets at 1 in H.
  destruct (TokenType.eqb (Token.type (Parser.peek p)) TokenType.RIGHT_PAREN).
  { injection H as <- <-. split; [reflexivity |]. exists []. split; [reflexivity | constructor]. }
  apply mbind_ok_inv in H as (column & p1 & Hc & H).
  apply parse_column_definition_sound in Hc as (Htok1 & d & Hr1 & Hd).
  apply mbind_ok_inv in H as ([] & p2 & Hm & H).
  - apply match_sound in Hm as (comma & Hcomma & Htok2 & Hr2); [| discriminate].
    apply IH in H as (Htok & ds & Hr & Hds).
    split; [congruence |]. exists (d ++ comma :: ds).
    split; [rewrite Hr1, Hr2, Hr, <- app_assoc; reflexivity |].
    by constructor.
  - apply match_false in Hm as [-> _]; [| discriminate].
    injection H as <- <-. split; [exact Htok1 |]. exists d.
    split; [exact Hr1 | by constructor].
Qed.

Lemma parse_create_table_sound (stmt : Statement) (p p' : Parser.t) :
  Parser.parse_create_table p = (Ok stmt, p') ->
  (exists table_name columns, stmt = CreateTableStatement table_name columns) /\
  exists pre, Spec.rest p = pre ++ Spec.rest p' /\
              Spec.create_table_syntax Spec.column_list_tolerant pre.
Proof.
  intros H. unfold Parser.parse_create_table in H.
  apply mbind_ok_inv in H as (u1 & p1 & He & H).
  apply expect_sound in He as (t1 & Ht1 & Htok1 & Hr1); [| discriminate].
  apply mbind_ok_inv in H as (u2 & p2 & He & H).
  apply expect_sound in He as (t2 & Ht2 & Htok2 & Hr2); [| discriminate].
  unfold mbind at 1, gets at 1 in H.
  destruct (TokenType.eqb (Token.type (Parser.peek p2)) TokenType.IDENTIFIER)
    eqn:Hid; simpl in H; [| discriminate H].
  apply TokenType_eqb_eq in Hid.
  destruct (advance_sound p2 _ Hid ltac:(discriminate)) as [Hadv Hr3].
  rewrite (mbind_ok _ _ _ _ _ Hadv) in H.
  apply mbind_ok_inv in H as (u4 & p4 & He & H).
  apply expect_sound in He as (t4 & Ht4 & Htok4 & Hr4); [| discriminate].
  unfold mbind at 1, gets at 1 in H.
  apply mbind_ok_inv in H as (columns & p5 & Hloop & H).
  apply (parse_columns_loop_sound (S (Parser.remaining p4)) []) in Hloop
    as (Htok5 & cols & Hr5 & Hcols).
  apply mbind_ok_inv in H as (u6 & p6 & He & H).
  apply expect_sound in He as (t6 & Ht6 & Htok6 & Hr6); [| discriminate].
  injection H as <- <-. split; [eauto |].
  exists (t1 :: t2 :: Parser.peek p2 :: t4 :: cols ++ [t6]).
  split.
  - rewrite Hr1, Hr2, Hr3, Hr4, Hr5, Hr6. simpl. by rewrite <- app_assoc.
  - exists t1, t2, (Parser.peek p2), t4, cols, t6. auto 10.
Qed.

(* ===================================================================== *)
(** ** What is in the grammar, the parser accepts *)
(* ===================================================================== *)

Lemma expect_complete (ty : TokenType.t) (msg : string) (p : Parser.t)
  (tok : Token.t) (r : list Token.t) :
  Spec.rest p = tok :: r -> Token.type tok = ty ->
  Parser.expect ty msg p = (Ok tt, Spec.next p) /\ Spec.rest (Spec.next p) = r.
Proof.
  intros Hr Hty. split; [by eapply expect_yes |]. by apply rest_cons in Hr as [_ ?].
Qed.

Lemma match_complete (ty : TokenType.t) (p : Parser.t) (tok : Token.t)
  (r : list Token.t) :
  Spec.rest p = tok :: r -> Token.type tok = ty ->
  Parser.match_ ty p = (Ok true, Spec.next p) /\ Spec.rest (Spec.next p) = r.
Proof.
  intros Hr Hty. split; [by eapply match_yes |]. by apply rest_cons in Hr as [_ ?].
Qed.

Lemma match_other (ty : TokenType.t) (p : Parser.t) (tok : Token.t) (r : list Token.t) :
  Spec.rest p = tok :: r -> Token.type tok <> ty ->
  Parser.match_ ty p = (Ok false, p).
Proof. intros Hr Hty. apply match_no. by rewrite (peek_cons p tok r Hr). Qed.

Lemma parse_constraints_loop_complete (pre : list Token.t) :
  Spec.constraints_syntax pre ->
  forall (fuel : nat) (acc : list ConstraintType.t) (p : Parser.t) (r : list Token.t),
    Spec.rest p = pre ++ r -> (length pre < fuel)%nat ->
    Token.type (hd Parser.eof_token r) <> TokenType.PRIMARY ->
    Token.type (hd Parser.eof_token r) <> TokenType.NOT ->
    exists cs p',
      Parser.parse_constraints_loop fuel acc p = (Ok cs, p') /\
      Parser.tokens p' = Parser.tokens p /\ Spec.rest p' = r.
Proof.
  induction 1 as [| c cs Hc Hcs IH]; intros fuel acc p r Hr Hfuel Hp Hn.
  - destruct fuel as [| fuel]; [simpl in Hfuel; lia |]. simpl in Hr. simpl.
    rewrite (mbind_ok _ _ _ _ _ (match_no TokenType.PRIMARY p
               ltac:(by rewrite peek_hd, Hr))).
    rewrite (mbind_ok _ _ _ _ _ (match_no TokenType.NOT p
               ltac:(by rewrite peek_hd, Hr))).
    exists acc, p. auto.
  - destruct fuel as [| fuel]; [lia |].
    rewrite length_app in Hfuel.
    destruct Hc as [t1 t2 Ht1 Ht2 | t1 t2 Ht1 Ht2]; simpl in Hr, Hfuel; simpl.
    + destruct (match_complete _ p t1 _ Hr Ht1) as [Hm Hr1].
      rewrite (mbind_ok _ _ _ _ _ Hm).
      destruct (expect_complete _ "Expected KEY after PRIMARY" _ t2 _ Hr1 Ht2)
        as [He Hr2].
      rewrite (mbind_ok _ _ _ _ _ He).
      destruct (IH fuel (acc ++ [ConstraintType.PRIMARY_KEY]) _ r Hr2 ltac:(lia) Hp Hn)
        as (cs' & p' & Hloop & Htok & Hrest).
      exists cs', p'. auto.
    + rewrite (mbind_ok _ _ _ _ _ (match_other TokenType.PRIMARY p t1 _ Hr
                 ltac:(by rewrite Ht1))).
      destruct (match_complete _ p t1 _ Hr Ht1) as [Hm Hr1].
      rewrite (mbind_ok _ _ _ _ _ Hm).
      destruct (expect_complete _ "Expected NULL after NOT" _ t2 _ Hr1 Ht2)
        as [He Hr2].
      rewrite (mbind_ok _ _ _ _ _ He).
      destruct (IH fuel (acc ++ [ConstraintType.NOT_NULL]) _ r Hr2 ltac:(lia) Hp Hn)
        as (cs' & p' & Hloop & Htok & Hrest).
      exists cs', p'. auto.
Qed.

Lemma parse_constraints_complete (pre : list Token.t) (p : Parser.t)
  (r : list Token.t) :
  Spec.constraints_syntax pre -> Spec.rest p = pre ++ r ->
  Token.type (hd Parser.eof_token r) <> TokenType.PRIMARY ->
  Token.type (hd Parser.eof_token r) <> TokenType.NOT ->
  exists cs p',
    Parser.parse_constraints p = (Ok cs, p') /\
    Parser.tokens p' = Parser.tokens p /\ Spec.rest p' = r.
Proof.
  intros Hpre Hr Hp Hn. unfold Parser.parse_constraints, mbind, gets.
  apply (parse_constraints_loop_complete pre); try assumption.
  rewrite remaining_rest, Hr, length_app. lia.
Qed.

Lemma parse_data_type_complete (pre : list Token.t) (p : Parser.t) (r : list Token.t) :
  Spec.type_syntax pre -> Spec.rest p = pre ++ r ->
  exists dt p',
    Parser.parse_data_type 0 p = (Ok dt, p') /\
    Parser.tokens p' = Parser.tokens p /\ Spec.rest p' = r.
Proof.
  intros Hpre Hr. unfold Parser.parse_data_type.
  destruct Hpre as [t Ht | t Ht | t1 t2 t3 t4 Ht1 Ht2 Ht3 Hok Ht4]; simpl in Hr.
  - destruct (match_complete _ p t _ Hr Ht) as [Hm Hr1].
    rewrite (mbind_ok _ _ _ _ _ Hm). eexists _, _. eauto.
  - rewrite (mbind_ok _ _ _ _ _ (match_other TokenType.INTEGER p t _ Hr
               ltac:(by rewrite Ht))).
    destruct (match_complete _ p t _ Hr Ht) as [Hm Hr1].
    rewrite (mbind_ok _ _ _ _ _ Hm). eexists _, _. eauto.
  - rewrite (mbind_ok _ _ _ _ _ (match_other TokenType.INTEGER p t1 _ Hr
               ltac:(by rewrite Ht1))).
    rewrite (mbind_ok _ _ _ _ _ (match_other TokenType.BOOLEAN p t1 _ Hr
               ltac:(by rewrite Ht1))).
    destruct (match_complete _ p t1 _ Hr Ht1) as [Hm Hr1].
    rewrite (mbind_ok _ _ _ _ _ Hm).
    destruct (expect_complete _ "Expected '(' after VARCHAR" _ t2 _ Hr1 Ht2)
      as [He Hr2].
    rewrite (mbind_ok _ _ _ _ _ He).
    unfold mbind at 1, gets at 1.
    rewrite (peek_cons _ t3 _ Hr2), Ht3, TokenType_eqb_refl. cbn [negb].
    rewrite (mbind_ok _ _ _ _ _ (advance_cons _ t3 _ Hr2)).
    apply rest_cons in Hr2 as [_ Hr3].
    unfold mbind at 1, lift at 1.
    destruct (stoi (Token.value t3)) as [n |]; [| discriminate Hok].
    destruct (expect_complete _ "Expected ')' after VARCHAR length" _ t4 _ Hr3 Ht4)
      as [He' Hr4].
    rewrite (mbind_ok _ _ _ _ _ He'). eexists _, _. eauto.
Qed.

Lemma parse_column_definition_complete (d : list Token.t) (p : Parser.t)
  (r : list Token.t) :
  Spec.column_def_syntax d -> Spec.rest p = d ++ r ->
  Token.type (hd Parser.eof_token r) <> TokenType.PRIMARY ->
  Token.type (hd Parser.eof_token r) <> TokenType.NOT ->
  exists column p',
    Parser.parse_column_definition p = (Ok column, p') /\
    Parser.tokens p' = Parser.tokens p /\ Spec.rest p' = r.
Proof.
  intros Hd Hr Hp Hn. unfold Parser.parse_column_definition.
  destruct Hd as [id ty cs Hid Hty Hcs]. simpl in Hr. rewrite <- app_assoc in Hr.
  unfold mbind at 1, gets at 1.
  rewrite (peek_cons _ id _ Hr), Hid, TokenType_eqb_refl. cbn [negb].
  rewrite (mbind_ok _ _ _ _ _ (advance_cons _ id _ Hr)).
  apply rest_cons in Hr as [_ Hr1].
  destruct (parse_data_type_complete ty _ _ Hty Hr1) as (dt & p2 & Hdt & Htok2 & Hr2).
  rewrite (mbind_ok _ _ _ _ _ Hdt).
  destruct (parse_constraints_complete cs _ _ Hcs Hr2 Hp Hn)
    as (cs' & p3 & Hc & Htok3 & Hr3).
  rewrite (mbind_ok _ _ _ _ _ Hc).
  eexists _, _. split; [reflexivity |]. split; [simpl in *; congruence | exact Hr3].
Qed.

Lemma column_def_starts_with_identifier (d : list Token.t) :
  Spec.column_def_syntax d ->
  exists id d', d = id :: d' /\ Token.type id = TokenType.IDENTIFIER.
Proof. intros [id ty cs Hid _ _]. eauto. Qed.

Lemma parse_columns_loop_complete (ds : list Token.t) :
  Spec.column_list_tolerant ds ->
  forall (fuel : nat) (acc : list Column.t) (p : Parser.t) (rp : Token.t)
         (r : list Token.t),
    Spec.rest p = ds ++ rp :: r -> Token.type rp = TokenType.RIGHT_PAREN ->
    (length ds < fuel)%nat ->
    exists columns p',
      Parser.parse_columns_loop fuel acc p = (Ok columns, p') /\
      Parser.tokens p' = Parser.tokens p /\ Spec.rest p' = rp :: r.
Proof.
  induction 1 as [| d Hd | d comma ds Hd Hcomma Hds IH];
    intros fuel acc p rp r Hr Hrp Hfuel;
    (destruct fuel as [| fuel]; [lia |]); simpl Parser.parse_columns_loop.
  - simpl in Hr. unfold mbind, gets.
    rewrite (peek_cons _ rp _ Hr), Hrp. simpl. eexists _, _. eauto.
  - destruct (column_def_starts_with_identifier d Hd) as (id & d' & Heq & Hid).
    unfold mbind at 1, gets at 1.
    assert (Hpeek : Parser.peek p = id).
    { apply (peek_cons p id (d' ++ rp :: r)). by rewrite Hr, Heq. }
    rewrite Hpeek, Hid.
    change (TokenType.eqb TokenType.IDENTIFIER TokenType.RIGHT_PAREN) with false.
    cbv iota.
    destruct (parse_column_definition_complete d p (rp :: r) Hd Hr)
      as (column & p1 & Hc & Htok1 & Hr1); [simpl; by rewrite Hrp .. |].
    rewrite (mbind_ok _ _ _ _ _ Hc).
    rewrite (mbind_ok _ _ _ _ _ (match_other TokenType.COMMA p1 rp _ Hr1
               ltac:(by rewrite Hrp))).
    eexists _, _. eauto.
  - destruct (column_def_starts_with_identifier d Hd) as (id & d' & Heq & Hid).
    unfold mbind at 1, gets at 1.
    rewrite <- app_assoc in Hr. simpl in Hr.
    assert (Hpeek : Parser.peek p = id).
    { apply (peek_cons p id (d' ++ comma :: ds ++ rp :: r)). by rewrite Hr, Heq. }
    rewrite Hpeek, Hid.
    change (TokenType.eqb TokenType.IDENTIFIER TokenType.RIGHT_PAREN) with false.
    cbv iota.
    destruct (parse_column_definition_complete d p (comma :: ds ++ rp :: r) Hd Hr)
      as (column & p1 & Hc & Htok1 & Hr1); [simpl; by rewrite Hcomma .. |].
    rewrite (mbind_ok _ _ _ _ _ Hc).
    destruct (match_complete _ p1 comma _ Hr1 Hcomma) as [Hm Hr2].
    rewrite (mbind_ok _ _ _ _ _ Hm).
    rewrite length_app in Hfuel. simpl in Hfuel.
    destruct (IH fuel (acc ++ [column]) _ rp r Hr2 Hrp ltac:(lia))
      as (columns & p' & Hloop & Htok & Hrest).
    exists columns, p'. split; [exact Hloop |]. split; [simpl in *; congruence | exact Hrest].
Qed.

Lemma parse_create_table_complete (pre : list Token.t) (p : Parser.t)
  (r : list Token.t) :
  Spec.create_table_syntax Spec.column_list_tolerant pre ->
  Spec.rest p = pre ++ r ->
  exists table_name columns p',
    Parser.parse_create_table p = (Ok (CreateTableStatement table_name columns), p').
Proof.
  intros (c & t & id & l & cols & rp & -> & Hc & Ht & Hid & Hl & Hcols & Hrp) Hr.
  simpl in Hr. rewrite <- app_assoc in Hr. simpl in Hr.
  unfold Parser.parse_create_table.
  destruct (expect_complete _ "Expected CREATE" _ c _ Hr Hc) as [He1 Hr1].
  rewrite (mbind_ok _ _ _ _ _ He1).
  destruct (expect_complete _ "Expected TABLE" _ t _ Hr1 Ht) as [He2 Hr2].
  rewrite (mbind_ok _ _ _ _ _ He2).
  unfold mbind at 1, gets at 1.
  rewrite (peek_cons _ id _ Hr2), Hid, TokenType_eqb_refl. cbn [negb].
  rewrite (mbind_ok _ _ _ _ _ (advance_cons _ id _ Hr2)).
  apply rest_cons in Hr2 as [_ Hr3].
  destruct (expect_complete _ "Expected '('" _ l _ Hr3 Hl) as [He4 Hr4].
  rewrite (mbind_ok _ _ _ _ _ He4).
  unfold mbind at 1, gets at 1.
  destruct (parse_columns_loop_complete cols Hcols
              (S (Parser.remaining (Spec.next (Spec.next (Spec.next (Spec.next p))))))
              [] _ rp r Hr4 Hrp)
    as (columns & p5 & Hloop & Htok5 & Hr5).
  { rewrite remaining_rest, Hr4, length_app. lia. }
  rewrite (mbind_ok _ _ _ _ _ Hloop).
  destruct (expect_complete _ "Expected ')'" _ rp _ Hr5 Hrp) as [He6 Hr6].
  rewrite (mbind_ok _ _ _ _ _ He6).
  eexists _, _, _. reflexivity.
Qed.

(* ===================================================================== *)
(** ** CREATE TABLE statements *)
(* ===================================================================== *)

(** The other productions build statements of their own kinds. *)
Lemma parse_drop_table_kind (stmt : Statement) (p p' : Parser.t) :
  Parser.parse_drop_table p = (Ok stmt, p') ->
  exists table_name, stmt = DropTableStatement table_name.
Proof.
  intros H. unfold Parser.parse_drop_table in H.
  apply mbind_ok_inv in H as (u1 & p1 & _ & H).
  apply mbind_ok_inv in H as (u2 & p2 & _ & H).
  unfold mbind at 1, gets at 1 in H.
  destruct (negb _); [discriminate H |].
  apply mbind_ok_inv in H as (tok & p3 & _ & H).
  injection H as <- _. eauto.
Qed.

Lemma parse_insert_kind (stmt : Statement) (p p' : Parser.t) :
  Parser.parse_insert p = (Ok stmt, p') ->
  exists table_name values, stmt = InsertStatement table_name values.
Proof.
  intros H. unfold Parser.parse_insert in H.
  apply mbind_ok_inv in H as (u1 & p1 & _ & H).
  apply mbind_ok_inv in H as (u2 & p2 & _ & H).
  unfold mbind at 1, gets at 1 in H.
  destruct (negb _); [discriminate H |].
  apply mbind_ok_inv in H as (tok & p3 & _ & H).
  apply mbind_ok_inv in H as (u4 & p4 & _ & H).
  apply mbind_ok_inv in H as (u5 & p5 & _ & H).
  unfold mbind at 1, gets at 1 in H.
  apply mbind_ok_inv in H as (values & p6 & _ & H).
  apply mbind_ok_inv in H as (u7 & p7 & _ & H).
  injection H as <- _. eauto.
Qed.

Lemma parse_select_kind (stmt : Statement) (p p' : Parser.t) :
  Parser.parse_select p = (Ok stmt, p') ->
  exists table_name all condition, stmt = SelectStatement table_name all condition.
Proof.
  intros H. unfold Parser.parse_select in H.
  apply mbind_ok_inv in H as (u1 & p1 & _ & H).
  apply mbind_ok_inv in H as ([] & p2 & _ & H); [| discriminate H].
  apply mbind_ok_inv in H as (u3 & p3 & _ & H).
  unfold mbind at 1, gets at 1 in H.
  destruct (negb _); [discriminate H |].
  apply mbind_ok_inv in H as (tok & p4 & _ & H).
  apply mbind_ok_inv in H as ([] & p5 & _ & H).
  - apply mbind_ok_inv in H as (condition & p6 & _ & H).
    injection H as <- _. eauto.
  - injection H as <- _. eauto.
Qed.

Lemma rest_init (toks : list Token.t) : Spec.rest (Parser.init toks) = toks.
Proof. reflexivity. Qed.

Lemma column_list_syntax_tolerant (ds : list Token.t) :
  Spec.column_list_syntax ds -> Spec.column_list_tolerant ds.
Proof. induction 1; by constructor. Qed.

Lemma accepts_create_table_sound (toks : list Token.t) :
  Spec.accepts_create_table toks ->
  exists pre r, toks = pre ++ r /\
                Spec.create_table_syntax Spec.column_list_tolerant pre.
Proof.
  intros (table_name & columns & H). unfold Parser.parse in H.
  destruct (Parser.parse_m (Parser.init toks)) as [res p'] eqn:Hp.
  simpl in H. subst res. unfold Parser.parse_m in Hp.
  unfold mbind at 1, gets at 1 in Hp.
  destruct (Parser.is_at_end (Parser.init toks)); [discriminate Hp |].
  unfold mbind at 1, gets at 1 in Hp.
  destruct (Token.type (Parser.peek (Parser.init toks))); try discriminate Hp;
    apply mbind_ok_inv in Hp as (stmt & p1 & Hparse & Hret);
    injection Hret as -> _.
  - apply parse_create_table_sound in Hparse as (_ & pre & Hr & Hpre).
    rewrite rest_init in Hr. eauto.
  - apply parse_drop_table_kind in Hparse as (? & Hk). discriminate Hk.
  - apply parse_insert_kind in Hparse as (? & ? & Hk). discriminate Hk.
  - apply parse_select_kind in Hparse as (? & ? & ? & Hk). discriminate Hk.
Qed.

Lemma accepts_create_table_complete (pre r : list Token.t) :
  Spec.create_table_syntax Spec.column_list_tolerant pre ->
  Spec.accepts_create_table (pre ++ r).
Proof.
  intros Hpre.
  destruct (parse_create_table_complete pre (Parser.init (pre ++ r)) r Hpre
              (rest_init _)) as (table_name & columns & p' & Hparse).
  destruct Hpre as (c & t & id & l & cols & rp & -> & Hc & _).
  exists table_name, columns. unfold Parser.parse, Parser.parse_m.
  unfold mbind at 1, gets at 1. unfold Parser.is_at_end.
  change (Parser.peek (Parser.init ((c :: t :: id :: l :: cols ++ [rp]) ++ r))) with c.
  rewrite Hc. change (TokenType.eqb TokenType.CREATE TokenType.END_OF_FILE) with false.
  cbv iota. unfold mbind at 1, gets at 1.
  change (Parser.peek (Parser.init ((c :: t :: id :: l :: cols ++ [rp]) ++ r))) with c.
  rewrite Hc. by rewrite (mbind_ok _ _ _ _ _ Hparse).
Qed.

Lemma column_list_starts_with_identifier (ds : list Token.t) :
  Spec.column_list_syntax ds ->
  exists id ds', ds = id :: ds' /\ Token.type id = TokenType.IDENTIFIER.
Proof.
  intros [d Hd | d comma ds' Hd _ _];
    destruct (column_def_starts_with_identifier d Hd) as (id & d' & -> & Hid);
    simpl; eauto.
Qed.

(** C5, as stated, fails: an empty parenthesized column list and a comma
    right before the closing parenthesis are both accepted, and the former
    does not start with the production of the specification. *)
Lemma parse_create_table_empty_and_trailing_comma :
  Parser.parse
    [Token.mk TokenType.CREATE "CREATE" 1 1; Token.mk TokenType.TABLE "TABLE" 1 8;
     Token.mk TokenType.IDENTIFIER "t" 1 14; Token.mk TokenType.LEFT_PAREN "(" 1 16;
     Token.mk TokenType.RIGHT_PAREN ")" 1 17;
     Token.mk TokenType.END_OF_FILE EmptyString 1 18]
  = Ok (Some (CreateTableStatement "t" [])) /\
  Parser.parse
    [Token.mk TokenType.CREATE "CREATE" 1 1; Token.mk TokenType.TABLE "TABLE" 1 8;
     Token.mk TokenType.IDENTIFIER "t" 1 14; Token.mk TokenType.LEFT_PAREN "(" 1 16;
     Token.mk TokenType.IDENTIFIER "a" 1 17; Token.mk TokenType.INTEGER "INTEGER" 1 19;
     Token.mk TokenType.COMMA "," 1 26; Token.mk TokenType.RIGHT_PAREN ")" 1 27;
     Token.mk TokenType.END_OF_FILE EmptyString 1 28]
  = Ok (Some (CreateTableStatement "t"
                [Column.mk "a" DataType.INTEGER 0 false false])) /\
  Tokenizer.tokenize "CREATE TABLE t ()"
  = Ok [Token.mk TokenType.CREATE "CREATE" 1 1; Token.mk TokenType.TABLE "TABLE" 1 8;
        Token.mk TokenType.IDENTIFIER "t" 1 14; Token.mk TokenType.LEFT_PAREN "(" 1 16;
        Token.mk TokenType.RIGHT_PAREN ")" 1 17;
        Token.mk TokenType.END_OF_FILE EmptyString 1 18] /\
  ~ (exists pre r,
       [Token.mk TokenType.CREATE "CREATE" 1 1; Token.mk TokenType.TABLE "TABLE" 1 8;
        Token.mk TokenType.IDENTIFIER "t" 1 14; Token.mk TokenType.LEFT_PAREN "(" 1 16;
        Token.mk TokenType.RIGHT_PAREN ")" 1 17;
        Token.mk TokenType.END_OF_FILE EmptyString 1 18] = pre ++ r /\
       Spec.create_table_syntax Spec.column_list_syntax pre).
Proof.
  split; [reflexivity |]. split; [reflexivity |]. split; [reflexivity |].
  intros (pre & r & Heq & c & t & id & l & cols & rp & -> & _ & _ & _ & _ & Hcols & _).
  apply column_list_starts_with_identifier in Hcols as (x & cols' & -> & Hx).
  simpl in Heq. injection Heq as _ _ _ _ <- _. discriminate Hx.
Qed.

(** C5 (amended): [parse] accepts a CREATE TABLE statement exactly when the
    token sequence starts with CREATE TABLE <id> ( <columns> ), where
    <columns> is a comma-separated list of column definitions that may be
    empty and may end with a comma, and where a VARCHAR length is a literal
    [std::stoi] reads as an [int]; whatever follows the closing parenthesis
    is left unread.  In particular every sequence that starts with the
    production CREATE TABLE <id> ( <columnDef> (, <columnDef>)* ) is
    accepted. *)
Theorem parse_create_table_accepts_iff (toks : list Token.t) :
  (Spec.accepts_create_table toks
   <-> exists pre r, toks = pre ++ r /\
                     Spec.create_table_syntax Spec.column_list_tolerant pre) /\
  ((exists pre r, toks = pre ++ r /\
                  Spec.create_table_syntax Spec.column_list_syntax pre) ->
   Spec.accepts_create_table toks).
Proof.
  split; [split |].
  - apply accepts_create_table_sound.
  - intros (pre & r & -> & Hpre). by apply accepts_create_table_complete.
  - intros (pre & r & -> & c & t & id & l & cols & rp & -> & Hc & Ht & Hid & Hl & Hcols & Hrp).
    apply accepts_create_table_complete.
    exists c, t, id, l, cols, rp. repeat split; try assumption.
    by apply column_list_syntax_tolerant.
Qed.

Lemma parse_create_table_accepts_iff_witness :
  Spec.accepts_create_table Examples.create_t_tokens.
Proof.
  apply (parse_create_table_accepts_iff Examples.create_t_tokens).
  exists [Token.mk TokenType.CREATE "CREATE" 1 1; Token.mk TokenType.TABLE "TABLE" 1 8;
          Token.mk TokenType.IDENTIFIER "t" 1 14; Token.mk TokenType.LEFT_PAREN "(" 1 16;
          Token.mk TokenType.IDENTIFIER "a" 1 17;
          Token.mk TokenType.INTEGER "INTEGER" 1 19;
          Token.mk TokenType.RIGHT_PAREN ")" 1 26],
         [Token.mk TokenType.END_OF_FILE EmptyString 1 27].
  split; [reflexivity |].
  exists (Token.mk TokenType.CREATE "CREATE" 1 1), (Token.mk TokenType.TABLE "TABLE" 1 8),
         (Token.mk TokenType.IDENTIFIER "t" 1 14), (Token.mk TokenType.LEFT_PAREN "(" 1 16),
         [Token.mk TokenType.IDENTIFIER "a" 1 17;
          Token.mk TokenType.INTEGER "INTEGER" 1 19],
         (Token.mk TokenType.RIGHT_PAREN ")" 1 26).
  repeat split.
  apply Spec.column_list_one.
  apply (Spec.column_def _ [Token.mk TokenType.INTEGER "INTEGER" 1 19] []);
    [reflexivity | by apply Spec.type_integer | constructor].
Defined.

(* ===================================================================== *)
(** ** The loops of the parser never run short of iterations *)
(* ===================================================================== *)

(** Each loop is given one iteration more than there are tokens left, and
    whatever it is given beyond that changes nothing: an iteration that
    goes round again has consumed a token. *)

Lemma mbind_ext {S A B : Type} (m : M S A) (k1 k2 : A -> M S B) (s : S) :
  (forall a s', m s = (Ok a, s') -> k1 a s' = k2 a s') ->
  mbind m k1 s = mbind m k2 s.
Proof.
  intros H. unfold mbind. destruct (m s) as [[a | e] s'] eqn:Hm; [| reflexivity].
  by apply H.
Qed.

Lemma consumed_remaining (p p' : Parser.t) (pre : list Token.t) :
  Spec.rest p = pre ++ Spec.rest p' ->
  Parser.remaining p = (length pre + Parser.remaining p')%nat.
Proof. intros H. by rewrite !remaining_rest, H, length_app. Qed.

Lemma match_progress (ty : TokenType.t) (p p' : Parser.t) :
  ty <> TokenType.END_OF_FILE -> Parser.match_ ty p = (Ok true, p') ->
  (Parser.remaining p' < Parser.remaining p)%nat.
Proof.
  intros Hne H. apply match_sound in H as (tok & _ & _ & Hr); [| exact Hne].
  rewrite (consumed_remaining p p' [tok] Hr). simpl. lia.
Qed.

Lemma expect_progress (ty : TokenType.t) (msg : string) (p p' : Parser.t) (u : unit) :
  ty <> TokenType.END_OF_FILE -> Parser.expect ty msg p = (Ok u, p') ->
  (Parser.remaining p' < Parser.remaining p)%nat.
Proof.
  intros Hne H. apply expect_sound in H as (tok & _ & _ & Hr); [| exact Hne].
  rewrite (consumed_remaining p p' [tok] Hr). simpl. lia.
Qed.

Lemma advance_remaining (p p' : Parser.t) (tok : Token.t) :
  Parser.advance p = (Ok tok, p') -> (Parser.remaining p' <= Parser.remaining p)%nat.
Proof.
  unfold Parser.advance, Parser.remaining.
  destruct (Parser.tokens p !! Parser.current_pos p); intros [= _ <-]; simpl; lia.
Qed.

Lemma parse_constraints_loop_fuel (fuel1 : nat) :
  forall (fuel2 : nat) (acc : list ConstraintType.t) (p : Parser.t),
    (Parser.remaining p < fuel1)%nat -> (Parser.remaining p < fuel2)%nat ->
    Parser.parse_constraints_loop fuel1 acc p
    = Parser.parse_constraints_loop fuel2 acc p.
Proof.
  induction fuel1 as [| fuel1 IH]; intros [| fuel2] acc p H1 H2; try lia.
  simpl. apply mbind_ext. intros [] p1 Hm.
  - apply match_progress in Hm; [| discriminate].
    apply mbind_ext. intros u p2 He.
    apply expect_progress in He; [| discriminate]. apply IH; lia.
  - apply match_false in Hm as [-> _]; [| discriminate].
    apply mbind_ext. intros [] p2 Hm; [| reflexivity].
    apply match_progress in Hm; [| discriminate].
    apply mbind_ext. intros u p3 He.
    apply expect_progress in He; [| discriminate]. apply IH; lia.
Qed.

Lemma parse_columns_loop_fuel (fuel1 : nat) :
  forall (fuel2 : nat) (acc : list Column.t) (p : Parser.t),
    (Parser.remaining p < fuel1)%nat -> (Parser.remaining p < fuel2)%nat ->
    Parser.parse_columns_loop fuel1 acc p = Parser.parse_columns_loop fuel2 acc p.
Proof.
  induction fuel1 as [| fuel1 IH]; intros [| fuel2] acc p H1 H2; try lia.
  simpl. apply mbind_ext. intros tok p0 [= <- <-].
  destruct (TokenType.eqb (Token.type (Parser.peek p)) TokenType.RIGHT_PAREN);
    [reflexivity |].
  apply mbind_ext. intros column p1 Hc.
  apply parse_column_definition_sound in Hc as (_ & pre & Hr & _).
  apply consumed_remaining in Hr.
  apply mbind_ext. intros [] p2 Hm; [| reflexivity].
  apply match_progress in Hm; [| discriminate]. apply IH; lia.
Qed.

Lemma parse_value_remaining (v : Value.t) (p p' : Parser.t) :
  Parser.parse_value p = (Ok v, p') -> (Parser.remaining p' <= Parser.remaining p)%nat.
Proof.
  unfold Parser.parse_value. unfold mbind at 1, gets at 1.
  destruct (TokenType.eqb _ TokenType.INTEGER_LITERAL).
  { intros H. apply mbind_ok_inv in H as (lit & p1 & Ha & H).
    apply advance_remaining in Ha.
    apply mbind_ok_inv in H as (n & p2 & Hl & H).
    unfold lift in Hl. injection Hl as _ <-. by injection H as _ <-. }
  destruct (TokenType.eqb _ TokenType.STRING_LITERAL).
  { intros H. apply mbind_ok_inv in H as (lit & p1 & Ha & H).
    apply advance_remaining in Ha. by injection H as _ <-. }
  destruct (TokenType.eqb _ TokenType.BOOLEAN_LITERAL); [| discriminate].
  intros H. apply mbind_ok_inv in H as (lit & p1 & Ha & H).
  apply advance_remaining in Ha. by injection H as _ <-.
Qed.

Lemma parse_values_loop_fuel (fuel1 : nat) :
  forall (fuel2 : nat) (acc : list Value.t) (p : Parser.t),
    (Parser.remaining p < fuel1)%nat -> (Parser.remaining p < fuel2)%nat ->
    Parser.parse_values_loop fuel1 acc p = Parser.parse_values_loop fuel2 acc p.
Proof.
  induction fuel1 as [| fuel1 IH]; intros [| fuel2] acc p H1 H2; try lia.
  simpl. apply mbind_ext. intros tok p0 [= <- <-].
  destruct (TokenType.eqb (Token.type (Parser.peek p)) TokenType.RIGHT_PAREN);
    [reflexivity |].
  apply mbind_ext. intros v p1 Hv. apply parse_value_remaining in Hv.
  apply mbind_ext. intros [] p2 Hm; [| reflexivity].
  apply match_progress in Hm; [| discriminate]. apply IH; lia.
Qed.

(** The parser's own allowance is therefore as good as any larger one. *)
Lemma parser_loops_fuel (extra : nat) (p : Parser.t) :
  Parser.parse_constraints p
  = Parser.parse_constraints_loop (S (Parser.remaining p) + extra) [] p /\
  Parser.parse_columns_loop (S (Parser.remaining p)) [] p
  = Parser.parse_columns_loop (S (Parser.remaining p) + extra) [] p /\
  Parser.parse_values_loop (S (Parser.remaining p)) [] p
  = Parser.parse_values_loop (S (Parser.remaining p) + extra) [] p.
Proof.
  split; [| split].
  - unfold Parser.parse_constraints, mbind, gets.
    apply parse_constraints_loop_fuel; lia.
  - apply parse_columns_loop_fuel; lia.
  - apply parse_values_loop_fuel; lia.
Qed.

(* ===================================================================== *)
(** ** The loops of the tokenizer never run short of iterations *)
(* ===================================================================== *)

Lemma tk_advance_remaining (tk : Tokenizer.t) :
  (Tokenizer.remaining (snd (Tokenizer.advance tk)) <= Tokenizer.remaining tk)%nat.
Proof.
  destruct tk as [[| c s] l col]; unfold Tokenizer.advance, Tokenizer.remaining; simpl.
  - lia.
  - destruct (c =? LF)%char; simpl; lia.
Qed.

Lemma tk_advance_progress (tk : Tokenizer.t) :
  Tokenizer.at_end tk = false ->
  (Tokenizer.remaining (snd (Tokenizer.advance tk)) < Tokenizer.remaining tk)%nat.
Proof.
  destruct tk as [[| c s] l col]; unfold Tokenizer.advance, Tokenizer.remaining,
    Tokenizer.at_end; simpl; [discriminate |].
  intros _. destruct (c =? LF)%char; simpl; lia.
Qed.

Lemma tk_at_end_peek (tk : Tokenizer.t) :
  Tokenizer.at_end tk = true -> Tokenizer.peek tk = NUL.
Proof. destruct tk as [[| c s] l col]; [reflexivity | discriminate]. Qed.

Lemma tk_at_end_remaining (tk : Tokenizer.t) :
  Tokenizer.at_end tk = true <-> Tokenizer.remaining tk = 0%nat.
Proof. destruct tk as [[| c s] l col]; split; (reflexivity || discriminate). Qed.

Lemma skip_whitespace_loop_fuel (fuel1 : nat) :
  forall (fuel2 : nat) (tk : Tokenizer.t),
    (Tokenizer.remaining tk <= fuel1)%nat -> (Tokenizer.remaining tk <= fuel2)%nat ->
    Tokenizer.skip_whitespace_loop fuel1 tk = Tokenizer.skip_whitespace_loop fuel2 tk.
Proof.
  assert (Hend : forall fuel tk, Tokenizer.remaining tk = 0%nat ->
                   Tokenizer.skip_whitespace_loop fuel tk = tk).
  { intros [| fuel] tk H; [reflexivity |]. simpl.
    apply tk_at_end_remaining, tk_at_end_peek in H. by rewrite H. }
  induction fuel1 as [| fuel1 IH]; intros fuel2 tk H1 H2.
  - rewrite !Hend by lia. reflexivity.
  - destruct fuel2 as [| fuel2]; [rewrite !Hend by lia; reflexivity |].
    simpl. destruct (isspace (Tokenizer.peek tk)) eqn:Hsp; [| reflexivity].
    destruct (Tokenizer.at_end tk) eqn:He.
    { apply tk_at_end_peek in He. rewrite He in Hsp. discriminate Hsp. }
    apply tk_advance_progress in He. apply IH; lia.
Qed.

Lemma skip_comment_loop_fuel (fuel1 : nat) :
  forall (fuel2 : nat) (tk : Tokenizer.t),
    (Tokenizer.remaining tk <= fuel1)%nat -> (Tokenizer.remaining tk <= fuel2)%nat ->
    Tokenizer.skip_comment_loop fuel1 tk = Tokenizer.skip_comment_loop fuel2 tk.
Proof.
  assert (Hend : forall fuel tk, Tokenizer.remaining tk = 0%nat ->
                   Tokenizer.skip_comment_loop fuel tk = tk).
  { intros [| fuel] tk H; [reflexivity |]. simpl.
    apply tk_at_end_remaining, tk_at_end_peek in H. by rewrite H. }
  induction fuel1 as [| fuel1 IH]; intros fuel2 tk H1 H2.
  - rewrite !Hend by lia. reflexivity.
  - destruct fuel2 as [| fuel2]; [rewrite !Hend by lia; reflexivity |].
    simpl.
    destruct (negb (Tokenizer.peek tk =? LF)%char && negb (Tokenizer.peek tk =? NUL)%char)
      eqn:Hc; [| reflexivity].
    destruct (Tokenizer.at_end tk) eqn:He.
    { apply tk_at_end_peek in He. rewrite He in Hc. discriminate Hc. }
    apply tk_advance_progress in He. apply IH; lia.
Qed.

Lemma read_while_fuel (pred : ascii -> bool) (fuel1 : nat) :
  pred NUL = false ->
  forall (fuel2 : nat) (value : string) (tk : Tokenizer.t),
    (Tokenizer.remaining tk <= fuel1)%nat -> (Tokenizer.remaining tk <= fuel2)%nat ->
    Tokenizer.read_while pred fuel1 value tk = Tokenizer.read_while pred fuel2 value tk.
Proof.
  intros Hnul.
  assert (Hend : forall fuel value tk, Tokenizer.remaining tk = 0%nat ->
                   Tokenizer.read_while pred fuel value tk = (value, tk)).
  { intros [| fuel] value tk H; [reflexivity |]. simpl.
    apply tk_at_end_remaining, tk_at_end_peek in H. by rewrite H, Hnul. }
  induction fuel1 as [| fuel1 IH]; intros fuel2 value tk H1 H2.
  - rewrite !Hend by lia. reflexivity.
  - destruct fuel2 as [| fuel2]; [rewrite !Hend by lia; reflexivity |].
    simpl. destruct (pred (Tokenizer.peek tk)) eqn:Hp; [| reflexivity].
    destruct (Tokenizer.at_end tk) eqn:He.
    { apply tk_at_end_peek in He. rewrite He, Hnul in Hp. discriminate Hp. }
    apply tk_advance_progress in He.
    destruct (Tokenizer.advance tk) as [c tk']. simpl in He. apply IH; lia.
Qed.

Lemma read_string_loop_fuel (fuel1 : nat) :
  forall (fuel2 : nat) (value : string) (tk : Tokenizer.t),
    (Tokenizer.remaining tk <= fuel1)%nat -> (Tokenizer.remaining tk <= fuel2)%nat ->
    Tokenizer.read_string_loop fuel1 value tk = Tokenizer.read_string_loop fuel2 value tk.
Proof.
  assert (Hend : forall fuel value tk, Tokenizer.remaining tk = 0%nat ->
                   Tokenizer.read_string_loop fuel value tk = (value, tk)).
  { intros [| fuel] value tk H; [reflexivity |]. simpl.
    apply tk_at_end_remaining, tk_at_end_peek in H. by rewrite H. }
  induction fuel1 as [| fuel1 IH]; intros fuel2 value tk H1 H2.
  - rewrite !Hend by lia. reflexivity.
  - destruct fuel2 as [| fuel2]; [rewrite !Hend by lia; reflexivity |].
    simpl.
    destruct (negb (Tokenizer.peek tk =? QUOTE)%char
              && negb (Tokenizer.peek tk =? NUL)%char) eqn:Hc; [| reflexivity].
    destruct (Tokenizer.at_end tk) eqn:He.
    { apply tk_at_end_peek in He. rewrite He in Hc. discriminate Hc. }
    apply tk_advance_progress in He.
    destruct (Tokenizer.peek tk =? BACKSLASH)%char.
    + destruct (Tokenizer.advance tk) as [c1 tk1]. simpl in He.
      pose proof (tk_advance_remaining tk1) as H'.
      destruct (Tokenizer.advance tk1) as [c2 tk2]. simpl in H'. apply IH; lia.
    + destruct (Tokenizer.advance tk) as [c tk']. simpl in He. apply IH; lia.
Qed.

(** What the sub-scanners leave unread. *)
Lemma skip_whitespace_loop_remaining (fuel : nat) :
  forall tk : Tokenizer.t,
    (Tokenizer.remaining (Tokenizer.skip_whitespace_loop fuel tk)
     <= Tokenizer.remaining tk)%nat.
Proof.
  induction fuel as [| fuel IH]; intros tk; simpl; [lia |].
  destruct (isspace (Tokenizer.peek tk)); [| lia].
  pose proof (tk_advance_remaining tk). specialize (IH (snd (Tokenizer.advance tk))). lia.
Qed.

Lemma skip_comment_remaining (tk : Tokenizer.t) :
  (Tokenizer.remaining (Tokenizer.skip_comment tk) <= Tokenizer.remaining tk)%nat.
Proof.
  unfold Tokenizer.skip_comment. destruct (_ && _); [| lia].
  generalize (Tokenizer.remaining tk) at 1. intros fuel. revert tk.
  induction fuel as [| fuel IH]; intros tk; simpl; [lia |].
  destruct (_ && _); [| lia].
  pose proof (tk_advance_remaining tk). specialize (IH (snd (Tokenizer.advance tk))). lia.
Qed.

Lemma read_while_remaining (pred : ascii -> bool) (fuel : nat) :
  forall (value : string) (tk : Tokenizer.t),
    (Tokenizer.remaining (snd (Tokenizer.read_while pred fuel value tk))
     <= Tokenizer.remaining tk)%nat.
Proof.
  induction fuel as [| fuel IH]; intros value tk; simpl; [lia |].
  destruct (pred (Tokenizer.peek tk)); [| simpl; lia].
  pose proof (tk_advance_remaining tk).
  destruct (Tokenizer.advance tk) as [c tk']. simpl in *.
  specialize (IH (value +:+ str1 c) tk'). lia.
Qed.

Lemma read_while_progress (pred : ascii -> bool) (fuel : nat) (value : string)
  (tk : Tokenizer.t) :
  pred (Tokenizer.peek tk) = true -> Tokenizer.at_end tk = false ->
  (Tokenizer.remaining
     (snd (Tokenizer.read_while pred (Tokenizer.remaining tk) value tk))
   < Tokenizer.remaining tk)%nat.
Proof.
  intros Hp He. pose proof (tk_advance_progress tk He) as Hadv.
  destruct (Tokenizer.remaining tk) as [| n] eqn:Hn; [lia |].
  simpl. rewrite Hp.
  destruct (Tokenizer.advance tk) as [c tk']. simpl in Hadv.
  pose proof (read_while_remaining pred n (value +:+ str1 c) tk'). lia.
Qed.

Lemma read_string_loop_remaining (fuel : nat) :
  forall (value : string) (tk : Tokenizer.t),
    (Tokenizer.remaining (snd (Tokenizer.read_string_loop fuel value tk))
     <= Tokenizer.remaining tk)%nat.
Proof.
  induction fuel as [| fuel IH]; intros value tk; simpl; [lia |].
  destruct (_ && _); [| simpl; lia].
  pose proof (tk_advance_remaining tk) as H1.
  destruct (Tokenizer.peek tk =? BACKSLASH)%char.
  - destruct (Tokenizer.advance tk) as [c1 tk1]. simpl in H1.
    pose proof (tk_advance_remaining tk1) as H2.
    destruct (Tokenizer.advance tk1) as [c2 tk2]. simpl in H2.
    specialize (IH (value +:+ str1 (Tokenizer.unescape_char c2)) tk2). lia.
  - destruct (Tokenizer.advance tk) as [c tk']. simpl in H1.
    specialize (IH (value +:+ str1 c) tk'). lia.
Qed.

Lemma read_identifier_progress (tk : Tokenizer.t) :
  Tokenizer.is_alpha (Tokenizer.peek tk) = true -> Tokenizer.at_end tk = false ->
  (Tokenizer.remaining (snd (Tokenizer.read_identifier tk)) < Tokenizer.remaining tk)%nat
  /\ Token.type (fst (Tokenizer.read_identifier tk)) <> TokenType.END_OF_FILE.
Proof.
  intros Ha He. unfold Tokenizer.read_identifier.
  assert (Hal : Tokenizer.is_alnum (Tokenizer.peek tk) = true).
  { unfold Tokenizer.is_alpha in Ha. unfold Tokenizer.is_alnum, isalnum.
    apply orb_true_iff in Ha as [-> | ->]; [reflexivity | apply orb_true_r]. }
  pose proof (read_while_progress Tokenizer.is_alnum 0 EmptyString tk Hal He) as Hp.
  destruct (Tokenizer.read_while Tokenizer.is_alnum (Tokenizer.remaining tk)
              EmptyString tk) as [value tk'].
  simpl in Hp.
  destruct (Tokenizer.keywords !! map_string toupper value) as [ty |] eqn:Hk; simpl.
  - split; [exact Hp |]. intros ->.
    apply elem_of_list_to_map_2 in Hk.
    repeat (apply elem_of_cons in Hk as [Heq | Hk]; [discriminate Heq |]).
    by apply elem_of_nil in Hk.
  - split; [exact Hp | discriminate].
Qed.

Lemma read_number_progress (tk : Tokenizer.t) :
  Tokenizer.is_digit (Tokenizer.peek tk) = true -> Tokenizer.at_end tk = false ->
  (Tokenizer.remaining (snd (Tokenizer.read_number tk)) < Tokenizer.remaining tk)%nat
  /\ Token.type (fst (Tokenizer.read_number tk)) <> TokenType.END_OF_FILE.
Proof.
  intros Hd He. unfold Tokenizer.read_number.
  pose proof (read_while_progress Tokenizer.is_digit 0 EmptyString tk Hd He) as Hp.
  destruct (Tokenizer.read_while Tokenizer.is_digit (Tokenizer.remaining tk)
              EmptyString tk) as [value tk'].
  simpl in *. split; [exact Hp | discriminate].
Qed.

Lemma read_string_progress (tk tk' : Tokenizer.t) (tok : Token.t) :
  Tokenizer.at_end tk = false ->
  Tokenizer.read_string tk = Ok (tok, tk') ->
  (Tokenizer.remaining tk' < Tokenizer.remaining tk)%nat /\
  Token.type tok <> TokenType.END_OF_FILE.
Proof.
  intros He. unfold Tokenizer.read_string.
  pose proof (tk_advance_progress tk He) as H0.
  destruct (Tokenizer.advance tk) as [c0 tk0]. simpl in H0.
  pose proof (read_string_loop_remaining (Tokenizer.remaining tk0) EmptyString tk0) as H1.
  destruct (Tokenizer.read_string_loop (Tokenizer.remaining tk0) EmptyString tk0)
    as [value tk1]. simpl in H1.
  destruct (Tokenizer.peek tk1 =? QUOTE)%char; [| discriminate].
  pose proof (tk_advance_remaining tk1) as H2.
  destruct (Tokenizer.advance tk1) as [c2 tk2]. simpl in H2.
  intros [= <- <-]. split; [lia | discriminate].
Qed.

Lemma read_operator_progress (tk : Tokenizer.t) :
  Tokenizer.at_end tk = false ->
  (Tokenizer.remaining (snd (Tokenizer.read_operator tk)) < Tokenizer.remaining tk)%nat
  /\ Token.type (fst (Tokenizer.read_operator tk)) <> TokenType.END_OF_FILE.
Proof.
  intros He. unfold Tokenizer.read_operator.
  pose proof (tk_advance_progress tk He) as H0.
  destruct (Tokenizer.advance tk) as [c tk1]. simpl in H0.
  pose proof (tk_advance_remaining tk1) as H1.
  repeat match goal with
         | |- context [if ?b then _ else _] => destruct b
         end; simpl; (split; [lia | discriminate]).
Qed.

(** A token other than the end of input takes at least one character. *)
Lemma next_token_progress (tk tk' : Tokenizer.t) (tok : Token.t) :
  Tokenizer.next_token tk = Ok (tok, tk') ->
  (Token.type tok = TokenType.END_OF_FILE /\ Token.value tok = EmptyString) \/
  (Token.type tok <> TokenType.END_OF_FILE /\
   (Tokenizer.remaining tk' < Tokenizer.remaining tk)%nat).
Proof.
  unfold Tokenizer.next_token.
  set (tk1 := Tokenizer.skip_whitespace tk).
  set (tk2 := Tokenizer.skip_comment tk1).
  set (tk3 := Tokenizer.skip_whitespace tk2).
  assert (H3 : (Tokenizer.remaining tk3 <= Tokenizer.remaining tk)%nat).
  { pose proof (skip_whitespace_loop_remaining (Tokenizer.remaining tk) tk).
    pose proof (skip_comment_remaining tk1).
    pose proof (skip_whitespace_loop_remaining (Tokenizer.remaining tk2) tk2).
    unfold tk3, tk2, tk1, Tokenizer.skip_whitespace in *. lia. }
  intros H. destruct (Tokenizer.at_end tk3) eqn:He.
  { injection H as <- _. left. split; reflexivity. }
  right.
  destruct (Tokenizer.is_alpha (Tokenizer.peek tk3)) eqn:Ha.
  { injection H as H. destruct (read_identifier_progress tk3 Ha He) as [P1 P2].
    rewrite H in P1, P2. simpl in P1, P2. split; [assumption | lia]. }
  destruct (Tokenizer.is_digit (Tokenizer.peek tk3)) eqn:Hd.
  { injection H as H. destruct (read_number_progress tk3 Hd He) as [P1 P2].
    rewrite H in P1, P2. simpl in P1, P2. split; [assumption | lia]. }
  destruct (Tokenizer.peek tk3 =? QUOTE)%char.
  { destruct (read_string_progress tk3 tk' tok He H). split; [assumption | lia]. }
  destruct (_ || _).
  { injection H as H. destruct (read_operator_progress tk3 He) as [P1 P2].
    rewrite H in P1, P2. simpl in P1, P2. split; [assumption | lia]. }
  injection H as <- <-. pose proof (tk_advance_progress tk3 He). simpl.
  split; [| lia].
  repeat match goal with
         | |- context [if ?b then _ else _] => destruct b
         end; discriminate.
Qed.

Lemma tokenize_loop_fuel (fuel1 : nat) :
  forall (fuel2 : nat) (tokens : list Token.t) (tk : Tokenizer.t),
    (Tokenizer.remaining tk < fuel1)%nat -> (Tokenizer.remaining tk < fuel2)%nat ->
    Tokenizer.tokenize_loop fuel1 tokens tk = Tokenizer.tokenize_loop fuel2 tokens tk.
Proof.
  induction fuel1 as [| fuel1 IH]; intros [| fuel2] tokens tk H1 H2; try lia.
  simpl. destruct (Tokenizer.next_token tk) as [[tok tk'] | e] eqn:Hn; [| reflexivity].
  simpl. apply next_token_progress in Hn as [[Hty _] | [Hty Hlt]].
  - rewrite Hty. reflexivity.
  - apply TokenType_eqb_neq in Hty. rewrite Hty. apply IH; lia.
Qed.

(** The contract of the lexer: a token sequence ends with the end-of-input
    token, which occurs nowhere before. *)
Lemma tokenize_loop_terminated (fuel : nat) :
  forall (tokens result : list Token.t) (tk : Tokenizer.t),
    (Tokenizer.remaining tk < fuel)%nat ->
    Tokenizer.tokenize_loop fuel tokens tk = Ok result ->
    exists middle last,
      result = tokens ++ middle ++ [last] /\
      Token.type last = TokenType.END_OF_FILE /\
      Forall (fun tok => Token.type tok <> TokenType.END_OF_FILE) middle.
Proof.
  induction fuel as [| fuel IH]; intros tokens result tk Hfuel; [lia |].
  simpl. destruct (Tokenizer.next_token tk) as [[tok tk'] | e] eqn:Hn; [| discriminate].
  simpl. apply next_token_progress in Hn as [[Hty _] | [Hty Hlt]].
  - rewrite Hty. simpl. intros [= <-]. exists [], tok. auto.
  - pose proof Hty as Hty'. apply TokenType_eqb_neq in Hty'. rewrite Hty'.
    intros H. apply IH in H as (middle & last & -> & Hlast & Hmid); [| lia].
    exists (tok :: middle), last. rewrite <- app_assoc. simpl. auto.
Qed.

Lemma tokenize_terminated (text : string) (result : list Token.t) :
  Tokenizer.tokenize text = Ok result ->
  exists middle last,
    result = middle ++ [last] /\
    Token.type last = TokenType.END_OF_FILE /\
    Forall (fun tok => Token.type tok <> TokenType.END_OF_FILE) middle.
Proof.
  unfold Tokenizer.tokenize. intros H.
  apply tokenize_loop_terminated in H; [exact H |].
  unfold Tokenizer.remaining, Tokenizer.init. simpl. lia.
Qed.

(* ===================================================================== *)
(** ** The loading loop never runs short of iterations *)
(* ===================================================================== *)

Lemma read_columns_remaining (count : nat) :
  forall (file file' : list string) (acc columns : list Column.t),
    MetadataManager.read_columns count file acc = Ok (columns, file') ->
    (length file' <= length file)%nat.
Proof.
  induction count as [| count IH]; intros file file' acc columns; simpl.
  - intros [= _ <-]. lia.
  - destruct file as [| line file]; [discriminate |].
    destruct (MetadataManager.deserialize_column line) as [column |]; [| discriminate].
    simpl. intros H%IH. simpl. lia.
Qed.

Lemma load_loop_fuel (fuel1 : nat) :
  forall (fuel2 : nat) (file : list string) (tables : gmap string TableSchema.t),
    (length file <= fuel1)%nat -> (length file <= fuel2)%nat ->
    MetadataManager.load_loop fuel1 file tables
    = MetadataManager.load_loop fuel2 file tables.
Proof.
  induction fuel1 as [| fuel1 IH]; intros fuel2 file tables H1 H2.
  - destruct file; [| simpl in H1; lia]. by destruct fuel2.
  - destruct fuel2 as [| fuel2].
    { destruct file; [reflexivity | simpl in H2; lia]. }
    destruct file as [| line file]; [reflexivity |]. simpl in H1, H2.
    cbn [MetadataManager.load_loop].
    destruct (MetadataManager.is_blank_or_comment line); [apply IH; lia |].
    destruct (substring 0 6 line =? "TABLE:")%string; [| apply IH; lia].
    destruct (getline_unchecked ":" line) as [token iss].
    destruct (getline_unchecked ":" iss) as [table_name iss'].
    destruct (getline_unchecked LF iss') as [count_str iss''].
    destruct (stoi count_str) as [count |]; [| reflexivity]. cbn [bind].
    destruct (MetadataManager.read_columns (Z.to_nat count) file [])
      as [[columns file'] |] eqn:Hread; [| reflexivity].
    cbn [bind]. apply read_columns_remaining in Hread. apply IH; lia.
Qed.

(* ===================================================================== *)
(** ** One row, one line *)
(* ===================================================================== *)

Lemma numeral_single_line (s : string) :
  Spec.string_forallb Spec.numeral_char s = true -> Props.single_line s.
Proof. intros H. by apply name_char_no_lf, numeral_name. Qed.

Lemma escape_single_line (str : string) : Props.single_line (TableStorage.escape str).
Proof.
  unfold Props.single_line. induction str as [| c str IH]; simpl; [reflexivity |].
  destruct (c =? "|")%char; [simpl; by rewrite IH |].
  destruct (c =? BACKSLASH)%char; [simpl; by rewrite IH |].
  destruct (c =? LF)%char eqn:Hn; [simpl; by rewrite IH |].
  destruct (c =? CR)%char; [simpl; by rewrite IH |].
  simpl. by rewrite Hn, IH.
Qed.

Lemma serialize_value_single_line (v : Value.t) (ty : DataType.t) (f : string) :
  TableStorage.serialize_value v ty = Ok f -> Props.single_line f.
Proof.
  destruct ty, v as [i | s | b]; simpl; try discriminate; intros [= <-].
  - apply numeral_single_line, to_string_chars.
  - apply escape_single_line.
  - by destruct b.
Qed.

Lemma serialize_values_single_line (row : Row) :
  forall (columns : list Column.t) (first : bool) (oss out : string),
    Props.single_line oss ->
    TableStorage.serialize_values row columns first oss = Ok out ->
    Props.single_line out.
Proof.
  induction row as [| v row IH]; intros [| c columns] first oss out Hoss; simpl;
    try (intros [= <-]; exact Hoss).
  destruct (TableStorage.serialize_value v (Column.type c)) as [f |] eqn:Hf;
    [| discriminate].
  simpl. apply IH. unfold Props.single_line in *.
  apply serialize_value_single_line in Hf. unfold Props.single_line in Hf.
  destruct first; rewrite ?string_forallb_app, ?Hoss, ?Hf; reflexivity.
Qed.

Lemma serialize_row_single_line (row : Row) (ts : TableStorage.t) (row_str : string) :
  TableStorage.serialize_row row ts = Ok row_str -> Props.single_line row_str.
Proof.
  unfold TableStorage.serialize_row.
  destruct (negb _); [discriminate |].
  by apply serialize_values_single_line.
Qed.

(** X1: [serialize_row] writes a row that satisfies the Row invariant of
    the bound table's schema as a text without a line feed, and
    [deserialize_row] reads that text back as the same row, the row made of
    one empty string apart. *)
Theorem serialize_row_roundtrip (ts : TableStorage.t) (row : Row) :
  Spec.row_invariant (TableStorage.columns_of ts) row ->
  exists row_str,
    TableStorage.serialize_row row ts = Ok row_str /\
    Props.single_line row_str /\
    (row <> [Value.Str EmptyString] ->
     TableStorage.deserialize_row row_str ts = Ok row).
Proof.
  intros Hinv. pose proof (Forall2_length _ _ _ Hinv) as Hlen.
  destruct (serialize_values_fields row _ true EmptyString Hinv)
    as (fields & Hser & _).
  assert (Hrow : TableStorage.serialize_row row ts
                 = Ok (EmptyString +:+ Spec.join_fields true fields)).
  { unfold TableStorage.serialize_row. rewrite Hlen, Nat.eqb_refl. exact Hser. }
  eexists. split; [exact Hrow |]. split; [by eapply serialize_row_single_line |].
  intros Hne. destruct (serialize_deserialize_row ts row Hinv Hne) as (s & Hs & Hback).
  rewrite Hrow in Hs. injection Hs as <-. exact Hback.
Qed.

Lemma serialize_row_roundtrip_witness :
  exists row_str,
    TableStorage.serialize_row [Value.Int 7; Value.Str "a|b"; Value.Bool false]
      Examples.users = Ok row_str /\
    Props.single_line row_str /\
    ([Value.Int 7; Value.Str "a|b"; Value.Bool false] <> [Value.Str EmptyString] ->
     TableStorage.deserialize_row row_str Examples.users
     = Ok [Value.Int 7; Value.Str "a|b"; Value.Bool false]).
Proof.
  apply (serialize_row_roundtrip Examples.users
           [Value.Int 7; Value.Str "a|b"; Value.Bool false]).
  change (TableStorage.columns_of Examples.users)
    with (TableSchema.columns Examples.users_schema).
  repeat constructor; unfold Spec.value_fits, INT_MIN, INT_MAX; simpl; lia.
Defined.

(* ===================================================================== *)
(** ** Inserting a row *)
(* ===================================================================== *)

Lemma validate_value_serializes (column : Column.t) (v : Value.t) (u : unit) :
  MetadataManager.validate_value column v = Ok u ->
  exists f, TableStorage.serialize_value v (Column.type column) = Ok f.
Proof.
  unfold MetadataManager.validate_value.
  destruct (Column.type column); destruct v as [i | s | b]; simpl;
    try discriminate; eauto.
Qed.

Lemma validate_values_serialize (columns : list Column.t) :
  forall (values : list Value.t) (first : bool) (oss : string) (u : unit),
    length values = length columns ->
    MetadataManager.validate_values columns values = Ok u ->
    exists out, TableStorage.serialize_values values columns first oss = Ok out.
Proof.
  induction columns as [| c columns IH]; intros [| v values] first oss u Hlen;
    simpl in *; try discriminate Hlen; eauto.
  destruct (MetadataManager.validate_value c v) as [u' |] eqn:Hv; [| discriminate].
  simpl. intros Hrest.
  apply validate_value_serializes in Hv as [f ->]. simpl.
  eapply IH; [lia | exact Hrest].
Qed.

(** Validated values always serialize. *)
Lemma validated_row_serializes (values : list Value.t) (ts : TableStorage.t) (u : unit) :
  MetadataManager.validate_insert_values (TableStorage.table_name ts) values
    (TableStorage.metadata_manager ts) = Ok u ->
  exists row_data, TableStorage.serialize_row values ts = Ok row_data.
Proof.
  unfold MetadataManager.validate_insert_values, TableStorage.serialize_row,
    TableStorage.columns_of, MetadataManager.get_columns.
  destruct (MetadataManager.get_table_schema _ _) as [schema |]; [| discriminate].
  destruct (length values =? length (TableSchema.columns schema))%nat eqn:Hlen;
    simpl; [| discriminate].
  apply Nat.eqb_eq in Hlen. by apply validate_values_serialize.
Qed.

(** X2: [insert_row] fails with the error of [validate_insert_values] or,
    with validated values, with "Cannot open table file for writing" when
    the data file cannot be opened; validated values always serialize, so
    no [std::bad_variant_access] and no size mismatch ever comes out of it.
    A failed call leaves the store as it was, a successful one appends the
    serialized row, which holds no line feed, and a line feed to the data
    file. *)
Theorem insert_row_outcome (values : list Value.t) (ts : TableStorage.t) :
  match MetadataManager.validate_insert_values (TableStorage.table_name ts) values
          (TableStorage.metadata_manager ts) with
  | Throw e => TableStorage.insert_row values ts = (Throw e, ts)
  | Ok _ =>
      exists row_data,
        TableStorage.serialize_row values ts = Ok row_data /\
        Props.single_line row_data /\
        TableStorage.insert_row values ts
        = if writable (TableStorage.file ts)
          then (Ok tt, Props.appended row_data ts)
          else (Throw (runtime_error ("Cannot open table file for writing: " +:+
                                      TableStorage.file_path ts)), ts)
  end.
Proof.
  unfold TableStorage.insert_row.
  destruct (MetadataManager.validate_insert_values _ _ _) as [u |] eqn:Hv;
    [| reflexivity].
  destruct (validated_row_serializes values ts u Hv) as [row_data Hser].
  exists row_data. split; [exact Hser |].
  split; [by eapply serialize_row_single_line |].
  rewrite Hser. by destruct (writable (TableStorage.file ts)).
Qed.

(* ===================================================================== *)
(** ** A row inserted is a row selected *)
(* ===================================================================== *)

Lemma getlines_nil : getlines EmptyString = [].
Proof. reflexivity. Qed.

Lemma getlines_app_terminated (body rest : string) :
  forall pre : string,
    Props.single_line pre ->
    getlines (pre +:+ body +:+ String LF rest)
    = getlines (pre +:+ body +:+ str1 LF) ++ getlines rest.
Proof.
  induction body as [| c body IH]; intros pre Hpre.
  - rewrite !sapp_nil_l. unfold str1.
    rewrite (getlines_cons pre rest), (getlines_cons pre EmptyString) by exact Hpre.
    reflexivity.
  - destruct (c =? LF)%char eqn:Hc.
    + apply Ascii.eqb_eq in Hc as ->. rewrite !sapp_cons.
      rewrite (getlines_cons pre (body +:+ String LF rest)) by exact Hpre.
      rewrite (getlines_cons pre (body +:+ str1 LF)) by exact Hpre.
      specialize (IH EmptyString eq_refl). rewrite !sapp_nil_l in IH.
      rewrite IH. reflexivity.
    + specialize (IH (pre +:+ str1 c)). rewrite !sapp_snoc in IH. apply IH.
      unfold Props.single_line in *. rewrite string_forallb_app, Hpre. simpl.
      by rewrite Hc.
Qed.

Lemma getlines_snoc (old line : string) :
  Props.terminated old -> Props.single_line line ->
  getlines (old +:+ line +:+ str1 LF) = getlines old ++ [line].
Proof.
  intros [-> | [body ->]] Hline.
  - rewrite sapp_nil_l. unfold str1. by rewrite getlines_cons.
  - rewrite sapp_snoc.
    pose proof (getlines_app_terminated body (line +:+ str1 LF) EmptyString eq_refl)
      as H.
    rewrite !sapp_nil_l in H. rewrite H. f_equal.
    unfold str1. by rewrite getlines_cons.
Qed.

Lemma deserialize_row_columns (ts1 ts2 : TableStorage.t) (row_str : string) :
  TableStorage.columns_of ts1 = TableStorage.columns_of ts2 ->
  TableStorage.deserialize_row row_str ts1 = TableStorage.deserialize_row row_str ts2.
Proof. unfold TableStorage.deserialize_row. by intros ->. Qed.

Lemma scan_columns (ts1 ts2 : TableStorage.t) (lines : list string) :
  TableStorage.columns_of ts1 = TableStorage.columns_of ts2 ->
  forall acc, TableStorage.scan lines acc ts1 = TableStorage.scan lines acc ts2.
Proof.
  intros Hcols. induction lines as [| line lines IH]; intros acc; simpl; [reflexivity |].
  rewrite (deserialize_row_columns ts1 ts2 line Hcols).
  destruct (MetadataManager.is_blank_or_comment line); [apply IH |].
  destruct (TableStorage.deserialize_row line ts2); apply IH.
Qed.

Lemma scan_app (ts : TableStorage.t) (lines1 lines2 : list string) (acc : list Row) :
  TableStorage.scan (lines1 ++ lines2) acc ts
  = TableStorage.scan lines2 (TableStorage.scan lines1 acc ts) ts.
Proof.
  revert acc. induction lines1 as [| line lines1 IH]; intros acc; simpl; [reflexivity |].
  destruct (MetadataManager.is_blank_or_comment line); [apply IH |].
  destruct (TableStorage.deserialize_row line ts); apply IH.
Qed.

(** What validation lets through satisfies the Row invariant, integers and
    string lengths being those an [int] holds. *)
Lemma validated_row_invariant (values : list Value.t) (ts : TableStorage.t) (u : unit) :
  Props.ints_in_range values -> Spec.strings_fit_int values ->
  MetadataManager.validate_insert_values (TableStorage.table_name ts) values
    (TableStorage.metadata_manager ts) = Ok u ->
  Spec.row_invariant (TableStorage.columns_of ts) values.
Proof.
  intros Hint Hfit. unfold MetadataManager.validate_insert_values,
    TableStorage.columns_of, MetadataManager.get_columns.
  destruct (MetadataManager.get_table_schema _ _) as [schema |]; [| discriminate].
  destruct (length values =? length (TableSchema.columns schema))%nat eqn:Hlen;
    simpl; [| discriminate].
  apply Nat.eqb_eq in Hlen.
  pose proof (validate_values_spec (TableSchema.columns schema) values Hlen Hfit) as Hv.
  destruct (MetadataManager.validate_values _ _) as [[] |]; [| discriminate].
  intros _. apply Forall2_same_length_lookup_2; [exact Hlen |].
  intros i v c Hvi Hci. destruct (Hv i v c Hvi Hci) as [Hty Hlong].
  unfold Spec.value_fits. unfold Spec.value_has_type in Hty.
  unfold Spec.string_too_long in Hlong.
  destruct (Column.type c) eqn:Hc; destruct v as [n | s | b]; try contradiction.
  - apply Hint. apply list_elem_of_In. by eapply list_elem_of_lookup_2.
  - destruct (Z_le_gt_dec (Z.of_nat (String.length s)) (Column.varchar_length c))
      as [Hle | Hgt]; [exact Hle |].
    exfalso. apply Hlong. split; [reflexivity |]. exists s. split; [reflexivity | lia].
  - exact I.
Qed.

Lemma serialize_single_empty_string (ts : TableStorage.t) (row_data : string) :
  TableStorage.serialize_row [Value.Str EmptyString] ts = Ok row_data ->
  row_data = EmptyString.
Proof.
  unfold TableStorage.serialize_row.
  destruct (TableStorage.columns_of ts) as [| c [| c' columns]]; simpl;
    try discriminate.
  destruct (Column.type c); simpl; try discriminate. by intros [= <-].
Qed.

(** The scan of a data file one row longer. *)
Lemma select_all_appended (values : list Value.t) (ts : TableStorage.t)
  (old row_data : string) :
  content (TableStorage.file ts) = Some old -> Props.terminated old ->
  Spec.row_invariant (TableStorage.columns_of ts) values ->
  TableStorage.serialize_row values ts = Ok row_data ->
  TableStorage.select_all (Props.appended row_data ts)
  = Ok (TableStorage.scan (getlines old) [] ts
        ++ if MetadataManager.is_blank_or_comment row_data then [] else [values]).
Proof.
  intros Hold Hterm Hinv Hser.
  unfold TableStorage.select_all, Props.appended. simpl. rewrite Hold.
  rewrite getlines_snoc; [| exact Hterm | by eapply serialize_row_single_line].
  match goal with |- Ok (TableStorage.scan _ _ ?t) = _ => set (ts1 := t) end.
  assert (Hcols : TableStorage.columns_of ts1 = TableStorage.columns_of ts)
    by reflexivity.
  rewrite (scan_columns ts1 ts _ Hcols), scan_app. f_equal.
  rewrite (scan_rows ts [row_data]). f_equal. simpl. unfold Spec.row_of_line.
  destruct (MetadataManager.is_blank_or_comment row_data) eqn:Hblank; [reflexivity |].
  assert (Hne : values <> [Value.Str EmptyString]).
  { intros ->. apply serialize_single_empty_string in Hser as ->. discriminate Hblank. }
  destruct (serialize_deserialize_row ts values Hinv Hne) as (s & Hs & Hback).
  rewrite Hser in Hs. injection Hs as <-. by rewrite Hback.
Qed.

(** What a successful [insert_row] has done. *)
Lemma insert_row_ok_inv (values : list Value.t) (ts ts' : TableStorage.t) :
  TableStorage.insert_row values ts = (Ok tt, ts') ->
  exists (u : unit) (row_data : string),
    MetadataManager.validate_insert_values (TableStorage.table_name ts) values
      (TableStorage.metadata_manager ts) = Ok u /\
    TableStorage.serialize_row values ts = Ok row_data /\
    writable (TableStorage.file ts) = true /\
    ts' = Props.appended row_data ts.
Proof.
  unfold TableStorage.insert_row.
  destruct (MetadataManager.validate_insert_values _ _ _) as [u |] eqn:Hv;
    [| discriminate].
  destruct (TableStorage.serialize_row values ts) as [row_data |]; [| discriminate].
  destruct (writable (TableStorage.file ts)); [| discriminate].
  simpl. intros [= <-]. by exists u, row_data.
Qed.

(** X3: after a successful [insert_row] into a data file whose last line is
    closed, [select_all] returns the rows it returned before followed by
    the inserted row; only a row whose serialized text is empty or starts
    with # is not returned, since the scan takes its line for a blank or a
    comment.  Integers and string lengths are those an [int] holds. *)
Theorem insert_row_then_select_all (values : list Value.t) (ts ts' : TableStorage.t)
  (old : string) :
  content (TableStorage.file ts) = Some old -> Props.terminated old ->
  Props.ints_in_range values -> Spec.strings_fit_int values ->
  TableStorage.insert_row values ts = (Ok tt, ts') ->
  exists rows row_data,
    TableStorage.select_all ts = Ok rows /\
    TableStorage.serialize_row values ts = Ok row_data /\
    TableStorage.select_all ts'
    = Ok (rows ++ if MetadataManager.is_blank_or_comment row_data
                  then [] else [values]).
Proof.
  intros Hold Hterm Hint Hfit (u & row_data & Hv & Hser & _ & ->)%insert_row_ok_inv.
  pose proof (validated_row_invariant values ts u Hint Hfit Hv) as Hinv.
  exists (TableStorage.scan (getlines old) [] ts), row_data.
  split; [unfold TableStorage.select_all; by rewrite Hold |].
  split; [exact Hser |]. by apply select_all_appended.
Qed.

Lemma insert_row_then_select_all_witness :
  exists rows row_data,
    TableStorage.select_all Examples.users = Ok rows /\
    TableStorage.serialize_row [Value.Int 3; Value.Str "Dan"; Value.Bool true]
      Examples.users = Ok row_data /\
    TableStorage.select_all
      (snd (TableStorage.insert_row [Value.Int 3; Value.Str "Dan"; Value.Bool true]
              Examples.users))
    = Ok (rows ++ if MetadataManager.is_blank_or_comment row_data
                  then [] else [[Value.Int 3; Value.Str "Dan"; Value.Bool true]]).
Proof.
  apply (insert_row_then_select_all [Value.Int 3; Value.Str "Dan"; Value.Bool true]
           Examples.users _ Examples.users_file).
  - reflexivity.
  - right. exists ("# Table data for users" +:+ str1 LF +:+ "1|Alice|1" +:+ str1 LF +:+
                   "x|Bob|0" +:+ str1 LF +:+ "2|Carol").
    vm_compute. reflexivity.
  - intros i [H | [H | [H | []]]]; try discriminate H.
    injection H as <-. unfold INT_MIN, INT_MAX. lia.
  - intros s [H | [H | [H | []]]]; try discriminate H.
    injection H as <-. vm_compute. discriminate.
  - vm_compute. reflexivity.
Defined.

(* ===================================================================== *)
(** ** The shape of a data file *)
(* ===================================================================== *)

Lemma terminated_snoc (a : string) : Props.terminated (a +:+ str1 LF).
Proof. right. by exists a. Qed.

(** X4: the data file keeps its last line closed: the file the constructor
    creates ends with a line feed, and so does the file after [insert_row]
    and after [clear_table], whether they succeed or fail, when it did
    before. *)
Theorem table_file_stays_terminated (ts : TableStorage.t) :
  Props.file_terminated (TableStorage.file ts) ->
  Props.file_terminated (TableStorage.file (snd (TableStorage.ensure_table_file ts))) /\
  (forall values,
     Props.file_terminated (TableStorage.file (snd (TableStorage.insert_row values ts)))) /\
  Props.file_terminated (TableStorage.file (snd (TableStorage.clear_table ts))).
Proof.
  intros Hterm. split; [| split].
  - unfold TableStorage.ensure_table_file.
    destruct (content (TableStorage.file ts)) eqn:Hc; [exact Hterm |].
    destruct (writable (TableStorage.file ts)); simpl; [| exact Hterm].
    intros text [= <-]. rewrite <- sapp_assoc. apply terminated_snoc.
  - intros values. unfold TableStorage.insert_row.
    destruct (MetadataManager.validate_insert_values _ _ _); [| exact Hterm].
    destruct (TableStorage.serialize_row values ts); [| exact Hterm].
    destruct (writable (TableStorage.file ts)); simpl; [| exact Hterm].
    intros text [= <-]. rewrite <- sapp_assoc. apply terminated_snoc.
  - unfold TableStorage.clear_table.
    destruct (writable (TableStorage.file ts)); simpl; [| exact Hterm].
    intros text [= <-]. rewrite <- sapp_assoc. apply terminated_snoc.
Qed.

Lemma table_file_stays_terminated_witness :
  Props.file_terminated
    (TableStorage.file (snd (TableStorage.ensure_table_file Examples.users))) /\
  (forall values,
     Props.file_terminated
       (TableStorage.file (snd (TableStorage.insert_row values Examples.users)))) /\
  Props.file_terminated
    (TableStorage.file (snd (TableStorage.clear_table Examples.users))).
Proof.
  apply (table_file_stays_terminated Examples.users).
  intros text H. injection H as <-. right.
  exists ("# Table data for users" +:+ str1 LF +:+ "1|Alice|1" +:+ str1 LF +:+
          "x|Bob|0" +:+ str1 LF +:+ "2|Carol").
  vm_compute. reflexivity.
Defined.

(* ===================================================================== *)
(** ** Dropping a table *)
(* ===================================================================== *)

(** The ways a call to [drop_table] can go. *)
Lemma drop_table_cases (table_name : string) (m : MetadataManager.t) :
  MetadataManager.drop_table table_name m
  = match MetadataManager.tables m !! table_name with
    | None =>
        (Throw (runtime_error ("Table '" +:+ table_name +:+ "' does not exist")), m)
    | Some _ => MetadataManager.save_metadata (Props.erased table_name m)
    end.
Proof.
  unfold MetadataManager.drop_table, mbind, gets, throw, modify.
  destruct (MetadataManager.table_exists table_name m) eqn:Hex.
  - apply table_exists_spec in Hex as [schema ->]. reflexivity.
  - destruct (MetadataManager.tables m !! table_name) eqn:Hl; [| reflexivity].
    assert (MetadataManager.table_exists table_name m = true) as Hex'
      by (apply table_exists_spec; eauto).
    congruence.
Qed.

(** X5: [drop_table] raises an error if and only if the table is not
    registered or the metadata file cannot be opened for writing.  Whatever
    the outcome, the registry afterwards is the one before without the
    table: a drop that fails on the metadata file has still erased the
    table from memory.  Without the table the catalog is left as it was;
    with it and a file that opens, the new registry is written out. *)
Theorem drop_table_effect (table_name : string) (m : MetadataManager.t) :
  (throws (fst (MetadataManager.drop_table table_name m))
   <-> MetadataManager.tables m !! table_name = None \/
       writable (MetadataManager.disk m) = false) /\
  MetadataManager.tables (snd (MetadataManager.drop_table table_name m))
  = delete table_name (MetadataManager.tables m) /\
  (MetadataManager.tables m !! table_name = None ->
   MetadataManager.drop_table table_name m
   = (Throw (runtime_error ("Table '" +:+ table_name +:+ "' does not exist")), m)) /\
  (is_Some (MetadataManager.tables m !! table_name) ->
   writable (MetadataManager.disk m) = true ->
   MetadataManager.drop_table table_name m
   = (Ok tt, Spec.persisted (Props.erased table_name m))).
Proof.
  rewrite drop_table_cases.
  destruct (MetadataManager.tables m !! table_name) as [schema |] eqn:Hl.
  - rewrite save_metadata_cases. simpl.
    destruct (writable (MetadataManager.disk m)); simpl.
    + split; [split; [intros [e He]; discriminate He | intros [H | H]; discriminate H] |].
      split; [reflexivity |]. split; [discriminate | reflexivity].
    + split; [split; [auto | intros _; eexists; reflexivity] |].
      split; [reflexivity |]. split; [discriminate | discriminate].
  - simpl. split; [split; [auto | intros _; eexists; reflexivity] |].
    split; [by rewrite delete_id |]. split; [reflexivity |].
    intros [x Hx]. discriminate Hx.
Qed.

(* ===================================================================== *)
(** ** A table created *)
(* ===================================================================== *)

Lemma create_table_ok_inv (table_name : string) (columns : list Column.t)
  (m m1 : MetadataManager.t) :
  MetadataManager.create_table table_name columns m = (Ok tt, m1) ->
  ~ Spec.create_table_refused table_name columns m /\
  writable (MetadataManager.disk m) = true /\
  m1 = Spec.persisted (Spec.registered table_name columns m).
Proof.
  destruct (create_table_cases table_name columns m)
    as [[Href (e & _ & Heq)] | [Hacc Heq]]; rewrite Heq; [discriminate |].
  rewrite save_metadata_cases. simpl.
  destruct (writable (MetadataManager.disk m)); [| discriminate].
  intros [= <-]. auto.
Qed.

(** X6: once [create_table] has succeeded, the table's columns are the
    ones given, a second [create_table] under the same name is refused with
    "already exists" and changes nothing, and a [drop_table] of the name
    succeeds and gives back the registry of before the creation, which is
    what the metadata file then holds. *)
Theorem create_table_then_drop_table (table_name : string) (columns : list Column.t)
  (m m1 : MetadataManager.t) :
  MetadataManager.create_table table_name columns m = (Ok tt, m1) ->
  MetadataManager.get_columns table_name m1 = columns /\
  (forall columns',
     MetadataManager.create_table table_name columns' m1
     = (Throw (runtime_error ("Table '" +:+ table_name +:+ "' already exists")), m1)) /\
  exists m2,
    MetadataManager.drop_table table_name m1 = (Ok tt, m2) /\
    MetadataManager.tables m2 = MetadataManager.tables m /\
    content (MetadataManager.disk m2)
    = Some (MetadataManager.render_metadata (map_to_list (MetadataManager.tables m))).
Proof.
  intros (Hacc & Hw & ->)%create_table_ok_inv.
  assert (Hfresh : MetadataManager.tables m !! table_name = None).
  { destruct (MetadataManager.tables m !! table_name) eqn:Hl; [| reflexivity].
    exfalso. apply Hacc. left. eauto. }
  split; [| split].
  - unfold MetadataManager.get_columns, MetadataManager.get_table_schema. simpl.
    by rewrite lookup_insert_eq.
  - intros columns'. unfold MetadataManager.create_table, mbind, gets, throw.
    assert (Hex : MetadataManager.table_exists table_name
                    (Spec.persisted (Spec.registered table_name columns m)) = true).
    { apply table_exists_spec. simpl. rewrite lookup_insert_eq. eauto. }
    by rewrite Hex.
  - rewrite drop_table_cases. simpl. rewrite lookup_insert_eq.
    rewrite save_metadata_cases. simpl. rewrite Hw.
    eexists. split; [reflexivity |]. simpl.
    rewrite delete_insert_eq, delete_id by exact Hfresh. auto.
Qed.

Lemma create_table_then_drop_table_witness :
  exists m2,
    MetadataManager.drop_table "u"
      (Spec.persisted
         (Spec.registered "u" [Column.mk "a" DataType.INTEGER 0 false false]
            Examples.small_catalog)) = (Ok tt, m2) /\
    MetadataManager.tables m2 = MetadataManager.tables Examples.small_catalog /\
    content (MetadataManager.disk m2)
    = Some (MetadataManager.render_metadata
              (map_to_list (MetadataManager.tables Examples.small_catalog))).
Proof.
  apply (create_table_then_drop_table "u"
           [Column.mk "a" DataType.INTEGER 0 false false] Examples.small_catalog).
  vm_compute. reflexivity.
Defined.

(* ===================================================================== *)
(** ** The invariant of the catalog *)
(* ===================================================================== *)

Lemma accepted_schema_wf (table_name : string) (columns : list Column.t)
  (m : MetadataManager.t) :
  ~ Spec.create_table_refused table_name columns m ->
  Props.schema_wf table_name (TableSchema.mk table_name columns).
Proof.
  intros Hacc. unfold Spec.create_table_refused in Hacc.
  repeat split; simpl.
  - intros H. tauto.
  - intros H. tauto.
  - apply Forall_forall. intros c Hin%list_elem_of_In. split.
    + intros H. apply Hacc. do 3 right. left. eauto.
    + intros H. apply Hacc. do 6 right. eauto.
  - destruct (decide (NoDup (List.map Column.name columns))) as [Hnd | Hnd];
      [exact Hnd | tauto].
  - destruct (le_gt_dec (Spec.primary_key_count columns) 1) as [Hle | Hgt];
      [exact Hle |].
    exfalso. apply Hacc. do 5 right. left. lia.
Qed.

(** X7: [create_table] and [drop_table] keep the catalog well formed,
    whether they succeed or fail: every schema is registered under its own
    non-empty name, has at least one column, no empty and no repeated
    column name, at most one primary key, and a positive length for every
    VARCHAR column. *)
Theorem catalog_stays_well_formed (m : MetadataManager.t) :
  Props.catalog_wf (MetadataManager.tables m) ->
  (forall table_name columns,
     Props.catalog_wf
       (MetadataManager.tables
          (snd (MetadataManager.create_table table_name columns m)))) /\
  (forall table_name,
     Props.catalog_wf
       (MetadataManager.tables (snd (MetadataManager.drop_table table_name m)))).
Proof.
  intros Hwf. split.
  - intros table_name columns.
    destruct (create_table_cases table_name columns m)
      as [[Href (e & _ & Heq)] | [Hacc Heq]]; rewrite Heq; [exact Hwf |].
    rewrite save_metadata_cases.
    assert (Hnew : Props.catalog_wf
                     (<[table_name := TableSchema.mk table_name columns]>
                        (MetadataManager.tables m))).
    { intros n s Hl. destruct (decide (n = table_name)) as [-> | Hne].
      - rewrite lookup_insert_eq in Hl. injection Hl as <-.
        by eapply accepted_schema_wf.
      - rewrite lookup_insert_ne in Hl by congruence. by apply Hwf. }
    by destruct (writable (MetadataManager.disk (Spec.registered table_name columns m))).
  - intros table_name. rewrite drop_table_cases.
    destruct (MetadataManager.tables m !! table_name); [| exact Hwf].
    rewrite save_metadata_cases.
    assert (Hnew : Props.catalog_wf (delete table_name (MetadataManager.tables m))).
    { intros n s Hl. apply lookup_delete_Some in Hl as [_ Hl]. by apply Hwf. }
    by destruct (writable (MetadataManager.disk (Props.erased table_name m))).
Qed.

Lemma catalog_stays_well_formed_witness :
  Props.catalog_wf
    (MetadataManager.tables
       (snd (MetadataManager.create_table "u"
               [Column.mk "a" DataType.INTEGER 0 false false]
               Examples.small_catalog))).
Proof.
  apply (catalog_stays_well_formed Examples.small_catalog).
  intros n s Hl.
  change (MetadataManager.tables Examples.small_catalog)
    with ({["t" := TableSchema.mk "t" [Column.mk "s" DataType.VARCHAR 5 true false]]}
          : gmap string TableSchema.t) in Hl.
  apply lookup_singleton_Some in Hl as [<- <-].
  repeat split; simpl; try discriminate.
  - constructor; [| constructor]. split; [discriminate |].
    intros [_ H]. simpl in H. lia.
  - apply NoDup_singleton.
  - vm_compute. lia.
Defined.

(* ===================================================================== *)
(** ** Looking a column up *)
(* ===================================================================== *)

(** The index loop and [std::find_if] stop at the same column. *)
Lemma find_column_index_spec (columns : list Column.t) (column_name : string) :
  forall k : nat,
    Z.of_nat (k + length columns) <= INT_MAX ->
    match List.find (fun column => String.eqb (Column.name column) column_name)
                    columns with
    | None =>
        MetadataManager.find_column_index columns column_name (Z.of_nat k) = -1
    | Some column =>
        exists i : nat,
          MetadataManager.find_column_index columns column_name (Z.of_nat k)
          = Z.of_nat (k + i) /\
          columns !! i = Some column /\
          Column.name column = column_name /\
          forall (j : nat) c,
            (j < i)%nat -> columns !! j = Some c -> Column.name c <> column_name
    end.
Proof.
  induction columns as [| c columns IH]; intros k Hk; simpl; [reflexivity |].
  destruct (String.eqb (Column.name c) column_name) eqn:Hc.
  - exists 0%nat. rewrite Nat.add_0_r. split.
    + apply to_int_id. unfold INT_MIN. simpl in Hk. lia.
    + split; [reflexivity |]. split; [by apply String.eqb_eq |]. intros j c' Hj. lia.
  - specialize (IH (S k)). simpl in Hk.
    replace (Z.of_nat k + 1) with (Z.of_nat (S k)) by lia.
    destruct (List.find _ columns) as [column |].
    + destruct IH as (i & Hi & Hl & Hn & Hbefore); [lia |].
      exists (S i). split; [rewrite Hi; f_equal; lia |].
      split; [exact Hl |]. split; [exact Hn |].
      intros [| j] c' Hj Hc'; simpl in Hc'.
      * injection Hc' as <-. by apply String.eqb_neq.
      * apply (Hbefore j); [lia | exact Hc'].
    + apply IH. lia.
Qed.

(** X8: [get_column_index] and [get_column] agree: the index is -1 exactly
    when no column of the table bears the name, and otherwise it is the
    position of the column [get_column] returns, the first one of that
    name.  The number of columns is one an [int] holds. *)
Theorem get_column_index_agrees (table_name column_name : string)
  (m : MetadataManager.t) :
  Z.of_nat (length (MetadataManager.get_columns table_name m)) <= INT_MAX ->
  match MetadataManager.get_column table_name column_name m with
  | None => MetadataManager.get_column_index table_name column_name m = -1
  | Some column =>
      exists i : nat,
        MetadataManager.get_column_index table_name column_name m = Z.of_nat i /\
        MetadataManager.get_columns table_name m !! i = Some column /\
        Column.name column = column_name /\
        forall (j : nat) c,
          (j < i)%nat -> MetadataManager.get_columns table_name m !! j = Some c ->
          Column.name c <> column_name
  end.
Proof.
  unfold MetadataManager.get_column, MetadataManager.get_column_index,
    MetadataManager.get_columns.
  destruct (MetadataManager.get_table_schema table_name m) as [schema |];
    [| reflexivity].
  intros Hlen.
  exact (find_column_index_spec (TableSchema.columns schema) column_name 0 Hlen).
Qed.

Lemma get_column_index_agrees_witness :
  exists i : nat,
    MetadataManager.get_column_index "users" "name" Examples.catalog = Z.of_nat i /\
    MetadataManager.get_columns "users" Examples.catalog !! i
    = Some (Column.mk "name" DataType.VARCHAR 50 false false) /\
    Column.name (Column.mk "name" DataType.VARCHAR 50 false false) = "name" /\
    forall (j : nat) c,
      (j < i)%nat -> MetadataManager.get_columns "users" Examples.catalog !! j = Some c ->
      Column.name c <> "name".
Proof.
  apply (get_column_index_agrees "users" "name" Examples.catalog).
  vm_compute. discriminate.
Defined.

(* ===================================================================== *)
(** ** Selecting with a condition *)
(* ===================================================================== *)

Lemma validate_where_condition_ok (table_name : string) (condition : WhereCondition.t)
  (m : MetadataManager.t) (u : unit) :
  MetadataManager.validate_where_condition table_name condition m = Ok u ->
  exists column,
    MetadataManager.get_column table_name (WhereCondition.column_name condition) m
    = Some column /\
    Spec.value_has_type (WhereCondition.value condition) (Column.type column).
Proof.
  unfold MetadataManager.validate_where_condition.
  destruct (MetadataManager.get_column _ _ _) as [column |]; [| discriminate].
  intros H. exists column. split; [reflexivity |].
  unfold Spec.value_has_type.
  destruct (Column.type column); destruct (WhereCondition.value condition);
    simpl in H; try discriminate H; exact I.
Qed.

(** X9: when [select_where] returns, the condition names a column of the
    table, at some position i, whose declared type the literal has; the
    rows returned are, in order, the rows of [select_all] whose value at
    position i compares as asked with the literal; and every row scanned
    has at position i a value of the column's type, so that the two values
    compared always hold the same alternative.  The number of columns is
    one an [int] holds. *)
Theorem select_where_filters (condition : WhereCondition.t) (ts : TableStorage.t)
  (rows : list Row) :
  Z.of_nat (length (TableStorage.columns_of ts)) <= INT_MAX ->
  TableStorage.select_where condition ts = Ok rows ->
  exists (all : list Row) (i : nat) (column : Column.t),
    TableStorage.select_all ts = Ok all /\
    TableStorage.columns_of ts !! i = Some column /\
    Column.name column = WhereCondition.column_name condition /\
    Spec.value_has_type (WhereCondition.value condition) (Column.type column) /\
    rows = List.filter (Props.satisfies i condition) all /\
    forall row, In row all ->
      exists v, row !! i = Some v /\ Spec.value_has_type v (Column.type column).
Proof.
  intros Hlen. unfold TableStorage.select_where.
  destruct (MetadataManager.validate_where_condition _ _ _) as [u |] eqn:Hv;
    [| discriminate].
  simpl. destruct (TableStorage.select_all ts) as [all |] eqn:Hall; [| discriminate].
  simpl. intros [= <-].
  apply validate_where_condition_ok in Hv as (column & Hcol & Hty).
  assert (Hidx : exists i : nat,
            MetadataManager.get_column_index (TableStorage.table_name ts)
              (WhereCondition.column_name condition) (TableStorage.metadata_manager ts)
            = Z.of_nat i /\
            TableStorage.columns_of ts !! i = Some column /\
            Column.name column = WhereCondition.column_name condition).
  { unfold TableStorage.columns_of, MetadataManager.get_columns,
      MetadataManager.get_column, MetadataManager.get_column_index in *.
    destruct (MetadataManager.get_table_schema _ _) as [schema |]; [| discriminate].
    pose proof (find_column_index_spec (TableSchema.columns schema)
                  (WhereCondition.column_name condition) 0 Hlen) as Hspec.
    rewrite Hcol in Hspec. destruct Hspec as (i & Hi & Hl & Hn & _). eauto. }
  destruct Hidx as (i & Hi & Hl & Hn).
  assert (Htyped : Forall (Spec.row_well_typed (TableStorage.columns_of ts)) all).
  { unfold TableStorage.select_all in Hall.
    destruct (content (TableStorage.file ts)) as [text |]; [| discriminate].
    injection Hall as <-. apply scan_typed. constructor. }
  rewrite Forall_forall in Htyped.
  assert (Hat : forall row, In row all ->
            length row = length (TableStorage.columns_of ts) /\
            exists v, row !! i = Some v /\ Spec.value_has_type v (Column.type column)).
  { intros row Hin%list_elem_of_In. specialize (Htyped row Hin).
    split; [by apply Forall2_length in Htyped |].
    destruct (Forall2_lookup_r _ _ _ _ _ Htyped Hl) as (v & Hv & Hvt). eauto. }
  exists all, i, column. repeat split; try assumption.
  - apply filter_ext_in. intros row Hin. destruct (Hat row Hin) as [Hrl (v & Hv & _)].
    unfold TableStorage.evaluate_condition, Props.satisfies. rewrite Hi.
    apply lookup_lt_Some in Hv as Hlt.
    rewrite to_int_id by (unfold INT_MIN; lia).
    assert (Hneg : (Z.of_nat i <? 0) = false) by (apply Z.ltb_ge; lia).
    assert (Hin_range : (Z.of_nat i >=? Z.of_nat (length row)) = false).
    { rewrite Z.geb_leb. apply Z.leb_gt. lia. }
    rewrite Hneg, Hin_range, Nat2Z.id. reflexivity.
  - intros row Hin. by destruct (Hat row Hin).
Qed.

Lemma select_where_filters_witness :
  exists (all : list Row) (i : nat) (column : Column.t),
    TableStorage.select_all Examples.users = Ok all /\
    TableStorage.columns_of Examples.users !! i = Some column /\
    Column.name column
    = WhereCondition.column_name
        (WhereCondition.mk "id" TokenType.EQUALS (Value.Int 1)) /\
    Spec.value_has_type
      (WhereCondition.value (WhereCondition.mk "id" TokenType.EQUALS (Value.Int 1)))
      (Column.type column) /\
    [[Value.Int 1; Value.Str "Alice"; Value.Bool true]]
    = List.filter
        (Props.satisfies i (WhereCondition.mk "id" TokenType.EQUALS (Value.Int 1))) all /\
    forall row, In row all ->
      exists v, row !! i = Some v /\ Spec.value_has_type v (Column.type column).
Proof.
  apply (select_where_filters (WhereCondition.mk "id" TokenType.EQUALS (Value.Int 1))
           Examples.users [[Value.Int 1; Value.Str "Alice"; Value.Bool true]]).
  - vm_compute. discriminate.
  - vm_compute. reflexivity.
Defined.

(* ===================================================================== *)
(** ** A table without rows *)
(* ===================================================================== *)

Lemma header_lines (table_name : string) :
  Props.single_line table_name ->
  getlines ("# Table data for " +:+ table_name +:+ str1 LF)
  = ["# Table data for " +:+ table_name].
Proof.
  intros Hname. rewrite <- sapp_assoc. unfold str1. rewrite getlines_cons; [reflexivity |].
  unfold Props.single_line in Hname. by rewrite string_forallb_app, Hname.
Qed.

Lemma header_is_comment (table_name : string) :
  MetadataManager.is_blank_or_comment ("# Table data for " +:+ table_name) = true.
Proof. reflexivity. Qed.

(** A data file that holds its header only. *)
Lemma select_all_header (ts : TableStorage.t) :
  Props.single_line (TableStorage.table_name ts) ->
  content (TableStorage.file ts)
  = Some ("# Table data for " +:+ TableStorage.table_name ts +:+ str1 LF) ->
  TableStorage.select_all ts = Ok [].
Proof.
  intros Hname Hfile. unfold TableStorage.select_all.
  rewrite Hfile, header_lines by exact Hname.
  cbn [TableStorage.scan]. by rewrite header_is_comment.
Qed.

(** X10: a table whose data file the constructor has just created, or that
    [clear_table] has just cleared, has no rows: [select_all] returns the
    empty list and [get_row_count] 0.  The table's name holds no line
    feed, so the comment that heads the file is one line. *)
Theorem new_and_cleared_tables_are_empty (ts ts' : TableStorage.t) :
  Props.single_line (TableStorage.table_name ts) ->
  (content (TableStorage.file ts) = None /\
   TableStorage.ensure_table_file ts = (Ok tt, ts')) \/
  TableStorage.clear_table ts = (Ok tt, ts') ->
  TableStorage.select_all ts' = Ok [] /\ TableStorage.get_row_count ts' = Ok 0%nat.
Proof.
  intros Hname Hmade.
  assert (Hall : TableStorage.select_all ts' = Ok []).
  { destruct Hmade as [[Hnone Hnew] | Hclear].
    - unfold TableStorage.ensure_table_file in Hnew. rewrite Hnone in Hnew.
      destruct (writable (TableStorage.file ts)); [| discriminate Hnew].
      simpl in Hnew. injection Hnew as <-. by apply select_all_header.
    - unfold TableStorage.clear_table in Hclear.
      destruct (writable (TableStorage.file ts)); [| discriminate Hclear].
      simpl in Hclear. injection Hclear as <-. by apply select_all_header. }
  split; [exact Hall |]. unfold TableStorage.get_row_count. by rewrite Hall.
Qed.

Lemma new_and_cleared_tables_are_empty_witness :
  TableStorage.select_all (snd (TableStorage.clear_table Examples.users)) = Ok [] /\
  TableStorage.get_row_count (snd (TableStorage.clear_table Examples.users)) = Ok 0%nat.
Proof.
  apply (new_and_cleared_tables_are_empty Examples.users).
  - reflexivity.
  - right. reflexivity.
Defined.

(* ===================================================================== *)
(** ** DROP TABLE, INSERT and SELECT statements *)
(* ===================================================================== *)

(** [parse] looks at the first token and hands over. *)
Lemma parse_dispatch (toks : list Token.t) :
  Parser.parse toks
  = match Token.type (Parser.peek (Parser.init toks)) with
    | TokenType.END_OF_FILE => Ok None
    | TokenType.CREATE =>
        fst (mbind Parser.parse_create_table (fun s => ret (Some s)) (Parser.init toks))
    | TokenType.DROP =>
        fst (mbind Parser.parse_drop_table (fun s => ret (Some s)) (Parser.init toks))
    | TokenType.INSERT =>
        fst (mbind Parser.parse_insert (fun s => ret (Some s)) (Parser.init toks))
    | TokenType.SELECT =>
        fst (mbind Parser.parse_select (fun s => ret (Some s)) (Parser.init toks))
    | _ => Throw (ParseError "Expected SQL keyword")
    end.
Proof.
  unfold Parser.parse, Parser.parse_m, Parser.is_at_end.
  unfold mbind at 1, gets at 1. cbv beta iota.
  destruct (Token.type (Parser.peek (Parser.init toks))) eqn:Hty; simpl;
    try (unfold mbind at 1, gets at 1; cbv beta iota; rewrite Hty); reflexivity.
Qed.

Lemma fst_mbind_some (m : M Parser.t Statement) (p : Parser.t) (stmt : Statement) :
  fst (mbind m (fun s => ret (Some s)) p) = Ok (Some stmt)
  <-> exists p', m p = (Ok stmt, p').
Proof.
  unfold mbind, ret. destruct (m p) as [[s | e] p1]; simpl.
  - split; [intros [= ->]; eauto | intros (p' & [= -> _]); reflexivity].
  - split; [discriminate | intros (p' & H); discriminate H].
Qed.

(** The production that built an accepted statement. *)
Lemma parse_inv (toks : list Token.t) (stmt : Statement) :
  Parser.parse toks = Ok (Some stmt) ->
  exists p',
    match stmt with
    | CreateTableStatement _ _ =>
        Parser.parse_create_table (Parser.init toks) = (Ok stmt, p')
    | DropTableStatement _ => Parser.parse_drop_table (Parser.init toks) = (Ok stmt, p')
    | InsertStatement _ _ => Parser.parse_insert (Parser.init toks) = (Ok stmt, p')
    | SelectStatement _ _ _ => Parser.parse_select (Parser.init toks) = (Ok stmt, p')
    end.
Proof.
  rewrite parse_dispatch.
  destruct (Token.type (Parser.peek (Parser.init toks))); try discriminate;
    intros [p' H]%fst_mbind_some; exists p'.
  - destruct (parse_create_table_sound _ _ _ H) as [(n & cols & ->) _]. exact H.
  - destruct (parse_drop_table_kind _ _ _ H) as (n & ->). exact H.
  - destruct (parse_insert_kind _ _ _ H) as (n & vs & ->). exact H.
  - destruct (parse_select_kind _ _ _ H) as (n & a & c & ->). exact H.
Qed.

Lemma parse_intro (toks : list Token.t) (first : Token.t) (r : list Token.t)
  (m : M Parser.t Statement) (stmt : Statement) (p' : Parser.t) :
  toks = first :: r ->
  m (Parser.init toks) = (Ok stmt, p') ->
  (Token.type first = TokenType.DROP /\ m = Parser.parse_drop_table) \/
  (Token.type first = TokenType.INSERT /\ m = Parser.parse_insert) \/
  (Token.type first = TokenType.SELECT /\ m = Parser.parse_select) ->
  Parser.parse toks = Ok (Some stmt).
Proof.
  intros -> Hm Hkind. rewrite parse_dispatch.
  change (Parser.peek (Parser.init (first :: r))) with first.
  destruct Hkind as [[-> ->] | [[-> ->] | [-> ->]]];
    apply fst_mbind_some; eauto.
Qed.

(** *** DROP TABLE *)

Lemma parse_drop_table_sound (stmt : Statement) (p p' : Parser.t) :
  Parser.parse_drop_table p = (Ok stmt, p') ->
  exists d t id : Token.t,
    Spec.rest p = d :: t :: id :: Spec.rest p' /\
    Token.type d = TokenType.DROP /\ Token.type t = TokenType.TABLE /\
    Token.type id = TokenType.IDENTIFIER /\
    stmt = DropTableStatement (Token.value id).
Proof.
  intros H. unfold Parser.parse_drop_table in H.
  apply mbind_ok_inv in H as (u1 & p1 & He & H).
  apply expect_sound in He as (t1 & Ht1 & Htok1 & Hr1); [| discriminate].
  apply mbind_ok_inv in H as (u2 & p2 & He & H).
  apply expect_sound in He as (t2 & Ht2 & Htok2 & Hr2); [| discriminate].
  unfold mbind at 1, gets at 1 in H.
  destruct (TokenType.eqb (Token.type (Parser.peek p2)) TokenType.IDENTIFIER)
    eqn:Hid; simpl in H; [| discriminate H].
  apply TokenType_eqb_eq in Hid.
  destruct (advance_sound p2 _ Hid ltac:(discriminate)) as [Hadv Hr3].
  rewrite (mbind_ok _ _ _ _ _ Hadv) in H. injection H as <- <-.
  exists t1, t2, (Parser.peek p2). rewrite Hr1, Hr2, Hr3. auto.
Qed.

Lemma parse_drop_table_complete (p : Parser.t) (d t id : Token.t) (r : list Token.t) :
  Spec.rest p = d :: t :: id :: r ->
  Token.type d = TokenType.DROP -> Token.type t = TokenType.TABLE ->
  Token.type id = TokenType.IDENTIFIER ->
  exists p', Parser.parse_drop_table p = (Ok (DropTableStatement (Token.value id)), p').
Proof.
  intros Hr Hd Ht Hid. unfold Parser.parse_drop_table.
  destruct (expect_complete _ "Expected DROP" _ d _ Hr Hd) as [He1 Hr1].
  rewrite (mbind_ok _ _ _ _ _ He1).
  destruct (expect_complete _ "Expected TABLE" _ t _ Hr1 Ht) as [He2 Hr2].
  rewrite (mbind_ok _ _ _ _ _ He2).
  unfold mbind at 1, gets at 1.
  rewrite (peek_cons _ id _ Hr2), Hid, TokenType_eqb_refl. cbn [negb].
  rewrite (mbind_ok _ _ _ _ _ (advance_cons _ id _ Hr2)).
  eexists. reflexivity.
Qed.

(** X11: [parse] returns a DROP TABLE statement exactly when the token
    sequence starts with DROP TABLE and an identifier, whose text is the
    statement's table name; the tokens after the identifier are left
    unread. *)
Theorem parse_drop_table_accepts_iff (toks : list Token.t) (table_name : string) :
  Parser.parse toks = Ok (Some (DropTableStatement table_name))
  <-> exists (d t id : Token.t) (r : list Token.t),
        toks = d :: t :: id :: r /\
        Token.type d = TokenType.DROP /\ Token.type t = TokenType.TABLE /\
        Token.type id = TokenType.IDENTIFIER /\ table_name = Token.value id.
Proof.
  split.
  - intros [p' H]%parse_inv.
    apply parse_drop_table_sound in H as (d & t & id & Hr & Hd & Ht & Hid & [= ->]).
    rewrite rest_init in Hr. exists d, t, id, (Spec.rest p'). auto.
  - intros (d & t & id & r & Htoks & Hd & Ht & Hid & ->).
    destruct (parse_drop_table_complete (Parser.init toks) d t id r) as [p' Hp];
      try assumption.
    eapply (parse_intro toks d); [exact Htoks | exact Hp | auto].
Qed.

(** *** Literals *)

Lemma parse_value_sound (v : Value.t) (p p' : Parser.t) :
  Parser.parse_value p = (Ok v, p') ->
  exists lit : Token.t,
    Spec.rest p = lit :: Spec.rest p' /\ Parser.tokens p' = Parser.tokens p /\
    Props.literal_value lit = Some v.
Proof.
  intros H. unfold Parser.parse_value in H.
  unfold mbind at 1, gets at 1 in H. unfold Props.literal_value.
  destruct (Token.type (Parser.peek p)) eqn:Hty; simpl in H; try discriminate H.
  - destruct (advance_sound p _ Hty ltac:(discriminate)) as [Hadv Hr].
    rewrite (mbind_ok _ _ _ _ _ Hadv) in H. unfold mbind, lift, ret in H.
    destruct (stoi (Token.value (Parser.peek p))) as [i |] eqn:Hi; [| discriminate H].
    injection H as <- <-. exists (Parser.peek p). rewrite Hty, Hi. auto.
  - destruct (advance_sound p _ Hty ltac:(discriminate)) as [Hadv Hr].
    rewrite (mbind_ok _ _ _ _ _ Hadv) in H. injection H as <- <-.
    exists (Parser.peek p). rewrite Hty. auto.
  - destruct (advance_sound p _ Hty ltac:(discriminate)) as [Hadv Hr].
    rewrite (mbind_ok _ _ _ _ _ Hadv) in H. injection H as <- <-.
    exists (Parser.peek p). rewrite Hty. auto.
Qed.

Lemma parse_value_complete (p : Parser.t) (lit : Token.t) (r : list Token.t)
  (v : Value.t) :
  Spec.rest p = lit :: r -> Props.literal_value lit = Some v ->
  Parser.parse_value p = (Ok v, Spec.next p) /\ Spec.rest (Spec.next p) = r.
Proof.
  intros Hr Hv. split; [| by apply rest_cons in Hr as [_ ?]].
  unfold Parser.parse_value. unfold mbind at 1, gets at 1.
  rewrite (peek_cons _ lit _ Hr). unfold Props.literal_value in Hv.
  destruct (Token.type lit) eqn:Hty; try discriminate Hv; simpl.
  - rewrite (mbind_ok _ _ _ _ _ (advance_cons _ lit _ Hr)). unfold mbind, lift, ret.
    destruct (stoi (Token.value lit)); [| discriminate Hv]. by injection Hv as <-.
  - rewrite (mbind_ok _ _ _ _ _ (advance_cons _ lit _ Hr)). by injection Hv as <-.
  - rewrite (mbind_ok _ _ _ _ _ (advance_cons _ lit _ Hr)). by injection Hv as <-.
Qed.

Lemma literal_not_right_paren (lit : Token.t) (v : Value.t) :
  Props.literal_value lit = Some v ->
  TokenType.eqb (Token.type lit) TokenType.RIGHT_PAREN = false.
Proof.
  unfold Props.literal_value. by destruct (Token.type lit).
Qed.

(** *** INSERT *)

Lemma parse_values_loop_sound (fuel : nat) :
  forall (acc values : list Value.t) (p p' : Parser.t),
    Parser.parse_values_loop fuel acc p = (Ok values, p') ->
    Parser.tokens p' = Parser.tokens p /\
    exists body vs,
      Spec.rest p = body ++ Spec.rest p' /\ values = acc ++ vs /\
      Props.value_list body vs.
Proof.
  induction fuel as [| fuel IH]; intros acc values p p' H; simpl in H.
  { injection H as <- <-. split; [reflexivity |]. exists [], [].
    rewrite app_nil_r. repeat split. constructor. }
  unfold mbind at 1, gets at 1 in H.
  destruct (TokenType.eqb (Token.type (Parser.peek p)) TokenType.RIGHT_PAREN).
  { injection H as <- <-. split; [reflexivity |]. exists [], [].
    rewrite app_nil_r. repeat split. constructor. }
  apply mbind_ok_inv in H as (v & p1 & Hv & H).
  apply parse_value_sound in Hv as (lit & Hr1 & Htok1 & Hlit).
  apply mbind_ok_inv in H as ([] & p2 & Hm & H).
  - apply match_sound in Hm as (comma & Hcomma & Htok2 & Hr2); [| discriminate].
    apply IH in H as (Htok & body & vs & Hr & -> & Hbody).
    split; [congruence |]. exists (lit :: comma :: body), (v :: vs).
    split; [rewrite Hr1, Hr2, Hr; reflexivity |].
    split; [by rewrite <- app_assoc |]. by constructor.
  - apply match_false in Hm as [-> _]; [| discriminate].
    injection H as <- <-. split; [exact Htok1 |]. exists [lit], [v].
    split; [exact Hr1 |]. split; [reflexivity |]. by constructor.
Qed.

Lemma parse_values_loop_complete (body : list Token.t) (vs : list Value.t) :
  Props.value_list body vs ->
  forall (fuel : nat) (acc : list Value.t) (p : Parser.t) (rp : Token.t)
         (r : list Token.t),
    Spec.rest p = body ++ rp :: r -> Token.type rp = TokenType.RIGHT_PAREN ->
    (length body < fuel)%nat ->
    exists p',
      Parser.parse_values_loop fuel acc p = (Ok (acc ++ vs), p') /\
      Spec.rest p' = rp :: r.
Proof.
  induction 1 as [| lit v Hlit | lit comma v body vs Hlit Hcomma Hbody IH];
    intros fuel acc p rp r Hr Hrp Hfuel;
    (destruct fuel as [| fuel]; [simpl in Hfuel; lia |]);
    simpl Parser.parse_values_loop; unfold mbind at 1, gets at 1; simpl in Hr.
  - rewrite (peek_cons _ rp _ Hr), Hrp. simpl. rewrite app_nil_r. eauto.
  - rewrite (peek_cons _ lit _ Hr), (literal_not_right_paren lit v Hlit).
    destruct (parse_value_complete p lit _ v Hr Hlit) as [Hv Hr1].
    rewrite (mbind_ok _ _ _ _ _ Hv).
    rewrite (mbind_ok _ _ _ _ _ (match_other TokenType.COMMA _ rp _ Hr1
               ltac:(by rewrite Hrp))).
    eauto.
  - rewrite (peek_cons _ lit _ Hr), (literal_not_right_paren lit v Hlit).
    destruct (parse_value_complete p lit _ v Hr Hlit) as [Hv Hr1].
    rewrite (mbind_ok _ _ _ _ _ Hv).
    destruct (match_complete _ _ comma _ Hr1 Hcomma) as [Hm Hr2].
    rewrite (mbind_ok _ _ _ _ _ Hm).
    simpl in Hfuel.
    destruct (IH fuel (acc ++ [v]) _ rp r Hr2 Hrp ltac:(lia)) as (p' & Hloop & Hrest).
    exists p'. rewrite Hloop, <- app_assoc. auto.
Qed.

Lemma parse_insert_sound (stmt : Statement) (p p' : Parser.t) :
  Parser.parse_insert p = (Ok stmt, p') ->
  exists (i into id v l : Token.t) (body : list Token.t) (rp : Token.t)
         (values : list Value.t),
    Spec.rest p = i :: into :: id :: v :: l :: body ++ rp :: Spec.rest p' /\
    Token.type i = TokenType.INSERT /\ Token.type into = TokenType.INTO /\
    Token.type id = TokenType.IDENTIFIER /\ Token.type v = TokenType.VALUES /\
    Token.type l = TokenType.LEFT_PAREN /\ Props.value_list body values /\
    Token.type rp = TokenType.RIGHT_PAREN /\
    stmt = InsertStatement (Token.value id) values.
Proof.
  intros H. unfold Parser.parse_insert in H.
  apply mbind_ok_inv in H as (u1 & p1 & He & H).
  apply expect_sound in He as (t1 & Ht1 & Htok1 & Hr1); [| discriminate].
  apply mbind_ok_inv in H as (u2 & p2 & He & H).
  apply expect_sound in He as (t2 & Ht2 & Htok2 & Hr2); [| discriminate].
  unfold mbind at 1, gets at 1 in H.
  destruct (TokenType.eqb (Token.type (Parser.peek p2)) TokenType.IDENTIFIER)
    eqn:Hid; simpl in H; [| discriminate H].
  apply TokenType_eqb_eq in Hid.
  destruct (advance_sound p2 _ Hid ltac:(discriminate)) as [Hadv Hr3].
  rewrite (mbind_ok _ _ _ _ _ Hadv) in H.
  apply mbind_ok_inv in H as (u4 & p4 & He & H).
  apply expect_sound in He as (t4 & Ht4 & Htok4 & Hr4); [| discriminate].
  apply mbind_ok_inv in H as (u5 & p5 & He & H).
  apply expect_sound in He as (t5 & Ht5 & Htok5 & Hr5); [| discriminate].
  unfold mbind at 1, gets at 1 in H.
  apply mbind_ok_inv in H as (values & p6 & Hloop & H).
  apply (parse_values_loop_sound (S (Parser.remaining p5)) []) in Hloop
    as (Htok6 & body & vs & Hr6 & -> & Hbody).
  apply mbind_ok_inv in H as (u7 & p7 & He & H).
  apply expect_sound in He as (t7 & Ht7 & Htok7 & Hr7); [| discriminate].
  injection H as <- <-.
  exists t1, t2, (Parser.peek p2), t4, t5, body, t7, vs.
  rewrite Hr1, Hr2, Hr3, Hr4, Hr5, Hr6, Hr7. auto 10.
Qed.

Lemma parse_insert_complete (p : Parser.t) (i into id v l : Token.t)
  (body : list Token.t) (rp : Token.t) (r : list Token.t) (values : list Value.t) :
  Spec.rest p = i :: into :: id :: v :: l :: body ++ rp :: r ->
  Token.type i = TokenType.INSERT -> Token.type into = TokenType.INTO ->
  Token.type id = TokenType.IDENTIFIER -> Token.type v = TokenType.VALUES ->
  Token.type l = TokenType.LEFT_PAREN -> Props.value_list body values ->
  Token.type rp = TokenType.RIGHT_PAREN ->
  exists p', Parser.parse_insert p = (Ok (InsertStatement (Token.value id) values), p').
Proof.
  intros Hr Hi Hinto Hid Hv Hl Hbody Hrp. unfold Parser.parse_insert.
  destruct (expect_complete _ "Expected INSERT" _ i _ Hr Hi) as [He1 Hr1].
  rewrite (mbind_ok _ _ _ _ _ He1).
  destruct (expect_complete _ "Expected INTO" _ into _ Hr1 Hinto) as [He2 Hr2].
  rewrite (mbind_ok _ _ _ _ _ He2).
  unfold mbind at 1, gets at 1.
  rewrite (peek_cons _ id _ Hr2), Hid, TokenType_eqb_refl. cbn [negb].
  rewrite (mbind_ok _ _ _ _ _ (advance_cons _ id _ Hr2)).
  apply rest_cons in Hr2 as [_ Hr3].
  destruct (expect_complete _ "Expected VALUES" _ v _ Hr3 Hv) as [He4 Hr4].
  rewrite (mbind_ok _ _ _ _ _ He4).
  destruct (expect_complete _ "Expected '('" _ l _ Hr4 Hl) as [He5 Hr5].
  rewrite (mbind_ok _ _ _ _ _ He5).
  unfold mbind at 1, gets at 1.
  destruct (parse_values_loop_complete body values Hbody
              (S (Parser.remaining
                    (Spec.next (Spec.next (Spec.next (Spec.next (Spec.next p)))))))
              [] _ rp r Hr5 Hrp)
    as (p6 & Hloop & Hr6).
  { rewrite remaining_rest, Hr5, length_app. lia. }
  rewrite (mbind_ok _ _ _ _ _ Hloop).
  destruct (expect_complete _ "Expected ')'" _ rp _ Hr6 Hrp) as [He7 Hr7].
  rewrite (mbind_ok _ _ _ _ _ He7).
  eexists. reflexivity.
Qed.

(** X12: [parse] returns an INSERT statement exactly when the token
    sequence starts with INSERT INTO <id> VALUES ( <literals> ), the
    literals being separated by commas, where the list may be empty and may
    end with a comma; the statement carries the identifier's text and, in
    order, the value of each literal: what [std::stoi] reads of an integer
    literal, the text of a string literal, and for a boolean literal
    whether it spells TRUE.  What follows the closing parenthesis is left
    unread. *)
Theorem parse_insert_accepts_iff (toks : list Token.t) (table_name : string)
  (values : list Value.t) :
  Parser.parse toks = Ok (Some (InsertStatement table_name values))
  <-> exists (i into id v l : Token.t) (body : list Token.t) (rp : Token.t)
             (r : list Token.t),
        toks = i :: into :: id :: v :: l :: body ++ rp :: r /\
        Token.type i = TokenType.INSERT /\ Token.type into = TokenType.INTO /\
        Token.type id = TokenType.IDENTIFIER /\ Token.type v = TokenType.VALUES /\
        Token.type l = TokenType.LEFT_PAREN /\ Props.value_list body values /\
        Token.type rp = TokenType.RIGHT_PAREN /\ table_name = Token.value id.
Proof.
  split.
  - intros [p' H]%parse_inv.
    apply parse_insert_sound in H
      as (i & into & id & v & l & body & rp & vs & Hr & Hi & Hinto & Hid & Hv & Hl
          & Hbody & Hrp & [= -> ->]).
    rewrite rest_init in Hr. exists i, into, id, v, l, body, rp, (Spec.rest p').
    auto 10.
  - intros (i & into & id & v & l & body & rp & r & Htoks & Hi & Hinto & Hid & Hv & Hl
            & Hbody & Hrp & ->).
    destruct (parse_insert_complete (Parser.init toks) i into id v l body rp r values)
      as [p' Hp]; try assumption.
    eapply (parse_intro toks i); [exact Htoks | exact Hp | auto].
Qed.

(** *** SELECT *)

Lemma match_any_cases (types : list TokenType.t) (p : Parser.t) :
  Parser.match_any types p
  = if existsb (TokenType.eqb (Token.type (Parser.peek p))) types
    then (Ok true, snd (Parser.advance p))
    else (Ok false, p).
Proof.
  induction types as [| ty types IH]; simpl; [reflexivity |].
  unfold mbind at 1, gets at 1.
  destruct (TokenType.eqb (Token.type (Parser.peek p)) ty); simpl; [| exact IH].
  unfold mbind, ret, Parser.advance.
  by destruct (Parser.tokens p !! Parser.current_pos p).
Qed.

Lemma comparison_not_end (ty : TokenType.t) :
  Props.is_comparison ty = true -> ty <> TokenType.END_OF_FILE.
Proof. intros H ->. discriminate H. Qed.

Lemma previous_next (p : Parser.t) (tok : Token.t) (r : list Token.t) :
  Spec.rest p = tok :: r -> Parser.previous (Spec.next p) = tok.
Proof.
  intros [H _]%rest_cons. unfold Parser.previous, Spec.next. simpl.
  by rewrite Nat.sub_0_r, H.
Qed.

Lemma parse_where_clause_sound (c : WhereCondition.t) (p p' : Parser.t) :
  Parser.parse_where_clause p = (Ok c, p') ->
  exists col op lit : Token.t,
    Spec.rest p = col :: op :: lit :: Spec.rest p' /\
    Token.type col = TokenType.IDENTIFIER /\
    Props.is_comparison (Token.type op) = true /\
    Props.literal_value lit = Some (WhereCondition.value c) /\
    WhereCondition.column_name c = Token.value col /\
    WhereCondition.operator_type c = Token.type op.
Proof.
  intros H. unfold Parser.parse_where_clause in H.
  unfold mbind at 1, gets at 1 in H.
  destruct (TokenType.eqb (Token.type (Parser.peek p)) TokenType.IDENTIFIER)
    eqn:Hid; cbn [negb] in H; [| discriminate H].
  apply TokenType_eqb_eq in Hid.
  destruct (advance_sound p _ Hid ltac:(discriminate)) as [Hadv Hr1].
  rewrite (mbind_ok _ _ _ _ _ Hadv) in H.
  apply mbind_ok_inv in H as (b & p2 & Hm & H).
  rewrite match_any_cases in Hm.
  fold (Props.is_comparison (Token.type (Parser.peek (Spec.next p)))) in Hm.
  destruct (Props.is_comparison (Token.type (Parser.peek (Spec.next p)))) eqn:Hop;
    injection Hm as <- <-; [| discriminate H].
  destruct (advance_sound (Spec.next p) _ eq_refl (comparison_not_end _ Hop))
    as [Hadv2 Hr2].
  rewrite Hadv2 in H. simpl in H.
  unfold mbind at 1, gets at 1 in H.
  rewrite (previous_next _ _ _ Hr2) in H.
  apply mbind_ok_inv in H as (v & p3 & Hv & H).
  apply parse_value_sound in Hv as (lit & Hr3 & _ & Hlit).
  injection H as <- <-.
  exists (Parser.peek p), (Parser.peek (Spec.next p)), lit.
  rewrite Hr1, Hr2, Hr3. simpl. auto 10.
Qed.

Lemma parse_where_clause_complete (p : Parser.t) (col op lit : Token.t)
  (r : list Token.t) (v : Value.t) :
  Spec.rest p = col :: op :: lit :: r ->
  Token.type col = TokenType.IDENTIFIER ->
  Props.is_comparison (Token.type op) = true ->
  Props.literal_value lit = Some v ->
  exists p',
    Parser.parse_where_clause p
    = (Ok (WhereCondition.mk (Token.value col) (Token.type op) v), p').
Proof.
  intros Hr Hcol Hop Hlit. unfold Parser.parse_where_clause.
  unfold mbind at 1, gets at 1.
  rewrite (peek_cons _ col _ Hr), Hcol, TokenType_eqb_refl. cbn [negb].
  rewrite (mbind_ok _ _ _ _ _ (advance_cons _ col _ Hr)).
  apply rest_cons in Hr as [_ Hr1].
  unfold mbind at 1. rewrite match_any_cases.
  fold (Props.is_comparison (Token.type (Parser.peek (Spec.next p)))).
  rewrite (peek_cons _ op _ Hr1), Hop, (advance_cons _ op _ Hr1). simpl.
  unfold mbind at 1, gets at 1. rewrite (previous_next _ _ _ Hr1).
  apply rest_cons in Hr1 as [_ Hr2].
  destruct (parse_value_complete _ lit r v Hr2 Hlit) as [Hv _].
  rewrite (mbind_ok _ _ _ _ _ Hv). eexists. reflexivity.
Qed.

Lemma parse_select_sound (stmt : Statement) (p p' : Parser.t) :
  Parser.parse_select p = (Ok stmt, p') ->
  exists (s a f id : Token.t) (r : list Token.t) (condition : option WhereCondition.t),
    Spec.rest p = s :: a :: f :: id :: r /\
    Token.type s = TokenType.SELECT /\ Token.type a = TokenType.ASTERISK /\
    Token.type f = TokenType.FROM /\ Token.type id = TokenType.IDENTIFIER /\
    Props.where_clause r condition /\
    stmt = SelectStatement (Token.value id) true condition.
Proof.
  intros H. unfold Parser.parse_select in H.
  apply mbind_ok_inv in H as (u1 & p1 & He & H).
  apply expect_sound in He as (t1 & Ht1 & Htok1 & Hr1); [| discriminate].
  apply mbind_ok_inv in H as ([] & p2 & Hm & H); [| discriminate H].
  apply match_sound in Hm as (t2 & Ht2 & Htok2 & Hr2); [| discriminate].
  apply mbind_ok_inv in H as (u3 & p3 & He & H).
  apply expect_sound in He as (t3 & Ht3 & Htok3 & Hr3); [| discriminate].
  unfold mbind at 1, gets at 1 in H.
  destruct (TokenType.eqb (Token.type (Parser.peek p3)) TokenType.IDENTIFIER)
    eqn:Hid; simpl in H; [| discriminate H].
  apply TokenType_eqb_eq in Hid.
  destruct (advance_sound p3 _ Hid ltac:(discriminate)) as [Hadv Hr4].
  rewrite (mbind_ok _ _ _ _ _ Hadv) in H.
  apply mbind_ok_inv in H as ([] & p5 & Hm & H).
  - apply match_sound in Hm as (w & Hw & Htok5 & Hr5); [| discriminate].
    apply mbind_ok_inv in H as (c & p6 & Hc & H).
    apply parse_where_clause_sound in Hc
      as (col & op & lit & Hr6 & Hcol & Hop & Hlit & Hname & Hty).
    injection H as <- <-.
    exists t1, t2, t3, (Parser.peek p3), (Spec.rest (Spec.next p3)), (Some c).
    rewrite Hr1, Hr2, Hr3, Hr4. repeat split; try assumption.
    exists w, col, op, lit, (Spec.rest p6). rewrite Hr5, Hr6. auto 10.
  - apply match_false in Hm as [-> Hnw]; [| discriminate].
    injection H as <- <-.
    exists t1, t2, t3, (Parser.peek p3), (Spec.rest (Spec.next p3)), None.
    rewrite Hr1, Hr2, Hr3, Hr4. repeat split; try assumption.
    simpl. by rewrite <- peek_hd.
Qed.

Lemma parse_select_complete (p : Parser.t) (s a f id : Token.t) (r : list Token.t)
  (condition : option WhereCondition.t) :
  Spec.rest p = s :: a :: f :: id :: r ->
  Token.type s = TokenType.SELECT -> Token.type a = TokenType.ASTERISK ->
  Token.type f = TokenType.FROM -> Token.type id = TokenType.IDENTIFIER ->
  Props.where_clause r condition ->
  exists p',
    Parser.parse_select p = (Ok (SelectStatement (Token.value id) true condition), p').
Proof.
  intros Hr Hs Ha Hf Hid Hwhere. unfold Parser.parse_select.
  destruct (expect_complete _ "Expected SELECT" _ s _ Hr Hs) as [He1 Hr1].
  rewrite (mbind_ok _ _ _ _ _ He1).
  destruct (match_complete _ _ a _ Hr1 Ha) as [Hm2 Hr2].
  rewrite (mbind_ok _ _ _ _ _ Hm2).
  destruct (expect_complete _ "Expected FROM" _ f _ Hr2 Hf) as [He3 Hr3].
  rewrite (mbind_ok _ _ _ _ _ He3).
  unfold mbind at 1, gets at 1.
  rewrite (peek_cons _ id _ Hr3), Hid, TokenType_eqb_refl. cbn [negb].
  rewrite (mbind_ok _ _ _ _ _ (advance_cons _ id _ Hr3)).
  apply rest_cons in Hr3 as [_ Hr4].
  destruct condition as [c |]; simpl in Hwhere.
  - destruct Hwhere as (w & col & op & lit & r' & -> & Hw & Hcol & Hop & Hlit & Hn & Ho).
    destruct (match_complete _ _ w _ Hr4 Hw) as [Hm5 Hr5].
    rewrite (mbind_ok _ _ _ _ _ Hm5).
    destruct (parse_where_clause_complete _ col op lit r' _ Hr5 Hcol Hop Hlit)
      as [p6 Hc].
    rewrite (mbind_ok _ _ _ _ _ Hc). destruct c as [cn co cv]. simpl in *.
    subst cn co. eexists. reflexivity.
  - rewrite (mbind_ok _ _ _ _ _ (match_no TokenType.WHERE _
               ltac:(by rewrite peek_hd, Hr4))).
    eexists. reflexivity.
Qed.

(** X13: [parse] returns a SELECT statement exactly when the token sequence
    starts with SELECT * FROM and an identifier, followed either by a token
    other than WHERE, the statement then having no condition, or by WHERE,
    an identifier, one of the six comparison operators and a literal, which
    make the statement's condition; the flag [select_all] is always set.
    What follows is left unread. *)
Theorem parse_select_accepts_iff (toks : list Token.t) (table_name : string)
  (select_all : bool) (condition : option WhereCondition.t) :
  Parser.parse toks = Ok (Some (SelectStatement table_name select_all condition))
  <-> select_all = true /\
      exists (s a f id : Token.t) (r : list Token.t),
        toks = s :: a :: f :: id :: r /\
        Token.type s = TokenType.SELECT /\ Token.type a = TokenType.ASTERISK /\
        Token.type f = TokenType.FROM /\ Token.type id = TokenType.IDENTIFIER /\
        table_name = Token.value id /\ Props.where_clause r condition.
Proof.
  split.
  - intros [p' H]%parse_inv.
    apply parse_select_sound in H
      as (s & a & f & id & r & c & Hr & Hs & Ha & Hf & Hid & Hwhere & [= -> -> ->]).
    rewrite rest_init in Hr. split; [reflexivity |].
    exists s, a, f, id, r. auto 10.
  - intros (-> & s & a & f & id & r & Htoks & Hs & Ha & Hf & Hid & -> & Hwhere).
    destruct (parse_select_complete (Parser.init toks) s a f id r condition)
      as [p' Hp]; try assumption.
    eapply (parse_intro toks s); [exact Htoks | exact Hp | auto].
Qed.

(* ===================================================================== *)
(** ** What a parsed statement carries *)
(* ===================================================================== *)

Lemma stoi_in_range (s : string) (v : Z) : stoi s = Ok v -> INT_MIN <= v <= INT_MAX.
Proof.
  unfold stoi.
  destruct (match skip_spaces s with
            | EmptyString => (false, skip_spaces s)
            | String c r =>
                if (c =? "-")%char then (true, r)
                else if (c =? "+")%char then (false, r) else (false, skip_spaces s)
            end) as [negative s2].
  destruct (starts_with_digit s2); [| discriminate].
  destruct (in_int_range _) eqn:Hr; [| discriminate].
  intros [= <-]. unfold in_int_range in Hr.
  apply andb_true_iff in Hr as [H1 H2]. apply Z.leb_le in H1, H2. lia.
Qed.

Lemma literal_value_int (lit : Token.t) (i : Z) :
  Props.literal_value lit = Some (Value.Int i) -> INT_MIN <= i <= INT_MAX.
Proof.
  unfold Props.literal_value. destruct (Token.type lit); try discriminate.
  destruct (stoi (Token.value lit)) as [n |] eqn:Hn; [| discriminate].
  intros [= <-]. by eapply stoi_in_range.
Qed.

Lemma value_list_ints (body : list Token.t) (values : list Value.t) :
  Props.value_list body values -> Props.ints_in_range values.
Proof.
  induction 1 as [| lit v Hlit | lit comma v body vs Hlit _ _ IH]; intros i Hin.
  - destruct Hin.
  - destruct Hin as [-> | []]. by eapply literal_value_int.
  - destruct Hin as [-> | Hin]; [by eapply literal_value_int | by apply IH].
Qed.

Lemma parse_data_type_result (dt : DataType.t * Z) (p p' : Parser.t) :
  Parser.parse_data_type 0 p = (Ok dt, p') ->
  (DataType.eqb (fst dt) DataType.VARCHAR = false -> snd dt = 0) /\
  INT_MIN <= snd dt <= INT_MAX.
Proof.
  intros H. unfold Parser.parse_data_type in H.
  apply mbind_ok_inv in H as ([] & p1 & _ & H).
  { injection H as <- _. simpl. unfold INT_MIN, INT_MAX. split; [auto | lia]. }
  apply mbind_ok_inv in H as ([] & p2 & _ & H).
  { injection H as <- _. simpl. unfold INT_MIN, INT_MAX. split; [auto | lia]. }
  apply mbind_ok_inv in H as ([] & p3 & _ & H); [| discriminate H].
  apply mbind_ok_inv in H as (u & p4 & _ & H).
  unfold mbind at 1, gets at 1 in H.
  destruct (negb _); [discriminate H |].
  apply mbind_ok_inv in H as (tok & p5 & _ & H).
  unfold mbind at 1, lift at 1 in H.
  destruct (stoi (Token.value tok)) as [n |] eqn:Hn; [| discriminate H].
  apply mbind_ok_inv in H as (u' & p6 & _ & H).
  injection H as <- _. simpl. split; [discriminate | by eapply stoi_in_range].
Qed.

Lemma parse_column_definition_result (column : Column.t) (p p' : Parser.t) :
  Parser.parse_column_definition p = (Ok column, p') ->
  Spec.reloaded_column column = column /\ Spec.column_representable column.
Proof.
  intros H. unfold Parser.parse_column_definition in H.
  unfold mbind at 1, gets at 1 in H.
  destruct (negb _); [discriminate H |].
  apply mbind_ok_inv in H as (tok & p1 & _ & H).
  apply mbind_ok_inv in H as (dt & p2 & Hdt & H).
  apply parse_data_type_result in Hdt as [Hzero Hrange].
  apply mbind_ok_inv in H as (cs & p3 & _ & H).
  injection H as <- _. unfold Spec.reloaded_column, Spec.column_representable. simpl.
  split; [| exact Hrange].
  destruct (DataType.eqb (fst dt) DataType.VARCHAR); [reflexivity |].
  by rewrite Hzero.
Qed.

Lemma parse_columns_loop_result (fuel : nat) :
  forall (acc columns : list Column.t) (p p' : Parser.t),
    Forall (fun c => Spec.reloaded_column c = c /\ Spec.column_representable c) acc ->
    Parser.parse_columns_loop fuel acc p = (Ok columns, p') ->
    Forall (fun c => Spec.reloaded_column c = c /\ Spec.column_representable c) columns.
Proof.
  induction fuel as [| fuel IH]; intros acc columns p p' Hacc H; simpl in H.
  { by injection H as <- _. }
  unfold mbind at 1, gets at 1 in H.
  destruct (TokenType.eqb _ _); [by injection H as <- _ |].
  apply mbind_ok_inv in H as (column & p1 & Hc & H).
  apply parse_column_definition_result in Hc.
  assert (Hacc' : Forall (fun c => Spec.reloaded_column c = c /\
                                   Spec.column_representable c) (acc ++ [column])).
  { apply Forall_app. split; [exact Hacc | by constructor]. }
  apply mbind_ok_inv in H as ([] & p2 & _ & H).
  - by eapply IH.
  - by injection H as <- _.
Qed.

Lemma parse_create_table_result (table_name : string) (columns : list Column.t)
  (p p' : Parser.t) :
  Parser.parse_create_table p = (Ok (CreateTableStatement table_name columns), p') ->
  Forall (fun c => Spec.reloaded_column c = c /\ Spec.column_representable c) columns.
Proof.
  intros H. unfold Parser.parse_create_table in H.
  apply mbind_ok_inv in H as (u1 & p1 & _ & H).
  apply mbind_ok_inv in H as (u2 & p2 & _ & H).
  unfold mbind at 1, gets at 1 in H.
  destruct (negb _); [discriminate H |].
  apply mbind_ok_inv in H as (tok & p3 & _ & H).
  apply mbind_ok_inv in H as (u4 & p4 & _ & H).
  unfold mbind at 1, gets at 1 in H.
  apply mbind_ok_inv in H as (cols & p5 & Hloop & H).
  apply parse_columns_loop_result in Hloop; [| constructor].
  apply mbind_ok_inv in H as (u6 & p6 & _ & H).
  by injection H as _ <- _.
Qed.

(** X14: the statements [parse] returns carry data the storage layer can
    hold: every column of a CREATE TABLE has a length an [int] holds, which
    is 0 unless the column is a VARCHAR, so that the metadata file gives
    the column back unchanged; every integer of an INSERT and of a WHERE
    condition is one an [int] holds; and the operator of a condition is one
    of the six comparisons. *)
Theorem parse_statement_wf (toks : list Token.t) (statement : Statement) :
  Parser.parse toks = Ok (Some statement) -> Props.statement_wf statement.
Proof.
  intros [p' H]%parse_inv. destruct statement as [n cols | n vs | n | n a c]; simpl.
  - by eapply parse_create_table_result.
  - apply parse_insert_sound in H
      as (i & into & id & v & l & body & rp & values & _ & _ & _ & _ & _ & _ & Hbody
          & _ & [= _ ->]).
    by eapply value_list_ints.
  - exact I.
  - apply parse_select_sound in H
      as (s & a' & f & id & r & c' & _ & _ & _ & _ & _ & Hwhere & [= _ -> ->]).
    split; [reflexivity |]. intros c [= ->]. simpl in Hwhere.
    destruct Hwhere as (w & col & op & lit & r' & _ & _ & _ & Hop & Hlit & _ & Ho).
    split; [by rewrite Ho |].
    intros i [Hi | []]. rewrite Hi in Hlit. by eapply literal_value_int.
Qed.

Lemma parse_statement_wf_witness :
  Props.statement_wf
    (CreateTableStatement "t" [Column.mk "a" DataType.INTEGER 0 false false]).
Proof.
  apply (parse_statement_wf Examples.create_t_tokens). reflexivity.
Defined.

(* ===================================================================== *)
(** ** The table of results *)
(* ===================================================================== *)

Lemma length_fill (n : nat) (c : ascii) : String.length (QueryExecutor.fill n c) = n.
Proof. induction n as [| n IH]; simpl; [reflexivity | by rewrite IH]. Qed.

Lemma length_left_setw (width : nat) (s : string) :
  (String.length s <= width)%nat ->
  String.length (QueryExecutor.left_setw width s) = width.
Proof.
  intros H. unfold QueryExecutor.left_setw. rewrite length_sapp, length_fill. lia.
Qed.

Lemma widen_le (widths : list nat) :
  forall row : Row, Forall2 le widths (QueryExecutor.widen widths row).
Proof.
  induction widths as [| w widths IH]; intros [| v row]; simpl;
    try (apply Forall2_same_length_lookup_2; [reflexivity | intros; simplify_eq; lia]).
  constructor; [lia | apply IH].
Qed.

Lemma widen_fits (widths : list nat) :
  forall row : Row, Props.fits (QueryExecutor.widen widths row) row.
Proof.
  induction widths as [| w widths IH]; intros [| v row]; simpl; try exact I.
  split; [lia | apply IH].
Qed.

Lemma fits_le (widths widths' : list nat) :
  Forall2 le widths widths' ->
  forall row : Row, Props.fits widths row -> Props.fits widths' row.
Proof.
  induction 1 as [| w w' widths widths' Hw _ IH]; intros [| v row]; simpl; try tauto.
  intros [Hv Hrow]. split; [lia | by apply IH].
Qed.

Lemma Forall2_le_refl (l : list nat) : Forall2 le l l.
Proof. induction l; constructor; [lia | assumption]. Qed.

Lemma Forall2_le_trans (l1 l2 l3 : list nat) :
  Forall2 le l1 l2 -> Forall2 le l2 l3 -> Forall2 le l1 l3.
Proof.
  intros H. revert l3. induction H as [| a b l1 l2 Hab _ IH]; intros l3 H23.
  - by apply Forall2_nil_inv_l in H23 as ->.
  - apply Forall2_cons_inv_l in H23 as (c & l3' & Hbc & H23 & ->).
    constructor; [lia | by apply IH].
Qed.

Lemma fold_widen_le (rows : list Row) :
  forall widths : list nat,
    Forall2 le widths (fold_left QueryExecutor.widen rows widths).
Proof.
  induction rows as [| row rows IH]; intros widths; simpl; [apply Forall2_le_refl |].
  eapply Forall2_le_trans; [apply widen_le | apply IH].
Qed.

Lemma fold_widen_fits (rows : list Row) :
  forall (widths : list nat) (row : Row),
    In row rows -> Props.fits (fold_left QueryExecutor.widen rows widths) row.
Proof.
  induction rows as [| r rows IH]; intros widths row Hin; simpl; [destruct Hin |].
  destruct Hin as [-> | Hin]; [| by apply IH].
  eapply fits_le; [apply fold_widen_le | apply widen_fits].
Qed.

Lemma map_max_le (widths : list nat) :
  Forall2 le widths (List.map (fun width => Nat.max width 10) widths).
Proof. induction widths; simpl; constructor; [lia | assumption]. Qed.

(** The three kinds of lines, cell by cell. *)
Lemma length_separator_cells (widths : list nat) :
  String.length (QueryExecutor.separator_cells widths)
  = sum_list_with (fun width => width + 3)%nat widths.
Proof.
  induction widths as [| w widths IH]; simpl; [reflexivity |].
  rewrite !length_sapp, length_fill, IH. simpl. lia.
Qed.

Lemma length_header_cells (columns : list Column.t) (widths : list nat) :
  Forall2 (fun column width => (String.length (Column.name column) <= width)%nat)
          columns widths ->
  String.length (QueryExecutor.header_cells columns widths)
  = sum_list_with (fun width => width + 3)%nat widths.
Proof.
  induction 1 as [| c w columns widths Hc _ IH]; simpl; [reflexivity |].
  rewrite !length_sapp, length_left_setw, IH by exact Hc. simpl. lia.
Qed.

Lemma fits_nil (widths : list nat) : Props.fits widths [].
Proof. by destruct widths. Qed.

Lemma length_row_cells (widths : list nat) :
  forall row : Row,
    Props.fits widths row ->
    String.length (QueryExecutor.row_cells widths row)
    = sum_list_with (fun width => width + 3)%nat widths.
Proof.
  induction widths as [| w widths IH]; intros row Hfits; simpl; [reflexivity |].
  rewrite !length_sapp. destruct row as [| v row]; simpl in *.
  - rewrite length_left_setw, IH by (simpl; first [lia | apply fits_nil]). simpl. lia.
  - destruct Hfits as [Hv Hrow]. rewrite length_left_setw, IH by assumption.
    simpl. lia.
Qed.

Lemma header_widths (rows : list Row) (columns : list Column.t) :
  Forall2 (fun column width => (String.length (Column.name column) <= width)%nat)
          columns (QueryExecutor.column_widths rows columns).
Proof.
  unfold QueryExecutor.column_widths.
  set (w0 := List.map (fun column => String.length (Column.name column)) columns).
  assert (H0 : Forall2 (fun column width =>
                          (String.length (Column.name column) <= width)%nat)
                       columns w0).
  { subst w0. induction columns; simpl; constructor; [lia | assumption]. }
  assert (Hle : Forall2 le w0 (List.map (fun width => Nat.max width 10)
                                        (fold_left QueryExecutor.widen rows w0))).
  { eapply Forall2_le_trans; [apply fold_widen_le | apply map_max_le]. }
  revert H0 Hle. generalize (List.map (fun width => Nat.max width 10)
                                      (fold_left QueryExecutor.widen rows w0)).
  generalize w0. clear w0. intros w0 w1 H0. revert w1.
  induction H0 as [| c w columns w0 Hc _ IH]; intros w1 Hle.
  - apply Forall2_nil_inv_l in Hle as ->. constructor.
  - apply Forall2_cons_inv_l in Hle as (w' & w1' & Hw & Hle & ->).
    constructor; [lia | by apply IH].
Qed.

(** X15: the table [format_results] prints is aligned.  Without columns
    the text is the notice.  With columns it is the header line, the
    separator line and the line of every row it is given, in their order
    and each closed by a line feed, then the count of the rows; the lines
    are laid out on the widths computed from the names and the rows: one
    width per column, each at least 10, no column name and no formatted
    value of a given row wider than its column; and the header line, the
    separator line and the line of every given row have the same length. *)
Theorem format_results_aligned (rows : list Row) (columns : list Column.t) :
  (columns = [] ->
   QueryExecutor.format_results rows columns = "No columns defined.") /\
  (columns <> [] ->
   QueryExecutor.format_results rows columns
   = QueryExecutor.header_line columns (QueryExecutor.column_widths rows columns) +:+
     str1 LF +:+
     QueryExecutor.separator_line (QueryExecutor.column_widths rows columns) +:+
     str1 LF +:+
     fold_right
       (fun row rest =>
          QueryExecutor.row_line (QueryExecutor.column_widths rows columns) row +:+
          str1 LF +:+ rest)
       EmptyString rows +:+
     to_string (Z.of_nat (length rows)) +:+ " rows returned.") /\
  length (QueryExecutor.column_widths rows columns) = length columns /\
  Forall (fun width => (10 <= width)%nat) (QueryExecutor.column_widths rows columns) /\
  Forall2 (fun column width => (String.length (Column.name column) <= width)%nat)
          columns (QueryExecutor.column_widths rows columns) /\
  String.length (QueryExecutor.header_line columns
                   (QueryExecutor.column_widths rows columns))
  = String.length (QueryExecutor.separator_line
                     (QueryExecutor.column_widths rows columns)) /\
  forall row, In row rows ->
    Props.fits (QueryExecutor.column_widths rows columns) row /\
    String.length (QueryExecutor.row_line
                     (QueryExecutor.column_widths rows columns) row)
    = String.length (QueryExecutor.separator_line
                       (QueryExecutor.column_widths rows columns)).
Proof.
  pose proof (header_widths rows columns) as Hhead.
  split; [by intros -> |].
  split.
  { intros Hne. unfold QueryExecutor.format_results.
    by rewrite bool_decide_eq_false_2. }
  split; [symmetry; by eapply Forall2_length |].
  split.
  { unfold QueryExecutor.column_widths. apply Forall_forall.
    intros w Hin. apply list_elem_of_In, in_map_iff in Hin as (w' & <- & _). lia. }
  split; [exact Hhead |].
  unfold QueryExecutor.header_line, QueryExecutor.separator_line,
    QueryExecutor.row_line.
  split.
  { rewrite !length_sapp, length_header_cells, length_separator_cells by exact Hhead.
    reflexivity. }
  intros row Hin.
  assert (Hfits : Props.fits (QueryExecutor.column_widths rows columns) row).
  { unfold QueryExecutor.column_widths.
    eapply fits_le; [apply map_max_le | by apply fold_widen_fits]. }
  split; [exact Hfits |].
  rewrite !length_sapp, length_row_cells, length_separator_cells by exact Hfits.
  reflexivity.
Qed.

Lemma format_results_aligned_witness :
  QueryExecutor.format_results
    [[Value.Int 1; Value.Str "Alice"; Value.Bool true]]
    (MetadataManager.get_columns "users" Examples.catalog)
  = "| id         | name       | active     |" +:+ str1 LF +:+
    "+------------+------------+------------+" +:+ str1 LF +:+
    "| 1          | Alice      | true       |" +:+ str1 LF +:+
    "1 rows returned.".
Proof.
  rewrite (proj1 (proj2 (format_results_aligned
                           [[Value.Int 1; Value.Str "Alice"; Value.Bool true]]
                           (MetadataManager.get_columns "users" Examples.catalog))));
    [vm_compute; reflexivity | vm_compute; discriminate].
Defined.

(* ===================================================================== *)
(** ** Executing statements *)
(* ===================================================================== *)

Lemma validate_table_name_cases (table_name : string) (m : MetadataManager.t) :
  MetadataManager.validate_table_name table_name m
  = match MetadataManager.tables m !! table_name with
    | Some _ => Ok tt
    | None => Throw (runtime_error ("Table '" +:+ table_name +:+ "' does not exist"))
    end.
Proof.
  unfold MetadataManager.validate_table_name.
  destruct (MetadataManager.table_exists table_name m) eqn:Hex.
  - apply table_exists_spec in Hex as [schema ->]. reflexivity.
  - destruct (MetadataManager.tables m !! table_name) eqn:Hl; [| reflexivity].
    assert (MetadataManager.table_exists table_name m = true) as Hex'
      by (apply table_exists_spec; eauto).
    congruence.
Qed.

(** X16: a statement that works on a table the catalog does not hold -
    INSERT, SELECT or DROP TABLE - is answered with "Error: Table '...'
    does not exist" and changes nothing: the catalog is as before and no
    data file has been created. *)
Theorem execute_unknown_table (ex : QueryExecutor.t) (table_name : string)
  (statement : Statement) :
  MetadataManager.tables (QueryExecutor.metadata_manager ex) !! table_name = None ->
  Props.uses_table table_name statement ->
  QueryExecutor.execute (Some statement) ex
  = ("Error: Table '" +:+ table_name +:+ "' does not exist", ex).
Proof.
  intros Hnone Huses. unfold QueryExecutor.execute, QueryExecutor.dispatch.
  destruct statement as [n cols | n vs | n | n a c]; simpl in Huses;
    [destruct Huses | subst n ..].
  - unfold QueryExecutor.execute_insert, mbind, gets, lift.
    by rewrite validate_table_name_cases, Hnone.
  - unfold QueryExecutor.execute_drop_table, mbind, gets, lift.
    by rewrite validate_table_name_cases, Hnone.
  - unfold QueryExecutor.execute_select, mbind, gets, lift.
    by rewrite validate_table_name_cases, Hnone.
Qed.

Lemma execute_unknown_table_witness :
  QueryExecutor.execute (Some (InsertStatement "ghost" [Value.Int 1]))
    (QueryExecutor.mk Examples.small_catalog ∅ (fun _ => true))
  = ("Error: Table '" +:+ "ghost" +:+ "' does not exist",
     QueryExecutor.mk Examples.small_catalog ∅ (fun _ => true)).
Proof.
  apply (execute_unknown_table
           (QueryExecutor.mk Examples.small_catalog ∅ (fun _ => true)) "ghost"
           (InsertStatement "ghost" [Value.Int 1])).
  - vm_compute. reflexivity.
  - reflexivity.
Defined.

(** *** Opening a table *)

Lemma new_cases (table_name : string) (mm : MetadataManager.t) (f : File) :
  TableStorage.new table_name mm f
  = match content f with
    | Some _ =>
        Ok (TableStorage.mk table_name
              (MetadataManager.get_table_file_path table_name mm) mm f)
    | None =>
        if writable f then
          Ok (TableStorage.mk table_name
                (MetadataManager.get_table_file_path table_name mm) mm
                (write_file f ("# Table data for " +:+ table_name +:+ str1 LF)))
        else
          Throw (runtime_error
                   ("Cannot create table file: " +:+
                    MetadataManager.get_table_file_path table_name mm))
    end.
Proof.
  unfold TableStorage.new, TableStorage.ensure_table_file. simpl.
  destruct (content f); [reflexivity |]. by destruct (writable f).
Qed.

(** The store the executor opens on a table, and the executor after that. *)
Lemma table_storage_ok_inv (table_name : string) (ex ex' : QueryExecutor.t)
  (ts : TableStorage.t) :
  Props.file_terminated (QueryExecutor.file_at (Props.table_path table_name ex) ex) ->
  QueryExecutor.table_storage table_name ex = (Ok ts, ex') ->
  TableStorage.table_name ts = table_name /\
  TableStorage.metadata_manager ts = QueryExecutor.metadata_manager ex /\
  TableStorage.file_path ts = Props.table_path table_name ex /\
  ex' = QueryExecutor.set_file (Props.table_path table_name ex)
          (TableStorage.file ts) ex /\
  exists old, content (TableStorage.file ts) = Some old /\ Props.terminated old.
Proof.
  intros Hterm. unfold QueryExecutor.table_storage. fold (Props.table_path table_name ex).
  rewrite new_cases.
  destruct (content (QueryExecutor.file_at (Props.table_path table_name ex) ex))
    as [old |] eqn:Hc.
  - intros [= <- <-]. simpl. repeat split. exists old. split; [exact Hc | by apply Hterm].
  - destruct (writable _); [| discriminate]. intros [= <- <-]. simpl. repeat split.
    eexists. split; [reflexivity |]. rewrite <- sapp_assoc. apply terminated_snoc.
Qed.

(** Opening a table whose data file exists changes nothing. *)
Lemma table_storage_existing (table_name : string) (ex : QueryExecutor.t) (f : File)
  (text : string) :
  QueryExecutor.files ex !! Props.table_path table_name ex = Some f ->
  content f = Some text ->
  QueryExecutor.table_storage table_name ex
  = (Ok (TableStorage.mk table_name (Props.table_path table_name ex)
           (QueryExecutor.metadata_manager ex) f), ex).
Proof.
  intros Hf Hc. unfold QueryExecutor.table_storage. fold (Props.table_path table_name ex).
  unfold QueryExecutor.file_at. rewrite Hf. simpl. rewrite new_cases, Hc. f_equal.
  unfold QueryExecutor.set_file. simpl. rewrite insert_id by exact Hf.
  by destruct ex.
Qed.

(** A text that is not an error text comes from a statement that ran. *)
Lemma execute_ok_inv (statement : Statement) (ex ex' : QueryExecutor.t)
  (c : ascii) (text : string) :
  c <> "E"%char ->
  QueryExecutor.execute (Some statement) ex = (String c text, ex') ->
  QueryExecutor.dispatch statement ex = (Ok (String c text), ex').
Proof.
  intros Hc. unfold QueryExecutor.execute.
  destruct (QueryExecutor.dispatch statement ex) as [[text' | e] ex1].
  - by intros [= -> ->].
  - intros [= H _]. congruence.
Qed.

(** What a successful INSERT has done. *)
Lemma execute_insert_ok_inv (table_name : string) (values : list Value.t)
  (ex ex1 : QueryExecutor.t) (text : string) :
  Props.file_terminated (QueryExecutor.file_at (Props.table_path table_name ex) ex) ->
  QueryExecutor.execute_insert table_name values ex = (Ok text, ex1) ->
  exists (ts : TableStorage.t) (old row_data : string) (u : unit),
    is_Some (MetadataManager.tables (QueryExecutor.metadata_manager ex) !! table_name) /\
    QueryExecutor.table_storage table_name ex
    = (Ok ts, QueryExecutor.set_file (Props.table_path table_name ex)
                (TableStorage.file ts) ex) /\
    TableStorage.table_name ts = table_name /\
    TableStorage.metadata_manager ts = QueryExecutor.metadata_manager ex /\
    TableStorage.file_path ts = Props.table_path table_name ex /\
    content (TableStorage.file ts) = Some old /\ Props.terminated old /\
    MetadataManager.validate_insert_values table_name values
      (QueryExecutor.metadata_manager ex) = Ok u /\
    TableStorage.serialize_row values ts = Ok row_data /\
    ex1 = QueryExecutor.set_file (Props.table_path table_name ex)
            (TableStorage.file (Props.appended row_data ts)) ex.
Proof.
  intros Hterm H. unfold QueryExecutor.execute_insert in H.
  unfold mbind at 1, gets at 1 in H. unfold mbind at 1, lift at 1 in H.
  rewrite validate_table_name_cases in H.
  destruct (MetadataManager.tables (QueryExecutor.metadata_manager ex) !! table_name)
    as [schema |] eqn:Hl; [| discriminate H].
  apply mbind_ok_inv in H as (ts & exA & Hopen & H).
  pose proof Hopen as Hopen'.
  apply table_storage_ok_inv in Hopen' as (Hn & Hm & Hp & -> & old & Hold & Hto);
    [| exact Hterm].
  apply mbind_ok_inv in H as (u' & exB & Hins & H).
  injection H as _ <-.
  unfold QueryExecutor.on_table in Hins.
  destruct (TableStorage.insert_row values ts) as [r ts'] eqn:Hrow.
  injection Hins as -> <-.
  destruct u'. apply insert_row_ok_inv in Hrow as (u & row_data & Hv & Hser & _ & ->).
  exists ts, old, row_data, u. rewrite Hn, Hm in Hv.
  repeat split; try assumption; [eauto |].
  unfold QueryExecutor.set_file, Props.appended. simpl. rewrite Hp.
  by rewrite insert_insert_eq.
Qed.

(** X17: after an INSERT that has been answered "1 row inserted", a
    SELECT * on the table prints the rows a SELECT * printed before the
    INSERT followed by the inserted row; only a row whose serialized text
    is empty or starts with # is missing, the scan taking it for a blank
    line or a comment.  The second SELECT leaves the executor's world as it
    is.  The data file, when there is one, ends with a line feed, and
    integers and string lengths are those an [int] holds. *)
Theorem execute_insert_then_select (ex ex1 : QueryExecutor.t) (table_name : string)
  (values : list Value.t) (select_all : bool) :
  Props.file_terminated (QueryExecutor.file_at (Props.table_path table_name ex) ex) ->
  Props.ints_in_range values -> Spec.strings_fit_int values ->
  QueryExecutor.execute (Some (InsertStatement table_name values)) ex
  = ("1 row inserted into '" +:+ table_name +:+ "'.", ex1) ->
  exists (rows : list Row) (row_data : string),
    fst (QueryExecutor.execute (Some (SelectStatement table_name select_all None)) ex)
    = QueryExecutor.format_results rows (Props.columns_in table_name ex) /\
    TableStorage.serialize_values values (Props.columns_in table_name ex) true
      EmptyString = Ok row_data /\
    QueryExecutor.execute (Some (SelectStatement table_name select_all None)) ex1
    = (QueryExecutor.format_results
         (rows ++ if MetadataManager.is_blank_or_comment row_data
                  then [] else [values])
         (Props.columns_in table_name ex), ex1).
Proof.
  intros Hterm Hint Hfit Hexec.
  apply (execute_ok_inv _ _ _ "1" (" row inserted into '" +:+ table_name +:+ "'."))
    in Hexec; [| discriminate]. simpl in Hexec.
  apply execute_insert_ok_inv in Hexec
    as (ts & old & row_data & u & [schema Hl] & Hopen & Hn & Hm & Hp & Hold & Hto
        & Hv & Hser & ->); [| exact Hterm].
  assert (Hinv : Spec.row_invariant (TableStorage.columns_of ts) values).
  { apply (validated_row_invariant values ts u Hint Hfit). by rewrite Hn, Hm. }
  assert (Hcols : TableStorage.columns_of ts = Props.columns_in table_name ex).
  { unfold TableStorage.columns_of, Props.columns_in. by rewrite Hn, Hm. }
  exists (TableStorage.scan (getlines old) [] ts), row_data. split; [| split].
  - unfold QueryExecutor.execute, QueryExecutor.dispatch,
      QueryExecutor.execute_select.
    unfold mbind at 1, gets at 1. unfold mbind at 1, lift at 1.
    rewrite validate_table_name_cases, Hl.
    rewrite (mbind_ok _ _ _ _ _ Hopen). unfold mbind, lift, ret.
    unfold TableStorage.select_all. by rewrite Hold.
  - unfold TableStorage.serialize_row in Hser. rewrite Hcols in Hser.
    by destruct (negb _).
  - set (ex1 := QueryExecutor.set_file (Props.table_path table_name ex)
                  (TableStorage.file (Props.appended row_data ts)) ex).
    assert (Hpath : Props.table_path table_name ex1 = Props.table_path table_name ex)
      by reflexivity.
    assert (Hopen1 : QueryExecutor.table_storage table_name ex1
                     = (Ok (Props.appended row_data ts), ex1)).
    { rewrite (table_storage_existing table_name ex1
                 (TableStorage.file (Props.appended row_data ts))
                 (old +:+ row_data +:+ str1 LF)).
      - unfold Props.appended. simpl. rewrite Hpath, Hn, Hp, Hm. reflexivity.
      - rewrite Hpath. subst ex1. unfold QueryExecutor.set_file. simpl.
        by rewrite lookup_insert_eq.
      - unfold Props.appended. simpl. by rewrite Hold. }
    unfold QueryExecutor.execute, QueryExecutor.dispatch,
      QueryExecutor.execute_select.
    unfold mbind at 1, gets at 1. unfold mbind at 1, lift at 1.
    rewrite validate_table_name_cases.
    change (QueryExecutor.metadata_manager ex1) with (QueryExecutor.metadata_manager ex).
    rewrite Hl. rewrite (mbind_ok _ _ _ _ _ Hopen1). unfold mbind, lift, ret.
    by rewrite (select_all_appended values ts old row_data Hold Hto Hinv Hser).
Qed.
Lemma execute_insert_then_select_witness :
  exists (rows : list Row) (row_data : string),
    fst (QueryExecutor.execute (Some (SelectStatement "users" true None))
           Samples.executor)
    = QueryExecutor.format_results rows (Props.columns_in "users" Samples.executor) /\
    TableStorage.serialize_values [Value.Int 3; Value.Str "Dan"; Value.Bool true]
      (Props.columns_in "users" Samples.executor) true EmptyString = Ok row_data /\
    QueryExecutor.execute (Some (SelectStatement "users" true None))
      (snd (QueryExecutor.execute
              (Some (InsertStatement "users"
                       [Value.Int 3; Value.Str "Dan"; Value.Bool true]))
              Samples.executor))
    = (QueryExecutor.format_results
         (rows ++ if MetadataManager.is_blank_or_comment row_data
                  then [] else [[Value.Int 3; Value.Str "Dan"; Value.Bool true]])
         (Props.columns_in "users" Samples.executor),
       snd (QueryExecutor.execute
              (Some (InsertStatement "users"
                       [Value.Int 3; Value.Str "Dan"; Value.Bool true]))
              Samples.executor)).
Proof.
  apply (execute_insert_then_select Samples.executor _ "users"
           [Value.Int 3; Value.Str "Dan"; Value.Bool true] true).
  - intros text H. vm_compute in H. injection H as <-. right.
    exists ("# Table data for users" +:+ str1 LF +:+ "1|Alice|1" +:+ str1 LF +:+
            "x|Bob|0" +:+ str1 LF +:+ "2|Carol").
    vm_compute. reflexivity.
  - intros i [H | [H | [H | []]]]; try discriminate H.
    injection H as <-. unfold INT_MIN, INT_MAX. lia.
  - intros s [H | [H | [H | []]]]; try discriminate H.
    injection H as <-. vm_compute. discriminate.
  - vm_compute. reflexivity.
Defined.

(** *** Dropping and creating again *)

Lemma drop_table_ok_inv (table_name : string) (m m1 : MetadataManager.t) :
  MetadataManager.drop_table table_name m = (Ok tt, m1) ->
  m1 = Spec.persisted (Props.erased table_name m).
Proof.
  rewrite drop_table_cases.
  destruct (MetadataManager.tables m !! table_name); [| discriminate].
  rewrite save_metadata_cases.
  destruct (writable (MetadataManager.disk (Props.erased table_name m)));
    [| discriminate].
  by intros [= <-].
Qed.

(** X18: when DROP TABLE has succeeded and the table's data file could be
    removed, a table created again under the same name starts empty: a
    SELECT * prints the header and no row.  The table's name holds no line
    feed. *)
Theorem execute_drop_create_select (ex ex1 ex2 : QueryExecutor.t)
  (table_name : string) (columns : list Column.t) (select_all : bool) :
  Props.single_line table_name ->
  QueryExecutor.removable ex (Props.table_path table_name ex) = true ->
  QueryExecutor.execute (Some (DropTableStatement table_name)) ex
  = ("Table '" +:+ table_name +:+ "' dropped successfully.", ex1) ->
  QueryExecutor.execute (Some (CreateTableStatement table_name columns)) ex1
  = ("Table '" +:+ table_name +:+ "' created successfully.", ex2) ->
  fst (QueryExecutor.execute (Some (SelectStatement table_name select_all None)) ex2)
  = QueryExecutor.format_results [] columns.
Proof.
  intros Hname Hrem Hdrop Hcreate.
  apply (execute_ok_inv _ _ _ "T" ("able '" +:+ table_name +:+ "' dropped successfully."))
    in Hdrop; [| discriminate].
  apply (execute_ok_inv _ _ _ "T" ("able '" +:+ table_name +:+ "' created successfully."))
    in Hcreate; [| discriminate].
  simpl in Hdrop, Hcreate.
  (* the drop *)
  unfold QueryExecutor.execute_drop_table in Hdrop.
  unfold mbind at 1, gets at 1 in Hdrop. unfold mbind at 1, lift at 1 in Hdrop.
  destruct (MetadataManager.validate_table_name _ _); [| discriminate Hdrop].
  apply mbind_ok_inv in Hdrop as ([] & exB & Hd & Hret). injection Hret as <-.
  unfold QueryExecutor.drop_table in Hd.
  apply mbind_ok_inv in Hd as ([] & exA & Hcat & Hd).
  unfold QueryExecutor.on_catalog in Hcat.
  destruct (MetadataManager.drop_table table_name (QueryExecutor.metadata_manager ex))
    as [r m1] eqn:Hm1.
  injection Hcat as -> <-. apply drop_table_ok_inv in Hm1 as ->.
  simpl in Hd.
  change (MetadataManager.get_table_file_path table_name
            (Spec.persisted (Props.erased table_name (QueryExecutor.metadata_manager ex))))
    with (Props.table_path table_name ex) in Hd.
  rewrite Hrem in Hd. injection Hd as <-.
  (* the creation *)
  unfold QueryExecutor.execute_create_table in Hcreate.
  apply mbind_ok_inv in Hcreate as ([] & exC & Hcat & Hret). injection Hret as <-.
  unfold QueryExecutor.on_catalog in Hcat. simpl in Hcat.
  match type of Hcat with
  | context [MetadataManager.create_table table_name columns ?m] =>
      destruct (MetadataManager.create_table table_name columns m) as [r m2] eqn:Hm2
  end.
  injection Hcat as -> <-. apply create_table_ok_inv in Hm2 as (_ & _ & ->).
  (* the selection *)
  unfold QueryExecutor.execute, QueryExecutor.dispatch, QueryExecutor.execute_select.
  unfold mbind at 1, gets at 1. unfold mbind at 1, lift at 1.
  rewrite validate_table_name_cases. simpl. rewrite lookup_insert_eq.
  unfold mbind at 1, QueryExecutor.table_storage. simpl.
  unfold QueryExecutor.file_at. simpl.
  match goal with
  | |- context [delete ?k ?m !! ?k'] =>
      change k' with k; rewrite (lookup_delete_eq m k)
  end.
  rewrite new_cases. cbn [default from_option content writable].
  unfold mbind, lift, ret.
  rewrite select_all_header; [| exact Hname | reflexivity].
  unfold MetadataManager.get_columns, MetadataManager.get_table_schema. simpl.
  by rewrite lookup_insert_eq.
Qed.

Lemma execute_drop_create_select_witness :
  fst (QueryExecutor.execute (Some (SelectStatement "users" true None))
         (snd (QueryExecutor.execute
                 (Some (CreateTableStatement "users"
                          [Column.mk "a" DataType.INTEGER 0 false false]))
                 (snd (QueryExecutor.execute (Some (DropTableStatement "users"))
                         Samples.executor)))))
  = QueryExecutor.format_results [] [Column.mk "a" DataType.INTEGER 0 false false].
Proof.
  apply (execute_drop_create_select Samples.executor
           (snd (QueryExecutor.execute (Some (DropTableStatement "users"))
                   Samples.executor))
           (snd (QueryExecutor.execute
                   (Some (CreateTableStatement "users"
                            [Column.mk "a" DataType.INTEGER 0 false false]))
                   (snd (QueryExecutor.execute (Some (DropTableStatement "users"))
                           Samples.executor))))
           "users" [Column.mk "a" DataType.INTEGER 0 false false] true).
  - reflexivity.
  - reflexivity.
  - vm_compute. reflexivity.
  - vm_compute. reflexivity.
Defined.

(* ===================================================================== *)
(** ** What the lexer hands over *)
(* ===================================================================== *)

Lemma next_token_throws (tk : Tokenizer.t) (e : exn) :
  Tokenizer.next_token tk = Throw e ->
  e = runtime_error "Unterminated string literal".
Proof.
  unfold Tokenizer.next_token.
  set (tk3 := Tokenizer.skip_whitespace
                (Tokenizer.skip_comment (Tokenizer.skip_whitespace tk))).
  destruct (Tokenizer.at_end tk3); [discriminate |].
  destruct (Tokenizer.is_alpha (Tokenizer.peek tk3)); [discriminate |].
  destruct (Tokenizer.is_digit (Tokenizer.peek tk3)); [discriminate |].
  destruct (Tokenizer.peek tk3 =? QUOTE)%char; [| destruct (_ || _); discriminate].
  unfold Tokenizer.read_string.
  destruct (Tokenizer.advance tk3) as [c0 tk0].
  destruct (Tokenizer.read_string_loop _ _ _) as [value tk1].
  destruct (Tokenizer.peek tk1 =? QUOTE)%char.
  - destruct (Tokenizer.advance tk1). discriminate.
  - by intros [= <-].
Qed.

Lemma tokenize_loop_throws (fuel : nat) :
  forall (tokens : list Token.t) (tk : Tokenizer.t) (e : exn),
    Tokenizer.tokenize_loop fuel tokens tk = Throw e ->
    e = runtime_error "Unterminated string literal".
Proof.
  induction fuel as [| fuel IH]; intros tokens tk e; simpl; [discriminate |].
  destruct (Tokenizer.next_token tk) as [[tok tk'] |] eqn:Hn; simpl.
  - destruct (TokenType.eqb _ _); [discriminate | apply IH].
  - intros [= <-]. by eapply next_token_throws.
Qed.

Lemma tokenize_loop_count (fuel : nat) :
  forall (tokens result : list Token.t) (tk : Tokenizer.t),
    Tokenizer.tokenize_loop fuel tokens tk = Ok result ->
    (length result <= length tokens + Tokenizer.remaining tk + 1)%nat.
Proof.
  induction fuel as [| fuel IH]; intros tokens result tk; simpl.
  { intros [= <-]. lia. }
  destruct (Tokenizer.next_token tk) as [[tok tk'] |] eqn:Hn; [| discriminate].
  simpl. apply next_token_progress in Hn as [[Hty _] | [Hty Hlt]].
  - rewrite Hty. simpl. intros [= <-]. rewrite length_app. simpl. lia.
  - apply TokenType_eqb_neq in Hty. rewrite Hty. intros H%IH.
    rewrite length_app in H. simpl in H. lia.
Qed.

(** X19: [tokenize] either returns a token sequence that ends with the
    end-of-input token, which occurs nowhere before, and that holds at most
    one token per character of the text besides it, or raises
    "Unterminated string literal"; it raises nothing else. *)
Theorem tokenize_outcome (text : string) :
  match Tokenizer.tokenize text with
  | Ok tokens =>
      exists middle last,
        tokens = middle ++ [last] /\
        Token.type last = TokenType.END_OF_FILE /\
        Forall (fun tok => Token.type tok <> TokenType.END_OF_FILE) middle /\
        (length middle <= String.length text)%nat
  | Throw e => e = runtime_error "Unterminated string literal"
  end.
Proof.
  destruct (Tokenizer.tokenize text) as [tokens | e] eqn:Ht.
  - destruct (tokenize_terminated text tokens Ht) as (middle & last & -> & Hlast & Hmid).
    exists middle, last. repeat split; try assumption.
    unfold Tokenizer.tokenize in Ht. apply tokenize_loop_count in Ht.
    rewrite length_app in Ht. unfold Tokenizer.remaining, Tokenizer.init in Ht.
    simpl in Ht. lia.
  - unfold Tokenizer.tokenize in Ht. by eapply tokenize_loop_throws.
Qed.

(* ===================================================================== *)
(** ** Lexing word by word *)
(* ===================================================================== *)

Lemma alpha_char (c : ascii) :
  Tokenizer.is_alpha c = true ->
  Tokenizer.is_alnum c = true /\ isspace c = false /\ (c =? "-")%char = false.
Proof.
  destruct c as [[] [] [] [] [] [] [] []]; intros H; try discriminate H;
    repeat split.
Qed.

Lemma alnum_char (c : ascii) :
  Tokenizer.is_alnum c = true -> (c =? LF)%char = false /\ (c =? ";")%char = false.
Proof.
  destruct c as [[] [] [] [] [] [] [] []]; intros H; try discriminate H;
    repeat split.
Qed.

Lemma read_while_prefix (s rest : string) :
  forall (fuel : nat) (value : string) (l c : Z),
    Spec.string_forallb Tokenizer.is_alnum s = true -> Props.delimited rest ->
    (String.length s <= fuel)%nat ->
    Tokenizer.read_while Tokenizer.is_alnum fuel value (Tokenizer.mk (s +:+ rest) l c)
    = (value +:+ s, Tokenizer.mk rest l (c + Z.of_nat (String.length s))).
Proof.
  induction s as [| x s IH]; intros fuel value l c Hal Hrest Hfuel.
  - rewrite sapp_nil_l, sapp_nil_r. simpl. rewrite Z.add_0_r.
    destruct fuel as [| fuel]; [reflexivity |]. simpl.
    destruct rest as [| d rest]; [reflexivity |].
    unfold Tokenizer.peek. simpl. simpl in Hrest. by rewrite Hrest.
  - simpl in Hal, Hfuel. apply andb_true_iff in Hal as [Hx Hal].
    destruct (alnum_char x Hx) as [Hlf _].
    destruct fuel as [| fuel]; [lia |].
    rewrite sapp_cons. simpl. unfold Tokenizer.peek, Tokenizer.advance. simpl.
    rewrite Hx, Hlf. rewrite IH by (assumption || lia).
    rewrite sapp_snoc. do 2 f_equal. simpl String.length. lia.
Qed.

Lemma next_token_word (w rest : string) (l c : Z) :
  Props.word w -> Props.delimited rest ->
  Tokenizer.next_token (Tokenizer.mk (w +:+ rest) l c)
  = Ok (Props.word_token w l c,
        Tokenizer.mk rest l (c + Z.of_nat (String.length w))).
Proof.
  intros (x & r & -> & Hx & Hr) Hrest.
  destruct (alpha_char x Hx) as (Hal & Hsp & Hdash).
  set (tk := Tokenizer.mk (String x r +:+ rest) l c).
  unfold Tokenizer.next_token.
  rewrite (skip_whitespace_no_space tk) by exact Hsp.
  rewrite (skip_comment_no_dash tk) by exact Hdash.
  rewrite (skip_whitespace_no_space tk) by exact Hsp.
  change (Tokenizer.at_end tk) with false. cbv iota.
  change (Tokenizer.peek tk) with x. rewrite Hx.
  unfold Tokenizer.read_identifier, Tokenizer.remaining. subst tk.
  cbn [Tokenizer.input Tokenizer.line Tokenizer.column].
  rewrite read_while_prefix; [| simpl; by rewrite Hal, Hr | exact Hrest
                              | rewrite length_sapp; lia].
  rewrite sapp_nil_l. unfold Props.word_token.
  by destruct (Tokenizer.keywords !! map_string toupper (String x r)).
Qed.

Lemma next_token_space (s : string) (l c : Z) :
  Tokenizer.next_token (Tokenizer.mk (String " " s) l c)
  = Tokenizer.next_token (Tokenizer.mk s l (c + 1)).
Proof. reflexivity. Qed.

Lemma next_token_asterisk (rest : string) (l c : Z) :
  Tokenizer.next_token (Tokenizer.mk (String "*" rest) l c)
  = Ok (Token.mk TokenType.ASTERISK "*" l c, Tokenizer.mk rest l (c + 1)).
Proof.
  set (tk := Tokenizer.mk (String "*" rest) l c).
  unfold Tokenizer.next_token.
  rewrite (skip_whitespace_no_space tk) by reflexivity.
  rewrite (skip_comment_no_dash tk) by reflexivity.
  rewrite (skip_whitespace_no_space tk) by reflexivity.
  reflexivity.
Qed.

Lemma keyword_not_end (kw : string) (ty : TokenType.t) :
  Tokenizer.keywords !! kw = Some ty -> ty <> TokenType.END_OF_FILE.
Proof.
  intros Hk ->. apply elem_of_list_to_map_2 in Hk.
  repeat (apply elem_of_cons in Hk as [Heq | Hk]; [discriminate Heq |]).
  by apply elem_of_nil in Hk.
Qed.

Lemma word_token_not_end (w : string) (l c : Z) :
  TokenType.eqb (Token.type (Props.word_token w l c)) TokenType.END_OF_FILE = false.
Proof.
  apply TokenType_eqb_neq. unfold Props.word_token.
  destruct (Tokenizer.keywords !! map_string toupper w) as [ty |] eqn:Hk; simpl.
  - by eapply keyword_not_end.
  - discriminate.
Qed.

Lemma word_token_keyword (w kw : string) (ty : TokenType.t) (l c : Z) :
  Tokenizer.keywords !! kw = Some ty -> Spec.case_variant w kw ->
  Props.word w /\ String.length w = String.length kw /\
  Props.word_token w l c = Token.mk ty kw l c.
Proof.
  intros Hkw Hvar.
  destruct (keyword_spelling kw ty Hkw) as [Hupper Hne].
  destruct (variant_word w kw Hupper Hvar) as (Hal & _ & Hmap & Hlen).
  split; [| split; [exact Hlen |]].
  - destruct kw as [| k kw]; [congruence |].
    destruct w as [| x w]; [discriminate Hlen |].
    exists x, w. simpl in Hupper, Hvar, Hal.
    apply andb_true_iff in Hupper as [Hk _]. destruct Hvar as [Hx _].
    apply andb_true_iff in Hal as [_ Hal].
    destruct (variant_letter x k Hk Hx) as (_ & Halpha & _). auto.
  - unfold Props.word_token. by rewrite Hmap, Hkw.
Qed.

Lemma word_token_identifier (name : string) (l c : Z) :
  Props.identifier name ->
  Props.word_token name l c = Token.mk TokenType.IDENTIFIER name l c.
Proof. intros [_ Hk]. unfold Props.word_token. by rewrite Hk. Qed.

(** One turn of the lexer's loop. *)
Lemma tokenize_loop_step (fuel : nat) (tokens : list Token.t) (tk tk' : Tokenizer.t)
  (tok : Token.t) :
  Tokenizer.next_token tk = Ok (tok, tk') ->
  TokenType.eqb (Token.type tok) TokenType.END_OF_FILE = false ->
  Tokenizer.tokenize_loop (S fuel) tokens tk
  = Tokenizer.tokenize_loop fuel (tokens ++ [tok]) tk'.
Proof. intros Hn Hty. simpl. rewrite Hn. simpl. by rewrite Hty. Qed.

Lemma tokenize_loop_end (fuel : nat) (tokens : list Token.t) (l c : Z) :
  Tokenizer.tokenize_loop (S fuel) tokens (Tokenizer.mk EmptyString l c)
  = Ok (tokens ++ [Token.mk TokenType.END_OF_FILE EmptyString l c]).
Proof. reflexivity. Qed.

(* ===================================================================== *)
(** ** From the command line to the executor *)
(* ===================================================================== *)

(** The loop of [tokenize], with the fuel it is started with. *)
Lemma tokenize_from_step (tokens : list Token.t) (tk tk' : Tokenizer.t) (tok : Token.t) :
  Tokenizer.next_token tk = Ok (tok, tk') ->
  TokenType.eqb (Token.type tok) TokenType.END_OF_FILE = false ->
  Tokenizer.tokenize_loop (S (Tokenizer.remaining tk)) tokens tk
  = Tokenizer.tokenize_loop (S (Tokenizer.remaining tk')) (tokens ++ [tok]) tk'.
Proof.
  intros Hn Hty. rewrite (tokenize_loop_step _ _ _ _ _ Hn Hty).
  apply next_token_progress in Hn as [[Heof _] | [_ Hlt]].
  - apply TokenType_eqb_neq in Hty. contradiction.
  - apply tokenize_loop_fuel; lia.
Qed.

Lemma tokenize_loop_next (fuel : nat) (tokens : list Token.t) (tk1 tk2 : Tokenizer.t) :
  Tokenizer.next_token tk1 = Tokenizer.next_token tk2 ->
  Tokenizer.tokenize_loop (S fuel) tokens tk1
  = Tokenizer.tokenize_loop (S fuel) tokens tk2.
Proof. intros H. simpl. by rewrite H. Qed.

Lemma tokenize_from_space (tokens : list Token.t) (s : string) (l c : Z) :
  Tokenizer.tokenize_loop (S (Tokenizer.remaining (Tokenizer.mk (String " " s) l c)))
    tokens (Tokenizer.mk (String " " s) l c)
  = Tokenizer.tokenize_loop (S (Tokenizer.remaining (Tokenizer.mk s l (c + 1))))
      tokens (Tokenizer.mk s l (c + 1)).
Proof.
  rewrite (tokenize_loop_next _ _ _ (Tokenizer.mk s l (c + 1)))
    by apply next_token_space.
  apply tokenize_loop_fuel; unfold Tokenizer.remaining; simpl; lia.
Qed.

Lemma tokenize_from_word (tokens : list Token.t) (w rest : string) (l c : Z) :
  Props.word w -> Props.delimited rest ->
  Tokenizer.tokenize_loop
    (S (Tokenizer.remaining (Tokenizer.mk (w +:+ rest) l c))) tokens
    (Tokenizer.mk (w +:+ rest) l c)
  = Tokenizer.tokenize_loop
      (S (Tokenizer.remaining
            (Tokenizer.mk rest l (c + Z.of_nat (String.length w)))))
      (tokens ++ [Props.word_token w l c])
      (Tokenizer.mk rest l (c + Z.of_nat (String.length w))).
Proof.
  intros Hw Hrest. apply tokenize_from_step.
  - by apply next_token_word.
  - apply word_token_not_end.
Qed.

Lemma delimited_space (s : string) : Props.delimited (String " " s).
Proof. reflexivity. Qed.

(** The last word of a command, with the blank [read_command] may leave
    behind it. *)
Lemma tokenize_from_last_word (tokens : list Token.t) (w tail : string) (l c : Z) :
  Props.word w -> tail = EmptyString \/ tail = " " ->
  exists c' : Z,
    Tokenizer.tokenize_loop (S (Tokenizer.remaining (Tokenizer.mk (w +:+ tail) l c)))
      tokens (Tokenizer.mk (w +:+ tail) l c)
    = Ok (tokens ++ [Props.word_token w l c;
                     Token.mk TokenType.END_OF_FILE EmptyString l c']).
Proof.
  intros Hw [-> | ->].
  - rewrite (tokenize_from_word tokens w EmptyString l c Hw I), tokenize_loop_end.
    rewrite <- app_assoc. by eexists.
  - rewrite (tokenize_from_word tokens w " " l c Hw (delimited_space _)).
    rewrite tokenize_from_space, tokenize_loop_end. rewrite <- app_assoc. by eexists.
Qed.

(** The tokens of DROP TABLE name. *)
Lemma tokenize_drop_table (d t name tail : string) :
  Spec.case_variant d "DROP" -> Spec.case_variant t "TABLE" ->
  Props.identifier name -> tail = EmptyString \/ tail = " " ->
  exists c2 c3 c4 : Z,
    Tokenizer.tokenize (d +:+ " " +:+ t +:+ " " +:+ name +:+ tail)
    = Ok [Token.mk TokenType.DROP "DROP" 1 1; Token.mk TokenType.TABLE "TABLE" 1 c2;
          Token.mk TokenType.IDENTIFIER name 1 c3;
          Token.mk TokenType.END_OF_FILE EmptyString 1 c4].
Proof.
  intros Hd Ht Hname Htail.
  destruct (word_token_keyword d "DROP" TokenType.DROP 1 1 eq_refl Hd)
    as (Hwd & _ & Htd).
  pose proof (fun c => word_token_keyword t "TABLE" TokenType.TABLE 1 c eq_refl Ht)
    as Hwt.
  pose proof Hname as [Hwn _].
  unfold Tokenizer.tokenize.
  change (String.length (d +:+ " " +:+ t +:+ " " +:+ name +:+ tail))
    with (Tokenizer.remaining
            (Tokenizer.init (d +:+ " " +:+ t +:+ " " +:+ name +:+ tail))).
  unfold Tokenizer.init.
  change (d +:+ " " +:+ t +:+ " " +:+ name +:+ tail)
    with (d +:+ String " " (t +:+ String " " (name +:+ tail))).
  rewrite (tokenize_from_word _ d _ _ _ Hwd (delimited_space _)).
  rewrite tokenize_from_space.
  rewrite (tokenize_from_word _ t _ _ _ (proj1 (Hwt 0)) (delimited_space _)).
  rewrite tokenize_from_space.
  destruct (tokenize_from_last_word
              ([] ++ [Props.word_token d 1 1] ++
               [Props.word_token t 1 (1 + Z.of_nat (String.length d) + 1)])
              name tail 1
              (1 + Z.of_nat (String.length d) + 1 + Z.of_nat (String.length t) + 1)
              Hwn Htail) as [c4 Hlast].
  rewrite <- app_assoc. rewrite Hlast. simpl app.
  rewrite Htd, (word_token_identifier name _ _ Hname), (proj2 (proj2 (Hwt _))).
  eexists _, _, _. reflexivity.
Qed.

(** The tokens of SELECT * FROM name. *)
Lemma tokenize_select_all (s f name tail : string) :
  Spec.case_variant s "SELECT" -> Spec.case_variant f "FROM" ->
  Props.identifier name -> tail = EmptyString \/ tail = " " ->
  exists c2 c3 c4 c5 : Z,
    Tokenizer.tokenize (s +:+ " * " +:+ f +:+ " " +:+ name +:+ tail)
    = Ok [Token.mk TokenType.SELECT "SELECT" 1 1; Token.mk TokenType.ASTERISK "*" 1 c2;
          Token.mk TokenType.FROM "FROM" 1 c3;
          Token.mk TokenType.IDENTIFIER name 1 c4;
          Token.mk TokenType.END_OF_FILE EmptyString 1 c5].
Proof.
  intros Hs Hf Hname Htail.
  destruct (word_token_keyword s "SELECT" TokenType.SELECT 1 1 eq_refl Hs)
    as (Hws & _ & Hts).
  pose proof (fun c => word_token_keyword f "FROM" TokenType.FROM 1 c eq_refl Hf)
    as Hwf.
  pose proof Hname as [Hwn _].
  unfold Tokenizer.tokenize.
  change (String.length (s +:+ " * " +:+ f +:+ " " +:+ name +:+ tail))
    with (Tokenizer.remaining
            (Tokenizer.init (s +:+ " * " +:+ f +:+ " " +:+ name +:+ tail))).
  unfold Tokenizer.init.
  change (s +:+ " * " +:+ f +:+ " " +:+ name +:+ tail)
    with (s +:+ String " " (String "*" (String " " (f +:+ String " " (name +:+ tail))))).
  rewrite (tokenize_from_word _ s _ _ _ Hws (delimited_space _)).
  rewrite tokenize_from_space.
  rewrite (tokenize_from_step _ _ _ _ (next_token_asterisk _ _ _) eq_refl).
  rewrite tokenize_from_space.
  rewrite (tokenize_from_word _ f _ _ _ (proj1 (Hwf 0)) (delimited_space _)).
  rewrite tokenize_from_space.
  match goal with
  | |- context [Tokenizer.tokenize_loop _ ?tokens (Tokenizer.mk _ ?l ?c)] =>
      destruct (tokenize_from_last_word tokens name tail l c Hwn Htail) as [c5 Hlast]
  end.
  rewrite Hlast. simpl app.
  rewrite Hts, (word_token_identifier name _ _ Hname), (proj2 (proj2 (Hwf _))).
  eexists _, _, _, _. reflexivity.
Qed.

(** *** The optional semicolon *)

Lemma pop_semicolon_cons (c c' : ascii) (sql : string) :
  SQLShell.pop_semicolon (String c (String c' sql))
  = String c (SQLShell.pop_semicolon (String c' sql)).
Proof. reflexivity. Qed.

Lemma pop_semicolon_snoc (sql : string) : SQLShell.pop_semicolon (sql +:+ ";") = sql.
Proof.
  induction sql as [| c sql IH]; [reflexivity |].
  rewrite sapp_cons. destruct sql as [| c' sql]; [reflexivity |].
  rewrite sapp_cons in *. by rewrite pop_semicolon_cons, IH.
Qed.

Lemma word_alnum (w : string) :
  Props.word w -> w <> EmptyString /\ Spec.string_forallb Tokenizer.is_alnum w = true.
Proof.
  intros (c & r & -> & Hc & Hr). split; [discriminate |]. simpl.
  destruct (alpha_char c Hc) as (-> & _). exact Hr.
Qed.

Lemma pop_semicolon_last (sql : string) (c : ascii) :
  (c =? ";")%char = false -> SQLShell.pop_semicolon (sql +:+ str1 c) = sql +:+ str1 c.
Proof.
  intros Hc. induction sql as [| x sql IH].
  - simpl. by rewrite Hc.
  - rewrite sapp_cons. destruct (sql +:+ str1 c) as [| c' r] eqn:Hs.
    + by destruct sql.
    + by rewrite pop_semicolon_cons, IH.
Qed.

(* ===================================================================== *)
(** ** Trimming a line *)
(* ===================================================================== *)

Lemma sapp_eq_split (a : string) :
  forall b x y : string,
    a +:+ x = b +:+ y ->
    (exists m, b = a +:+ m /\ x = m +:+ y) \/ (exists m, a = b +:+ m /\ y = m +:+ x).
Proof.
  induction a as [| c a IH]; intros b x y H.
  - left. exists b. by rewrite !sapp_nil_l in *.
  - destruct b as [| c' b].
    + right. exists (String c a). by rewrite !sapp_nil_l in *.
    + rewrite !sapp_cons in H. injection H as <- H.
      destruct (IH b x y H) as [(m & -> & ->) | (m & -> & ->)];
        [left | right]; exists m; by rewrite sapp_cons.
Qed.

Lemma all_blank_app (a b : string) :
  Props.all_blank (a +:+ b) <-> Props.all_blank a /\ Props.all_blank b.
Proof. unfold Props.all_blank. rewrite string_forallb_app. apply andb_true_iff. Qed.

Lemma all_blank_cons (c : ascii) (s : string) :
  Props.all_blank (String c s) <-> SQLShell.is_blank c = true /\ Props.all_blank s.
Proof. unfold Props.all_blank. simpl. apply andb_true_iff. Qed.

Lemma find_first_not_of_spec (str : string) :
  forall i : nat,
    match SQLShell.find_first_not_of str i with
    | None => Props.all_blank str
    | Some j =>
        exists pre c r,
          str = pre +:+ String c r /\ Props.all_blank pre /\
          SQLShell.is_blank c = false /\ j = (i + String.length pre)%nat
    end.
Proof.
  induction str as [| x str IH]; intros i; simpl; [reflexivity |].
  destruct (SQLShell.is_blank x) eqn:Hx.
  - specialize (IH (S i)). destruct (SQLShell.find_first_not_of str (S i)) as [j |].
    + destruct IH as (pre & c & r & -> & Hpre & Hc & ->).
      exists (String x pre), c, r. rewrite sapp_cons. repeat split; try assumption.
      * by apply all_blank_cons.
      * simpl. lia.
    + by apply all_blank_cons.
  - exists EmptyString, x, str. rewrite sapp_nil_l. repeat split; try assumption.
    simpl. lia.
Qed.

Lemma find_last_not_of_spec (str : string) :
  forall i : nat,
    match SQLShell.find_last_not_of str i with
    | None => Props.all_blank str
    | Some j =>
        exists body c post,
          str = body +:+ String c post /\ Props.all_blank post /\
          SQLShell.is_blank c = false /\ j = (i + String.length body)%nat
    end.
Proof.
  induction str as [| x str IH]; intros i; simpl; [reflexivity |].
  specialize (IH (S i)). destruct (SQLShell.find_last_not_of str (S i)) as [j |].
  - destruct IH as (body & c & post & -> & Hpost & Hc & ->).
    exists (String x body), c, post. rewrite sapp_cons. repeat split; try assumption.
    simpl. lia.
  - destruct (SQLShell.is_blank x) eqn:Hx.
    + by apply all_blank_cons.
    + exists EmptyString, x, str. rewrite sapp_nil_l. repeat split; try assumption.
      simpl. lia.
Qed.

Lemma substring_prefix (b c : string) :
  substring 0 (String.length b) (b +:+ c) = b.
Proof.
  induction b as [| x b IH]; [by destruct c |].
  rewrite sapp_cons. simpl. by rewrite IH.
Qed.

Lemma substring_middle (a b c : string) :
  substring (String.length a) (String.length b) (a +:+ b +:+ c) = b.
Proof.
  induction a as [| x a IH]; [exact (substring_prefix b c) |].
  rewrite sapp_cons. simpl. exact IH.
Qed.

(** Behind blanks, the last character of a text is a blank. *)
Lemma blank_tail (a post r : string) (d : ascii) :
  a +:+ post = r +:+ str1 d -> post <> EmptyString -> Props.all_blank post ->
  SQLShell.is_blank d = true.
Proof.
  intros H Hne Hpost. symmetry in H. unfold str1 in H.
  apply sapp_eq_split in H as [(k & Hk & Hk') | (k & Hk & Hk')].
  - destruct k as [| z k].
    + rewrite sapp_nil_l in Hk'. subst post. by apply all_blank_cons in Hpost as [? _].
    + rewrite sapp_cons in Hk'. injection Hk' as _ Hk'.
      apply (f_equal String.length) in Hk'. rewrite length_sapp in Hk'.
      destruct post; [congruence | simpl in Hk'; lia].
  - subst post. apply all_blank_app in Hpost as [_ Hpost].
    by apply all_blank_cons in Hpost as [? _].
Qed.

(** The two indices of [trim] on a text that is not all blank. *)
Lemma trim_indices (str : string) (start : nat) :
  SQLShell.find_first_not_of str 0 = Some start ->
  exists (pre m post : string) (c d : ascii),
    str = pre +:+ (m +:+ str1 d) +:+ post /\
    Props.all_blank pre /\ Props.all_blank post /\
    SQLShell.is_blank c = false /\ SQLShell.is_blank d = false /\
    (exists r, m +:+ str1 d = String c r) /\
    start = String.length pre /\
    SQLShell.find_last_not_of str 0 = Some (String.length pre + String.length m)%nat.
Proof.
  intros Hfirst. pose proof (find_first_not_of_spec str 0) as H1.
  rewrite Hfirst in H1. destruct H1 as (pre & c & r & Hstr & Hpre & Hc & Hstart).
  pose proof (find_last_not_of_spec str 0) as H2.
  destruct (SQLShell.find_last_not_of str 0) as [j |].
  2:{ rewrite Hstr in H2. apply all_blank_app in H2 as [_ H2].
      apply all_blank_cons in H2 as [H2 _]. congruence. }
  destruct H2 as (body & d & post & Hstr' & Hpost & Hd & Hj).
  assert (Hsplit : exists m, body = pre +:+ m /\ String c r = m +:+ String d post).
  { rewrite Hstr in Hstr'. apply sapp_eq_split in Hstr' as [Hl | (m & Hp & Hm)];
      [exact Hl |].
    destruct m as [| x m].
    - exists EmptyString. rewrite sapp_nil_r in Hp. rewrite sapp_nil_l in *.
      rewrite sapp_nil_r. by subst body.
    - rewrite sapp_cons in Hm. injection Hm as <- _. rewrite Hp in Hpre.
      apply all_blank_app in Hpre as [_ Hpre].
      apply all_blank_cons in Hpre as [Hpre _]. congruence. }
  destruct Hsplit as (m & -> & Hm).
  exists pre, m, post, c, d. repeat split; try assumption.
  - rewrite Hstr, Hm. by rewrite !sapp_assoc.
  - destruct m as [| x m].
    + rewrite sapp_nil_l in *. injection Hm as -> _. by exists EmptyString.
    + rewrite sapp_cons in *. injection Hm as -> _. by eexists.
  - rewrite Hj, length_sapp. reflexivity.
Qed.

Lemma trim_all_blank (str : string) :
  SQLShell.find_first_not_of str 0 = None ->
  SQLShell.trim str = EmptyString /\ Props.all_blank str.
Proof.
  intros H. unfold SQLShell.trim. rewrite H. split; [reflexivity |].
  pose proof (find_first_not_of_spec str 0) as H1. by rewrite H in H1.
Qed.

Lemma trim_middle (str : string) (start : nat) :
  SQLShell.find_first_not_of str 0 = Some start ->
  exists (pre m post : string) (c d : ascii),
    str = pre +:+ (m +:+ str1 d) +:+ post /\
    Props.all_blank pre /\ Props.all_blank post /\
    SQLShell.is_blank c = false /\ SQLShell.is_blank d = false /\
    (exists r, m +:+ str1 d = String c r) /\
    SQLShell.trim str = m +:+ str1 d.
Proof.
  intros Hfirst.
  destruct (trim_indices str start Hfirst)
    as (pre & m & post & c & d & Hstr & Hpre & Hpost & Hc & Hd & Hhead & -> & Hlast).
  exists pre, m, post, c, d. repeat split; try assumption.
  unfold SQLShell.trim. rewrite Hfirst, Hlast.
  replace (String.length pre + String.length m - String.length pre + 1)%nat
    with (String.length (m +:+ str1 d)) by (rewrite length_sapp; simpl; lia).
  rewrite Hstr at 1. apply substring_middle.
Qed.

(** X21: [trim] cuts a line down to what lies between its leading and its
    trailing blanks - spaces, tabs, line feeds and carriage returns: the
    line is blanks, the trimmed text, blanks; the trimmed text is empty or
    starts and ends with a character that is no blank; and trimming a
    trimmed text changes nothing. *)
Theorem trim_spec (str : string) :
  (exists pre post,
     str = pre +:+ SQLShell.trim str +:+ post /\
     Props.all_blank pre /\ Props.all_blank post) /\
  Props.tight (SQLShell.trim str) /\
  SQLShell.trim (SQLShell.trim str) = SQLShell.trim str.
Proof.
  assert (Htight : forall s, Props.tight s -> SQLShell.trim s = s).
  { intros s [-> | [(c & r & Hs & Hc) (r' & d & Hs' & Hd)]]; [reflexivity |].
    assert (Hfirst : SQLShell.find_first_not_of s 0 = Some 0%nat).
    { rewrite Hs. simpl. by rewrite Hc. }
    destruct (trim_middle s 0 Hfirst)
      as (pre & m & post & c1 & d1 & Hstr & Hpre & Hpost & _ & Hd1 & _ & ->).
    destruct pre as [| x pre].
    2:{ rewrite Hs, sapp_cons in Hstr. injection Hstr as -> _.
        apply all_blank_cons in Hpre as [Hpre _]. congruence. }
    rewrite sapp_nil_l in Hstr. destruct post as [| y post].
    { by rewrite sapp_nil_r in Hstr. }
    exfalso. rewrite Hs' in Hstr. symmetry in Hstr.
    apply blank_tail in Hstr; [congruence | discriminate | exact Hpost]. }
  assert (Hshape : (exists pre post,
                      str = pre +:+ SQLShell.trim str +:+ post /\
                      Props.all_blank pre /\ Props.all_blank post) /\
                   Props.tight (SQLShell.trim str)).
  { destruct (SQLShell.find_first_not_of str 0) as [start |] eqn:Hfirst.
    - destruct (trim_middle str start Hfirst)
        as (pre & m & post & c & d & Hstr & Hpre & Hpost & Hc & Hd & [r Hhead] & Htrim).
      rewrite Htrim. split; [by exists pre, post |].
      right. split; [exists c, r | exists m, d]; auto.
    - destruct (trim_all_blank str Hfirst) as [-> Hall].
      split; [| by left]. exists str, EmptyString.
      rewrite sapp_nil_l, sapp_nil_r. split; [reflexivity |].
      split; [exact Hall | reflexivity]. }
  destruct Hshape as [Hparts Ht]. split; [exact Hparts |]. split; [exact Ht |].
  by apply Htight.
Qed.

(* ===================================================================== *)
(** ** String literals *)
(* ===================================================================== *)

Lemma read_string_loop_plain (s rest : string) :
  forall (fuel : nat) (value : string) (l c : Z),
    Props.plain s -> (String.length s <= fuel)%nat ->
    exists l' c' : Z,
      Tokenizer.read_string_loop fuel value
        (Tokenizer.mk (s +:+ String QUOTE rest) l c)
      = (value +:+ s, Tokenizer.mk (String QUOTE rest) l' c').
Proof.
  unfold Props.plain.
  induction s as [| x s IH]; intros fuel value l c Hs Hfuel.
  - rewrite sapp_nil_l, sapp_nil_r. exists l, c. by destruct fuel.
  - simpl in Hs, Hfuel. apply andb_true_iff in Hs as [Hx Hs].
    apply andb_true_iff in Hx as [Hx Hnul]. apply andb_true_iff in Hx as [Hq Hb].
    apply negb_true_iff in Hq, Hb, Hnul.
    destruct fuel as [| fuel]; [lia |].
    rewrite sapp_cons. simpl. unfold Tokenizer.peek, Tokenizer.advance. simpl.
    rewrite Hq, Hnul, Hb. simpl.
    destruct (x =? LF)%char;
      [destruct (IH fuel (value +:+ str1 x) (l + 1) 1 Hs ltac:(lia)) as (l' & c' & ->)
      | destruct (IH fuel (value +:+ str1 x) l (c + 1) Hs ltac:(lia)) as (l' & c' & ->)];
      exists l', c'; by rewrite sapp_snoc.
Qed.

Lemma read_string_loop_quote_free (fuel : nat) :
  forall (value : string) (tk : Tokenizer.t),
    Props.quote_free (Tokenizer.input tk) ->
    Props.quote_free
      (Tokenizer.input (snd (Tokenizer.read_string_loop fuel value tk))).
Proof.
  assert (Hadv : forall tk, Props.quote_free (Tokenizer.input tk) ->
                   Props.quote_free (Tokenizer.input (snd (Tokenizer.advance tk)))).
  { intros [[| x s] l c]; unfold Tokenizer.advance, Props.quote_free; simpl;
      [auto |].
    intros [_ Hs]%andb_true_iff. by destruct (x =? LF)%char. }
  induction fuel as [| fuel IH]; intros value tk Htk; simpl; [exact Htk |].
  destruct (negb (Tokenizer.peek tk =? QUOTE)%char
            && negb (Tokenizer.peek tk =? NUL)%char); [| exact Htk].
  destruct (Tokenizer.peek tk =? BACKSLASH)%char.
  - pose proof (Hadv tk Htk) as H1.
    destruct (Tokenizer.advance tk) as [x tk1]. simpl in H1.
    pose proof (Hadv tk1 H1) as H2.
    destruct (Tokenizer.advance tk1) as [y tk2]. simpl in H2. by apply IH.
  - pose proof (Hadv tk Htk) as H1.
    destruct (Tokenizer.advance tk) as [x tk1]. simpl in H1. by apply IH.
Qed.

Lemma quote_free_peek (tk : Tokenizer.t) :
  Props.quote_free (Tokenizer.input tk) -> (Tokenizer.peek tk =? QUOTE)%char = false.
Proof.
  destruct tk as [[| x s] l c]; unfold Props.quote_free, Tokenizer.peek; simpl;
    [reflexivity |].
  intros [Hx _]%andb_true_iff. by apply negb_true_iff in Hx.
Qed.

(** A token that starts with a quote is read by [read_string]. *)
Lemma next_token_quote (s : string) (l c : Z) :
  Tokenizer.next_token (Tokenizer.mk (String QUOTE s) l c)
  = Tokenizer.read_string (Tokenizer.mk (String QUOTE s) l c).
Proof.
  set (tk := Tokenizer.mk (String QUOTE s) l c).
  unfold Tokenizer.next_token.
  rewrite (skip_whitespace_no_space tk) by reflexivity.
  rewrite (skip_comment_no_dash tk) by reflexivity.
  rewrite (skip_whitespace_no_space tk) by reflexivity.
  reflexivity.
Qed.

(** X22: a string literal is the text between two quotes: when that text
    holds no quote, no backslash and no NUL character, the lexer hands it
    over unchanged, line feeds included, as one STRING_LITERAL token
    followed by the end-of-input token.  An opening quote after which no
    quote comes makes [tokenize] raise "Unterminated string literal". *)
Theorem tokenize_string_literal (s : string) :
  (Props.plain s ->
   exists l c : Z,
     Tokenizer.tokenize (String QUOTE (s +:+ str1 QUOTE))
     = Ok [Token.mk TokenType.STRING_LITERAL s 1 1;
           Token.mk TokenType.END_OF_FILE EmptyString l c]) /\
  (Props.quote_free s ->
   Tokenizer.tokenize (String QUOTE s)
   = Throw (runtime_error "Unterminated string literal")).
Proof.
  split.
  - intros Hs. unfold Tokenizer.tokenize.
    change (String.length (String QUOTE (s +:+ str1 QUOTE)))
      with (Tokenizer.remaining
              (Tokenizer.init (String QUOTE (s +:+ str1 QUOTE)))).
    unfold Tokenizer.init.
    destruct (read_string_loop_plain s EmptyString
                (String.length (s +:+ str1 QUOTE)) EmptyString 1 (1 + 1) Hs)
      as (l' & c' & Hloop).
    { rewrite length_sapp. lia. }
    assert (Hnext : Tokenizer.next_token
                      (Tokenizer.mk (String QUOTE (s +:+ str1 QUOTE)) 1 1)
                    = Ok (Token.mk TokenType.STRING_LITERAL s 1 1,
                          Tokenizer.mk EmptyString l' (c' + 1))).
    { rewrite next_token_quote. unfold Tokenizer.read_string.
      cbn [Tokenizer.advance Tokenizer.input Tokenizer.line Tokenizer.column].
      change (QUOTE =? LF)%char with false. cbv iota.
      unfold Tokenizer.remaining. cbn [Tokenizer.input].
      unfold str1 in *. rewrite Hloop. rewrite sapp_nil_l. reflexivity. }
    rewrite (tokenize_from_step _ _ _ _ Hnext eq_refl), tokenize_loop_end.
    eexists _, _. reflexivity.
  - intros Hs. unfold Tokenizer.tokenize, Tokenizer.init.
    cbn [Tokenizer.tokenize_loop]. rewrite next_token_quote.
    unfold Tokenizer.read_string.
    cbn [Tokenizer.advance Tokenizer.input Tokenizer.line Tokenizer.column].
    change (QUOTE =? LF)%char with false. cbv iota.
    pose proof (read_string_loop_quote_free
                  (Tokenizer.remaining (Tokenizer.mk s 1 (1 + 1))) EmptyString
                  (Tokenizer.mk s 1 (1 + 1)) Hs) as Hfree.
    destruct (Tokenizer.read_string_loop _ _ _) as [value tk1].
    simpl in Hfree. by rewrite (quote_free_peek tk1 Hfree).
Qed.

Lemma tokenize_string_literal_witness :
  (exists l c : Z,
     Tokenizer.tokenize (String QUOTE ("it is" +:+ str1 QUOTE))
     = Ok [Token.mk TokenType.STRING_LITERAL "it is" 1 1;
           Token.mk TokenType.END_OF_FILE EmptyString l c]) /\
  Tokenizer.tokenize (String QUOTE "it is")
  = Throw (runtime_error "Unterminated string literal").
Proof.
  split.
  - apply (proj1 (tokenize_string_literal "it is")). reflexivity.
  - apply (proj2 (tokenize_string_literal "it is")). reflexivity.
Defined.

(* ===================================================================== *)
(** ** The text of a token *)
(* ===================================================================== *)

(** What [read_while] appends satisfies the predicate. *)
Lemma read_while_chars (pred : ascii -> bool) (fuel : nat) :
  forall (value : string) (tk : Tokenizer.t),
    pred NUL = false ->
    exists s,
      fst (Tokenizer.read_while pred fuel value tk) = value +:+ s /\
      Spec.string_forallb pred s = true.
Proof.
  induction fuel as [| fuel IH]; intros value tk Hnul; simpl.
  { exists EmptyString. by rewrite sapp_nil_r. }
  destruct (pred (Tokenizer.peek tk)) eqn:Hp.
  2:{ exists EmptyString. by rewrite sapp_nil_r. }
  assert (Hadv : fst (Tokenizer.advance tk) = Tokenizer.peek tk).
  { unfold Tokenizer.advance, Tokenizer.peek.
    destruct (Tokenizer.input tk) as [| x r]; [reflexivity |].
    by destruct (x =? LF)%char. }
  destruct (Tokenizer.advance tk) as [x tk1]. simpl in Hadv. subst x.
  destruct (IH (value +:+ str1 (Tokenizer.peek tk)) tk1 Hnul) as (s & -> & Hs).
  exists (String (Tokenizer.peek tk) s). rewrite sapp_snoc. split; [reflexivity |].
  simpl. by rewrite Hp, Hs.
Qed.

(** A run that starts on a character of the predicate is not empty. *)
Lemma read_while_head (pred : ascii -> bool) (tk : Tokenizer.t) :
  pred NUL = false -> pred (Tokenizer.peek tk) = true ->
  exists r,
    fst (Tokenizer.read_while pred (Tokenizer.remaining tk) EmptyString tk)
    = String (Tokenizer.peek tk) r /\
    Spec.string_forallb pred r = true.
Proof.
  intros Hnul Hp. unfold Tokenizer.remaining.
  destruct (Tokenizer.input tk) as [| x s] eqn:Hin.
  { unfold Tokenizer.peek in Hp. rewrite Hin in Hp. congruence. }
  simpl. rewrite Hp.
  assert (Hadv : fst (Tokenizer.advance tk) = Tokenizer.peek tk).
  { unfold Tokenizer.advance, Tokenizer.peek. rewrite Hin.
    by destruct (x =? LF)%char. }
  destruct (Tokenizer.advance tk) as [y tk1]. simpl in Hadv. subst y.
  destruct (read_while_chars pred (String.length s)
              (EmptyString +:+ str1 (Tokenizer.peek tk)) tk1 Hnul) as (r & -> & Hr).
  exists r. split; [reflexivity | exact Hr].
Qed.

Lemma stoi_digits (s : string) :
  s <> EmptyString -> Spec.string_forallb isdigit s = true ->
  (exists i, stoi s = Ok i) \/ stoi s = Throw (out_of_range "stoi").
Proof.
  destruct s as [| x s]; [congruence |]. intros _ Hs. simpl in Hs.
  apply andb_true_iff in Hs as [Hx _].
  assert (Hsp : isspace x = false /\ (x =? "-")%char = false /\ (x =? "+")%char = false).
  { destruct x as [[] [] [] [] [] [] [] []]; try discriminate Hx; repeat split. }
  destruct Hsp as (Hsp & Hm & Hp).
  unfold stoi. simpl. rewrite Hsp, Hm, Hp. simpl. rewrite Hx.
  destruct (in_int_range _); eauto.
Qed.

(** The types the keyword table hands out. *)
Lemma keyword_type (kw : string) (ty : TokenType.t) :
  Tokenizer.keywords !! kw = Some ty ->
  ty <> TokenType.IDENTIFIER /\ ty <> TokenType.INTEGER_LITERAL /\
  ty <> TokenType.STRING_LITERAL /\ ty <> TokenType.END_OF_FILE /\
  ty <> TokenType.UNKNOWN /\ ty <> TokenType.EQUALS /\ ty <> TokenType.NOT_EQUALS /\
  ty <> TokenType.LESS_THAN /\ ty <> TokenType.GREATER_THAN /\
  ty <> TokenType.LESS_EQUAL /\ ty <> TokenType.GREATER_EQUAL /\
  ty <> TokenType.SEMICOLON /\ ty <> TokenType.COMMA /\
  ty <> TokenType.LEFT_PAREN /\ ty <> TokenType.RIGHT_PAREN /\
  ty <> TokenType.ASTERISK.
Proof.
  intros Hk. apply elem_of_list_to_map_2 in Hk.
  repeat (apply elem_of_cons in Hk as [[= -> ->] | Hk];
          [repeat split; discriminate |]).
  by apply elem_of_nil in Hk.
Qed.

(** A token of a type the keyword table never hands out. *)
Lemma token_wf_other (tok : Token.t) :
  Token.type tok <> TokenType.IDENTIFIER ->
  Token.type tok <> TokenType.INTEGER_LITERAL ->
  (forall kw, Tokenizer.keywords !! kw <> Some (Token.type tok)) ->
  Props.token_wf tok.
Proof.
  intros Hid Hint Hkw. split; [contradiction |]. split; [contradiction |].
  intros kw Hk. by apply Hkw in Hk.
Qed.

Ltac no_keyword :=
  let kw := fresh "kw" in
  let Hk := fresh "Hk" in
  intros kw Hk; apply keyword_type in Hk; simpl in Hk; tauto.

Lemma read_identifier_wf (tk : Tokenizer.t) :
  Tokenizer.is_alpha (Tokenizer.peek tk) = true ->
  Props.token_wf (fst (Tokenizer.read_identifier tk)).
Proof.
  intros Ha. unfold Tokenizer.read_identifier.
  destruct (alpha_char _ Ha) as (Hal & _ & _).
  destruct (read_while_head Tokenizer.is_alnum tk eq_refl Hal) as (r & Hv & Hr).
  destruct (Tokenizer.read_while Tokenizer.is_alnum (Tokenizer.remaining tk)
              EmptyString tk) as [value tk'].
  simpl in Hv. subst value.
  destruct (Tokenizer.keywords !! map_string toupper (String (Tokenizer.peek tk) r))
    as [ty |] eqn:Hk; simpl.
  - destruct (keyword_type _ _ Hk) as (Hid & Hint & _).
    split; [contradiction |]. split; [contradiction |]. intros _ _. exact Hk.
  - apply (conj (fun _ => conj (ex_intro _ _ (ex_intro _ r
                    (conj eq_refl (conj Ha Hr)))) Hk)).
    split; [discriminate |]. intros kw Hkw. apply keyword_type in Hkw. tauto.
Qed.

Lemma read_number_wf (tk : Tokenizer.t) :
  Tokenizer.is_digit (Tokenizer.peek tk) = true ->
  Props.token_wf (fst (Tokenizer.read_number tk)).
Proof.
  intros Hd. unfold Tokenizer.read_number.
  destruct (read_while_head Tokenizer.is_digit tk eq_refl Hd) as (r & Hv & Hr).
  destruct (Tokenizer.read_while Tokenizer.is_digit (Tokenizer.remaining tk)
              EmptyString tk) as [value tk'].
  simpl in Hv. subst value. simpl.
  assert (Hall : Spec.string_forallb isdigit (String (Tokenizer.peek tk) r) = true).
  { simpl. unfold Tokenizer.is_digit in Hd. rewrite Hd. exact Hr. }
  split; [discriminate |]. split.
  - intros _. split; [discriminate |]. split; [exact Hall |].
    by apply stoi_digits.
  - intros kw Hkw. apply keyword_type in Hkw. simpl in Hkw. tauto.
Qed.

Lemma next_token_wf (tk tk' : Tokenizer.t) (tok : Token.t) :
  Tokenizer.next_token tk = Ok (tok, tk') -> Props.token_wf tok.
Proof.
  unfold Tokenizer.next_token.
  set (tk3 := Tokenizer.skip_whitespace
                (Tokenizer.skip_comment (Tokenizer.skip_whitespace tk))).
  destruct (Tokenizer.at_end tk3).
  { intros [= <- _]. apply token_wf_other; simpl; try discriminate. no_keyword. }
  destruct (Tokenizer.is_alpha (Tokenizer.peek tk3)) eqn:Ha.
  { intros [= H]. pose proof (read_identifier_wf tk3 Ha) as Hwf.
    by rewrite H in Hwf. }
  destruct (Tokenizer.is_digit (Tokenizer.peek tk3)) eqn:Hd.
  { intros [= H]. pose proof (read_number_wf tk3 Hd) as Hwf.
    by rewrite H in Hwf. }
  destruct (Tokenizer.peek tk3 =? QUOTE)%char.
  { unfold Tokenizer.read_string.
    destruct (Tokenizer.advance tk3) as [c0 tk0].
    destruct (Tokenizer.read_string_loop _ _ _) as [value tk1].
    destruct (Tokenizer.peek tk1 =? QUOTE)%char; [| discriminate].
    destruct (Tokenizer.advance tk1) as [c2 tk2]. intros [= <- _].
    apply token_wf_other; simpl; try discriminate. no_keyword. }
  destruct (_ || _).
  { unfold Tokenizer.read_operator.
    destruct (Tokenizer.advance tk3) as [c0 tk0].
    intros [= H].
    repeat match type of H with
           | context [if ?b then _ else _] => destruct b
           end;
      injection H as <- _; apply token_wf_other; simpl; try discriminate; no_keyword. }
  intros [= <- _].
  repeat match goal with
         | |- context [if ?b then _ else _] => destruct b
         end;
    apply token_wf_other; simpl; try discriminate; no_keyword.
Qed.

Lemma tokenize_loop_wf (fuel : nat) :
  forall (tokens result : list Token.t) (tk : Tokenizer.t),
    Forall Props.token_wf tokens ->
    Tokenizer.tokenize_loop fuel tokens tk = Ok result ->
    Forall Props.token_wf result.
Proof.
  induction fuel as [| fuel IH]; intros tokens result tk Htokens; simpl.
  { by intros [= <-]. }
  destruct (Tokenizer.next_token tk) as [[tok tk'] |] eqn:Hn; [| discriminate].
  simpl. apply next_token_wf in Hn.
  assert (Hall : Forall Props.token_wf (tokens ++ [tok])).
  { apply Forall_app. split; [exact Htokens | by constructor]. }
  destruct (TokenType.eqb _ _); [by intros [= <-] | by apply IH].
Qed.

(** X23: the text of every token [tokenize] returns fits its type: an
    IDENTIFIER is a word - a letter or underscore, then letters, digits and
    underscores - that is no keyword in any letter case; an
    INTEGER_LITERAL is a non-empty run of digits, so that [std::stoi]
    reads it or finds it out of range but never finds it malformed; and a
    keyword token carries the upper-case spelling of its keyword. *)
Theorem tokenize_tokens_wf (text : string) (tokens : list Token.t) :
  Tokenizer.tokenize text = Ok tokens -> Forall Props.token_wf tokens.
Proof. unfold Tokenizer.tokenize. apply tokenize_loop_wf. constructor. Qed.

Lemma tokenize_tokens_wf_witness :
  Forall Props.token_wf
    [Token.mk TokenType.CREATE "CREATE" 1 1; Token.mk TokenType.TABLE "TABLE" 1 8;
     Token.mk TokenType.IDENTIFIER "t" 1 14; Token.mk TokenType.LEFT_PAREN "(" 1 16;
     Token.mk TokenType.RIGHT_PAREN ")" 1 17;
     Token.mk TokenType.END_OF_FILE EmptyString 1 18].
Proof.
  apply (tokenize_tokens_wf "CREATE TABLE t ()"). reflexivity.
Defined.

(* ===================================================================== *)
(** ** Tables that survive a restart *)
(* ===================================================================== *)

(** A durable catalog, once saved, is what a restart loads. *)
Lemma durable_restart (m : MetadataManager.t) :
  Props.durable (MetadataManager.tables m) ->
  MetadataManager.load_metadata
    (Spec.fresh (Spec.persisted m) (MetadataManager.disk (Spec.persisted m)))
  = (Ok tt,
     MetadataManager.set_tables (fun _ => MetadataManager.tables m)
       (Spec.fresh (Spec.persisted m) (MetadataManager.disk (Spec.persisted m)))).
Proof.
  intros (Hnames & Hrep & Hid).
  unfold MetadataManager.load_metadata, Spec.fresh, Spec.persisted.
  cbn [MetadataManager.disk MetadataManager.set_disk content write_file
       MetadataManager.tables MetadataManager.data_directory
       MetadataManager.metadata_file].
  rewrite (load_rendered_metadata (MetadataManager.tables m)
             (map_to_list (MetadataManager.tables m))) by done.
  by rewrite Hid.
Qed.

Lemma durable_insert (tables : gmap string TableSchema.t) (table_name : string)
  (columns : list Column.t) :
  Props.durable tables -> Spec.valid_name table_name ->
  Forall Props.storable_column columns ->
  Z.of_nat (length columns) <= INT_MAX ->
  Props.durable (<[table_name := TableSchema.mk table_name columns]> tables).
Proof.
  intros (Hnames & Hrep & Hid) Hname Hcols Hlen. split; [| split].
  - intros k s Hk. destruct (decide (k = table_name)) as [-> | Hne].
    + rewrite lookup_insert_eq in Hk. injection Hk as <-. split; [exact Hname |].
      simpl. eapply Forall_impl; [exact Hcols |]. by intros c (? & _).
    + rewrite lookup_insert_ne in Hk by congruence. by apply Hnames.
  - intros k s Hk. destruct (decide (k = table_name)) as [-> | Hne].
    + rewrite lookup_insert_eq in Hk. injection Hk as <-.
      split; [reflexivity |]. split; [exact Hlen |].
      simpl. eapply Forall_impl; [exact Hcols |]. by intros c (_ & _ & ?).
    + rewrite lookup_insert_ne in Hk by congruence. by apply Hrep.
  - rewrite fmap_insert, Hid. f_equal. unfold Spec.reloaded_schema. simpl. f_equal.
    clear Hlen. induction Hcols as [| c columns (_ & Hc & _) _ IH]; [reflexivity |].
    simpl. by rewrite Hc, IH.
Qed.

Lemma durable_delete (tables : gmap string TableSchema.t) (table_name : string) :
  Props.durable tables -> Props.durable (delete table_name tables).
Proof.
  intros (Hnames & Hrep & Hid). split; [| split].
  - intros k s [_ Hk]%lookup_delete_Some. by apply (Hnames k s).
  - intros k s [_ Hk]%lookup_delete_Some. by apply (Hrep k s).
  - by rewrite fmap_delete, Hid.
Qed.

(** X24: tables are durable.  Take a catalog the metadata file gives back
    as it is - names without ':' and line feed, lengths and column counts
    an [int] holds, length 0 for the columns that are not VARCHAR.  After a
    successful [create_table] of a table with such a name and such columns,
    and after a successful [drop_table], the catalog is again of that kind,
    and a restart - a fresh catalog that loads the metadata file - finds
    exactly the registry the call has left. *)
Theorem create_and_drop_are_durable (m m1 : MetadataManager.t) :
  Props.durable (MetadataManager.tables m) ->
  (forall table_name columns,
     Spec.valid_name table_name -> Forall Props.storable_column columns ->
     Z.of_nat (length columns) <= INT_MAX ->
     MetadataManager.create_table table_name columns m = (Ok tt, m1) ->
     Props.durable (MetadataManager.tables m1) /\
     MetadataManager.tables (Props.restarted m1) = MetadataManager.tables m1) /\
  (forall table_name,
     MetadataManager.drop_table table_name m = (Ok tt, m1) ->
     Props.durable (MetadataManager.tables m1) /\
     MetadataManager.tables (Props.restarted m1) = MetadataManager.tables m1).
Proof.
  intros Hdur. split.
  - intros table_name columns Hname Hcols Hlen (_ & _ & ->)%create_table_ok_inv.
    assert (Hnew : Props.durable
                     (MetadataManager.tables (Spec.registered table_name columns m))).
    { by apply durable_insert. }
    split; [exact Hnew |]. unfold Props.restarted.
    by rewrite (durable_restart _ Hnew).
  - intros table_name ->%drop_table_ok_inv.
    assert (Hnew : Props.durable
                     (MetadataManager.tables (Props.erased table_name m))).
    { by apply durable_delete. }
    split; [exact Hnew |]. unfold Props.restarted.
    by rewrite (durable_restart _ Hnew).
Qed.

Lemma create_and_drop_are_durable_witness :
  Props.durable
    (MetadataManager.tables
       (Spec.persisted
          (Spec.registered "u" [Column.mk "a" DataType.INTEGER 0 false false]
             Examples.small_catalog))) /\
  MetadataManager.tables
    (Props.restarted
       (Spec.persisted
          (Spec.registered "u" [Column.mk "a" DataType.INTEGER 0 false false]
             Examples.small_catalog)))
  = MetadataManager.tables
      (Spec.persisted
         (Spec.registered "u" [Column.mk "a" DataType.INTEGER 0 false false]
            Examples.small_catalog)).
Proof.
  assert (Hdur : Props.durable (MetadataManager.tables Examples.small_catalog)).
  { change (MetadataManager.tables Examples.small_catalog)
      with ({["t" := TableSchema.mk "t" [Column.mk "s" DataType.VARCHAR 5 true false]]}
            : gmap string TableSchema.t).
    split; [| split].
    - intros k schema Hk. apply lookup_singleton_Some in Hk as [<- <-].
      split; [reflexivity |]. repeat constructor.
    - intros k schema Hk. apply lookup_singleton_Some in Hk as [<- <-].
      split; [reflexivity |]. split; [vm_compute; discriminate |].
      repeat constructor; vm_compute; discriminate.
    - rewrite map_fmap_singleton. reflexivity. }
  apply (proj1 (create_and_drop_are_durable Examples.small_catalog
                  (Spec.persisted
                     (Spec.registered "u" [Column.mk "a" DataType.INTEGER 0 false false]
                        Examples.small_catalog)) Hdur)
           "u" [Column.mk "a" DataType.INTEGER 0 false false]).
  - reflexivity.
  - repeat constructor; vm_compute; discriminate.
  - vm_compute. discriminate.
  - vm_compute. reflexivity.
Defined.

(* ===================================================================== *)
(** ** The values the row store compares *)
(* ===================================================================== *)






(* ===================================================================== *)
(** ** From the prompt to the executor *)
(* ===================================================================== *)

Lemma length_map_string (f : ascii -> ascii) (s : string) :
  String.length (map_string f s) = String.length s.
Proof. induction s as [| c s IH]; simpl; [reflexivity | by rewrite IH]. Qed.

Lemma length_pop_semicolon (sql : string) :
  (String.length sql <= S (String.length (SQLShell.pop_semicolon sql)))%nat.
Proof.
  induction sql as [| c sql IH]; [simpl; lia |].
  destruct sql as [| c' sql].
  - simpl. destruct (c =? ";")%char; simpl; lia.
  - rewrite pop_semicolon_cons. simpl in *. lia.
Qed.

(** A text is no meta command when it does not start with a backslash and
    is longer than the meta commands are. *)
Lemma is_meta_command_long (c : ascii) (r : string) :
  (c =? BACKSLASH)%char = false -> (6 <= String.length r)%nat ->
  SQLShell.is_meta_command (String c r) = false.
Proof.
  intros Hc Hlen. unfold SQLShell.is_meta_command. rewrite Hc.
  set (lower_input := SQLShell.pop_semicolon (map_string tolower (String c r))).
  assert (Hpop : (7 <= S (String.length lower_input))%nat).
  { pose proof (length_pop_semicolon (map_string tolower (String c r))) as Hpop.
    rewrite length_map_string in Hpop. subst lower_input.
    change (String.length (String c r)) with (S (String.length r)) in Hpop. lia. }
  assert (Hne : forall k : string,
            (String.length k <= 5)%nat -> (lower_input =? k)%string = false).
  { intros k Hk. apply String.eqb_neq. intros Heq. rewrite Heq in Hpop. lia. }
  rewrite !Hne by (simpl; lia). reflexivity.
Qed.

Lemma back_snoc (a : string) (c : ascii) : SQLShell.back (a +:+ str1 c) = Some c.
Proof.
  induction a as [| x a IH]; [reflexivity |].
  rewrite sapp_cons. destruct (a +:+ str1 c) as [| y r] eqn:Hs.
  - by destruct a.
  - exact IH.
Qed.

Lemma string_last (p : ascii -> bool) (s : string) :
  s <> EmptyString -> Spec.string_forallb p s = true ->
  exists r d, s = r +:+ str1 d /\ p d = true.
Proof.
  induction s as [| c s IH]; [congruence |]. intros _ Hp. simpl in Hp.
  apply andb_true_iff in Hp as [Hc Hs]. destruct s as [| c' s].
  - by exists EmptyString, c.
  - destruct IH as (r & d & Hr & Hd); [discriminate | exact Hs |].
    exists (String c r), d. by rewrite sapp_cons, <- Hr.
Qed.

Lemma alpha_not_backslash (c : ascii) :
  Tokenizer.is_alpha c = true -> (c =? BACKSLASH)%char = false.
Proof.
  destruct c as [[] [] [] [] [] [] [] []]; intros H; try discriminate H; reflexivity.
Qed.

(** The shape of a spelled command: it starts with a letter, ends with a
    letter, a digit or an underscore, and is longer than a meta command. *)
Lemma spells_shape (text : string) (statement : Statement) (name : string) :
  Props.identifier name -> Props.spells text statement name ->
  (exists c r, text = String c r /\ Tokenizer.is_alpha c = true /\
               (6 <= String.length r)%nat) /\
  (exists init d, text = init +:+ str1 d /\ Tokenizer.is_alnum d = true).
Proof.
  intros [Hword _] Hsp.
  destruct (word_alnum name Hword) as [Hne Hal].
  destruct (string_last _ name Hne Hal) as (r & d & Hname & Hd).
  assert (Hhead : forall w kw ty tail,
            Tokenizer.keywords !! kw = Some ty -> Spec.case_variant w kw ->
            exists c r', w +:+ tail = String c r' /\ Tokenizer.is_alpha c = true /\
                         (String.length kw + String.length tail
                          <= S (String.length r'))%nat).
  { intros w kw ty tail Hkw Hvar.
    destruct (word_token_keyword w kw ty 1 1 Hkw Hvar) as ((c & r' & -> & Hc & _) & Hl & _).
    exists c, (r' +:+ tail). rewrite sapp_cons. split; [reflexivity |].
    split; [exact Hc |]. rewrite length_sapp. simpl in Hl. lia. }
  destruct Hsp as [(dw & t & Hd' & Ht & -> & _) | (s & f & Hs & Hf & -> & _)].
  - split.
    + destruct (Hhead dw "DROP" TokenType.DROP (" " +:+ t +:+ " " +:+ name)
                  eq_refl Hd') as (c & r' & -> & Hc & Hl).
      exists c, r'. split; [reflexivity |]. split; [exact Hc |].
      destruct (word_token_keyword t "TABLE" TokenType.TABLE 1 1 eq_refl Ht)
        as (_ & Hlt & _).
      rewrite !length_sapp in Hl. simpl in Hl, Hlt. lia.
    + exists (dw +:+ " " +:+ t +:+ " " +:+ r), d. split; [| exact Hd].
      rewrite Hname. by rewrite !sapp_assoc.
  - split.
    + destruct (Hhead s "SELECT" TokenType.SELECT (" * " +:+ f +:+ " " +:+ name)
                  eq_refl Hs) as (c & r' & -> & Hc & Hl).
      exists c, r'. split; [reflexivity |]. split; [exact Hc |].
      destruct (word_token_keyword f "FROM" TokenType.FROM 1 1 eq_refl Hf)
        as (_ & Hlf & _).
      rewrite !length_sapp in Hl. simpl in Hl, Hlf. lia.
    + exists (s +:+ " * " +:+ f +:+ " " +:+ r), d. split; [| exact Hd].
      rewrite Hname. by rewrite !sapp_assoc.
Qed.

(** What [process_sql_command] makes of a spelled command, closed by the
    semicolon or by the blank [read_command] puts behind an open line. *)
Lemma process_spelled_command (text : string) (statement : Statement) (name : string)
  (ex : QueryExecutor.t) :
  Props.identifier name -> Props.spells text statement name ->
  SQLShell.process_sql_command (text +:+ ";") ex
  = QueryExecutor.execute (Some statement) ex /\
  SQLShell.process_sql_command (text +:+ " ") ex
  = QueryExecutor.execute (Some statement) ex.
Proof.
  intros Hname Hsp.
  assert (Hpop : SQLShell.pop_semicolon (text +:+ " ") = text +:+ " ")
    by (by apply (pop_semicolon_last text " ")).
  unfold SQLShell.process_sql_command. rewrite pop_semicolon_snoc, Hpop.
  destruct Hsp as [(d & t & Hd & Ht & -> & ->) | (s & f & Hs & Hf & -> & ->)].
  - destruct (tokenize_drop_table d t name EmptyString Hd Ht Hname (or_introl eq_refl))
      as (c2 & c3 & c4 & Htok).
    destruct (tokenize_drop_table d t name " " Hd Ht Hname (or_intror eq_refl))
      as (b2 & b3 & b4 & Htok').
    rewrite sapp_nil_r in Htok. rewrite !sapp_assoc. rewrite Htok, Htok'.
    split; reflexivity.
  - destruct (tokenize_select_all s f name EmptyString Hs Hf Hname (or_introl eq_refl))
      as (c2 & c3 & c4 & c5 & Htok).
    destruct (tokenize_select_all s f name " " Hs Hf Hname (or_intror eq_refl))
      as (b2 & b3 & b4 & b5 & Htok').
    rewrite sapp_nil_r in Htok. rewrite !sapp_assoc. rewrite Htok, Htok'.
    split; reflexivity.
Qed.
(** X20: DROP TABLE name and SELECT * FROM name at the prompt - the
    keywords in any mix of upper and lower case, the words one space apart,
    the name a word that is no keyword.  Typed on one line and closed by a
    semicolon, with blanks around or not, the command is handed over by
    [read_command] as it stands; typed without the semicolon and followed
    by an empty line, it is handed over with a blank behind it, after the
    continuation prompt; typed without the semicolon on the last line of
    the input, it is dropped and the shell stops.  What is handed over is
    no meta command, and [process_sql_command] executes it as the DROP
    TABLE statement, respectively the SELECT statement without condition,
    on the table of that very name, letter case kept. *)
Theorem read_command_drop_and_select (text : string) (statement : Statement)
  (name : string) (ex : QueryExecutor.t) :
  Props.identifier name -> Props.spells text statement name ->
  (forall line rest con,
     SQLShell.trim line = text +:+ ";" -> SQLShell.cin con = line :: rest ->
     SQLShell.read_command con
     = (text +:+ ";",
        SQLShell.mkConsole (SQLShell.running con) rest (SQLShell.cout con))) /\
  (forall line blank rest con,
     SQLShell.trim line = text -> SQLShell.trim blank = EmptyString ->
     SQLShell.cin con = line :: blank :: rest ->
     SQLShell.read_command con
     = (text +:+ " ",
        SQLShell.mkConsole (SQLShell.running con) rest
          (SQLShell.cout con +:+ "    -> "))) /\
  (forall line con,
     SQLShell.trim line = text -> SQLShell.cin con = [line] ->
     SQLShell.read_command con
     = (EmptyString, SQLShell.mkConsole false [] (SQLShell.cout con +:+ "    -> "))) /\
  SQLShell.is_meta_command (text +:+ ";") = false /\
  SQLShell.is_meta_command (text +:+ " ") = false /\
  SQLShell.process_sql_command (text +:+ ";") ex
  = QueryExecutor.execute (Some statement) ex /\
  SQLShell.process_sql_command (text +:+ " ") ex
  = QueryExecutor.execute (Some statement) ex.
Proof.
  intros Hname Hsp.
  destruct (spells_shape text statement name Hname Hsp)
    as [(c & r & Htext & Hc & Hlen) (init & d & Hlast & Hd)].
  pose proof (alpha_not_backslash c Hc) as Hbs.
  destruct (alnum_char d Hd) as [_ Hsemi].
  assert (Hopen : SQLShell.is_complete text = false).
  { unfold SQLShell.is_complete.
    assert (Hback : SQLShell.back text = Some d) by (rewrite Hlast; apply back_snoc).
    rewrite Hback, Htext. cbn [SQLShell.front SQLShell.is_char]. rewrite Hsemi, Hbs.
    assert (Hne : forall k : string,
              (String.length k <= 5)%nat -> (String c r =? k)%string = false).
    { intros k Hk. apply String.eqb_neq. intros Heq.
      apply (f_equal String.length) in Heq. simpl in Heq. lia. }
    rewrite !Hne by (simpl; lia). reflexivity. }
  assert (Hclosed : SQLShell.is_complete (text +:+ ";") = true).
  { unfold SQLShell.is_complete.
    change (text +:+ ";") with (text +:+ str1 ";"). by rewrite back_snoc. }
  assert (Hfull : SQLShell.empty text = false) by (by rewrite Htext).
  assert (Hfull' : SQLShell.empty (text +:+ ";") = false) by (by rewrite Htext).
  split; [| split; [| split]].
  - intros line rest con Hline Hcin. unfold SQLShell.read_command. rewrite Hcin.
    cbn [SQLShell.read_command_loop]. by rewrite Hline, Hfull', Hclosed, sapp_nil_l.
  - intros line blank rest con Hline Hblank Hcin. unfold SQLShell.read_command.
    rewrite Hcin. cbn [SQLShell.read_command_loop].
    rewrite Hline, Hfull, Hopen, Hblank, sapp_nil_l.
    cbn [SQLShell.empty]. by rewrite Htext.
  - intros line con Hline Hcin. unfold SQLShell.read_command. rewrite Hcin.
    cbn [SQLShell.read_command_loop]. by rewrite Hline, Hfull, Hopen.
  - split; [| split].
    + rewrite Htext, sapp_cons. apply is_meta_command_long; [exact Hbs |].
      rewrite length_sapp. lia.
    + rewrite Htext, sapp_cons. apply is_meta_command_long; [exact Hbs |].
      rewrite length_sapp. lia.
    + by apply (process_spelled_command text statement name).
Qed.

Lemma read_command_drop_and_select_witness :
  SQLShell.read_command
    (SQLShell.mkConsole true ["  drop table users; "; "select * from users"] "sqldb> ")
  = ("drop table users;",
     SQLShell.mkConsole true ["select * from users"] "sqldb> ") /\
  SQLShell.process_sql_command "drop table users;" Samples.executor
  = QueryExecutor.execute (Some (DropTableStatement "users")) Samples.executor.
Proof.
  assert (Hname : Props.identifier "users").
  { split; [| vm_compute; reflexivity]. exists "u"%char, "sers". repeat split. }
  assert (Hsp : Props.spells "drop table users" (DropTableStatement "users") "users").
  { left. exists "drop", "table". vm_compute. repeat split; auto. }
  pose proof (read_command_drop_and_select "drop table users"
                (DropTableStatement "users") "users" Samples.executor Hname Hsp)
    as (Hread & _ & _ & _ & _ & Hrun & _).
  split; [| exact Hrun].
  apply (Hread "  drop table users; " ["select * from users"]
           (SQLShell.mkConsole true ["  drop table users; "; "select * from users"]
              "sqldb> ")).
  - vm_compute. reflexivity.
  - reflexivity.
Defined.
